(** * ZPP compiler and interpreter: a shallow embedding

    The pipeline of the ZPP toolchain (lexer, recursive-descent parser,
    semantic analyzer, IR generator, IR interpreter and the driver of
    [main.cpp]) transcribed into Gallina, followed by the properties that
    were checked against it.

    Conventions.
    - [std::string] is [string]; [char] is [ascii].
    - [int] is [Z]; the values that arise stay inside the 32-bit range.
    - An operation whose behaviour C++ leaves undefined (an index past
      the end of a vector, the use of a deleted object, an [int] result
      or a conversion to [int] that does not fit) has the outcome
      [SUndefined], or [None] for a conversion.
    - [std::map] / [std::unordered_map] with string keys are [gmap string _].
    - C++ exceptions are values of [Exn]; a function that can throw returns
      a sum or a result type.
    - scoped enums ([enum class]) live in modules of the same name. *)

From Stdlib Require Import ZArith Ascii String List Lia.
From Corelib Require Import SpecFloat.
From stdpp Require Import base tactics option list strings gmap pretty.

Local Open Scope Z_scope.

(** ** Characters *)

Definition NUL : ascii := "000"%char.
Definition code (c : ascii) : N := N_of_ascii c.

Definition ascii_eqb (a b : ascii) : bool := bool_decide (a = b).

(** [<cctype>] classification in the "C" locale. *)
Definition isdigit (c : ascii) : bool := ((48 <=? code c) && (code c <=? 57))%N.
Definition isalpha (c : ascii) : bool :=
  (((65 <=? code c) && (code c <=? 90)) || ((97 <=? code c) && (code c <=? 122)))%N.
Definition isalnum (c : ascii) : bool := isalpha c || isdigit c.
Definition isspace (c : ascii) : bool :=
  (((9 <=? code c) && (code c <=? 13)) || (code c =? 32))%N.

Definition string_eqb (a b : string) : bool := bool_decide (a = b).

Fixpoint string_mem (c : ascii) (s : string) : bool :=
  match s with
  | EmptyString => false
  | String d r => ascii_eqb c d || string_mem c r
  end.

(** ** Tokens (lexer.h) *)

Module TokenType.
Inductive t : Set :=
(* literals *)
| INTEGER | FLOAT | STRING | IDENTIFIER | TRUE_LIT | FALSE_LIT | ARRAY
(* keywords *)
| IF | ELIF | ELSE | WHILE | FOR | RETURN | PRINT | INT | FLOAT_KW | BOOL
| VOID | LET | INPUT | KEY_PRESSED | SCREEN | DRAW_PIXEL | DRAW_RECT
| DRAW_LINE | DRAW_CIRCLE | CLEAR_SCREEN | DISPLAY | QUIT | IS_KEY_DOWN
| UPDATE_INPUT
(* operators *)
| PLUS | MINUS | STAR | SLASH | PERCENT | ASSIGN | EQUAL | NOT_EQUAL | LESS
| GREATER | LESS_EQUAL | GREATER_EQUAL | AND | OR | NOT
(* delimiters *)
| LPAREN | RPAREN | LBRACE | RBRACE | LBRACKET | RBRACKET | SEMICOLON
| COMMA | DOT | COLON
(* special *)
| NEWLINE | END_OF_FILE | UNKNOWN.

#[global] Instance eq_dec : EqDecision t.
Proof. solve_decision. Defined.

Definition eqb (a b : t) : bool := bool_decide (a = b).

(** The numeric value of the enumerator, as [(int)tok.type] prints it. *)
Definition to_int (x : t) : Z :=
  match x with
  | INTEGER => 0 | FLOAT => 1 | STRING => 2 | IDENTIFIER => 3 | TRUE_LIT => 4
  | FALSE_LIT => 5 | ARRAY => 6 | IF => 7 | ELIF => 8 | ELSE => 9 | WHILE => 10
  | FOR => 11 | RETURN => 12 | PRINT => 13 | INT => 14 | FLOAT_KW => 15
  | BOOL => 16 | VOID => 17 | LET => 18 | INPUT => 19 | KEY_PRESSED => 20
  | SCREEN => 21 | DRAW_PIXEL => 22 | DRAW_RECT => 23 | DRAW_LINE => 24
  | DRAW_CIRCLE => 25 | CLEAR_SCREEN => 26 | DISPLAY => 27 | QUIT => 28
  | IS_KEY_DOWN => 29 | UPDATE_INPUT => 30 | PLUS => 31 | MINUS => 32
  | STAR => 33 | SLASH => 34 | PERCENT => 35 | ASSIGN => 36 | EQUAL => 37
  | NOT_EQUAL => 38 | LESS => 39 | GREATER => 40 | LESS_EQUAL => 41
  | GREATER_EQUAL => 42 | AND => 43 | OR => 44 | NOT => 45 | LPAREN => 46
  | RPAREN => 47 | LBRACE => 48 | RBRACE => 49 | LBRACKET => 50
  | RBRACKET => 51 | SEMICOLON => 52 | COMMA => 53 | DOT => 54 | COLON => 55
  | NEWLINE => 56 | END_OF_FILE => 57 | UNKNOWN => 58
  end.
End TokenType.

Record Token : Set := mkToken {
  tok_type : TokenType.t;
  tok_value : string;
  tok_line : Z;
  tok_column : Z
}.

(** ** Lexer (lexer.cpp)

    The pair ([source], [position]) is represented by the unread suffix
    [rest] = [source.substr(position)]: the lexer only ever reads at
    [position] and [position + 1] and moves forward. *)

Definition keywords : list (string * TokenType.t) :=
  [ ("if", TokenType.IF); ("elif", TokenType.ELIF); ("else", TokenType.ELSE);
    ("while", TokenType.WHILE); ("for", TokenType.FOR);
    ("return", TokenType.RETURN); ("print", TokenType.PRINT);
    ("int", TokenType.INT); ("float", TokenType.FLOAT_KW);
    ("bool", TokenType.BOOL); ("void", TokenType.VOID);
    ("true", TokenType.TRUE_LIT); ("false", TokenType.FALSE_LIT);
    ("let", TokenType.LET); ("input", TokenType.INPUT);
    ("key_pressed", TokenType.KEY_PRESSED); ("screen", TokenType.SCREEN);
    ("drawPixel", TokenType.DRAW_PIXEL); ("drawRect", TokenType.DRAW_RECT);
    ("drawLine", TokenType.DRAW_LINE); ("drawCircle", TokenType.DRAW_CIRCLE);
    ("clearScreen", TokenType.CLEAR_SCREEN); ("display", TokenType.DISPLAY);
    ("quit", TokenType.QUIT); ("isKeyDown", TokenType.IS_KEY_DOWN);
    ("updateInput", TokenType.UPDATE_INPUT) ].

Fixpoint keywords_find (k : string) (tbl : list (string * TokenType.t))
  : option TokenType.t :=
  match tbl with
  | [] => None
  | (k', v) :: tbl' => if string_eqb k k' then Some v else keywords_find k tbl'
  end.

Record Lexer : Set := mkLexer {
  rest : string;
  line : Z;
  column : Z
}.

Definition Lexer_new (source : string) : Lexer := mkLexer source 1 1.

Definition currentChar (lx : Lexer) : ascii :=
  match rest lx with
  | EmptyString => NUL
  | String c _ => c
  end.

Definition peekChar (lx : Lexer) : ascii :=
  match rest lx with
  | String _ (String c _) => c
  | _ => NUL
  end.

(** The line/column bookkeeping of [advance] when it steps over [c]. *)
Definition advance_pos (c : ascii) (ln col : Z) : Z * Z :=
  if ascii_eqb c "010"%char then (ln + 1, 1) else (ln, col + 1).

Definition lx_advance (lx : Lexer) : Lexer :=
  match rest lx with
  | EmptyString => lx
  | String c r =>
      let '(ln, col) := advance_pos c (line lx) (column lx) in mkLexer r ln col
  end.

(** [while (currentChar() != '\0' && p(currentChar())) { acc += currentChar(); advance(); }] *)
Fixpoint scan_from (p : ascii -> bool) (s : string) (ln col : Z) : string * Lexer :=
  match s with
  | EmptyString => (EmptyString, mkLexer s ln col)
  | String c r =>
      if negb (ascii_eqb c NUL) && p c then
        let '(ln', col') := advance_pos c ln col in
        let '(acc, lx) := scan_from p r ln' col' in
        (String c acc, lx)
      else (EmptyString, mkLexer s ln col)
  end.

Definition scan (p : ascii -> bool) (lx : Lexer) : string * Lexer :=
  scan_from p (rest lx) (line lx) (column lx).

Definition skipWhitespace (lx : Lexer) : Lexer :=
  snd (scan (fun c => isspace c && negb (ascii_eqb c "010"%char)) lx).

(** The body of a block comment: runs to the first [*/] or to the end. *)
Fixpoint skipBlock_from (s : string) (ln col : Z) : Lexer :=
  match s with
  | EmptyString => mkLexer s ln col
  | String c r =>
      if ascii_eqb c NUL then mkLexer s ln col
      else if ascii_eqb c "*"%char
                && ascii_eqb (peekChar (mkLexer s ln col)) "/"%char then
        lx_advance (lx_advance (mkLexer s ln col))
      else
        let '(ln', col') := advance_pos c ln col in skipBlock_from r ln' col'
  end.

Definition skipComment (lx : Lexer) : Lexer :=
  if ascii_eqb (currentChar lx) "/"%char && ascii_eqb (peekChar lx) "/"%char then
    snd (scan (fun c => negb (ascii_eqb c "010"%char)) (lx_advance (lx_advance lx)))
  else if ascii_eqb (currentChar lx) "/"%char && ascii_eqb (peekChar lx) "*"%char then
    let lx2 := lx_advance (lx_advance lx) in
    skipBlock_from (rest lx2) (line lx2) (column lx2)
  else lx.

(** The characters the loops of [readNumber] and
    [readIdentifierOrKeyword] accept. *)
Definition number_char (c : ascii) : bool := isdigit c || ascii_eqb c "."%char.
Definition word_char (c : ascii) : bool := isalnum c || ascii_eqb c "_"%char.

Definition readNumber (lx : Lexer) : Token * Lexer :=
  let startCol := column lx in
  let '(number, lx') := scan number_char lx in
  if string_mem "."%char number
  then (mkToken TokenType.FLOAT number (line lx') startCol, lx')
  else (mkToken TokenType.INTEGER number (line lx') startCol, lx').

Definition unescape (c : ascii) : ascii :=
  if ascii_eqb c "n"%char then "010"%char
  else if ascii_eqb c "t"%char then "009"%char
  else c.

(** The loop of [readString]; [q] is the opening quote. *)
Fixpoint readString_from (q : ascii) (s : string) (ln col : Z) : string * Lexer :=
  match s with
  | EmptyString => (EmptyString, mkLexer s ln col)
  | String c r =>
      if ascii_eqb c NUL || ascii_eqb c q then (EmptyString, mkLexer s ln col)
      else if ascii_eqb c "\"%char then
        let '(ln1, col1) := advance_pos c ln col in
        match r with
        | EmptyString =>
            (* [currentChar()] is ['\0'] here: it is appended, the second
               [advance()] does nothing and the loop ends *)
            (String NUL EmptyString, mkLexer r ln1 col1)
        | String e r' =>
            let '(ln2, col2) := advance_pos e ln1 col1 in
            let '(str, lx) := readString_from q r' ln2 col2 in
            (String (unescape e) str, lx)
        end
      else
        let '(ln', col') := advance_pos c ln col in
        let '(str, lx) := readString_from q r ln' col' in
        (String c str, lx)
  end.

Definition readString (lx : Lexer) : Token * Lexer :=
  let startCol := column lx in
  let quote := currentChar lx in
  let lx1 := lx_advance lx in
  let '(str, lx2) := readString_from quote (rest lx1) (line lx1) (column lx1) in
  let lx3 := if ascii_eqb (currentChar lx2) quote then lx_advance lx2 else lx2 in
  (mkToken TokenType.STRING str (line lx3) startCol, lx3).

Definition readIdentifierOrKeyword (lx : Lexer) : Token * Lexer :=
  let startCol := column lx in
  let '(identifier, lx') := scan word_char lx in
  match keywords_find identifier keywords with
  | Some ty => (mkToken ty identifier (line lx') startCol, lx')
  | None => (mkToken TokenType.IDENTIFIER identifier (line lx') startCol, lx')
  end.

(** [advance(); return Token(ty, text, line, startCol);] *)
Definition emit1 (ty : TokenType.t) (text : string) (lx : Lexer) : Token * Lexer :=
  let lx1 := lx_advance lx in
  (mkToken ty text (line lx1) (column lx), lx1).

(** [advance(); if (currentChar() == next) { advance(); return two; } return one;] *)
Definition emit2 (next : ascii) (two : TokenType.t) (text2 : string)
    (one : TokenType.t) (text1 : string) (lx : Lexer) : Token * Lexer :=
  let lx1 := lx_advance lx in
  if ascii_eqb (currentChar lx1) next then
    let lx2 := lx_advance lx1 in
    (mkToken two text2 (line lx2) (column lx), lx2)
  else (mkToken one text1 (line lx1) (column lx), lx1).

(** The [&] and [|] cases: a doubled character is the operator; otherwise
    the [switch] is left with [break] and the code after it advances once
    more before returning [UNKNOWN]. *)
Definition emit_pair (ch : ascii) (two : TokenType.t) (text2 : string)
    (lx : Lexer) : Token * Lexer :=
  let lx1 := lx_advance lx in
  if ascii_eqb (currentChar lx1) ch then
    let lx2 := lx_advance lx1 in
    (mkToken two text2 (line lx2) (column lx), lx2)
  else
    let lx2 := lx_advance lx1 in
    (mkToken TokenType.UNKNOWN (String ch EmptyString) (line lx2) (column lx), lx2).

Definition readOperatorOrDelimiter (lx : Lexer) : Token * Lexer :=
  let ch := currentChar lx in
  if ascii_eqb ch "+"%char then emit1 TokenType.PLUS "+" lx
  else if ascii_eqb ch "-"%char then emit1 TokenType.MINUS "-" lx
  else if ascii_eqb ch "*"%char then emit1 TokenType.STAR "*" lx
  else if ascii_eqb ch "/"%char then emit1 TokenType.SLASH "/" lx
  else if ascii_eqb ch "%"%char then emit1 TokenType.PERCENT "%" lx
  else if ascii_eqb ch "="%char then
    emit2 "="%char TokenType.EQUAL "==" TokenType.ASSIGN "=" lx
  else if ascii_eqb ch "!"%char then
    emit2 "="%char TokenType.NOT_EQUAL "!=" TokenType.NOT "!" lx
  else if ascii_eqb ch "<"%char then
    emit2 "="%char TokenType.LESS_EQUAL "<=" TokenType.LESS "<" lx
  else if ascii_eqb ch ">"%char then
    emit2 "="%char TokenType.GREATER_EQUAL ">=" TokenType.GREATER ">" lx
  else if ascii_eqb ch "&"%char then emit_pair ch TokenType.AND "&&" lx
  else if ascii_eqb ch "|"%char then emit_pair ch TokenType.OR "||" lx
  else if ascii_eqb ch "("%char then emit1 TokenType.LPAREN "(" lx
  else if ascii_eqb ch ")"%char then emit1 TokenType.RPAREN ")" lx
  else if ascii_eqb ch "{"%char then emit1 TokenType.LBRACE "{" lx
  else if ascii_eqb ch "}"%char then emit1 TokenType.RBRACE "}" lx
  else if ascii_eqb ch "["%char then emit1 TokenType.LBRACKET "[" lx
  else if ascii_eqb ch "]"%char then emit1 TokenType.RBRACKET "]" lx
  else if ascii_eqb ch ";"%char then emit1 TokenType.SEMICOLON ";" lx
  else if ascii_eqb ch ","%char then emit1 TokenType.COMMA "," lx
  else if ascii_eqb ch "."%char then emit1 TokenType.DOT "." lx
  else if ascii_eqb ch ":"%char then emit1 TokenType.COLON ":" lx
  else emit1 TokenType.UNKNOWN (String ch EmptyString) lx.

Definition at_comment (lx : Lexer) : bool :=
  ascii_eqb (currentChar lx) "/"%char
  && (ascii_eqb (peekChar lx) "/"%char || ascii_eqb (peekChar lx) "*"%char).

(** The comment-skipping loop of [nextToken].  Every iteration removes at
    least the two characters that open the comment, so [fuel] = number of
    unread characters is never exhausted (see [skipComments_fuel]). *)
Fixpoint skipComments (fuel : nat) (lx : Lexer) : Lexer :=
  match fuel with
  | O => lx
  | S fuel' =>
      if at_comment lx then skipComments fuel' (skipWhitespace (skipComment lx))
      else lx
  end.

Definition nextToken (lx0 : Lexer) : Token * Lexer :=
  let lx1 := skipWhitespace lx0 in
  let lx := skipComments (String.length (rest lx1)) lx1 in
  let c := currentChar lx in
  if ascii_eqb c NUL then
    (mkToken TokenType.END_OF_FILE "" (line lx) (column lx), lx)
  else if ascii_eqb c "010"%char then
    let lx' := lx_advance lx in
    (mkToken TokenType.NEWLINE (String "010"%char EmptyString) (line lx' - 1) (column lx), lx')
  else if isdigit c then readNumber lx
  else if ascii_eqb c "034"%char || ascii_eqb c "'"%char then readString lx
  else if isalpha c || ascii_eqb c "_"%char then readIdentifierOrKeyword lx
  else readOperatorOrDelimiter lx.

(** The loop of [tokenize].  A token other than [END_OF_FILE] consumes at
    least one character, so [fuel] = one more than the number of unread
    characters suffices (see [tokenize_loop_fuel]). *)
Fixpoint tokenize_loop (fuel : nat) (lx : Lexer) : list Token :=
  match fuel with
  | O => []
  | S fuel' =>
      let '(token, lx') := nextToken lx in
      if TokenType.eqb (tok_type token) TokenType.END_OF_FILE then [token]
      else token :: tokenize_loop fuel' lx'
  end.

Definition tokenize (source : string) : list Token :=
  tokenize_loop (S (String.length source)) (Lexer_new source).


(** ** Abstract syntax (parser.h)

    The class hierarchy under [Expression] and [Statement] becomes two
    inductive types; a [shared_ptr] that may be null is an [option].  The
    children the parser always fills in are plain fields. *)

Scheme All for list.
Scheme All for option.

Inductive Expression : Type :=
| Literal (type : TokenType.t) (value : string)
| Identifier (name : string)
| BinaryOp (left : Expression) (op : TokenType.t) (right : Expression)
| UnaryOp (op : TokenType.t) (operand : Expression)
| FunctionCall (name : string) (arguments : list Expression)
| InputCall (prompt : option Expression)
| KeyPressedCall (prompt : option Expression)
| ArrayAccess (array : Expression) (index : Expression)
| Assignment (name : string) (value : Expression).

Inductive Statement : Type :=
| ExpressionStatement (expression : Expression)
| PrintStatement (expression : Expression)
| BlockStatement (statements : list Statement)
| ReturnStatement (expression : option Expression)
| IfStatement (condition : Expression) (thenBranch : Statement)
    (elseBranch : option Statement)
| WhileStatement (condition : Expression) (body : Statement)
| ForStatement (init : option Statement) (condition : option Expression)
    (increment : option Expression) (body : Statement)
| VariableDecl (name : string) (type : string) (initializer : option Expression).

Record FunctionDecl : Type := mkFunctionDecl {
  fd_returnType : string;
  fd_name : string;
  fd_parameters : list (string * string);  (* (type, name) *)
  fd_body : Statement
}.

Record Program : Type := mkProgram { functions : list FunctionDecl }.

(** ** Parser (parser.cpp)

    The pair ([tokens], [current]) is the list of tokens from [current] on.
    A parsing function either returns a value and the tokens left, throws
    [std::runtime_error(msg)], or runs out of recursion fuel. *)

Inductive PRes (A : Type) : Type :=
| POk (a : A) (ts : list Token)
| PErr (msg : string)
| PFuel.
Arguments POk {A} a ts.
Arguments PErr {A} msg.
Arguments PFuel {A}.

Definition P (A : Type) : Type := list Token -> PRes A.

Definition p_ret {A} (a : A) : P A := fun ts => POk a ts.
Definition p_throw {A} (msg : string) : P A := fun _ => PErr msg.
Definition p_bind {A B} (m : P A) (k : A -> P B) : P B :=
  fun ts => match m ts with
            | POk a ts' => k a ts'
            | PErr msg => PErr msg
            | PFuel => PFuel
            end.

Declare Scope parser_scope.
Delimit Scope parser_scope with parser.
Notation "x <- m ;; k" := (p_bind m (fun x => k))
  (at level 200, m at level 99, k at level 200, right associativity,
   only parsing) : parser_scope.
Notation "m ;;; k" := (p_bind m (fun _ => k))
  (at level 200, k at level 200, right associativity, only parsing)
  : parser_scope.

Definition eof_token : Token := mkToken TokenType.END_OF_FILE "" 0 0.

Definition currentToken (ts : list Token) : Token :=
  match ts with t :: _ => t | [] => eof_token end.

Definition peekToken (ts : list Token) : Token :=
  match ts with _ :: t :: _ => t | _ => eof_token end.

Definition check (ty : TokenType.t) (ts : list Token) : bool :=
  TokenType.eqb (tok_type (currentToken ts)) ty.

Definition p_advance : P unit := fun ts => POk tt (tl ts).
Definition p_check (ty : TokenType.t) : P bool := fun ts => POk (check ty ts) ts.
Definition p_current : P Token := fun ts => POk (currentToken ts) ts.
Definition p_peek : P Token := fun ts => POk (peekToken ts) ts.

(** [match(types)]: advance over the current token if its type is listed. *)
Definition p_match (types : list TokenType.t) : P bool :=
  fun ts => if existsb (fun ty => check ty ts) types
            then POk true (tl ts) else POk false ts.

Definition consume (ty : TokenType.t) (message : string) : P unit :=
  fun ts => if check ty ts then POk tt (tl ts) else PErr message.

Definition isType (ty : TokenType.t) : bool :=
  match ty with
  | TokenType.INT | TokenType.FLOAT_KW | TokenType.BOOL | TokenType.VOID
  | TokenType.IDENTIFIER => true
  | _ => false
  end.

Definition tokenTypeToString (ty : TokenType.t) : P string :=
  fun ts =>
    match ty with
    | TokenType.INT => POk "int" ts
    | TokenType.FLOAT_KW => POk "float" ts
    | TokenType.BOOL => POk "bool" ts
    | TokenType.VOID => POk "void" ts
    | TokenType.IDENTIFIER => POk (tok_value (currentToken ts)) ts
    | _ => POk "unknown" ts
    end.

Local Open Scope parser_scope.

(** [while (check(op1) || ...) { op = type; advance(); right = sub(); left = BinaryOp(left, op, right); }] *)
Fixpoint binary_loop (fuel : nat) (ops : list TokenType.t) (sub : P Expression)
    (left : Expression) : P Expression :=
  match fuel with
  | O => fun _ => PFuel
  | S fuel' =>
      fun ts =>
        if existsb (fun ty => check ty ts) ops then
          (let op := tok_type (currentToken ts) in
           p_advance ;;;
           right <- sub ;;
           binary_loop fuel' ops sub (BinaryOp left op right)) ts
        else POk left ts
  end.

(** [do { args.push_back(parseAssignment()); } while (match({COMMA}));] *)
Fixpoint args_loop (fuel : nat) (sub : P Expression) : P (list Expression) :=
  match fuel with
  | O => fun _ => PFuel
  | S fuel' =>
      a <- sub ;;
      more <- p_match [TokenType.COMMA] ;;
      if (more : bool) then (rest <- args_loop fuel' sub ;; p_ret (a :: rest))
      else p_ret [a]
  end.

(** The argument list after an opening parenthesis has been consumed. *)
Definition call_args (fuel : nat) (sub : P Expression) (closing : string)
  : P (list Expression) :=
  close <- p_check TokenType.RPAREN ;;
  args <- (if (close : bool) then p_ret [] else args_loop fuel sub) ;;
  consume TokenType.RPAREN closing ;;;
  p_ret args.

(** The loop of [parsePostfix]. *)
Fixpoint postfix_loop (fuel : nat) (pAssignment pExpression : P Expression)
    (expr : Expression) : P Expression :=
  match fuel with
  | O => fun _ => PFuel
  | S fuel' =>
      fun ts =>
        if check TokenType.LPAREN ts then
          (p_advance ;;;
           args <- call_args fuel' pAssignment "Expected ')' after arguments" ;;
           match expr with
           | Identifier name =>
               postfix_loop fuel' pAssignment pExpression (FunctionCall name args)
           | _ => p_throw "Invalid function call"
           end) ts
        else if check TokenType.LBRACKET ts then
          (p_advance ;;;
           index <- pExpression ;;
           consume TokenType.RBRACKET "Expected ']' after index" ;;;
           postfix_loop fuel' pAssignment pExpression (ArrayAccess expr index)) ts
        else POk expr ts
  end.

(** [input], [input()] and [input(<expr>)]; the same for [key_pressed]. *)
Definition optional_prompt (pExpression : P Expression) : P (option Expression) :=
  p_advance ;;;
  open <- p_check TokenType.LPAREN ;;
  if (open : bool) then
    p_advance ;;;
    close <- p_check TokenType.RPAREN ;;
    prompt <- (if (close : bool) then p_ret None
               else (e <- pExpression ;; p_ret (Some e))) ;;
    consume TokenType.RPAREN "Expected ')'" ;;;
    p_ret prompt
  else p_ret None.

(** The branch shared by [screen], [clearScreen], [drawPixel], [drawRect],
    [drawLine], [drawCircle], [display], [quit], [isKeyDown], [updateInput]. *)
Definition builtin_call (fuel : nat) (pAssignment : P Expression) (name : string)
  : P Expression :=
  p_advance ;;;
  open <- p_check TokenType.LPAREN ;;
  args <- (if (open : bool) then
             p_advance ;;; call_args fuel pAssignment "Expected ')'"
           else p_ret []) ;;
  p_ret (FunctionCall name args).

Definition builtin_name (ty : TokenType.t) : option string :=
  match ty with
  | TokenType.SCREEN => Some "screen"
  | TokenType.CLEAR_SCREEN => Some "clearScreen"
  | TokenType.DRAW_PIXEL => Some "drawPixel"
  | TokenType.DRAW_RECT => Some "drawRect"
  | TokenType.DRAW_LINE => Some "drawLine"
  | TokenType.DRAW_CIRCLE => Some "drawCircle"
  | TokenType.DISPLAY => Some "display"
  | TokenType.QUIT => Some "quit"
  | TokenType.IS_KEY_DOWN => Some "isKeyDown"
  | TokenType.UPDATE_INPUT => Some "updateInput"
  | _ => None
  end.

(** The expression grammar, one function per precedence level, all
    recursive on the same fuel. *)
Fixpoint parseComma (fuel : nat) : P Expression :=
  match fuel with
  | O => fun _ => PFuel
  | S n =>
      left <- parseAssignment n ;;
      binary_loop n [TokenType.COMMA] (parseAssignment n) left
  end
with parseAssignment (fuel : nat) : P Expression :=
  match fuel with
  | O => fun _ => PFuel
  | S n =>
      left <- parseLogicalOr n ;;
      assign <- p_check TokenType.ASSIGN ;;
      if (assign : bool) then
        p_advance ;;;
        match left with
        | Identifier name =>
            value <- parseAssignment n ;; p_ret (Assignment name value)
        | _ => p_throw "Invalid assignment target"
        end
      else p_ret left
  end
with parseLogicalOr (fuel : nat) : P Expression :=
  match fuel with
  | O => fun _ => PFuel
  | S n =>
      left <- parseLogicalAnd n ;;
      binary_loop n [TokenType.OR] (parseLogicalAnd n) left
  end
with parseLogicalAnd (fuel : nat) : P Expression :=
  match fuel with
  | O => fun _ => PFuel
  | S n =>
      left <- parseEquality n ;;
      binary_loop n [TokenType.AND] (parseEquality n) left
  end
with parseEquality (fuel : nat) : P Expression :=
  match fuel with
  | O => fun _ => PFuel
  | S n =>
      left <- parseComparison n ;;
      binary_loop n [TokenType.EQUAL; TokenType.NOT_EQUAL] (parseComparison n) left
  end
with parseComparison (fuel : nat) : P Expression :=
  match fuel with
  | O => fun _ => PFuel
  | S n =>
      left <- parseAdditive n ;;
      binary_loop n [TokenType.LESS; TokenType.LESS_EQUAL; TokenType.GREATER;
                     TokenType.GREATER_EQUAL] (parseAdditive n) left
  end
with parseAdditive (fuel : nat) : P Expression :=
  match fuel with
  | O => fun _ => PFuel
  | S n =>
      left <- parseMultiplicative n ;;
      binary_loop n [TokenType.PLUS; TokenType.MINUS] (parseMultiplicative n) left
  end
with parseMultiplicative (fuel : nat) : P Expression :=
  match fuel with
  | O => fun _ => PFuel
  | S n =>
      left <- parseUnary n ;;
      binary_loop n [TokenType.STAR; TokenType.SLASH; TokenType.PERCENT]
        (parseUnary n) left
  end
with parseUnary (fuel : nat) : P Expression :=
  match fuel with
  | O => fun _ => PFuel
  | S n =>
      fun ts =>
        if check TokenType.NOT ts || check TokenType.MINUS ts then
          (let op := tok_type (currentToken ts) in
           p_advance ;;;
           operand <- parseUnary n ;;
           p_ret (UnaryOp op operand)) ts
        else parsePostfix n ts
  end
with parsePostfix (fuel : nat) : P Expression :=
  match fuel with
  | O => fun _ => PFuel
  | S n =>
      expr <- parsePrimary n ;;
      postfix_loop n (parseAssignment n) (parseComma n) expr
  end
with parsePrimary (fuel : nat) : P Expression :=
  match fuel with
  | O => fun _ => PFuel
  | S n =>
      fun ts =>
        let tok := currentToken ts in
        match tok_type tok with
        | TokenType.TRUE_LIT =>
            POk (Literal TokenType.TRUE_LIT "1") (tl ts)
        | TokenType.FALSE_LIT =>
            POk (Literal TokenType.FALSE_LIT "0") (tl ts)
        | TokenType.INTEGER | TokenType.FLOAT | TokenType.STRING =>
            POk (Literal (tok_type tok) (tok_value tok)) (tl ts)
        | TokenType.IDENTIFIER =>
            POk (Identifier (tok_value tok)) (tl ts)
        | TokenType.INPUT =>
            (prompt <- optional_prompt (parseComma n) ;; p_ret (InputCall prompt)) ts
        | TokenType.KEY_PRESSED =>
            (prompt <- optional_prompt (parseComma n) ;;
             p_ret (KeyPressedCall prompt)) ts
        | TokenType.LPAREN =>
            (p_advance ;;;
             expr <- parseComma n ;;
             consume TokenType.RPAREN "Expected ')'" ;;;
             p_ret expr) ts
        | ty =>
            match builtin_name ty with
            | Some name => builtin_call n (parseAssignment n) name ts
            | None =>
                PErr ("Unexpected token in expression: '" +:+ tok_value tok
                      +:+ "' (" +:+ pretty (TokenType.to_int ty) +:+ ")")
            end
        end
  end.

Definition parseExpression (fuel : nat) : P Expression := parseComma fuel.

(** [while (check(NEWLINE)) advance();] *)
Fixpoint skipNewlines (ts : list Token) : list Token :=
  match ts with
  | t :: ts' =>
      if TokenType.eqb (tok_type t) TokenType.NEWLINE then skipNewlines ts' else ts
  | [] => ts
  end.

Definition p_skipNewlines : P unit := fun ts => POk tt (skipNewlines ts).

(** The loop of [parseBlockStatement]. *)
Fixpoint block_loop (fuel : nat) (pStatement : P Statement) : P (list Statement) :=
  match fuel with
  | O => fun _ => PFuel
  | S fuel' =>
      fun ts =>
        if negb (check TokenType.RBRACE ts) && negb (check TokenType.END_OF_FILE ts)
        then
          let ts1 := skipNewlines ts in
          if check TokenType.RBRACE ts1 || check TokenType.END_OF_FILE ts1
          then POk [] ts1
          else (s <- pStatement ;;
                rest <- block_loop fuel' pStatement ;;
                p_ret (s :: rest)) ts1
        else POk [] ts
  end.

Definition parseReturnStatement (fuel : nat) : P Statement :=
  consume TokenType.RETURN "Expected 'return'" ;;;
  semi <- p_check TokenType.SEMICOLON ;;
  expr <- (if (semi : bool) then p_ret None
           else (e <- parseExpression fuel ;; p_ret (Some e))) ;;
  consume TokenType.SEMICOLON "Expected ';' after return" ;;;
  p_ret (ReturnStatement expr).

(** [let name : type = expr], without the final [;]. *)
Definition let_declaration (fuel : nat) : P Statement :=
  consume TokenType.LET "Expected 'let'" ;;;
  isId <- p_check TokenType.IDENTIFIER ;;
  if negb isId then p_throw "Expected variable name" else
  tok <- p_current ;;
  let name := tok_value tok in
  p_advance ;;;
  consume TokenType.COLON "Expected ':' after variable name" ;;;
  tyTok <- p_current ;;
  if negb (isType (tok_type tyTok)) then p_throw "Expected type after ':'" else
  type <- tokenTypeToString (tok_type tyTok) ;;
  p_advance ;;;
  consume TokenType.ASSIGN "Expected '=' after type" ;;;
  initializer <- parseExpression fuel ;;
  p_ret (VariableDecl name type (Some initializer)).

(** [type name [= initializer]], without the final [;]. *)
Definition c_declaration (fuel : nat) : P Statement :=
  tyTok <- p_current ;;
  if negb (isType (tok_type tyTok))
  then p_throw "Expected type for variable declaration" else
  type <- tokenTypeToString (tok_type tyTok) ;;
  p_advance ;;;
  isId <- p_check TokenType.IDENTIFIER ;;
  if negb isId then p_throw "Expected variable name" else
  tok <- p_current ;;
  let name := tok_value tok in
  p_advance ;;;
  assign <- p_check TokenType.ASSIGN ;;
  initializer <- (if (assign : bool) then
                    p_advance ;;; e <- parseExpression fuel ;; p_ret (Some e)
                  else p_ret None) ;;
  p_ret (VariableDecl name type initializer).

Definition parseVariableDeclaration (fuel : nat) : P Statement :=
  isLet <- p_check TokenType.LET ;;
  decl <- (if (isLet : bool) then let_declaration fuel else c_declaration fuel) ;;
  consume TokenType.SEMICOLON "Expected ';' after variable declaration" ;;;
  p_ret decl.

Definition parsePrintStatement (fuel : nat) : P Statement :=
  consume TokenType.PRINT "Expected 'print'" ;;;
  consume TokenType.LPAREN "Expected '(' after 'print'" ;;;
  expr <- parseExpression fuel ;;
  consume TokenType.RPAREN "Expected ')'" ;;;
  consume TokenType.SEMICOLON "Expected ';' after print statement" ;;;
  p_ret (PrintStatement expr).

Definition parseExpressionStatement (fuel : nat) : P Statement :=
  expr <- parseExpression fuel ;;
  consume TokenType.SEMICOLON "Expected ';' after expression" ;;;
  p_ret (ExpressionStatement expr).

(** The init clause of a [for] header, up to but excluding the first
    [consume(SEMICOLON)] of [parseForStatement]. *)
Definition for_init (fuel : nat) : P (option Statement) :=
  semi <- p_check TokenType.SEMICOLON ;;
  if (semi : bool) then p_ret None else
  isLet <- p_check TokenType.LET ;;
  if (isLet : bool) then (d <- let_declaration fuel ;; p_ret (Some d)) else
  tok <- p_current ;;
  if isType (tok_type tok) || TokenType.eqb (tok_type tok) TokenType.IDENTIFIER
  then (d <- c_declaration fuel ;; p_ret (Some d))
  else (s <- parseExpressionStatement fuel ;; p_ret (Some s)).

Fixpoint parseStatement (fuel : nat) : P Statement :=
  match fuel with
  | O => fun _ => PFuel
  | S n =>
      fun ts =>
        if check TokenType.LBRACE ts then parseBlockStatement n ts
        else if check TokenType.RETURN ts then parseReturnStatement n ts
        else if check TokenType.IF ts then parseIfStatement n ts
        else if check TokenType.WHILE ts then parseWhileStatement n ts
        else if check TokenType.FOR ts then parseForStatement n ts
        else
          let looksLikeType :=
            if TokenType.eqb (tok_type (currentToken ts)) TokenType.IDENTIFIER
            then TokenType.eqb (tok_type (peekToken ts)) TokenType.IDENTIFIER
            else isType (tok_type (currentToken ts)) in
          if looksLikeType || check TokenType.LET ts
          then parseVariableDeclaration n ts
          else if check TokenType.PRINT ts then parsePrintStatement n ts
          else parseExpressionStatement n ts
  end
with parseBlockStatement (fuel : nat) : P Statement :=
  match fuel with
  | O => fun _ => PFuel
  | S n =>
      consume TokenType.LBRACE "Expected '{'" ;;;
      statements <- block_loop n (parseStatement n) ;;
      consume TokenType.RBRACE "Expected '}'" ;;;
      p_ret (BlockStatement statements)
  end
with parseIfStatement (fuel : nat) : P Statement :=
  match fuel with
  | O => fun _ => PFuel
  | S n =>
      (fun ts =>
         if check TokenType.IF ts || check TokenType.ELIF ts then POk tt (tl ts)
         else PErr "Expected 'if' or 'elif'") ;;;
      consume TokenType.LPAREN "Expected '(' after condition" ;;;
      condition <- parseExpression n ;;
      consume TokenType.RPAREN "Expected ')' after condition" ;;;
      thenBranch <- parseStatement n ;;
      isElif <- p_check TokenType.ELIF ;;
      isElse <- p_check TokenType.ELSE ;;
      elseBranch <- (if (isElif : bool) then
                       (s <- parseIfStatement n ;; p_ret (Some s))
                     else if (isElse : bool) then
                       (p_advance ;;; s <- parseStatement n ;; p_ret (Some s))
                     else p_ret None) ;;
      p_ret (IfStatement condition thenBranch elseBranch)
  end
with parseWhileStatement (fuel : nat) : P Statement :=
  match fuel with
  | O => fun _ => PFuel
  | S n =>
      consume TokenType.WHILE "Expected 'while'" ;;;
      consume TokenType.LPAREN "Expected '(' after 'while'" ;;;
      condition <- parseExpression n ;;
      consume TokenType.RPAREN "Expected ')' after while condition" ;;;
      body <- parseStatement n ;;
      p_ret (WhileStatement condition body)
  end
with parseForStatement (fuel : nat) : P Statement :=
  match fuel with
  | O => fun _ => PFuel
  | S n =>
      consume TokenType.FOR "Expected 'for'" ;;;
      consume TokenType.LPAREN "Expected '(' after 'for'" ;;;
      init <- for_init n ;;
      consume TokenType.SEMICOLON "Expected ';' after for-init" ;;;
      semi <- p_check TokenType.SEMICOLON ;;
      condition <- (if (semi : bool) then p_ret None
                    else (e <- parseExpression n ;; p_ret (Some e))) ;;
      consume TokenType.SEMICOLON "Expected ';' after for-condition" ;;;
      close <- p_check TokenType.RPAREN ;;
      increment <- (if (close : bool) then p_ret None
                    else (e <- parseExpression n ;; p_ret (Some e))) ;;
      consume TokenType.RPAREN "Expected ')' after for clauses" ;;;
      body <- parseStatement n ;;
      p_ret (ForStatement init condition increment body)
  end.

(** [do { type; name } while (match({COMMA}));] in [parseFunction]. *)
Fixpoint params_loop (fuel : nat) : P (list (string * string)) :=
  match fuel with
  | O => fun _ => PFuel
  | S fuel' =>
      tyTok <- p_current ;;
      paramType <- tokenTypeToString (tok_type tyTok) ;;
      p_advance ;;;
      isId <- p_check TokenType.IDENTIFIER ;;
      if negb isId then p_throw "Expected parameter name" else
      tok <- p_current ;;
      let paramName := tok_value tok in
      p_advance ;;;
      more <- p_match [TokenType.COMMA] ;;
      if (more : bool) then
        (rest <- params_loop fuel' ;; p_ret ((paramType, paramName) :: rest))
      else p_ret [(paramType, paramName)]
  end.

Definition parseFunction (fuel : nat) : P FunctionDecl :=
  tok <- p_current ;;
  next <- p_peek ;;
  returnType <-
    (if isType (tok_type tok) then
       if TokenType.eqb (tok_type tok) TokenType.IDENTIFIER
          && TokenType.eqb (tok_type next) TokenType.LPAREN
       then p_ret "void"
       else (rt <- tokenTypeToString (tok_type tok) ;; p_advance ;;; p_ret rt)
     else p_ret "void") ;;
  isId <- p_check TokenType.IDENTIFIER ;;
  if negb isId then p_throw "Expected function name" else
  nameTok <- p_current ;;
  let name := tok_value nameTok in
  p_advance ;;;
  consume TokenType.LPAREN "Expected '('" ;;;
  close <- p_check TokenType.RPAREN ;;
  params <- (if (close : bool) then p_ret [] else params_loop fuel) ;;
  consume TokenType.RPAREN "Expected ')'" ;;;
  body <- parseBlockStatement fuel ;;
  p_ret (mkFunctionDecl returnType name params body).

(** The loop of [Parser::parse]. *)
Fixpoint parse_loop (fuel : nat) : P (list FunctionDecl) :=
  match fuel with
  | O => fun _ => PFuel
  | S fuel' =>
      fun ts =>
        if check TokenType.END_OF_FILE ts then POk [] ts
        else
          let ts1 := skipNewlines ts in
          if check TokenType.END_OF_FILE ts1 then POk [] ts1
          else (f <- parseFunction fuel' ;;
                rest <- parse_loop fuel' ;;
                p_ret (f :: rest)) ts1
  end.

Definition parse (fuel : nat) (tokens : list Token) : PRes Program :=
  (fs <- parse_loop fuel ;; p_ret (mkProgram fs)) tokens.

Local Close Scope parser_scope.

(** ** Semantic analyzer (scematic.h, scematic.cpp) *)

Definition endl : string := String "010"%char EmptyString.

Record Symbol : Set := mkSymbol {
  sym_name : string;
  sym_type : string;
  sym_isFunction : bool;
  sym_isDeclared : bool
}.

(** A [Scope] is its symbol table; the [parent] links are the tail of the
    list of scopes the analyzer keeps ([currentScope] first, [globalScope]
    last). *)
Definition Scope : Type := gmap string Symbol.

(** [Scope::declare]: [inl msg] stands for [throw std::runtime_error(msg)]. *)
Definition Scope_declare (name : string) (symbol : Symbol) (sc : Scope)
  : string + Scope :=
  match sc !! name with
  | Some _ => inl ("Symbol '" +:+ name +:+ "' already declared in current scope")
  | None => inr (<[name := symbol]> sc)
  end.

Fixpoint Scope_lookup (name : string) (chain : list Scope) : option Symbol :=
  match chain with
  | [] => None
  | sc :: parents =>
      match sc !! name with
      | Some s => Some s
      | None => Scope_lookup name parents
      end
  end.

Definition Scope_lookupLocal (name : string) (sc : Scope) : option Symbol :=
  sc !! name.

(** The analyzer object together with the two pieces of process state it
    touches: the static flag [SemanticAnalyzer::errors] and [std::cerr]. *)
Record Analyzer : Type := mkAnalyzer {
  scopes : list Scope;
  currentFunctionReturnType : string;
  errors : bool;
  cerr : string
}.

Definition reportError (message : string) (a : Analyzer) : Analyzer :=
  mkAnalyzer (scopes a) (currentFunctionReturnType a) true
    (cerr a +:+ "Semantic Error: " +:+ message +:+ endl).

Definition hasErrors (a : Analyzer) : bool := errors a.

Definition enterScope (a : Analyzer) : Analyzer :=
  mkAnalyzer (∅ :: scopes a) (currentFunctionReturnType a) (errors a) (cerr a).

(** Nothing happens when the current scope is the global one. *)
Definition exitScope (a : Analyzer) : Analyzer :=
  match scopes a with
  | _ :: (parent :: rest) as up =>
      mkAnalyzer up (currentFunctionReturnType a) (errors a) (cerr a)
  | _ => a
  end.

(** [try { currentScope->declare(name, symbol); } catch (e) { reportError(e.what()); }] *)
Definition declare_or_report (name : string) (symbol : Symbol) (a : Analyzer)
  : Analyzer :=
  match scopes a with
  | [] => a
  | sc :: parents =>
      match Scope_declare name symbol sc with
      | inl msg => reportError msg a
      | inr sc' =>
          mkAnalyzer (sc' :: parents) (currentFunctionReturnType a) (errors a) (cerr a)
      end
  end.

Definition isCompatibleType (from to : string) : bool :=
  if string_eqb from to then true
  else if (string_eqb from "int" || string_eqb from "float")
          && (string_eqb to "int" || string_eqb to "float") then true
  else if (string_eqb from "int" || string_eqb from "string")
          && (string_eqb to "int" || string_eqb to "string") then true
  else if (string_eqb from "bool" || string_eqb from "int")
          && (string_eqb to "bool" || string_eqb to "int") then true
  else false.

Definition getCommonType (type1 type2 : string) : string :=
  if string_eqb type1 type2 then type1
  else if string_eqb type1 "float" || string_eqb type2 "float" then "float"
  else type1.

Definition analyzeLiteral (type : TokenType.t) : string :=
  match type with
  | TokenType.INTEGER => "int"
  | TokenType.FLOAT => "float"
  | TokenType.STRING => "string"
  | _ => "void"
  end.

Definition analyzeIdentifier (name : string) (a : Analyzer) : string * Analyzer :=
  match Scope_lookup name (scopes a) with
  | None => ("void", reportError ("Undefined identifier: " +:+ name) a)
  | Some symbol => (sym_type symbol, a)
  end.

Definition binaryResultType (op : TokenType.t) (leftType rightType : string)
  : string :=
  match op with
  | TokenType.PLUS | TokenType.MINUS | TokenType.STAR | TokenType.SLASH
  | TokenType.PERCENT => getCommonType leftType rightType
  | TokenType.EQUAL | TokenType.NOT_EQUAL | TokenType.LESS | TokenType.GREATER
  | TokenType.LESS_EQUAL | TokenType.GREATER_EQUAL => "int"
  | TokenType.AND | TokenType.OR => "int"
  | TokenType.COMMA => rightType
  | _ => "void"
  end.

Fixpoint analyzeExpression (expr : Expression) (a : Analyzer) : string * Analyzer :=
  match expr with
  | BinaryOp left_ op right_ =>
      let '(leftType, a1) := analyzeExpression left_ a in
      let '(rightType, a2) := analyzeExpression right_ a1 in
      (binaryResultType op leftType rightType, a2)
  | UnaryOp op operand =>
      let '(operandType, a1) := analyzeExpression operand a in
      match op with
      | TokenType.MINUS | TokenType.NOT => (operandType, a1)
      | _ => ("void", a1)
      end
  | Literal type _ => (analyzeLiteral type, a)
  | Identifier name => analyzeIdentifier name a
  | FunctionCall name arguments =>
      match Scope_lookup name (scopes a) with
      | None => ("void", reportError ("Undefined function: " +:+ name) a)
      | Some symbol =>
          if negb (sym_isFunction symbol) then
            ("void", reportError ("'" +:+ name +:+ "' is not a function") a)
          else
            (sym_type symbol,
             fold_left (fun acc arg => snd (analyzeExpression arg acc)) arguments a)
      end
  | Assignment name value =>
      match Scope_lookup name (scopes a) with
      | None => ("void", reportError ("Undefined variable: " +:+ name) a)
      | Some symbol =>
          let '(exprType, a1) := analyzeExpression value a in
          let a2 :=
            if negb (isCompatibleType exprType (sym_type symbol)) then
              reportError ("Assignment type mismatch: '" +:+ name +:+ "' expects "
                           +:+ sym_type symbol +:+ ", got " +:+ exprType) a1
            else a1 in
          (sym_type symbol, a2)
      end
  | ArrayAccess array index =>
      let '(arrayType, a1) := analyzeExpression array a in
      let '(_, a2) := analyzeExpression index a1 in
      (arrayType, a2)
  | InputCall _ | KeyPressedCall _ => ("void", a)
  end.

Definition analyzeVariableDecl (name type : string)
    (initializer : option Expression) (a : Analyzer) : Analyzer :=
  let a1 :=
    match initializer with
    | Some e =>
        let '(exprType, a') := analyzeExpression e a in
        if negb (isCompatibleType exprType type) then
          reportError ("Variable initialization type mismatch: expected " +:+ type
                       +:+ ", got " +:+ exprType) a'
        else a'
    | None => a
    end in
  declare_or_report name (mkSymbol name type false true) a1.

Definition analyzeReturnStatement (expression : option Expression) (a : Analyzer)
  : Analyzer :=
  match expression with
  | Some e =>
      let '(exprType, a1) := analyzeExpression e a in
      if negb (isCompatibleType exprType (currentFunctionReturnType a1)) then
        reportError ("Return type mismatch: expected "
                     +:+ currentFunctionReturnType a1 +:+ ", got " +:+ exprType) a1
      else a1
  | None => a
  end.

(** [analyzeStatement] has no branch for [PrintStatement]: the statement
    is skipped.  [analyzeBlockStatement] neither enters nor leaves a
    scope. *)
Fixpoint analyzeStatement (stmt : Statement) (a : Analyzer) : Analyzer :=
  match stmt with
  | BlockStatement statements =>
      fold_left (fun acc s => analyzeStatement s acc) statements a
  | ReturnStatement expression => analyzeReturnStatement expression a
  | IfStatement condition thenBranch elseBranch =>
      let '(_, a1) := analyzeExpression condition a in
      let a2 := analyzeStatement thenBranch a1 in
      match elseBranch with
      | Some s => analyzeStatement s a2
      | None => a2
      end
  | WhileStatement condition body =>
      let '(_, a1) := analyzeExpression condition a in
      analyzeStatement body a1
  | ForStatement init condition increment body =>
      let a1 := enterScope a in
      let a2 := match init with Some s => analyzeStatement s a1 | None => a1 end in
      let a3 := match condition with
                | Some e => snd (analyzeExpression e a2) | None => a2 end in
      let a4 := match increment with
                | Some e => snd (analyzeExpression e a3) | None => a3 end in
      exitScope (analyzeStatement body a4)
  | VariableDecl name type initializer => analyzeVariableDecl name type initializer a
  | ExpressionStatement expression => snd (analyzeExpression expression a)
  | PrintStatement _ => a
  end.

Definition analyzeFunction (func : FunctionDecl) (a : Analyzer) : Analyzer :=
  let a1 := enterScope
              (mkAnalyzer (scopes a) (fd_returnType func) (errors a) (cerr a)) in
  let a2 := fold_left
              (fun acc (param : string * string) =>
                 declare_or_report (snd param)
                   (mkSymbol (snd param) (fst param) false true) acc)
              (fd_parameters func) a1 in
  exitScope (analyzeStatement (fd_body func) a2).

Definition analyzeProgram (program : Program) (a : Analyzer) : Analyzer :=
  let a1 := fold_left
              (fun acc func =>
                 declare_or_report (fd_name func)
                   (mkSymbol (fd_name func) (fd_returnType func) true true) acc)
              (functions program) a in
  fold_left (fun acc func => analyzeFunction func acc) (functions program) a1.

(** [SemanticAnalyzer analyzer(ast); analyzer.analyze();] in a process whose
    static flag is [errors0] and whose diagnostic stream holds [cerr0].
    No exception escapes [analyzeProgram] (every [declare] is wrapped), so
    the [catch] of [analyze] is dead. *)
Definition analyze (ast : Program) (errors0 : bool) (cerr0 : string) : Analyzer :=
  analyzeProgram ast (mkAnalyzer [∅] "void" errors0 cerr0).

(** ** Intermediate representation (ir.h, ir.cpp) *)

Module IROpCode.
Inductive t : Set :=
| ADD | SUB | MUL | DIV | MOD | NEG | CONCAT
| AND | OR | NOT
| EQ | NE | LT | GT | LE | GE
| JMP | JZ | JNZ | CALL | RET
| LOAD | STORE | LOAD_GLOBAL | STORE_GLOBAL
| LOAD_INT | LOAD_FLOAT | LOAD_STRING
| PRINT | INPUT | KEY_PRESSED | SCREEN
| DRAW_PIXEL | DRAW_RECT | DRAW_LINE | DRAW_CIRCLE | CLEAR_SCREEN | PRESENT
| LABEL | NOP.

#[global] Instance eq_dec : EqDecision t.
Proof. solve_decision. Defined.
End IROpCode.

Module IRValueType.
Inductive t : Set := TEMP | GLOBAL | LOCAL | CONSTANT | LABEL.

#[global] Instance eq_dec : EqDecision t.
Proof. solve_decision. Defined.
End IRValueType.

Record IRValue : Set := mkIRValue {
  irv_type : IRValueType.t;
  irv_name : string;
  irv_id : Z
}.

#[global] Instance IRValue_eq_dec : EqDecision IRValue.
Proof. solve_decision. Defined.

(** [IRValue()] : the default arguments of the constructor. *)
Definition IRValue_default : IRValue := mkIRValue IRValueType.TEMP "" (-1).

(** [std::to_string(int)]. *)
Definition to_string_int (z : Z) : string := pretty z.

Definition IRValue_toString (v : IRValue) : string :=
  match irv_type v with
  | IRValueType.TEMP => "t" +:+ to_string_int (irv_id v)
  | IRValueType.GLOBAL => "g_" +:+ irv_name v
  | IRValueType.LOCAL => "l_" +:+ irv_name v
  | IRValueType.CONSTANT => irv_name v
  | IRValueType.LABEL => irv_name v
  end.

Record IRInstruction : Set := mkIRInstruction {
  opcode : IROpCode.t;
  operands : list IRValue;
  result : IRValue;
  label : string;
  prompt : string
}.

(** [IRInstruction instr(op);] *)
Definition IRInstruction_new (op : IROpCode.t) : IRInstruction :=
  mkIRInstruction op [] IRValue_default "" "".

Definition with_operands (ops : list IRValue) (i : IRInstruction) : IRInstruction :=
  mkIRInstruction (opcode i) (operands i ++ ops) (result i) (label i) (prompt i).
Definition with_result (r : IRValue) (i : IRInstruction) : IRInstruction :=
  mkIRInstruction (opcode i) (operands i) r (label i) (prompt i).
Definition with_label (l : string) (i : IRInstruction) : IRInstruction :=
  mkIRInstruction (opcode i) (operands i) (result i) l (prompt i).
Definition with_prompt (p : string) (i : IRInstruction) : IRInstruction :=
  mkIRInstruction (opcode i) (operands i) (result i) (label i) p.

Record IRFunction : Set := mkIRFunction {
  irf_name : string;
  irf_returnType : string;
  irf_parameters : list (string * string);
  instructions : list IRInstruction
}.

(** [IRProgram::globalVariables] is never written or read and is left out. *)
Record IRProgram : Set := mkIRProgram { ir_functions : list IRFunction }.

(** ** What the build decides

    Two expressions of the source have operands whose order of
    evaluation C++ leaves unspecified; the compiler that builds the
    program chooses it.
    - In [createTemp], the arguments [std::to_string(tempCounter)] and
      [tempCounter++] of the [IRValue] constructor: the name of the
      temporary is ["t"] followed by the value the counter has before,
      or after, the increment.  The identifier is the value before it.
    - In the ADD, SUB and MUL branches of [interpretIR], the operands
      [toInt(a)] and [toInt(b)] of the arithmetic operator: this shows
      when both conversions throw.
    Everything from here on is stated for an arbitrary build. *)
Class Build : Type := {
  temp_name : Z -> string;
  temp_name_spec : forall counter,
    temp_name counter = "t" +:+ to_string_int counter
    \/ temp_name counter = "t" +:+ to_string_int (counter + 1);
  left_operand_first : IROpCode.t -> bool
}.

Section WithBuild.
Context {build : Build}.

(** ** IR generator (ir.cpp)

    [currentFunction] always points at the last element of
    [program.functions]; that element is kept apart as [current], the
    elements before it are [emitted]. *)

Record IRGenerator : Type := mkIRGenerator {
  emitted : list IRFunction;
  current : option IRFunction;
  tempCounter : Z;
  labelCounter : Z;
  symbolTable : gmap string IRValue
}.

Definition IRGenerator_new : IRGenerator := mkIRGenerator [] None 0 0 ∅.

Definition program_functions (g : IRGenerator) : list IRFunction :=
  emitted g ++ match current g with Some f => [f] | None => [] end.

Definition createTemp (g : IRGenerator) : IRValue * IRGenerator :=
  (mkIRValue IRValueType.TEMP (temp_name (tempCounter g)) (tempCounter g),
   mkIRGenerator (emitted g) (current g) (tempCounter g + 1) (labelCounter g)
     (symbolTable g)).

Definition createLabel (g : IRGenerator) : string * IRGenerator :=
  ("L" +:+ to_string_int (labelCounter g),
   mkIRGenerator (emitted g) (current g) (tempCounter g) (labelCounter g + 1)
     (symbolTable g)).

Definition emitInstruction (instr : IRInstruction) (g : IRGenerator) : IRGenerator :=
  match current g with
  | Some f =>
      mkIRGenerator (emitted g)
        (Some (mkIRFunction (irf_name f) (irf_returnType f) (irf_parameters f)
                 (instructions f ++ [instr])))
        (tempCounter g) (labelCounter g) (symbolTable g)
  | None => g
  end.

Definition set_symbol (name : string) (v : IRValue) (g : IRGenerator) : IRGenerator :=
  mkIRGenerator (emitted g) (current g) (tempCounter g) (labelCounter g)
    (<[name := v]> (symbolTable g)).

Definition tokenTypeToOpCode (type : TokenType.t) : IROpCode.t :=
  match type with
  | TokenType.PLUS => IROpCode.ADD
  | TokenType.MINUS => IROpCode.SUB
  | TokenType.STAR => IROpCode.MUL
  | TokenType.SLASH => IROpCode.DIV
  | TokenType.PERCENT => IROpCode.MOD
  | TokenType.AND => IROpCode.AND
  | TokenType.OR => IROpCode.OR
  | TokenType.COMMA => IROpCode.CONCAT
  | TokenType.NOT => IROpCode.NOT
  | TokenType.EQUAL => IROpCode.EQ
  | TokenType.NOT_EQUAL => IROpCode.NE
  | TokenType.LESS => IROpCode.LT
  | TokenType.GREATER => IROpCode.GT
  | TokenType.LESS_EQUAL => IROpCode.LE
  | TokenType.GREATER_EQUAL => IROpCode.GE
  | _ => IROpCode.NOP
  end.

Definition visitLiteral (type : TokenType.t) (value : string) (g : IRGenerator)
  : IRValue * IRGenerator :=
  let val := mkIRValue IRValueType.CONSTANT value (-1) in
  let load (loadOp : IROpCode.t) :=
    let '(res, g1) := createTemp g in
    (res, emitInstruction
            (with_result res (with_operands [val] (IRInstruction_new loadOp))) g1) in
  match type with
  | TokenType.INTEGER => load IROpCode.LOAD_INT
  | TokenType.FLOAT => load IROpCode.LOAD_FLOAT
  | TokenType.STRING => load IROpCode.LOAD_STRING
  | _ => (val, g)
  end.

(** Shared by [visitIdentifier] and the target of [visitAssignment]. *)
Definition resolve_local (name : string) (g : IRGenerator) : IRValue * IRGenerator :=
  match symbolTable g !! name with
  | Some v => (v, g)
  | None =>
      let var := mkIRValue IRValueType.LOCAL name (-1) in (var, set_symbol name var g)
  end.

(** How [visitFunctionCall] treats the arguments of a call to [name]. *)
Inductive CallShape : Set :=
| AllArgs (op : IROpCode.t) (lbl : string)
| NoArgs (op : IROpCode.t) (lbl : string)
| FirstArg (op : IROpCode.t) (lbl : string).

Definition call_shape (name : string) : CallShape :=
  if string_eqb name "screen" then AllArgs IROpCode.SCREEN ""
  else if string_eqb name "clearScreen" then AllArgs IROpCode.CLEAR_SCREEN ""
  else if string_eqb name "drawPixel" then AllArgs IROpCode.DRAW_PIXEL ""
  else if string_eqb name "drawRect" then AllArgs IROpCode.DRAW_RECT ""
  else if string_eqb name "drawLine" then AllArgs IROpCode.DRAW_LINE ""
  else if string_eqb name "drawCircle" then AllArgs IROpCode.DRAW_CIRCLE ""
  else if string_eqb name "display" then NoArgs IROpCode.PRESENT ""
  else if string_eqb name "quit" then NoArgs IROpCode.CALL "quit"
  else if string_eqb name "isKeyDown" then FirstArg IROpCode.CALL "isKeyDown"
  else if string_eqb name "updateInput" then NoArgs IROpCode.CALL "updateInput"
  else AllArgs IROpCode.CALL name.

Fixpoint visitExpression (expr : Expression) (g : IRGenerator)
  : IRValue * IRGenerator :=
  match expr with
  | BinaryOp left_ op right_ =>
      let '(l, g1) := visitExpression left_ g in
      let '(r, g2) := visitExpression right_ g1 in
      let '(res, g3) := createTemp g2 in
      let opc :=
        if TokenType.eqb op TokenType.OR || TokenType.eqb op TokenType.COMMA
        then IROpCode.CONCAT else tokenTypeToOpCode op in
      (res, emitInstruction
              (with_result res (with_operands [l; r] (IRInstruction_new opc))) g3)
  | UnaryOp op operand =>
      let '(v, g1) := visitExpression operand g in
      let '(res, g2) := createTemp g1 in
      (res, emitInstruction
              (with_result res
                 (with_operands [v] (IRInstruction_new (tokenTypeToOpCode op)))) g2)
  | Literal type value => visitLiteral type value g
  | Identifier name => resolve_local name g
  | FunctionCall name arguments =>
      let '(res, g1) := createTemp g in
      match call_shape name with
      | AllArgs op lbl =>
          let '(ops, g2) :=
            fold_left
              (fun (acc : list IRValue * IRGenerator) arg =>
                 let '(v, g') := visitExpression arg (snd acc) in (fst acc ++ [v], g'))
              arguments ([], g1) in
          (res, emitInstruction
                  (with_result res
                     (with_operands ops (with_label lbl (IRInstruction_new op)))) g2)
      | NoArgs op lbl =>
          (res, emitInstruction
                  (with_result res (with_label lbl (IRInstruction_new op))) g1)
      | FirstArg op lbl =>
          let '(ops, g2) :=
            match arguments with
            | [] => ([], g1)
            | arg :: _ => let '(v, g') := visitExpression arg g1 in ([v], g')
            end in
          (res, emitInstruction
                  (with_result res
                     (with_operands ops (with_label lbl (IRInstruction_new op)))) g2)
      end
  | Assignment name value =>
      let '(v, g1) := visitExpression value g in
      let '(var, g2) := resolve_local name g1 in
      (var, emitInstruction
              (with_result var (with_operands [v] (IRInstruction_new IROpCode.STORE)))
              g2)
  | ArrayAccess array index =>
      let '(a, g1) := visitExpression array g in
      let '(i, g2) := visitExpression index g1 in
      let '(res, g3) := createTemp g2 in
      (res, emitInstruction
              (with_result res (with_operands [a; i] (IRInstruction_new IROpCode.LOAD)))
              g3)
  | InputCall prompt =>
      let '(res, g1) := createTemp g in
      let instr := IRInstruction_new IROpCode.INPUT in
      let instr :=
        match prompt with
        | Some (Literal TokenType.STRING value) => with_prompt value instr
        | _ => instr
        end in
      (res, emitInstruction (with_result res instr) g1)
  | KeyPressedCall _ =>
      let '(res, g1) := createTemp g in
      (res, emitInstruction
              (with_result res (IRInstruction_new IROpCode.KEY_PRESSED)) g1)
  end.

Definition emit_label (l : string) (g : IRGenerator) : IRGenerator :=
  emitInstruction (with_label l (IRInstruction_new IROpCode.LABEL)) g.
Definition emit_jmp (l : string) (g : IRGenerator) : IRGenerator :=
  emitInstruction (with_label l (IRInstruction_new IROpCode.JMP)) g.
Definition emit_jz (cond : IRValue) (l : string) (g : IRGenerator) : IRGenerator :=
  emitInstruction
    (with_label l (with_operands [cond] (IRInstruction_new IROpCode.JZ))) g.

Definition visitReturnStatement (expression : option Expression) (g : IRGenerator)
  : IRGenerator :=
  match expression with
  | Some e =>
      let '(val, g1) := visitExpression e g in
      emitInstruction (with_operands [val] (IRInstruction_new IROpCode.RET)) g1
  | None => emitInstruction (IRInstruction_new IROpCode.RET) g
  end.

Definition visitVariableDecl (name : string) (initializer : option Expression)
    (g : IRGenerator) : IRGenerator :=
  let var := mkIRValue IRValueType.LOCAL name (-1) in
  let g1 := set_symbol name var g in
  match initializer with
  | Some e =>
      let '(val, g2) := visitExpression e g1 in
      emitInstruction
        (with_result var (with_operands [val] (IRInstruction_new IROpCode.STORE))) g2
  | None => g1
  end.

Fixpoint visitStatement (stmt : Statement) (g : IRGenerator) : IRGenerator :=
  match stmt with
  | BlockStatement statements =>
      fold_left (fun acc s => visitStatement s acc) statements g
  | ReturnStatement expression => visitReturnStatement expression g
  | IfStatement condition thenBranch elseBranch =>
      let '(cond, g1) := visitExpression condition g in
      let '(thenLabel, g2) := createLabel g1 in
      let '(elseLabel, g3) := createLabel g2 in
      let '(endLabel, g4) := createLabel g3 in
      let g5 := emit_label thenLabel (emit_jz cond elseLabel g4) in
      let g6 := visitStatement thenBranch g5 in
      let g7 := emit_label elseLabel (emit_jmp endLabel g6) in
      let g8 := match elseBranch with
                | Some s => visitStatement s g7
                | None => g7
                end in
      emit_label endLabel g8
  | WhileStatement condition body =>
      let '(loopLabel, g1) := createLabel g in
      let '(endLabel, g2) := createLabel g1 in
      let g3 := emit_label loopLabel g2 in
      let '(cond, g4) := visitExpression condition g3 in
      let g5 := emit_jz cond endLabel g4 in
      let g6 := visitStatement body g5 in
      emit_label endLabel (emit_jmp loopLabel g6)
  | ForStatement init condition increment body =>
      let g0 := match init with Some s => visitStatement s g | None => g end in
      let '(loopLabel, g1) := createLabel g0 in
      let '(endLabel, g2) := createLabel g1 in
      let g3 := emit_label loopLabel g2 in
      let g4 := match condition with
                | Some c =>
                    let '(cond, g') := visitExpression c g3 in emit_jz cond endLabel g'
                | None => g3
                end in
      let g5 := visitStatement body g4 in
      let g6 := match increment with
                | Some e => snd (visitExpression e g5)
                | None => g5
                end in
      emit_label endLabel (emit_jmp loopLabel g6)
  | VariableDecl name _ initializer => visitVariableDecl name initializer g
  | ExpressionStatement expression => snd (visitExpression expression g)
  | PrintStatement expression =>
      let '(val, g1) := visitExpression expression g in
      emitInstruction (with_operands [val] (IRInstruction_new IROpCode.PRINT)) g1
  end.

(** [visitFunction]: the symbol table is cleared and [tempCounter] is set
    to zero; [labelCounter] is left as it is. *)
Definition visitFunction (func : FunctionDecl) (g : IRGenerator) : IRGenerator :=
  let irFunc :=
    mkIRFunction (fd_name func) (fd_returnType func) (fd_parameters func) [] in
  let g1 := mkIRGenerator (program_functions g) (Some irFunc) 0 (labelCounter g) ∅ in
  let g2 := fold_left
              (fun acc (param : string * string) =>
                 set_symbol (snd param)
                   (mkIRValue IRValueType.LOCAL (snd param) (-1)) acc)
              (fd_parameters func) g1 in
  visitStatement (fd_body func) g2.

Definition visitProgram (program : Program) (g : IRGenerator) : IRGenerator :=
  fold_left (fun acc func => visitFunction func acc) (functions program) g.

(** [IRGenerator irgen(ast); irgen.generate();] *)
Definition generate (ast : Program) : IRProgram :=
  mkIRProgram (program_functions (visitProgram ast IRGenerator_new)).

(** A readable rendering, as [IRInstruction::toString] prints it. *)
Definition opCodeToString (op : IROpCode.t) : string :=
  match op with
  | IROpCode.ADD => "ADD" | IROpCode.SUB => "SUB" | IROpCode.MUL => "MUL"
  | IROpCode.DIV => "DIV" | IROpCode.MOD => "MOD" | IROpCode.NEG => "NEG"
  | IROpCode.CONCAT => "CONCAT" | IROpCode.AND => "AND" | IROpCode.OR => "OR"
  | IROpCode.NOT => "NOT" | IROpCode.EQ => "EQ" | IROpCode.NE => "NE"
  | IROpCode.LT => "LT" | IROpCode.GT => "GT" | IROpCode.LE => "LE"
  | IROpCode.GE => "GE" | IROpCode.JMP => "JMP" | IROpCode.JZ => "JZ"
  | IROpCode.JNZ => "JNZ" | IROpCode.CALL => "CALL" | IROpCode.RET => "RET"
  | IROpCode.LOAD => "LOAD" | IROpCode.STORE => "STORE"
  | IROpCode.LOAD_GLOBAL => "LOAD_GLOBAL" | IROpCode.STORE_GLOBAL => "STORE_GLOBAL"
  | IROpCode.LOAD_INT => "LOAD_INT" | IROpCode.LOAD_FLOAT => "LOAD_FLOAT"
  | IROpCode.LOAD_STRING => "LOAD_STRING" | IROpCode.PRINT => "PRINT"
  | IROpCode.INPUT => "INPUT" | IROpCode.KEY_PRESSED => "KEY_PRESSED"
  | IROpCode.SCREEN => "SCREEN" | IROpCode.DRAW_PIXEL => "DRAW_PIXEL"
  | IROpCode.DRAW_RECT => "DRAW_RECT" | IROpCode.DRAW_LINE => "DRAW_LINE"
  | IROpCode.DRAW_CIRCLE => "DRAW_CIRCLE" | IROpCode.CLEAR_SCREEN => "CLEAR_SCREEN"
  | IROpCode.PRESENT => "PRESENT" | IROpCode.LABEL => "LABEL" | IROpCode.NOP => "NOP"
  end.

Fixpoint join_with (sep : string) (l : list string) : string :=
  match l with
  | [] => ""
  | [x] => x
  | x :: rest => x +:+ sep +:+ join_with sep rest
  end.

Definition IRInstruction_toString (i : IRInstruction) : string :=
  opCodeToString (opcode i) +:+ " " +:+
  match opcode i with
  | IROpCode.LABEL => label i +:+ ":"
  | op =>
      join_with ", " (map IRValue_toString (operands i)) +:+
      match op with
      | IROpCode.JMP | IROpCode.JZ | IROpCode.JNZ | IROpCode.RET | IROpCode.NOP => ""
      | _ => " -> " +:+ IRValue_toString (result i)
      end
  end.

(** ** Runtime values and library conversions (main.cpp) *)

(** [double] is an IEEE 754 binary64 value. *)
Definition double : Set := spec_float.

(** [using Value = std::variant<int, double, std::string, bool>;] *)
Inductive Value : Set :=
| VInt (i : Z)
| VDouble (d : double)
| VString (s : string)
| VBool (b : bool).

(** A default-constructed [Value] holds the first alternative, [int 0]. *)
Definition Value_default : Value := VInt 0.

(** The exceptions that reach the [catch] of [main]. *)
Inductive Exn : Set :=
| runtime_error (msg : string)
| invalid_argument (fn : string)
| out_of_range (fn : string)
| bad_variant_access.

(** [e.what()]; for the library exceptions the text is the one libstdc++
    produces. *)
Definition what (e : Exn) : string :=
  match e with
  | runtime_error msg => msg
  | invalid_argument fn => fn
  | out_of_range fn => fn
  | bad_variant_access => "std::get: wrong index for variant"
  end.

Definition INT_MIN : Z := -2147483648.
Definition INT_MAX : Z := 2147483647.
Definition in_int_range (z : Z) : bool := (INT_MIN <=? z) && (z <=? INT_MAX).

(** The digits at the front of [s]: their value on top of [acc], and how
    many there are. *)
Fixpoint leading_digits (s : string) (acc : Z) (count : nat) : Z * nat :=
  match s with
  | String c r =>
      if isdigit c then
        leading_digits r (10 * acc + Z.of_N (code c - 48)) (S count)
      else (acc, count)
  | EmptyString => (acc, count)
  end.

Fixpoint skip_spaces (s : string) : string :=
  match s with
  | String c r => if isspace c then skip_spaces r else s
  | EmptyString => s
  end.

(** [std::stoi(s)]: leading white space, an optional sign, decimal digits;
    what follows the digits is ignored. *)
Definition stoi (s : string) : Exn + Z :=
  let s1 := skip_spaces s in
  let '(negative, s2) :=
    match s1 with
    | String c r =>
        if ascii_eqb c "-"%char then (true, r)
        else if ascii_eqb c "+"%char then (false, r)
        else (false, s1)
    | EmptyString => (false, s1)
    end in
  let '(magnitude, count) := leading_digits s2 0 0 in
  match count with
  | O => inl (invalid_argument "stoi")
  | S _ =>
      let v := if negative then - magnitude else magnitude in
      if in_int_range v then inr v else inl (out_of_range "stoi")
  end.

(** [static_cast<int>(d)]: the fractional part is discarded.  When the
    truncated value does not fit in [int], and when [d] is an infinity or
    not a number, the behaviour is undefined: [None]. *)
Definition double_to_int (d : double) : option Z :=
  match d with
  | S754_zero _ => Some 0
  | S754_finite s m e =>
      let magnitude :=
        if 0 <=? e then Z.pos m * 2 ^ e else Z.pos m / 2 ^ (- e) in
      let v := if s then - magnitude else magnitude in
      if in_int_range v then Some v else None
  | _ => None
  end.

(** [static_cast<double>(i)], exact for every [int]. *)
Definition int_to_double (i : Z) : double := binary_normalize 53 1024 i 0 false.

(** The text conversions of [double] belong to the C++ library and are
    taken as an interface: [std::stod], [std::to_string(double)] and
    [std::ostream::operator<<(double)]. *)
Class FloatText : Type := {
  stod : string -> Exn + double;
  to_string_double : double -> string;
  cout_double : double -> string
}.

(** The collaborators outside the core: console input and the SDL window.
    [W] is the state of the outside world. *)
Inductive SDL_Keycode : Set :=
| SDLK_a | SDLK_d | SDLK_w | SDLK_s | SDLK_SPACE | SDLK_LEFT | SDLK_RIGHT
| SDLK_UP | SDLK_DOWN | SDLK_ESCAPE.

Class World (W : Type) : Type := {
  (** [std::getline(std::cin, input)] *)
  getline : W -> string * W;
  (** [readSingleKey()] *)
  readSingleKey : W -> ascii * W;
  (** [new Graphics(width, height, title)]; [Some msg] when the
      constructor throws an exception whose [what()] is [msg] *)
  Graphics_new : Z -> Z -> string -> W -> option string * W;
  (** [delete g_graphics] *)
  Graphics_delete : W -> W;
  Graphics_clear : Z -> Z -> Z -> W -> W;
  Graphics_drawPixel : Z -> Z -> Z -> Z -> Z -> W -> W;
  Graphics_drawRect : Z -> Z -> Z -> Z -> Z -> Z -> Z -> Z -> W -> W;
  Graphics_drawLine : Z -> Z -> Z -> Z -> Z -> Z -> Z -> W -> W;
  Graphics_drawCircle : Z -> Z -> Z -> Z -> Z -> Z -> Z -> W -> W;
  Graphics_handleEvents : W -> W;
  Graphics_present : W -> W;
  Graphics_shouldClose : W -> bool;
  Graphics_isKeyPressed : SDL_Keycode -> W -> bool
}.

(** The global [Graphics* g_graphics].  After [delete g_graphics] followed
    by a constructor that throws, the pointer still holds the address of
    the destroyed object. *)
Inductive GraphicsPtr : Set := GNull | GLive | GDangling.

(** The [toInt] lambda of ADD, SUB, MUL, DIV and MOD: the [int], the
    exception it throws, or [None] where the conversion of a [double] is
    undefined. *)
Definition toInt (v : Value) : option (Exn + Z) :=
  match v with
  | VInt i => Some (inr i)
  | VDouble d => inr <$> double_to_int d
  | VString s => Some (stoi s)
  | VBool _ => Some (inl (runtime_error "Cannot convert to int"))
  end.

(** The [toInt] lambda of the graphics opcodes: conversion failures and
    Booleans yield 0. *)
Definition toInt_gfx (v : Value) : option Z :=
  match v with
  | VInt i => Some i
  | VDouble d => double_to_int d
  | VString s => Some (match stoi s with inr i => i | inl _ => 0 end)
  | VBool _ => Some 0
  end.

Definition bool_text (b : bool) : string := if b then "true" else "false".

Section Conversions.
Context `{FloatText}.

(** The [toString] lambda of SCREEN. *)
Definition toString_gfx (v : Value) : string :=
  match v with
  | VString s => s
  | VInt i => to_string_int i
  | VDouble d => to_string_double d
  | VBool _ => ""
  end.

(** The visitor of CONCAT. *)
Definition concat_text (v : Value) : string :=
  match v with
  | VInt i => to_string_int i
  | VDouble d => to_string_double d
  | VBool b => bool_text b
  | VString s => s
  end.

(** What PRINT sends to [std::cout]. *)
Definition print_text (v : Value) : string :=
  match v with
  | VInt i => to_string_int i
  | VDouble d => cout_double d
  | VBool b => bool_text b
  | VString s => s
  end.
End Conversions.

Inductive Comparison : Set := CmpLT | CmpGT | CmpLE | CmpGE | CmpEQ | CmpNE.

Definition Comparison_name (c : Comparison) : string :=
  match c with
  | CmpLT => "LT" | CmpGT => "GT" | CmpLE => "LE" | CmpGE => "GE"
  | CmpEQ => "EQ" | CmpNE => "NE"
  end.

Definition compare_int (c : Comparison) (x y : Z) : bool :=
  match c with
  | CmpLT => x <? y | CmpGT => y <? x | CmpLE => x <=? y | CmpGE => y <=? x
  | CmpEQ => x =? y | CmpNE => negb (x =? y)
  end.

Definition compare_double (c : Comparison) (x y : double) : bool :=
  match c with
  | CmpLT => SFltb x y | CmpGT => SFltb y x
  | CmpLE => SFleb x y | CmpGE => SFleb y x
  | CmpEQ => SFeqb x y | CmpNE => negb (SFeqb x y)
  end.

Definition compare_string (c : Comparison) (x y : string) : bool :=
  match c with
  | CmpLT => String.ltb x y | CmpGT => String.ltb y x
  | CmpLE => String.leb x y | CmpGE => String.leb y x
  | CmpEQ => string_eqb x y | CmpNE => negb (string_eqb x y)
  end.

(** The visitor shared by LT, GT, LE, GE, EQ and NE. *)
Definition compare_values (c : Comparison) (a b : Value) : Exn + Z :=
  let bit (r : bool) : Exn + Z := inr (if r then 1 else 0) in
  match a, b with
  | VInt x, VInt y => bit (compare_int c x y)
  | VInt x, VDouble y => bit (compare_double c (int_to_double x) y)
  | VDouble x, VInt y => bit (compare_double c x (int_to_double y))
  | VDouble x, VDouble y => bit (compare_double c x y)
  | VString x, VString y => bit (compare_string c x y)
  | _, _ => inl (runtime_error ("Invalid types for " +:+ Comparison_name c))
  end.

(** ** Interpreter (main.cpp, [interpretIR]) *)

Section Interpreter.
Context {W : Type} `{World W} `{FloatText}.

(** The locals of the loop over one function ([temps], [ip]) and the
    process state it touches.  [temps] and [labels] are only ever
    accessed through [operator[]], so a key that is absent reads as a
    default-constructed value; the entry that [operator[]] inserts on
    such a read cannot be observed and is not modelled. *)
Record Machine : Type := mkMachine {
  temps : gmap string Value;
  ip : nat;
  cout : string;
  m_cerr : string;
  g_graphics : GraphicsPtr;
  world : W
}.

Definition temps_at (k : string) (m : Machine) : Value :=
  default Value_default (temps m !! k).

Definition labels_at (k : string) (labels : gmap string nat) : nat :=
  default 0%nat (labels !! k).

Definition set_temp (k : string) (v : Value) (m : Machine) : Machine :=
  mkMachine (<[k := v]> (temps m)) (ip m) (cout m) (m_cerr m) (g_graphics m) (world m).
Definition set_ip (n : nat) (m : Machine) : Machine :=
  mkMachine (temps m) n (cout m) (m_cerr m) (g_graphics m) (world m).
Definition put_cout (s : string) (m : Machine) : Machine :=
  mkMachine (temps m) (ip m) (cout m +:+ s) (m_cerr m) (g_graphics m) (world m).
Definition put_cerr (s : string) (m : Machine) : Machine :=
  mkMachine (temps m) (ip m) (cout m) (m_cerr m +:+ s) (g_graphics m) (world m).
Definition set_graphics (p : GraphicsPtr) (m : Machine) : Machine :=
  mkMachine (temps m) (ip m) (cout m) (m_cerr m) p (world m).
Definition set_world (w : W) (m : Machine) : Machine :=
  mkMachine (temps m) (ip m) (cout m) (m_cerr m) (g_graphics m) w.
Definition on_world (f : W -> W) (m : Machine) : Machine := set_world (f (world m)) m.

(** What one pass through the body of the dispatch loop does. *)
Inductive Step : Type :=
| SNext (m : Machine)               (* reaches [ip++] *)
| SJump (m : Machine)               (* [continue] with [ip] already set *)
| SBreak (m : Machine)              (* [break] *)
| SExit (status : Z) (m : Machine)  (* [exit(status)] *)
| SThrow (e : Exn) (m : Machine)
| SUndefined.                       (* behaviour the language leaves undefined *)

(** [temps[instr.operands[n].toString()]]; indexing past the end of
    [operands] is undefined. *)
Definition operand_value (instr : IRInstruction) (n : nat) (m : Machine)
  : option Value :=
  match operands instr !! n with
  | Some v => Some (temps_at (IRValue_toString v) m)
  | None => None
  end.

Definition result_key (instr : IRInstruction) : string :=
  IRValue_toString (result instr).

(** ADD, SUB and MUL: [toInt(a) op toInt(b)].  The two conversions are
    operands of one expression: when either of them is undefined so is
    the instruction, and when both throw, the exception is that of the
    operand the build evaluates first.  A result that does not fit in
    [int] is a signed overflow, which is undefined. *)
Definition exec_arith (left_first : bool) (f : Z -> Z -> Z) (instr : IRInstruction)
    (m : Machine) : Step :=
  match operand_value instr 0 m, operand_value instr 1 m with
  | Some a, Some b =>
      match toInt a, toInt b with
      | Some (inr x), Some (inr y) =>
          if in_int_range (f x y)
          then SNext (set_temp (result_key instr) (VInt (f x y)) m)
          else SUndefined
      | Some (inl e), Some (inr _) | Some (inr _), Some (inl e) => SThrow e m
      | Some (inl ea), Some (inl eb) => SThrow (if left_first then ea else eb) m
      | _, _ => SUndefined
      end
  | _, _ => SUndefined
  end.

(** DIV and MOD: the divisor is converted and tested before the dividend
    is converted.  [INT_MIN / -1] and [INT_MIN % -1] are undefined: the
    quotient does not fit in [int]. *)
Definition exec_divmod (f : Z -> Z -> Z) (instr : IRInstruction) (m : Machine)
  : Step :=
  match operand_value instr 0 m, operand_value instr 1 m with
  | Some a, Some b =>
      match toInt b with
      | None => SUndefined
      | Some (inl e) => SThrow e m
      | Some (inr divisor) =>
          if divisor =? 0 then SThrow (runtime_error "Division by zero") m
          else
            match toInt a with
            | None => SUndefined
            | Some (inl e) => SThrow e m
            | Some (inr x) =>
                if (x =? INT_MIN) && (divisor =? -1) then SUndefined
                else SNext (set_temp (result_key instr) (VInt (f x divisor)) m)
            end
      end
  | _, _ => SUndefined
  end.

Definition exec_compare (c : Comparison) (instr : IRInstruction) (m : Machine)
  : Step :=
  match operand_value instr 0 m, operand_value instr 1 m with
  | Some a, Some b =>
      match compare_values c a b with
      | inl e => SThrow e m
      | inr r => SNext (set_temp (result_key instr) (VInt r) m)
      end
  | _, _ => SUndefined
  end.

(** The guard [g_graphics && instr.operands.size() >= n] of the drawing
    opcodes, and the conversion of the first [n] operands. *)
Definition gfx_args (n : nat) (instr : IRInstruction) (m : Machine)
  : option (list Z) :=
  mapM (fun v => toInt_gfx (temps_at (IRValue_toString v) m))
    (firstn n (operands instr)).

Definition exec_draw (n : nat) (draw : list Z -> W -> W) (instr : IRInstruction)
    (m : Machine) : Step :=
  match g_graphics m with
  | GNull => SNext m
  | ptr =>
      if (n <=? length (operands instr))%nat then
        match ptr, gfx_args n instr m with
        | GLive, Some args =>
            SNext (set_temp (result_key instr) (VInt 1) (on_world (draw args) m))
        | _, _ => SUndefined
        end
      else SNext m
  end.

Definition nthZ (l : list Z) (n : nat) : Z := nth n l 0.

Definition exec_screen (instr : IRInstruction) (m : Machine) : Step :=
  if (3 <=? length (operands instr))%nat then
    match operand_value instr 0 m, operand_value instr 1 m, operand_value instr 2 m with
    | Some a, Some b, Some c =>
        match toInt_gfx a, toInt_gfx b, g_graphics m with
        | None, _, _ | _, None, _ | _, _, GDangling => SUndefined
        | Some width, Some height, old =>
            let title := toString_gfx c in
            let m1 := match old with
                      | GLive => on_world Graphics_delete m
                      | _ => m
                      end in
            let '(failure, w') := Graphics_new width height title (world m1) in
            let m2 := set_world w' m1 in
            let m3 :=
              match failure with
              | None =>
                  put_cout
                    (String "027"%char "[2J" +:+ String "027"%char "[1;1H"
                     +:+ "Graphics window created: " +:+ to_string_int width
                     +:+ "x" +:+ to_string_int height +:+ " - " +:+ title +:+ endl)
                    (set_graphics GLive m2)
              | Some msg =>
                  put_cerr ("Failed to create graphics window: " +:+ msg +:+ endl)
                    (set_graphics
                       (match old with GLive => GDangling | _ => GNull end) m2)
              end in
            SNext (set_temp (result_key instr) (VInt 1) m3)
        end
    | _, _, _ => SUndefined
    end
  else SNext (set_temp (result_key instr) (VInt 1) m).

Definition exec_present (instr : IRInstruction) (m : Machine) : Step :=
  match g_graphics m with
  | GDangling => SUndefined
  | GLive =>
      let m1 := on_world Graphics_present (on_world Graphics_handleEvents m) in
      if Graphics_shouldClose (world m1) then
        SBreak (set_graphics GNull (on_world Graphics_delete m1))
      else SNext (set_temp (result_key instr) (VInt 1) m1)
  | GNull => SNext (set_temp (result_key instr) (VInt 1) m)
  end.

Definition exec_quit (m : Machine) : Step :=
  match g_graphics m with
  | GDangling => SUndefined
  | GLive =>
      SExit 0 (set_graphics GNull
                 (on_world Graphics_delete (on_world Graphics_handleEvents m)))
  | GNull => SExit 0 m
  end.

Definition key_of_name (keyStr : string) : option SDL_Keycode :=
  if string_eqb keyStr "a" then Some SDLK_a
  else if string_eqb keyStr "d" then Some SDLK_d
  else if string_eqb keyStr "w" then Some SDLK_w
  else if string_eqb keyStr "s" then Some SDLK_s
  else if string_eqb keyStr "space" then Some SDLK_SPACE
  else if string_eqb keyStr "left" then Some SDLK_LEFT
  else if string_eqb keyStr "right" then Some SDLK_RIGHT
  else if string_eqb keyStr "up" then Some SDLK_UP
  else if string_eqb keyStr "down" then Some SDLK_DOWN
  else if string_eqb keyStr "escape" then Some SDLK_ESCAPE
  else None.

Definition exec_isKeyDown (instr : IRInstruction) (m : Machine) : Step :=
  match g_graphics m, operand_value instr 0 m with
  | GNull, _ | _, None => SNext (set_temp (result_key instr) (VInt 0) m)
  | ptr, Some keyVal =>
      let keyText :=
        match keyVal with
        | VString s => Some s
        | VInt i => Some (to_string_int i)
        | VDouble d => to_string_int <$> double_to_int d
        | VBool _ => Some EmptyString
        end in
      match keyText with
      | None => SUndefined
      | Some keyStr =>
          match key_of_name keyStr, ptr with
          | None, _ => SNext (set_temp (result_key instr) (VInt 0) m)
          | Some k, GLive =>
              if Graphics_isKeyPressed k (world m) then
                SNext (set_temp (result_key instr) (VInt 1)
                         (put_cout ("Key detected: " +:+ keyStr +:+ endl) m))
              else SNext (set_temp (result_key instr) (VInt 0) m)
          | Some _, _ => SUndefined
          end
      end
  end.

Definition exec_updateInput (instr : IRInstruction) (m : Machine) : Step :=
  match g_graphics m with
  | GDangling => SUndefined
  | GLive =>
      SNext (set_temp (result_key instr) (VInt 1) (on_world Graphics_handleEvents m))
  | GNull => SNext (set_temp (result_key instr) (VInt 1) m)
  end.

(** The [if] / [else if] chain of the dispatch loop.  An opcode without
    a branch (NEG, AND, OR, NOT, JNZ, RET, LOAD, LOAD_GLOBAL,
    STORE_GLOBAL, NOP and a CALL to any other name) falls through to
    [ip++] like LABEL does. *)
Definition exec_instr (labels : gmap string nat) (instr : IRInstruction)
    (m : Machine) : Step :=
  match opcode instr with
  | IROpCode.LOAD_INT =>
      match operands instr !! 0%nat with
      | None => SUndefined
      | Some v =>
          match stoi (irv_name v) with
          | inl e => SThrow e m
          | inr i => SNext (set_temp (result_key instr) (VInt i) m)
          end
      end
  | IROpCode.LOAD_FLOAT =>
      match operands instr !! 0%nat with
      | None => SUndefined
      | Some v =>
          match stod (irv_name v) with
          | inl e => SThrow e m
          | inr d => SNext (set_temp (result_key instr) (VDouble d) m)
          end
      end
  | IROpCode.LOAD_STRING =>
      match operands instr !! 0%nat with
      | None => SUndefined
      | Some v => SNext (set_temp (result_key instr) (VString (irv_name v)) m)
      end
  | IROpCode.ADD => exec_arith (left_operand_first IROpCode.ADD) Z.add instr m
  | IROpCode.SUB => exec_arith (left_operand_first IROpCode.SUB) Z.sub instr m
  | IROpCode.MUL => exec_arith (left_operand_first IROpCode.MUL) Z.mul instr m
  | IROpCode.DIV => exec_divmod Z.quot instr m
  | IROpCode.MOD => exec_divmod Z.rem instr m
  | IROpCode.CONCAT =>
      match operand_value instr 0 m, operand_value instr 1 m with
      | Some a, Some b =>
          SNext (set_temp (result_key instr)
                   (VString (concat_text a +:+ concat_text b)) m)
      | _, _ => SUndefined
      end
  | IROpCode.PRINT =>
      match operand_value instr 0 m with
      | Some v => SNext (put_cout (print_text v) m)
      | None => SUndefined
      end
  | IROpCode.LT => exec_compare CmpLT instr m
  | IROpCode.GT => exec_compare CmpGT instr m
  | IROpCode.LE => exec_compare CmpLE instr m
  | IROpCode.GE => exec_compare CmpGE instr m
  | IROpCode.EQ => exec_compare CmpEQ instr m
  | IROpCode.NE => exec_compare CmpNE instr m
  | IROpCode.JZ =>
      match operand_value instr 0 m with
      | Some (VInt cond) =>
          if cond =? 0 then SJump (set_ip (labels_at (label instr) labels) m)
          else SNext m
      | Some _ => SThrow bad_variant_access m
      | None => SUndefined
      end
  | IROpCode.JMP => SJump (set_ip (labels_at (label instr) labels) m)
  | IROpCode.STORE =>
      match operand_value instr 0 m with
      | Some v => SNext (set_temp (result_key instr) v m)
      | None => SUndefined
      end
  | IROpCode.INPUT =>
      let m1 := if string_eqb (prompt instr) "" then m
                else put_cout (prompt instr) m in
      let '(input, w') := getline (world m1) in
      SNext (set_temp (result_key instr) (VString input) (set_world w' m1))
  | IROpCode.KEY_PRESSED =>
      let '(key, w') := readSingleKey (world m) in
      SNext (set_temp (result_key instr) (VString (String key EmptyString))
               (set_world w' m))
  | IROpCode.SCREEN => exec_screen instr m
  | IROpCode.DRAW_PIXEL =>
      exec_draw 5
        (fun a => Graphics_drawPixel (nthZ a 0) (nthZ a 1) (nthZ a 2) (nthZ a 3)
                    (nthZ a 4)) instr m
  | IROpCode.DRAW_RECT =>
      exec_draw 8
        (fun a => Graphics_drawRect (nthZ a 0) (nthZ a 1) (nthZ a 2) (nthZ a 3)
                    (nthZ a 4) (nthZ a 5) (nthZ a 6) (nthZ a 7)) instr m
  | IROpCode.DRAW_LINE =>
      exec_draw 7
        (fun a => Graphics_drawLine (nthZ a 0) (nthZ a 1) (nthZ a 2) (nthZ a 3)
                    (nthZ a 4) (nthZ a 5) (nthZ a 6)) instr m
  | IROpCode.DRAW_CIRCLE =>
      exec_draw 7
        (fun a => Graphics_drawCircle (nthZ a 0) (nthZ a 1) (nthZ a 2) (nthZ a 3)
                    (nthZ a 4) (nthZ a 5) (nthZ a 6)) instr m
  | IROpCode.CLEAR_SCREEN =>
      exec_draw 3 (fun a => Graphics_clear (nthZ a 0) (nthZ a 1) (nthZ a 2)) instr m
  | IROpCode.PRESENT => exec_present instr m
  | IROpCode.CALL =>
      if string_eqb (label instr) "quit" then exec_quit m
      else if string_eqb (label instr) "isKeyDown" then exec_isKeyDown instr m
      else if string_eqb (label instr) "updateInput" then exec_updateInput instr m
      else SNext m
  | IROpCode.LABEL => SNext m
  | IROpCode.NEG | IROpCode.AND | IROpCode.OR | IROpCode.NOT | IROpCode.JNZ
  | IROpCode.RET | IROpCode.LOAD | IROpCode.LOAD_GLOBAL | IROpCode.STORE_GLOBAL
  | IROpCode.NOP => SNext m
  end.

(** The prescan that fills [labels]; a later LABEL of the same name
    overwrites an earlier one. *)
Fixpoint scan_labels (instrs : list IRInstruction) (i : nat)
    (labels : gmap string nat) : gmap string nat :=
  match instrs with
  | [] => labels
  | instr :: rest =>
      scan_labels rest (S i)
        (match opcode instr with
         | IROpCode.LABEL => <[label instr := i]> labels
         | _ => labels
         end)
  end.

(** How the execution of one function, or of the whole program, ends. *)
Inductive Outcome : Type :=
| Finished (m : Machine)             (* the loop was left normally *)
| Exited (status : Z) (m : Machine)  (* [exit(status)] was called *)
| Threw (e : Exn) (m : Machine)      (* an exception left [interpretIR] *)
| Undefined
| OutOfFuel (m : Machine).           (* more than [fuel] instructions *)

(** [while (ip < func.instructions.size()) { ... ip++; }] *)
Fixpoint run (fuel : nat) (instrs : list IRInstruction)
    (labels : gmap string nat) (m : Machine) : Outcome :=
  match fuel with
  | O => OutOfFuel m
  | S fuel' =>
      match instrs !! ip m with
      | None => Finished m
      | Some instr =>
          match exec_instr labels instr m with
          | SNext m' => run fuel' instrs labels (set_ip (S (ip m')) m')
          | SJump m' => run fuel' instrs labels m'
          | SBreak m' => Finished m'
          | SExit status m' => Exited status m'
          | SThrow e m' => Threw e m'
          | SUndefined => Undefined
          end
      end
  end.

(** The state in which the loop over a function starts. *)
Definition enter_function (m : Machine) : Machine :=
  mkMachine ∅ 0 (cout m) (m_cerr m) (g_graphics m) (world m).

Definition run_function (fuel : nat) (func : IRFunction) (m : Machine) : Outcome :=
  run fuel (instructions func) (scan_labels (instructions func) 0 ∅)
    (enter_function m).

(** [for (const auto& func : ir.functions) if (func.name == "main") ...];
    every function is given the whole [fuel]. *)
Fixpoint interpret_functions (fuel : nat) (funcs : list IRFunction) (m : Machine)
  : Outcome :=
  match funcs with
  | [] => Finished m
  | func :: rest =>
      if string_eqb (irf_name func) "main" then
        match run_function fuel func m with
        | Finished m' => interpret_functions fuel rest m'
        | other => other
        end
      else interpret_functions fuel rest m
  end.

Definition interpretIR (fuel : nat) (ir : IRProgram) (m : Machine) : Outcome :=
  interpret_functions fuel (ir_functions ir) m.

(** ** The driver ([main]) *)

(** What can be observed of a run of the executable. *)
Inductive ProcessResult : Type :=
| Terminated (status : Z) (out err : string) (w : W)
| UndefinedBehaviour
| NoResult.   (* the fuel of the parser or of the interpreter ran out *)

Definition initial_machine (w : W) : Machine := mkMachine ∅ 0 "" "" GNull w.

(** The [try] block of [main] on the text [source]; [fuel] bounds the
    recursion depth of the parser and the number of instructions
    executed. *)
Definition zpp_main (fuel : nat) (source : string) (w : W) : ProcessResult :=
  let tokens := tokenize source in
  match parse fuel tokens with
  | PFuel => NoResult
  | PErr msg => Terminated 1 "" ("Error: " +:+ msg +:+ endl) w
  | POk program _ =>
      let ir := generate program in
      match interpretIR fuel ir (initial_machine w) with
      | Finished m => Terminated 0 (cout m) (m_cerr m) (world m)
      | Exited status m => Terminated status (cout m) (m_cerr m) (world m)
      | Threw e m =>
          Terminated 1 (cout m) (m_cerr m +:+ "Error: " +:+ what e +:+ endl) (world m)
      | Undefined => UndefinedBehaviour
      | OutOfFuel _ => NoResult
      end
  end.
End Interpreter.

Arguments Machine W : clear implicits.
Arguments Step W : clear implicits.
Arguments Outcome W : clear implicits.
Arguments ProcessResult W : clear implicits.

(** * Sample programs *)

Definition src_while : string :=
  "int main() { int i = 0; while (i < 3) { print(i); i = i + 1; } return 0; }".

Definition src_div_zero : string :=
  "int main() { int a = 7; int b = 0; return a / b; }".

Definition src_block_scope : string :=
  "int main() { { int x = 5; } return x; }".

Definition src_undefined : string := "int main() { return y; }".

Definition src_after_return : string := "int main() { return 0; print(1); }".

Definition src_bool_decl : string := "int main() { bool flag = true; return 0; }".

Definition src_clean : string := "int main() { int x = 5; return x; }".

Definition src_two_loops : string :=
  "int f() { while (0) { } return 0; } int main() { while (0) { } return 0; }".

(** The front end on a source text: the AST, when lexing and parsing
    succeed within [fuel]. *)
Definition front_end (fuel : nat) (source : string) : option Program :=
  match parse fuel (tokenize source) with
  | POk program _ => Some program
  | _ => None
  end.

(** The program that [src_block_scope] parses to. *)
Definition ast_block_scope : Program :=
  mkProgram
    [ mkFunctionDecl "int" "main" []
        (BlockStatement
           [ BlockStatement
               [ VariableDecl "x" "int" (Some (Literal TokenType.INTEGER "5")) ];
             ReturnStatement (Some (Identifier "x")) ]) ].

(** The program that [src_bool_decl] parses to. *)
Definition ast_bool_decl : Program :=
  mkProgram
    [ mkFunctionDecl "int" "main" []
        (BlockStatement
           [ VariableDecl "flag" "bool" (Some (Literal TokenType.TRUE_LIT "1"));
             ReturnStatement (Some (Literal TokenType.INTEGER "0")) ]) ].

(** [a] is the integer part of the magnitude [m * 2^e]: [a <= m * 2^e < a + 1],
    with both sides scaled to integers. *)
Definition is_integer_part (m : positive) (e : Z) (a : Z) : Prop :=
  0 <= a
  /\ a * 2 ^ Z.max 0 (- e) <= Z.pos m * 2 ^ Z.max 0 e < (a + 1) * 2 ^ Z.max 0 (- e).

Definition signed (negative : bool) (a : Z) : Z := if negative then - a else a.

(** A build whose compiler evaluates the arguments of a call from the
    last to the first, and the operands of an operator from left to
    right.  Used to run the model on concrete inputs. *)
Definition sample_build : Build :=
  {| temp_name := fun counter => "t" +:+ to_string_int (counter + 1);
     temp_name_spec := fun counter => or_intror eq_refl;
     left_operand_first := fun _ => true |}.

(** A world without console input and without a display: reading yields
    nothing and no window can be opened.  Used to run the model on
    concrete inputs. *)
#[global] Instance null_world : World unit := {
  getline := fun w => ("", w);
  readSingleKey := fun w => (NUL, w);
  Graphics_new := fun _ _ _ w => (Some "No available video device", w);
  Graphics_delete := fun w => w;
  Graphics_clear := fun _ _ _ w => w;
  Graphics_drawPixel := fun _ _ _ _ _ w => w;
  Graphics_drawRect := fun _ _ _ _ _ _ _ _ w => w;
  Graphics_drawLine := fun _ _ _ _ _ _ _ w => w;
  Graphics_drawCircle := fun _ _ _ _ _ _ _ w => w;
  Graphics_handleEvents := fun w => w;
  Graphics_present := fun w => w;
  Graphics_shouldClose := fun _ => false;
  Graphics_isKeyPressed := fun _ _ => false
}.

(** A text conversion that knows no floating-point numbers; the sample
    runs do not use any. *)
#[global] Instance null_float_text : FloatText := {
  stod := fun _ => inl (invalid_argument "stod");
  to_string_double := fun _ => "";
  cout_double := fun _ => ""
}.

(** [DIV l_a, l_b -> t2] and a machine in which [l_a] and [l_b] hold the
    integers [x] and [y]. *)
Definition sample_div : IRInstruction :=
  mkIRInstruction IROpCode.DIV
    [mkIRValue IRValueType.LOCAL "a" (-1); mkIRValue IRValueType.LOCAL "b" (-1)]
    (mkIRValue IRValueType.TEMP "t2" 2) "" "".

Definition sample_machine (x y : Z) : Machine unit :=
  mkMachine (<["l_a" := VInt x]> (<["l_b" := VInt y]> ∅)) 0 "" "" GNull tt.

(** The programs that [src_undefined] and [src_clean] parse to. *)
Definition ast_undefined : Program :=
  mkProgram
    [ mkFunctionDecl "int" "main" []
        (BlockStatement [ ReturnStatement (Some (Identifier "y")) ]) ].

Definition ast_clean : Program :=
  mkProgram
    [ mkFunctionDecl "int" "main" []
        (BlockStatement
           [ VariableDecl "x" "int" (Some (Literal TokenType.INTEGER "5"));
             ReturnStatement (Some (Identifier "x")) ]) ].

(** Several analyzers run one after the other in the same process: each
    starts from the static flag and the diagnostic stream the previous one
    left. *)
Definition analyze_all (asts : list Program) (errors0 : bool) (cerr0 : string)
  : bool * string :=
  fold_left
    (fun (st : bool * string) ast =>
       let a := analyze ast (fst st) (snd st) in (errors a, cerr a))
    asts (errors0, cerr0).

(** ** Vocabulary for the lexer round trip *)

Fixpoint string_forall (p : ascii -> bool) (s : string) : bool :=
  match s with
  | EmptyString => true
  | String c r => p c && string_forall p r
  end.

(** The text of a numeric literal: a digit followed by digits and dots. *)
Definition number_lexeme (w : string) : bool :=
  match w with
  | String c r => isdigit c && string_forall number_char r
  | EmptyString => false
  end.

(** The text of an identifier or of a keyword. *)
Definition word_lexeme (w : string) : bool :=
  match w with
  | String c r => (isalpha c || ascii_eqb c "_"%char) && string_forall word_char r
  | EmptyString => false
  end.








(** ** Vocabulary for the generated code *)

(** The value [createTemp] returns when the counter is [id], and the name
    [createLabel] returns when the counter is [n]. *)
Definition temp_value (id : Z) : IRValue :=
  mkIRValue IRValueType.TEMP (temp_name id) id.

Definition label_name (n : Z) : string := "L" +:+ to_string_int n.

(** The opcodes whose branch in [exec_instr] can assign to
    [temps[instr.result.toString()]]. *)
Definition writes (op : IROpCode.t) : bool :=
  match op with
  | IROpCode.PRINT | IROpCode.JZ | IROpCode.JMP | IROpCode.LABEL | IROpCode.NEG
  | IROpCode.AND | IROpCode.OR | IROpCode.NOT | IROpCode.JNZ | IROpCode.RET
  | IROpCode.LOAD | IROpCode.LOAD_GLOBAL | IROpCode.STORE_GLOBAL | IROpCode.NOP =>
      false
  | _ => true
  end.

(** The temporary an instruction names as its result, if it names one. *)
Definition result_temp (i : IRInstruction) : option Z :=
  if bool_decide (result i = IRValue_default) then None
  else match irv_type (result i) with
       | IRValueType.TEMP => Some (irv_id (result i))
       | _ => None
       end.

Definition result_temps (instrs : list IRInstruction) : list Z := omap result_temp instrs.

(** The names the LABEL instructions define, in the order of the code. *)
Definition label_names (instrs : list IRInstruction) : list string :=
  omap (fun i => if bool_decide (opcode i = IROpCode.LABEL) then Some (label i)
                 else None) instrs.

(** The result field of a generated instruction: left at its default by
    an opcode that stores nothing, a local variable in a STORE, or a
    temporary with an identifier in [lo, hi). *)
Definition instr_ok (lo hi : Z) (i : IRInstruction) : Prop :=
  (result i = IRValue_default /\ writes (opcode i) = false)
  \/ (irv_type (result i) = IRValueType.LOCAL /\ opcode i = IROpCode.STORE)
  \/ (exists id, lo <= id < hi /\ result i = temp_value id).

Definition symtab_ok (st : gmap string IRValue) : Prop :=
  forall k v, st !! k = Some v -> irv_type v = IRValueType.LOCAL.

Definition add_instrs (new : list IRInstruction) (f : IRFunction) : IRFunction :=
  mkIRFunction (irf_name f) (irf_returnType f) (irf_parameters f)
    (instructions f ++ new).

(** [Gen g g' new rt rl]: going from generator state [g] to [g'] appends
    the instructions [new] to the current function and nothing else; the
    temporaries named by [new] together with the reserved ones [rt] are
    exactly those allocated in between, and likewise for the labels
    defined by [new] and the reserved names [rl]. *)
Definition Gen (g g' : IRGenerator) (new : list IRInstruction)
    (rt : list Z) (rl : list string) : Prop :=
  symtab_ok (symbolTable g) ->
  emitted g' = emitted g
  /\ current g' = add_instrs new <$> current g
  /\ tempCounter g <= tempCounter g'
  /\ labelCounter g <= labelCounter g'
  /\ symtab_ok (symbolTable g')
  /\ Forall (instr_ok (tempCounter g) (tempCounter g')) new
  /\ result_temps new ++ rt ≡ₚ seqZ (tempCounter g) (tempCounter g' - tempCounter g)
  /\ label_names new ++ rl
     ≡ₚ (label_name <$> seqZ (labelCounter g) (labelCounter g' - labelCounter g)).

(** The temporaries of a generated function are [t0 .. t(n-1)], each the
    result of exactly one instruction. *)
Definition temps_dense (f : IRFunction) : Prop :=
  exists n, 0 <= n
            /\ Forall (instr_ok 0 n) (instructions f)
            /\ result_temps (instructions f) ≡ₚ seqZ 0 n.

(** [v] is the temporary number [id]: by its type and its identifier,
    which are what [IRValue::toString] reads.  The name field says
    nothing more and is left out. *)
Definition is_temp (id : Z) (v : IRValue) : Prop :=
  irv_type v = IRValueType.TEMP /\ irv_id v = id.

(** [instr_ok] and [temps_dense] without the name of the temporary. *)
Definition result_ok (lo hi : Z) (i : IRInstruction) : Prop :=
  (result i = IRValue_default /\ writes (opcode i) = false)
  \/ (irv_type (result i) = IRValueType.LOCAL /\ opcode i = IROpCode.STORE)
  \/ (exists id, lo <= id < hi /\ is_temp id (result i)).

Definition dense_temporaries (f : IRFunction) : Prop :=
  exists n, 0 <= n
            /\ Forall (result_ok 0 n) (instructions f)
            /\ result_temps (instructions f) ≡ₚ seqZ 0 n.

(** The labels of the functions of a program, taken one function after
    the other, continue the numbering: the first function uses
    [L(c) .. L(c+n-1)], the next one starts at [L(c+n)]. *)
Fixpoint labels_chain (c : Z) (fs : list IRFunction) (c_end : Z) : Prop :=
  match fs with
  | [] => c = c_end
  | f :: rest =>
      exists n, 0 <= n
                /\ label_names (instructions f) ≡ₚ (label_name <$> seqZ c n)
                /\ labels_chain (c + n) rest c_end
  end.

(** The generator state in which [visitFunction] starts on the body of a
    function: an empty current function and the parameters as locals. *)
Definition cur_instrs (g : IRGenerator) : list IRInstruction :=
  match current g with Some f => instructions f | None => [] end.
(** The program that [src_two_loops] parses to. *)
Definition ast_two_loops : Program :=
  let body :=
    BlockStatement
      [ WhileStatement (Literal TokenType.INTEGER "0") (BlockStatement []);
        ReturnStatement (Some (Literal TokenType.INTEGER "0")) ] in
  mkProgram [ mkFunctionDecl "int" "f" [] body; mkFunctionDecl "int" "main" [] body ].

(** The reading of "the labels restart from L0 in every function". *)
Definition labels_restart (f : IRFunction) : Prop :=
  exists n, label_names (instructions f) ≡ₚ (label_name <$> seqZ 0 n).

(** ** Vocabulary for runs of the interpreter *)

Section Runs.
Context {W : Type} `{World W} `{FloatText}.

(** The machine after [n] passes through the dispatch loop, when the loop
    is still running then. *)
Fixpoint state_after (n : nat) (instrs : list IRInstruction)
    (labels : gmap string nat) (m : Machine W) : option (Machine W) :=
  match n with
  | O => Some m
  | S n' =>
      match instrs !! ip m with
      | None => None
      | Some instr =>
          match exec_instr labels instr m with
          | SNext m' => state_after n' instrs labels (set_ip (S (ip m')) m')
          | SJump m' => state_after n' instrs labels m'
          | _ => None
          end
      end
  end.
End Runs.

(** The programs of the logical-and examples. *)
Definition src_and : string :=
  "int main() { if (1 && 1) { print(1); } else { print(0); } return 0; }".

Definition ast_and : Program :=
  mkProgram
    [ mkFunctionDecl "int" "main" []
        (BlockStatement
           [ IfStatement
               (BinaryOp (Literal TokenType.INTEGER "1") TokenType.AND
                  (Literal TokenType.INTEGER "1"))
               (BlockStatement [ PrintStatement (Literal TokenType.INTEGER "1") ])
               (Some (BlockStatement
                        [ PrintStatement (Literal TokenType.INTEGER "0") ]));
             ReturnStatement (Some (Literal TokenType.INTEGER "0")) ]) ].

(** The function generated for [ast_and], its AND instruction, the JZ
    that follows it, and the machine when the loop reaches that JZ. *)
Definition fn_and : IRFunction :=
  nth 0 (ir_functions (generate ast_and)) (mkIRFunction "" "" [] []).

Definition fn_and_labels : gmap string nat :=
  scan_labels (instructions fn_and) 0 ∅.

Definition and_instr : IRInstruction :=
  mkIRInstruction IROpCode.AND [temp_value 0; temp_value 1] (temp_value 2) "" "".

Definition jz_instr : IRInstruction :=
  mkIRInstruction IROpCode.JZ [temp_value 2] IRValue_default "L1" "".

Definition machine_at_jz : Machine unit :=
  set_ip 3 (set_temp "t1" (VInt 1) (set_temp "t0" (VInt 1) (initial_machine tt))).

(** Generation only appends to the current function. *)
Definition appends (g g' : IRGenerator) : Prop :=
  symtab_ok (symbolTable g) -> is_Some (current g) ->
  exists new,
    cur_instrs g' = cur_instrs g ++ new
    /\ is_Some (current g') /\ symtab_ok (symbolTable g').

(** ** Vocabulary of the invariants *)

(** The number of characters the lexer has not read yet. *)
Definition unread (lx : Lexer) : nat := String.length (rest lx).

(** The code of a character that starts a number or a word, or belongs
    to one. *)
Definition plain_code (c : ascii) : Prop :=
  (code c = 46 \/ 48 <= code c <= 57 \/ 65 <= code c <= 90 \/ code c = 95
   \/ 97 <= code c <= 122)%N.



(** What the lowering of an expression, and of a statement, adds to the
    generator. *)
Definition lowers (e : Expression) : Prop :=
  forall g, exists new, Gen g (snd (visitExpression e g)) new [] [].

Definition lowers_stmt (s : Statement) : Prop :=
  forall g, exists new, Gen g (visitStatement s g) new [] [].

(** The invariant of the loop of [visitProgram]. *)
Definition program_ok (g : IRGenerator) : Prop :=
  Forall temps_dense (program_functions g)
  /\ labels_chain 0 (program_functions g) (labelCounter g).

(** ** Vocabulary for the lexer on single tokens *)

(** A scanning loop with test [p] stops in front of [r]: at the end of the
    input, at a NUL character, or at a character that fails the test. *)
Definition stops (p : ascii -> bool) (r : string) : Prop :=
  match r with
  | EmptyString => True
  | String c _ => negb (ascii_eqb c NUL) && p c = false
  end.

Definition newline : ascii := "010"%char.


(** A character of the inside of a line comment. *)
Definition line_comment_char (c : ascii) : bool :=
  negb (ascii_eqb c NUL) && negb (ascii_eqb c newline).

(** The inside of a block comment: any text that holds no NUL character
    and in which no star is followed by a slash.  Stars, slashes and line
    feeds are allowed. *)
Fixpoint block_comment_body (s : string) : bool :=
  match s with
  | EmptyString => true
  | String c r =>
      negb (ascii_eqb c NUL)
      && negb (ascii_eqb c "*"%char
               && match r with
                  | String d _ => ascii_eqb d "/"%char
                  | EmptyString => false
                  end)
      && block_comment_body r
  end.

(** The position after the characters of [s], from line [ln], column
    [col]. *)
Fixpoint position_after (s : string) (ln col : Z) : Z * Z :=
  match s with
  | EmptyString => (ln, col)
  | String c r => let '(ln', col') := advance_pos c ln col in position_after r ln' col'
  end.

(** ** Vocabulary for the semantic analyzer *)

(** What [reportError] writes for the messages [msgs], one after the
    other. *)
Fixpoint diagnostics (msgs : list string) : string :=
  match msgs with
  | [] => EmptyString
  | msg :: rest => ("Semantic Error: " +:+ msg +:+ endl) +:+ diagnostics rest
  end.

(** [a'] is [a] after the messages [msgs] have been reported, as far as
    the flag and the stream are concerned. *)
Definition reported (msgs : list string) (a a' : Analyzer) : Prop :=
  cerr a' = cerr a +:+ diagnostics msgs
  /\ errors a' = errors a || negb (bool_decide (msgs = [])).

Definition reports (a a' : Analyzer) : Prop := exists msgs, reported msgs a a'.

(** The symbol the first pass of [analyzeProgram] enters for a function. *)
Definition function_symbol (f : FunctionDecl) : Symbol :=
  mkSymbol (fd_name f) (fd_returnType f) true true.

(** The first function of the list with the name [name]. *)
Fixpoint first_function (name : string) (fs : list FunctionDecl)
  : option FunctionDecl :=
  match fs with
  | [] => None
  | f :: rest => if string_eqb (fd_name f) name then Some f else first_function name rest
  end.

(** ** Vocabulary for the shape of the generated code *)

Definition is_jump_or_label (op : IROpCode.t) : bool :=
  match op with
  | IROpCode.JMP | IROpCode.JZ | IROpCode.LABEL => true
  | _ => false
  end.

(** The opcodes of [ir.h] that no function of the generator produces. *)
Definition never_emitted (op : IROpCode.t) : bool :=
  match op with
  | IROpCode.NEG | IROpCode.JNZ | IROpCode.LOAD_GLOBAL | IROpCode.STORE_GLOBAL =>
      true
  | _ => false
  end.

(** The opcodes whose branch in the interpreter reads [operands[0]] and no
    other operand. *)
Definition one_operand (op : IROpCode.t) : bool :=
  match op with
  | IROpCode.JZ | IROpCode.PRINT | IROpCode.STORE | IROpCode.LOAD_INT
  | IROpCode.LOAD_FLOAT | IROpCode.LOAD_STRING => true
  | _ => false
  end.

(** A generated instruction: a jump or a label names one of the labels
    [L(lo) .. L(hi-1)], the opcode is one the generator produces, and an
    opcode that reads one operand has exactly one. *)
Definition emit_ok (lo hi : Z) (i : IRInstruction) : Prop :=
  (is_jump_or_label (opcode i) = true ->
   exists k, lo <= k < hi /\ label i = label_name k)
  /\ never_emitted (opcode i) = false
  /\ (one_operand (opcode i) = true -> length (operands i) = 1%nat).

(** Going from [g] to [g'] appends instructions to the current function,
    all of them well formed with respect to the labels from [L(lo)] on
    that have been allocated, and changes no other function. *)
Definition Emits (lo : Z) (g g' : IRGenerator) : Prop :=
  exists new,
    emitted g' = emitted g
    /\ current g' = add_instrs new <$> current g
    /\ labelCounter g <= labelCounter g'
    /\ Forall (emit_ok lo (labelCounter g')) new.

Definition emits_expr (e : Expression) : Prop :=
  forall lo g, Emits lo g (snd (visitExpression e g)).

Definition emits_stmt (s : Statement) : Prop :=
  forall lo g, lo <= labelCounter g -> Emits lo g (visitStatement s g).

(** What [visitFunction] copies from a declaration. *)
Definition fd_header (d : FunctionDecl) : string * string * list (string * string) :=
  (fd_name d, fd_returnType d, fd_parameters d).
Definition irf_header (f : IRFunction) : string * string * list (string * string) :=
  (irf_name f, irf_returnType f, irf_parameters f).

(** The invariant of the loop of [visitProgram] for the shape of the
    code: the function that starts when the label counter is [c] defines
    the labels [L(c) .. L(c+n-1)], each once, and its jumps name labels
    among them. *)
Fixpoint code_chain (c : Z) (fs : list IRFunction) (c_end : Z) : Prop :=
  match fs with
  | [] => c = c_end
  | f :: rest =>
      exists n, 0 <= n
                /\ label_names (instructions f) ≡ₚ (label_name <$> seqZ c n)
                /\ Forall (emit_ok c (c + n)) (instructions f)
                /\ code_chain (c + n) rest c_end
  end.

Definition program_shape (g : IRGenerator) : Prop :=
  code_chain 0 (program_functions g) (labelCounter g).

(** The position of the last LABEL instruction that defines [l]. *)
Fixpoint last_label (l : string) (instrs : list IRInstruction) : option nat :=
  match instrs with
  | [] => None
  | i :: rest =>
      match last_label l rest with
      | Some k => Some (S k)
      | None =>
          if bool_decide (opcode i = IROpCode.LABEL) && string_eqb (label i) l
          then Some 0%nat else None
      end
  end.

(** The operand a Boolean literal is lowered to: the constant named ["1"]
    for [true] and ["0"] for [false], as the parser builds them. *)
Definition bool_literal (b : bool) : Expression :=
  if b then Literal TokenType.TRUE_LIT "1" else Literal TokenType.FALSE_LIT "0".

Definition bool_operand (b : bool) : IRValue :=
  mkIRValue IRValueType.CONSTANT (if b then "1" else "0") (-1).

Definition src_true : string :=
  "int main() { if (true) { print(1); } else { print(0); } return 0; }".

Definition ast_true : Program :=
  mkProgram
    [ mkFunctionDecl "int" "main" []
        (BlockStatement
           [ IfStatement (Literal TokenType.TRUE_LIT "1")
               (BlockStatement [ PrintStatement (Literal TokenType.INTEGER "1") ])
               (Some (BlockStatement
                        [ PrintStatement (Literal TokenType.INTEGER "0") ]));
             ReturnStatement (Some (Literal TokenType.INTEGER "0")) ]) ].

Definition fn_true : IRFunction :=
  nth 0 (ir_functions (generate ast_true)) (mkIRFunction "" "" [] []).

Definition jz_true : IRInstruction :=
  mkIRInstruction IROpCode.JZ [bool_operand true] IRValue_default "L1" "".

Definition src_negate : string := "int main() { print(-1); return 0; }".


(** [g'] has the code of [g] and more, in the same current function. *)
Definition extends (g g' : IRGenerator) : Prop :=
  is_Some (current g) ->
  exists new, cur_instrs g' = cur_instrs g ++ new /\ is_Some (current g').

(** ** Vocabulary for the interpreter *)

(** The decimal value of a string of digits, on top of [acc]. *)
Fixpoint digits_value (s : string) (acc : Z) : Z :=
  match s with
  | EmptyString => acc
  | String c r => digits_value r (10 * acc + Z.of_N (code c - 48))
  end.


Definition is_main (f : IRFunction) : bool := string_eqb (irf_name f) "main".

(** The machine a pass through the dispatch loop ends with, when the
    behaviour is defined. *)
Definition machine_of {W : Type} (s : Step W) : option (Machine W) :=
  match s with
  | SNext m | SJump m | SBreak m | SExit _ m | SThrow _ m => Some m
  | SUndefined => None
  end.

(** The machine an execution ends with, when the behaviour is defined. *)
Definition final_machine {W : Type} (o : Outcome W) : option (Machine W) :=
  match o with
  | Finished m | Exited _ m | Threw _ m | OutOfFuel m => Some m
  | Undefined => None
  end.

(** [m'] has written what [m] had written, and possibly more. *)
Definition output_grows {W : Type} (m m' : Machine W) : Prop :=
  exists out err, cout m' = cout m +:+ out /\ m_cerr m' = m_cerr m +:+ err.


(** A program whose only function is not called [main]. *)
Definition src_no_main : string := "int start() { print(1); return 0; }".

(** The names the CALL branch of the interpreter knows. *)
Definition known_call (name : string) : bool :=
  string_eqb name "quit" || string_eqb name "isKeyDown"
  || string_eqb name "updateInput".

(** ** Vocabulary for the termination of the parser *)

(** The result [r] is not a fuel failure; when it is a success it leaves
    fewer than [L] tokens; and [r'] is the same result. *)
Definition refines_res {A : Type} (L : nat) (r r' : PRes A) : Prop :=
  match r with
  | POk a ts' => (length ts' < L)%nat /\ r' = POk a ts'
  | PErr msg => r' = PErr msg
  | PFuel => False
  end.

(** With fuel [n] and [13 * length ts + rank] at most [n], the parsing
    function [F] ends on [ts], consumes a token when it succeeds, and
    more fuel does not change its result. *)
Definition settled {A : Type} (rank : nat) (F : nat -> P A) (n : nat) : Prop :=
  forall ts : list Token,
    (13 * length ts + rank <= n)%nat ->
    refines_res (length ts) (F n ts) (F (S n) ts).

Definition expressions_settled (n : nat) : Prop :=
  settled 1 parsePrimary n /\ settled 2 parsePostfix n /\ settled 3 parseUnary n
  /\ settled 4 parseMultiplicative n /\ settled 5 parseAdditive n
  /\ settled 6 parseComparison n /\ settled 7 parseEquality n
  /\ settled 8 parseLogicalAnd n /\ settled 9 parseLogicalOr n
  /\ settled 10 parseAssignment n /\ settled 11 parseComma n.

Definition statements_settled (n : nat) : Prop :=
  settled 12 parseBlockStatement n /\ settled 12 parseIfStatement n
  /\ settled 12 parseWhileStatement n /\ settled 12 parseForStatement n
  /\ settled 13 parseStatement n.

(** Fuel that is enough for the parser on [ts]. *)
Definition parse_fuel (ts : list Token) : nat := 13 * (length ts + 1).

(** The binding strength of a binary operator, read off the nesting of
    the parsing functions: [parseComma] is the outermost, and
    [parseMultiplicative] the innermost level. *)
Definition binary_level (op : TokenType.t) : option nat :=
  match op with
  | TokenType.COMMA => Some 0%nat
  | TokenType.OR => Some 1%nat
  | TokenType.AND => Some 2%nat
  | TokenType.EQUAL | TokenType.NOT_EQUAL => Some 3%nat
  | TokenType.LESS | TokenType.LESS_EQUAL | TokenType.GREATER
  | TokenType.GREATER_EQUAL => Some 4%nat
  | TokenType.PLUS | TokenType.MINUS => Some 5%nat
  | TokenType.STAR | TokenType.SLASH | TokenType.PERCENT => Some 6%nat
  | _ => None
  end.

Definition is_identifier (t : Token) : Prop := tok_type t = TokenType.IDENTIFIER.

Definition src_sum_product : string := "a + b * c;".

(** A statement outside of any function. *)
Definition src_top_level_print : string := "print(1);".

(** ** Vocabulary for the integer coercion and the division *)

(** The sign in front of the digits of a number. *)
Inductive Sign : Set := NoSign | PlusSign | MinusSign.

Definition Sign_text (sg : Sign) : string :=
  match sg with
  | NoSign => EmptyString
  | PlusSign => "+"
  | MinusSign => "-"
  end.

Definition Sign_apply (sg : Sign) (z : Z) : Z :=
  match sg with
  | MinusSign => - z
  | _ => z
  end.

(** [s] does not begin with a character that satisfies [p]. *)
Definition no_leading (p : ascii -> bool) (s : string) : bool :=
  match s with
  | EmptyString => true
  | String c _ => negb (p c)
  end.

(** A character that still belongs to the front of a number when no sign
    has been read: white space or a sign. *)
Definition front_char (c : ascii) : bool :=
  isspace c || ascii_eqb c "+"%char || ascii_eqb c "-"%char.

(** What comes after the white space and the sign [sg] when there is no
    number to read: no digit, and after no sign no further white space
    and no sign either. *)
Definition no_number (sg : Sign) (rest : string) : bool :=
  no_leading isdigit rest
  && match sg with
     | NoSign => no_leading front_char rest
     | _ => true
     end.

(** What DIV and MOD compute: the quotient truncated toward zero, and the
    remainder, which has the sign of the dividend. *)
Definition divmod_result (op : IROpCode.t) (x d : Z) : Z :=
  match op with
  | IROpCode.MOD => Z.rem x d
  | _ => Z.quot x d
  end.

(** No slot of the machine holds a Boolean. *)
Definition no_bool_slot {W : Type} (m : Machine W) : Prop :=
  forall k b, temps m !! k <> Some (VBool b).

Definition src_div_overflow : string :=
  "int main() { int a = 0 - 2147483647 - 1; int b = 0 - 1; return a / b; }".

(** * Properties *)

(** ** End-to-end runs *)

(** C1. The pipeline on the counting loop writes exactly [012] to the
    standard output, nothing to the diagnostic stream, and the process
    ends with status 0, whatever the outside world is. *)
Theorem C1_while_prints_012 :
  forall (W : Type) (HW : World W) (FT : FloatText) (w : W),
    zpp_main 200 src_while w = Terminated 0 "012" "" w.
Proof. intros. vm_compute. reflexivity. Qed.

(** C4. RET has no branch in the dispatch chain of [interpretIR]: the
    instructions after it are executed.  On [src_after_return] the PRINT
    that follows the RET of [return 0;] writes [1]. *)
Theorem C4_ret_does_not_stop :
  forall (W : Type) (HW : World W) (FT : FloatText) (w : W),
    (forall labels ops res lbl pr (m : Machine W),
        exec_instr labels (mkIRInstruction IROpCode.RET ops res lbl pr) m = SNext m)
    /\ zpp_main 200 src_after_return w = Terminated 0 "1" "" w.
Proof.
  intros. split.
  - reflexivity.
  - vm_compute. reflexivity.
Qed.

(** C3. A variable declared in a nested block is still in scope after the
    block: [analyzeBlockStatement] opens no scope, so in a fresh process
    the analysis of [src_block_scope] reports nothing and leaves the error
    flag clear.  (The flag is only found set when an earlier analysis in
    the same process had set it.) *)
Theorem C3_block_scope_leaks :
  front_end 200 src_block_scope = Some ast_block_scope
  /\ hasErrors (analyze ast_block_scope false "") = false
  /\ cerr (analyze ast_block_scope false "") = ""
  /\ hasErrors (analyze ast_block_scope true "") = true.
Proof. vm_compute. repeat split; reflexivity. Qed.

(** C7. [analyzeLiteral] has no case for the Boolean literals: their type
    is ["void"], which is not compatible with ["bool"], so the declaration
    [bool flag = true;] is reported as a type mismatch. *)
Theorem C7_bool_literal_is_void :
  analyzeLiteral TokenType.TRUE_LIT = "void"
  /\ analyzeLiteral TokenType.FALSE_LIT = "void"
  /\ isCompatibleType "void" "bool" = false
  /\ front_end 200 src_bool_decl = Some ast_bool_decl
  /\ hasErrors (analyze ast_bool_decl false "") = true
  /\ cerr (analyze ast_bool_decl false "")
     = "Semantic Error: Variable initialization type mismatch: expected bool, got void"
       +:+ endl.
Proof. vm_compute. repeat split; reflexivity. Qed.

(** ** Integer coercion *)

Lemma in_int_range_spec z : in_int_range z = true <-> INT_MIN <= z <= INT_MAX.
Proof. unfold in_int_range. rewrite andb_true_iff, !Z.leb_le. tauto. Qed.

Lemma quot_in_range x d :
  INT_MIN <= x <= INT_MAX -> INT_MIN <= d <= INT_MAX -> d <> 0 ->
  ~ (x = INT_MIN /\ d = -1) ->
  INT_MIN <= Z.quot x d <= INT_MAX /\ INT_MIN <= Z.rem x d <= INT_MAX.
Proof.
  unfold INT_MIN, INT_MAX. intros Hx Hd Hd0 Hov.
  assert (Hq : Z.abs (Z.quot x d) <= Z.abs x).
  { rewrite <- Z.quot_abs by lia.
    apply Z.quot_le_upper_bound; [lia|].
    assert (1 <= Z.abs d) by lia.
    assert (0 <= Z.abs x) by lia. nia. }
  assert (Hr : Z.abs (Z.rem x d) < Z.abs d) by (apply Z.rem_bound_abs; lia).
  split; [|lia].
  destruct (Z.eq_dec x (-2147483648)) as [->|Hne]; [|lia].
  assert (d <> -1) by tauto.
  destruct (Z.eq_dec d 1) as [->|Hd1].
  - rewrite Z.quot_1_r. lia.
  - assert (2 <= Z.abs d) by lia.
    assert (Z.abs (Z.quot (-2147483648) d) <= 1073741824).
    { rewrite <- Z.quot_abs by lia. apply Z.quot_le_upper_bound; lia. }
    lia.
Qed.
Lemma pretty_N_char_digit d :
  (d < 10)%N ->
  isdigit (pretty_N_char d) = true /\ Z.of_N (code (pretty_N_char d) - 48) = Z.of_N d.
Proof.
  intros Hd.
  assert (d = 0 \/ d = 1 \/ d = 2 \/ d = 3 \/ d = 4 \/ d = 5 \/ d = 6 \/ d = 7
          \/ d = 8 \/ d = 9)%N as Hcases by lia.
  repeat (destruct Hcases as [-> | Hcases]; [split; reflexivity|]).
  subst. split; reflexivity.
Qed.

Lemma isdigit_not_space c : isdigit c = true -> isspace c = false.
Proof.
  unfold isdigit, isspace. intros Hd.
  apply andb_true_iff in Hd as [H1 H2].
  apply N.leb_le in H1. apply N.leb_le in H2.
  apply orb_false_iff. split.
  - apply andb_false_iff. right. apply N.leb_gt. lia.
  - apply N.eqb_neq. lia.
Qed.

Lemma isdigit_not_char c d :
  isdigit c = true -> isdigit d = false -> ascii_eqb c d = false.
Proof.
  intros Hc Hd. unfold ascii_eqb. apply bool_decide_eq_false. congruence.
Qed.

Lemma leading_digits_pretty_go x :
  forall s acc cnt,
    exists k n,
      leading_digits (pretty_N_go x s) acc cnt
      = leading_digits s (acc * 10 ^ k + Z.of_N x) (cnt + n)
      /\ 0 <= k /\ ((0 < x)%N -> (0 < n)%nat).
Proof.
  induction (N.lt_wf_0 x) as [x _ IH]. intros s acc cnt.
  destruct (N.eq_dec x 0%N) as [->|Hx].
  - exists 0, 0%nat. rewrite pretty_N_go_0. split; [|split; [lia|lia]].
    f_equal; lia.
  - assert (0 < x)%N as Hpos by lia.
    rewrite pretty_N_go_step by done.
    destruct (IH (x `div` 10)%N (N.div_lt x 10 Hpos eq_refl)
                (String (pretty_N_char (x `mod` 10)) s) acc cnt)
      as (k & n & Heq & Hk & _).
    rewrite Heq. cbn [leading_digits].
    destruct (pretty_N_char_digit (x `mod` 10)%N) as [Hdig Hval].
    { apply N.mod_lt. lia. }
    rewrite Hdig, Hval.
    exists (k + 1), (S n). split; [|split; [lia|lia]].
    f_equal; [|lia].
    rewrite Z.pow_add_r by lia.
    assert (HZ : Z.of_N x = 10 * Z.of_N (x `div` 10) + Z.of_N (x `mod` 10)).
    { rewrite (N.div_mod x 10) at 1 by done.
      rewrite N2Z.inj_add, N2Z.inj_mul. reflexivity. }
    lia.
Qed.

Lemma pretty_N_go_head x s :
  (0 < x)%N -> exists c r, pretty_N_go x s = String c r /\ isdigit c = true.
Proof.
  revert s. induction (N.lt_wf_0 x) as [x _ IH]. intros s Hpos.
  rewrite pretty_N_go_step by done.
  destruct (N.eq_dec (x `div` 10)%N 0%N) as [Hz|Hnz].
  - rewrite Hz, pretty_N_go_0. eexists _, _. split; [reflexivity|].
    apply pretty_N_char_digit, N.mod_lt. lia.
  - apply IH; [apply N.div_lt; lia | by apply N.neq_0_lt_0].
Qed.

Lemma stoi_digits (neg : bool) (p : positive) :
  in_int_range (signed neg (Z.pos p)) = true ->
  forall c r, pretty_N_go (N.pos p) "" = String c r -> isdigit c = true ->
    (let '(magnitude, count) := leading_digits (String c r) 0 0 in
     match count with
     | O => inl (invalid_argument "stoi")
     | S _ =>
         let v := if neg then - magnitude else magnitude in
         if in_int_range v then inr v else inl (out_of_range "stoi")
     end) = (inr (signed neg (Z.pos p)) : Exn + Z).
Proof.
  intros Hr c r Hs Hc. rewrite <- Hs.
  destruct (leading_digits_pretty_go (N.pos p) "" 0 0) as (k & n & Heq & _ & Hn).
  rewrite Heq. cbn [leading_digits].
  specialize (Hn eq_refl). destruct n as [|n]; [lia|].
  replace (0 * 10 ^ k + Z.of_N (N.pos p)) with (Z.pos p) by lia.
  cbn [Nat.add]. unfold signed in Hr. rewrite Hr. reflexivity.
Qed.

Lemma stoi_to_string z : in_int_range z = true -> stoi (to_string_int z) = inr z.
Proof.
  intros Hz. destruct z as [|p|p].
  - reflexivity.
  - unfold to_string_int, pretty, pretty_Z, pretty, pretty_positive, pretty, pretty_N.
    rewrite decide_False by done.
    destruct (pretty_N_go_head (N.pos p) "" eq_refl) as (c & r & Hs & Hc).
    unfold stoi. rewrite Hs. cbn [skip_spaces].
    rewrite (isdigit_not_space c Hc).
    rewrite (isdigit_not_char c "-"%char Hc eq_refl).
    rewrite (isdigit_not_char c "+"%char Hc eq_refl).
    apply (stoi_digits false p Hz c r Hs Hc).
  - unfold to_string_int, pretty, pretty_Z, pretty, pretty_positive, pretty, pretty_N.
    rewrite decide_False by done.
    destruct (pretty_N_go_head (N.pos p) "" eq_refl) as (c & r & Hs & Hc).
    unfold stoi. cbn [String.append skip_spaces].
    change (isspace "-") with false. cbv iota.
    change (ascii_eqb "-" "-") with true. cbv iota.
    rewrite Hs. apply (stoi_digits true p Hz c r Hs Hc).
Qed.

Lemma stoi_failure s e :
  stoi s = inl e -> e = invalid_argument "stoi" \/ e = out_of_range "stoi".
Proof.
  unfold stoi.
  destruct (match skip_spaces s with
            | String c r => _ | EmptyString => _ end) as [negative s2].
  destruct (leading_digits s2 0 0) as [magnitude [|count]].
  - intros [= <-]. by left.
  - destruct (in_int_range _); [discriminate|]. intros [= <-]. by right.
Qed.

Lemma integer_part_exists m e : exists a, is_integer_part m e a.
Proof.
  unfold is_integer_part. destruct (Z.leb_spec 0 e) as [He|He].
  - exists (Z.pos m * 2 ^ e).
    rewrite (Z.max_l 0 (- e)), (Z.max_r 0 e) by lia. rewrite Z.pow_0_r.
    assert (0 < 2 ^ e) by (apply Z.pow_pos_nonneg; lia). nia.
  - exists (Z.pos m / 2 ^ (- e)).
    rewrite (Z.max_r 0 (- e)), (Z.max_l 0 e) by lia. rewrite Z.pow_0_r.
    assert (Hp : 0 < 2 ^ (- e)) by (apply Z.pow_pos_nonneg; lia).
    pose proof (Z.div_mod (Z.pos m) (2 ^ (- e)) ltac:(lia)) as Hdm.
    pose proof (Z.mod_pos_bound (Z.pos m) (2 ^ (- e)) Hp) as Hmod.
    assert (0 <= Z.pos m / 2 ^ (- e)) by (apply Z.div_pos; lia).
    nia.
Qed.

Lemma double_to_int_truncates s m e a :
  is_integer_part m e a ->
  double_to_int (S754_finite s m e)
  = if in_int_range (signed s a) then Some (signed s a) else None.
Proof.
  unfold is_integer_part, double_to_int, signed. intros (Ha & Hlo & Hhi).
  assert (Hmag : (if 0 <=? e then Z.pos m * 2 ^ e else Z.pos m / 2 ^ (- e)) = a).
  { destruct (Z.leb_spec 0 e) as [He|He].
    - rewrite (Z.max_l 0 (- e)), (Z.max_r 0 e) in * by lia.
      rewrite Z.pow_0_r in *. lia.
    - rewrite (Z.max_r 0 (- e)), (Z.max_l 0 e) in * by lia.
      rewrite Z.pow_0_r in *.
      assert (0 < 2 ^ (- e)) by (apply Z.pow_pos_nonneg; lia).
      symmetry. apply (Z.div_unique_pos _ _ a (Z.pos m - a * 2 ^ (- e))); lia. }
  by rewrite Hmag.
Qed.

(** The loop of [std::stoi] over the digits. *)
Lemma leading_digits_app ds rest : forall acc cnt,
  string_forall isdigit ds = true -> no_leading isdigit rest = true ->
  leading_digits (ds +:+ rest) acc cnt
  = (digits_value ds acc, (cnt + String.length ds)%nat).
Proof.
  induction ds as [|c ds IH]; intros acc cnt Hds Hrest.
  - change (EmptyString +:+ rest) with rest. cbn [digits_value String.length].
    rewrite Nat.add_0_r. destruct rest as [|c r]; [done|].
    cbn [no_leading] in Hrest. apply negb_true_iff in Hrest.
    cbn [leading_digits]. by rewrite Hrest.
  - cbn [string_forall] in Hds. apply andb_true_iff in Hds as [Hc Hds].
    change (String c ds +:+ rest) with (String c (ds +:+ rest)).
    cbn [leading_digits digits_value String.length]. rewrite Hc, IH by done.
    f_equal. lia.
Qed.

Lemma skip_spaces_app ws t :
  string_forall isspace ws = true -> no_leading isspace t = true ->
  skip_spaces (ws +:+ t) = t.
Proof.
  intros Hws Ht. induction ws as [|c ws IH].
  - change (EmptyString +:+ t) with t. destruct t as [|c r]; [done|].
    cbn [no_leading] in Ht. apply negb_true_iff in Ht.
    cbn [skip_spaces]. by rewrite Ht.
  - cbn [string_forall] in Hws. apply andb_true_iff in Hws as [Hc Hws].
    change (String c ws +:+ t) with (String c (ws +:+ t)).
    cbn [skip_spaces]. rewrite Hc. by apply IH.
Qed.

(** [std::stoi] on white space, a sign, digits and a rest. *)
Lemma stoi_number ws sg ds rest :
  string_forall isspace ws = true ->
  string_forall isdigit ds = true -> ds <> EmptyString ->
  no_leading isdigit rest = true ->
  stoi (ws +:+ Sign_text sg +:+ ds +:+ rest)
  = if in_int_range (Sign_apply sg (digits_value ds 0))
    then inr (Sign_apply sg (digits_value ds 0))
    else inl (out_of_range "stoi").
Proof.
  intros Hws Hds Hne Hrest.
  destruct ds as [|c ds]; [done|]. clear Hne.
  pose proof Hds as Hall. cbn [string_forall] in Hds.
  apply andb_true_iff in Hds as [Hc _].
  pose proof (leading_digits_app (String c ds) rest 0 0 Hall Hrest) as Hdigits.
  cbn [String.length Nat.add] in Hdigits.
  unfold stoi. rewrite skip_spaces_app; [|done|].
  - destruct sg; cbn [Sign_text Sign_apply].
    + change (EmptyString +:+ String c ds +:+ rest) with (String c ds +:+ rest).
      change (String c ds +:+ rest) with (String c (ds +:+ rest)) in *.
      cbv iota beta.
      rewrite (isdigit_not_char c "-"%char Hc eq_refl).
      rewrite (isdigit_not_char c "+"%char Hc eq_refl).
      by rewrite Hdigits.
    + change ("+" +:+ String c ds +:+ rest) with (String "+" (String c ds +:+ rest)).
      cbv iota beta.
      change (ascii_eqb "+" "-") with false. change (ascii_eqb "+" "+") with true.
      cbv iota beta. by rewrite Hdigits.
    + change ("-" +:+ String c ds +:+ rest) with (String "-" (String c ds +:+ rest)).
      cbv iota beta.
      change (ascii_eqb "-" "-") with true. cbv iota beta. by rewrite Hdigits.
  - destruct sg; cbn [Sign_text]; [|done..].
    change (EmptyString +:+ String c ds +:+ rest) with (String c (ds +:+ rest)).
    cbn [no_leading]. by rewrite (isdigit_not_space c Hc).
Qed.

(** [std::stoi] when no digit follows the white space and the sign. *)
Lemma stoi_no_number ws sg rest :
  string_forall isspace ws = true -> no_number sg rest = true ->
  stoi (ws +:+ Sign_text sg +:+ rest) = inl (invalid_argument "stoi").
Proof.
  intros Hws Hrest. unfold no_number in Hrest.
  apply andb_true_iff in Hrest as [Hdigit Hfront].
  assert (Hnone : forall acc cnt, leading_digits rest acc cnt = (acc, cnt)).
  { intros acc cnt. destruct rest as [|c r]; [done|].
    cbn [no_leading] in Hdigit. apply negb_true_iff in Hdigit.
    cbn [leading_digits]. by rewrite Hdigit. }
  unfold stoi. rewrite skip_spaces_app; [|done|].
  - destruct sg; cbn [Sign_text].
    + change (EmptyString +:+ rest) with rest. destruct rest as [|c r]; [done|].
      cbn [no_leading] in Hfront. unfold front_char in Hfront.
      apply negb_true_iff in Hfront.
      apply orb_false_iff in Hfront as [Hfront Hminus].
      apply orb_false_iff in Hfront as [_ Hplus].
      cbv iota beta. rewrite Hminus, Hplus. by rewrite Hnone.
    + change ("+" +:+ rest) with (String "+" rest). cbv iota beta.
      change (ascii_eqb "+" "-") with false. change (ascii_eqb "+" "+") with true.
      cbv iota beta. by rewrite Hnone.
    + change ("-" +:+ rest) with (String "-" rest). cbv iota beta.
      change (ascii_eqb "-" "-") with true. cbv iota beta. by rewrite Hnone.
  - destruct sg; cbn [Sign_text]; [|done..].
    change (EmptyString +:+ rest) with rest. destruct rest as [|c r]; [done|].
    cbn [no_leading] in *. unfold front_char in Hfront.
    apply negb_true_iff in Hfront.
    apply orb_false_iff in Hfront as [Hfront _].
    apply orb_false_iff in Hfront as [Hspace _]. by rewrite Hspace.
Qed.

(** Every string is white space, a sign, digits and a rest in the sense
    of the two lemmas above. *)
Lemma split_spaces s :
  exists ws t, s = ws +:+ t /\ string_forall isspace ws = true
               /\ no_leading isspace t = true.
Proof.
  induction s as [|c s (ws & t & Hs & Hws & Ht)].
  - by exists EmptyString, EmptyString.
  - destruct (isspace c) eqn:Hc.
    + exists (String c ws), t. split; [by rewrite Hs|].
      split; [|done]. cbn [string_forall]. by rewrite Hc.
    + exists EmptyString, (String c s). split; [done|]. split; [done|].
      cbn [no_leading]. by rewrite Hc.
Qed.

Lemma split_digits s :
  exists ds rest, s = ds +:+ rest /\ string_forall isdigit ds = true
                  /\ no_leading isdigit rest = true.
Proof.
  induction s as [|c s (ds & rest & Hs & Hds & Hrest)].
  - by exists EmptyString, EmptyString.
  - destruct (isdigit c) eqn:Hc.
    + exists (String c ds), rest. split; [by rewrite Hs|].
      split; [|done]. cbn [string_forall]. by rewrite Hc.
    + exists EmptyString, (String c s). split; [done|]. split; [done|].
      cbn [no_leading]. by rewrite Hc.
Qed.

Lemma number_shape s :
  exists ws sg ds rest,
    s = ws +:+ Sign_text sg +:+ ds +:+ rest
    /\ string_forall isspace ws = true
    /\ string_forall isdigit ds = true
    /\ no_leading isdigit rest = true
    /\ (ds = EmptyString -> no_number sg rest = true).
Proof.
  destruct (split_spaces s) as (ws & t & -> & Hws & Ht).
  assert (Hsigned : forall sg r,
             exists ds rest,
               Sign_text sg +:+ r = Sign_text sg +:+ ds +:+ rest
               /\ string_forall isdigit ds = true
               /\ no_leading isdigit rest = true
               /\ (sg <> NoSign -> ds = EmptyString -> no_number sg rest = true)).
  { intros sg r. destruct (split_digits r) as (ds & rest & -> & Hds & Hrest).
    exists ds, rest. split; [done|]. split; [done|]. split; [done|].
    intros Hsg _. unfold no_number. rewrite Hrest. by destruct sg. }
  destruct t as [|c r].
  { exists ws, NoSign, EmptyString, EmptyString. by repeat split. }
  destruct (ascii_eqb c "-"%char) eqn:Hminus.
  { unfold ascii_eqb in Hminus. apply bool_decide_eq_true in Hminus as ->.
    destruct (Hsigned MinusSign r) as (ds & rest & Hr & Hds & Hrest & Hnone).
    exists ws, MinusSign, ds, rest. split; [by rewrite <- Hr|].
    repeat split; try done. by apply Hnone. }
  destruct (ascii_eqb c "+"%char) eqn:Hplus.
  { unfold ascii_eqb in Hplus. apply bool_decide_eq_true in Hplus as ->.
    destruct (Hsigned PlusSign r) as (ds & rest & Hr & Hds & Hrest & Hnone).
    exists ws, PlusSign, ds, rest. split; [by rewrite <- Hr|].
    repeat split; try done. by apply Hnone. }
  destruct (split_digits (String c r)) as (ds & rest & Hr & Hds & Hrest).
  exists ws, NoSign, ds, rest. split; [by rewrite Hr|].
  repeat split; try done. intros ->.
  change (EmptyString +:+ rest) with rest in Hr. subst rest.
  unfold no_number. rewrite Hrest. cbn [andb no_leading] in *. unfold front_char.
  apply negb_true_iff in Ht. by rewrite Ht, Hplus, Hminus.
Qed.

Section BooleansAreNotStored.
Context {W : Type} `{World W} `{FloatText}.

Lemma temps_at_no_bool (m : Machine W) k b :
  no_bool_slot m -> temps_at k m <> VBool b.
Proof.
  intros Hno. unfold temps_at. destruct (temps m !! k) as [v|] eqn:Hk; [|done].
  cbn. intros ->. by apply (Hno k b).
Qed.

Lemma no_bool_set_temp k v (m : Machine W) :
  (forall b, v <> VBool b) -> no_bool_slot m -> no_bool_slot (set_temp k v m).
Proof.
  intros Hv Hno k' b. cbn [set_temp temps].
  destruct (decide (k' = k)) as [->|Hne].
  - rewrite lookup_insert_eq. intros [= ->]. by apply (Hv b).
  - rewrite lookup_insert_ne by done. apply Hno.
Qed.

(** No branch of the dispatch loop stores a Boolean. *)
Lemma exec_instr_no_bool labels instr (m m' : Machine W) :
  machine_of (exec_instr labels instr m) = Some m' ->
  no_bool_slot m -> no_bool_slot m'.
Proof.
  intros Hexec Hno.
  assert (Hop : forall n v, operand_value instr n m = Some v -> forall b, v <> VBool b).
  { intros n v Hv b. unfold operand_value in Hv.
    destruct (operands instr !! n); [|done]. injection Hv as <-.
    by apply temps_at_no_bool. }
  unfold exec_instr, exec_arith, exec_divmod, exec_compare, exec_draw, exec_screen,
    exec_present, exec_quit, exec_isKeyDown, exec_updateInput in Hexec.
  destruct (opcode instr);
    repeat case_match; cbn [machine_of] in Hexec; simplify_eq;
    try exact Hno;
    try (apply no_bool_set_temp; [by eauto|exact Hno]).
Qed.

Lemma state_after_no_bool instrs labels : forall n (m m' : Machine W),
  state_after n instrs labels m = Some m' -> no_bool_slot m -> no_bool_slot m'.
Proof.
  induction n as [|n IH]; intros m m' Hrun Hno; cbn [state_after] in Hrun.
  - by simplify_eq.
  - destruct (instrs !! ip m) as [instr|]; [|done].
    pose proof (exec_instr_no_bool labels instr m) as Hstep.
    destruct (exec_instr labels instr m) as [m1|m1|m1|st m1|e m1|]; try done.
    + eapply IH; [exact Hrun|]. by apply (Hstep m1).
    + eapply IH; [exact Hrun|]. by apply (Hstep m1).
Qed.

(** C5 (as the code has it). The coercion [toInt] of the arithmetic
    opcodes returns an [int] unchanged.  Of a [double] it discards the
    fractional part: zero gives 0, and a finite value gives its integer
    part (every finite value has one) with its sign when that fits in
    [int]; otherwise, and for an infinity or a NaN, the conversion is
    undefined.  A string is read as
    [std::stoi] reads it: white space, an optional sign, decimal digits,
    the rest being ignored; the result is the signed value, or
    [out_of_range] when it does not fit in [int], or [invalid_argument]
    when there is no digit to read; every string is of one of these two
    forms.  A Boolean makes the coercion throw
    [runtime_error("Cannot convert to int")]; but no instruction stores a
    Boolean, so in a run no slot ever holds one and that branch is never
    taken. *)
Theorem C5_toInt_amended :
  (forall i, toInt (VInt i) = Some (inr i))
  /\ (forall s, toInt (VDouble (S754_zero s)) = Some (inr 0))
  /\ (forall m e, exists a, is_integer_part m e a)
  /\ (forall s m e a,
        is_integer_part m e a ->
        toInt (VDouble (S754_finite s m e))
        = if in_int_range (signed s a) then Some (inr (signed s a)) else None)
  /\ (forall s, toInt (VDouble (S754_infinity s)) = None)
  /\ toInt (VDouble S754_nan) = None
  /\ (forall ws sg ds rest,
        string_forall isspace ws = true ->
        string_forall isdigit ds = true -> ds <> EmptyString ->
        no_leading isdigit rest = true ->
        toInt (VString (ws +:+ Sign_text sg +:+ ds +:+ rest))
        = Some (if in_int_range (Sign_apply sg (digits_value ds 0))
                then inr (Sign_apply sg (digits_value ds 0))
                else inl (out_of_range "stoi")))
  /\ (forall ws sg rest,
        string_forall isspace ws = true -> no_number sg rest = true ->
        toInt (VString (ws +:+ Sign_text sg +:+ rest))
        = Some (inl (invalid_argument "stoi")))
  /\ (forall s, exists ws sg ds rest,
        s = ws +:+ Sign_text sg +:+ ds +:+ rest
        /\ string_forall isspace ws = true
        /\ string_forall isdigit ds = true
        /\ no_leading isdigit rest = true
        /\ (ds = EmptyString -> no_number sg rest = true))
  /\ (forall b, toInt (VBool b) = Some (inl (runtime_error "Cannot convert to int")))
  /\ (forall labels instr (m m' : Machine W),
        machine_of (exec_instr labels instr m) = Some m' ->
        no_bool_slot m -> no_bool_slot m')
  /\ (forall instrs labels n (m0 m : Machine W) k,
        state_after n instrs labels (enter_function m0) = Some m ->
        (forall b, temps_at k m <> VBool b)
        /\ toInt (temps_at k m) <> Some (inl (runtime_error "Cannot convert to int"))).
Proof.
  split; [reflexivity|]. split; [reflexivity|].
  split; [exact integer_part_exists|].
  split.
  { intros s m e a Ha. cbn [toInt]. rewrite (double_to_int_truncates s m e a Ha).
    by destruct (in_int_range (signed s a)). }
  split; [reflexivity|]. split; [reflexivity|].
  split.
  { intros ws sg ds rest Hws Hds Hne Hrest. cbn [toInt]. f_equal.
    by apply stoi_number. }
  split.
  { intros ws sg rest Hws Hrest. cbn [toInt]. f_equal. by apply stoi_no_number. }
  split; [exact number_shape|].
  split; [reflexivity|].
  split; [exact exec_instr_no_bool|].
  intros instrs labels n m0 m k Hrun.
  assert (Hno : no_bool_slot m).
  { eapply state_after_no_bool; [exact Hrun|]. intros k' b. cbn.
    by rewrite lookup_empty. }
  split; [intros b; by apply temps_at_no_bool|].
  pose proof (fun b => temps_at_no_bool m k b Hno) as Hk.
  destruct (temps_at k m) as [i|d|s|b]; cbn [toInt]; try done.
  - by destruct (double_to_int d).
  - intros [= Hs]. by destruct (stoi_failure s _ Hs).
  - by destruct (Hk b).
Qed.
End BooleansAreNotStored.


(** C5 fails as stated: a Boolean is not mapped to 0 or 1, the coercion
    throws. *)
Lemma C5_counterexample :
  toInt (VBool true) = Some (inl (runtime_error "Cannot convert to int"))
  /\ toInt (VBool true) <> Some (inr 1)
  /\ toInt (VBool false) <> Some (inr 0).
Proof. repeat split; discriminate. Qed.

(** ** Division *)

(** C2 (as the code has it). DIV and MOD convert the divisor first: when
    it is 0 the instruction throws [runtime_error("Division by zero")]
    and nothing is stored.  For any other divisor the dividend is
    converted, and the result slot then holds the quotient truncated
    toward zero (for MOD the remainder), every other slot and the
    output being as before, except when the operands are [INT_MIN] and
    [-1]: that division is undefined.  On [src_div_zero] the process
    writes the diagnostic to the error stream and ends with status 1. *)
Theorem C2_division_amended :
  forall (W : Type) (HW : World W) (FT : FloatText) (w : W)
         (labels : gmap string nat) (instr : IRInstruction) (m : Machine W)
         (a b : IRValue),
    opcode instr = IROpCode.DIV \/ opcode instr = IROpCode.MOD ->
    operands instr !! 0%nat = Some a ->
    operands instr !! 1%nat = Some b ->
    let dividend := temps_at (IRValue_toString a) m in
    let divisor := temps_at (IRValue_toString b) m in
    (toInt divisor = Some (inr 0) ->
     exec_instr labels instr m = SThrow (runtime_error "Division by zero") m)
    /\ (forall x d,
          toInt dividend = Some (inr x) -> toInt divisor = Some (inr d) ->
          d <> 0 -> ~ (x = INT_MIN /\ d = -1) ->
          exists m',
            exec_instr labels instr m = SNext m'
            /\ temps m' !! result_key instr
               = Some (VInt (divmod_result (opcode instr) x d))
            /\ (forall k, k <> result_key instr -> temps m' !! k = temps m !! k)
            /\ cout m' = cout m /\ m_cerr m' = m_cerr m /\ ip m' = ip m
            /\ (in_int_range x = true -> in_int_range d = true ->
                in_int_range (divmod_result (opcode instr) x d) = true))
    /\ (forall x d,
          dividend = VInt x -> divisor = VInt d ->
          exec_instr labels instr m
          = if d =? 0 then SThrow (runtime_error "Division by zero") m
            else if (x =? INT_MIN) && (d =? -1) then SUndefined
            else SNext (set_temp (result_key instr)
                          (VInt (divmod_result (opcode instr) x d)) m))
    /\ (toInt dividend = Some (inr INT_MIN) -> toInt divisor = Some (inr (-1)) ->
        exec_instr labels instr m = SUndefined)
    /\ zpp_main 200 src_div_zero w
       = Terminated 1 "" ("Error: Division by zero" +:+ endl) w.
Proof.
  intros W HW FT w labels instr m a b Hop Hop0 Hop1 dividend divisor.
  assert (Hexec : exec_instr labels instr m
                  = exec_divmod (divmod_result (opcode instr)) instr m).
  { unfold exec_instr. by destruct Hop as [-> | ->]. }
  assert (Hvals : operand_value instr 0 m = Some dividend
                  /\ operand_value instr 1 m = Some divisor).
  { unfold operand_value. by rewrite Hop0, Hop1. }
  destruct Hvals as [Ha Hb].
  rewrite Hexec. unfold exec_divmod. rewrite Ha, Hb.
  split; [|split; [|split; [|split]]].
  - intros Hd. by rewrite Hd.
  - intros x d Hx Hd Hd0 Hov. rewrite Hd, Hx.
    destruct (Z.eqb_spec d 0) as [?|_]; [done|].
    assert (Hpair : (x =? INT_MIN) && (d =? -1) = false).
    { apply andb_false_iff.
      destruct (Z.eqb_spec x INT_MIN) as [Hx'|?]; [|by left].
      destruct (Z.eqb_spec d (-1)) as [Hd'|?]; [|by right]. by destruct Hov. }
    rewrite Hpair. eexists. split; [reflexivity|].
    split; [cbn; by rewrite lookup_insert_eq|].
    split; [intros k Hk; cbn; by rewrite lookup_insert_ne|].
    split; [done|]. split; [done|]. split; [done|].
    intros Hxr Hdr. apply in_int_range_spec in Hxr, Hdr.
    destruct (quot_in_range x d Hxr Hdr Hd0 Hov) as [Hq Hr].
    apply in_int_range_spec. by destruct Hop as [-> | ->].
  - intros x d Hx Hd. rewrite Hd, Hx. reflexivity.
  - intros Hx Hd. by rewrite Hd, Hx.
  - vm_compute. reflexivity.
Qed.



(** ** The error flag of the semantic analyzer *)

Lemma reportError_sets message a : errors (reportError message a) = true.
Proof. reflexivity. Qed.

Lemma enterScope_errors a : errors (enterScope a) = errors a.
Proof. reflexivity. Qed.

Lemma exitScope_errors a : errors (exitScope a) = errors a.
Proof. unfold exitScope. by destruct (scopes a) as [|? [|? ?]]. Qed.

Lemma declare_or_report_sticky name symbol a :
  errors a = true -> errors (declare_or_report name symbol a) = true.
Proof.
  unfold declare_or_report. intros Ha.
  destruct (scopes a) as [|sc parents]; [done|].
  by destruct (Scope_declare name symbol sc).
Qed.

Lemma fold_left_sticky {A} (f : Analyzer -> A -> Analyzer) (l : list A) :
  (forall x a, In x l -> errors a = true -> errors (f a x) = true) ->
  forall a, errors a = true -> errors (fold_left f l a) = true.
Proof.
  induction l as [|x l IH]; intros Hf a Ha; [done|].
  cbn [fold_left]. apply IH.
  - intros y b Hy. apply Hf. by right.
  - apply Hf; [by left|done].
Qed.

Lemma list_all_In {A} (Q : A -> Prop) (l : list A) :
  list_all A Q l -> forall x, In x l -> Q x.
Proof.
  induction 1 as [|a Ha l _ IH]; intros x Hx; [done|].
  destruct Hx as [<-|Hx]; [done|by apply IH].
Qed.

Lemma analyzeExpression_sticky expr :
  forall a, errors a = true -> errors (snd (analyzeExpression expr a)) = true.
Proof.
  induction expr as
    [ type value | name | l IHl op r IHr | op operand IH | name arguments IH
    | prm _ | prm _ | array IHa index IHi | name value IH ];
    intros a Ha; cbn [analyzeExpression].
  - done.
  - unfold analyzeIdentifier. by destruct (Scope_lookup name (scopes a)).
  - specialize (IHl a Ha). destruct (analyzeExpression l a) as [lt a1].
    specialize (IHr a1 IHl). by destruct (analyzeExpression r a1) as [rt a2].
  - specialize (IH a Ha). destruct (analyzeExpression operand a) as [t a1].
    by destruct op.
  - destruct (Scope_lookup name (scopes a)) as [symbol|]; [|done].
    destruct (sym_isFunction symbol); [|done]. cbn [negb snd].
    apply fold_left_sticky; [|done].
    intros x b Hx Hb. by apply (list_all_In _ _ IH x Hx).
  - done.
  - done.
  - specialize (IHa a Ha). destruct (analyzeExpression array a) as [ta a1].
    specialize (IHi a1 IHa). by destruct (analyzeExpression index a1) as [ti a2].
  - destruct (Scope_lookup name (scopes a)) as [symbol|]; [|done].
    specialize (IH a Ha). destruct (analyzeExpression value a) as [t a1].
    cbn [snd] in *. by destruct (negb _).
Qed.

Lemma analyzeStatement_sticky stmt :
  forall a, errors a = true -> errors (analyzeStatement stmt a) = true.
Proof.
  induction stmt as
    [ e | e | statements IH | e | cond thenB IHt elseB IHe | cond body IH
    | init IHi cond incr body IHb | name type init ];
    intros a Ha; cbn [analyzeStatement].
  - by apply analyzeExpression_sticky.
  - done.
  - apply fold_left_sticky; [|done].
    intros x b Hx Hb. by apply (list_all_In _ _ IH x Hx).
  - unfold analyzeReturnStatement. destruct e as [e|]; [|done].
    pose proof (analyzeExpression_sticky e a Ha) as He.
    destruct (analyzeExpression e a) as [t a1]. cbn [snd] in He.
    by destruct (negb _).
  - pose proof (analyzeExpression_sticky cond a Ha) as Hc.
    destruct (analyzeExpression cond a) as [t a1]. cbn [snd] in Hc.
    specialize (IHt a1 Hc).
    destruct IHe as [s Hs|]; [by apply Hs|done].
  - pose proof (analyzeExpression_sticky cond a Ha) as Hc.
    destruct (analyzeExpression cond a) as [t a1]. by apply IH.
  - rewrite exitScope_errors. apply IHb.
    assert (H1 : errors (match init with
                         | Some s => analyzeStatement s (enterScope a)
                         | None => enterScope a end) = true).
    { destruct IHi as [s Hs|]; [by apply Hs|done]. }
    assert (H2 : forall (o : option Expression) b, errors b = true ->
                 errors (match o with
                         | Some e => snd (analyzeExpression e b)
                         | None => b end) = true).
    { intros [e|] b Hb; [by apply analyzeExpression_sticky|done]. }
    by apply H2, H2.
  - unfold analyzeVariableDecl. apply declare_or_report_sticky.
    destruct init as [e|]; [|done].
    pose proof (analyzeExpression_sticky e a Ha) as He.
    destruct (analyzeExpression e a) as [t a1]. cbn [snd] in He.
    by destruct (negb _).
Qed.

Lemma analyzeFunction_sticky func a :
  errors a = true -> errors (analyzeFunction func a) = true.
Proof.
  intros Ha. unfold analyzeFunction. rewrite exitScope_errors.
  apply analyzeStatement_sticky, fold_left_sticky; [|done].
  intros x b _ Hb. by apply declare_or_report_sticky.
Qed.

Lemma analyze_sticky ast cerr0 : errors (analyze ast true cerr0) = true.
Proof.
  unfold analyze, analyzeProgram.
  apply fold_left_sticky.
  { intros x b _ Hb. by apply analyzeFunction_sticky. }
  apply fold_left_sticky; [|done].
  intros x b _ Hb. by apply declare_or_report_sticky.
Qed.

(** C10. The static flag is set by [reportError] and never cleared: an
    analysis that starts with the flag set ends with the flag set, for
    every program, and so does every sequence of analyses.  The clean
    program [ast_clean] leaves the flag clear in a fresh process but is
    found "with errors" when it is analysed after [ast_undefined]. *)
Theorem C10_error_flag_is_sticky :
  (forall message a, hasErrors (reportError message a) = true)
  /\ (forall ast cerr0, hasErrors (analyze ast true cerr0) = true)
  /\ (forall asts cerr0, fst (analyze_all asts true cerr0) = true)
  /\ front_end 200 src_clean = Some ast_clean
  /\ front_end 200 src_undefined = Some ast_undefined
  /\ hasErrors (analyze ast_clean false "") = false
  /\ fst (analyze_all [ast_undefined; ast_clean] false "") = true.
Proof.
  split; [reflexivity|].
  split; [apply analyze_sticky|].
  split.
  { intros asts. unfold analyze_all.
    induction asts as [|ast asts IH]; intros cerr0; [done|].
    cbn [fold_left fst snd]. rewrite analyze_sticky. apply IH. }
  vm_compute. repeat split; reflexivity.
Qed.

(** ** The lexer on space-separated lexemes *)

Lemma ascii_eqb_true a b : ascii_eqb a b = true <-> a = b.
Proof. unfold ascii_eqb. apply bool_decide_eq_true. Qed.

Lemma ascii_eqb_false a b : ascii_eqb a b = false <-> a <> b.
Proof. unfold ascii_eqb. apply bool_decide_eq_false. Qed.

Lemma ascii_eqb_code a b : code a <> code b -> ascii_eqb a b = false.
Proof. intros Hne. apply ascii_eqb_false. congruence. Qed.

Lemma isdigit_code c : isdigit c = true <-> (48 <= code c <= 57)%N.
Proof. unfold isdigit. rewrite andb_true_iff, !N.leb_le. tauto. Qed.

Lemma isalpha_code c :
  isalpha c = true <-> ((65 <= code c <= 90) \/ (97 <= code c <= 122))%N.
Proof.
  unfold isalpha. rewrite orb_true_iff, !andb_true_iff, !N.leb_le. tauto.
Qed.

Lemma isspace_code c :
  isspace c = true <-> ((9 <= code c <= 13) \/ code c = 32)%N.
Proof.
  unfold isspace. rewrite orb_true_iff, andb_true_iff, !N.leb_le, N.eqb_eq. tauto.
Qed.

Lemma isdigit_false_code c : isdigit c = false <-> (code c < 48 \/ 57 < code c)%N.
Proof.
  unfold isdigit. rewrite andb_false_iff, !N.leb_gt. tauto.
Qed.

Lemma number_char_plain c : number_char c = true -> plain_code c.
Proof.
  unfold number_char, plain_code. rewrite orb_true_iff, isdigit_code, ascii_eqb_true.
  intros [Hd| ->]; [lia|]. left. reflexivity.
Qed.

Lemma word_char_plain c : word_char c = true -> plain_code c.
Proof.
  unfold word_char, isalnum, plain_code.
  rewrite !orb_true_iff, isdigit_code, isalpha_code, ascii_eqb_true.
  intros [[Ha|Hd]| ->]; [lia|lia|]. right; right; right; left. reflexivity.
Qed.

Lemma plain_not_NUL c : plain_code c -> ascii_eqb c NUL = false.
Proof.
  unfold plain_code. intros Hc. apply ascii_eqb_code.
  change (code NUL) with 0%N. lia.
Qed.



Lemma string_forall_impl (p q : ascii -> bool) s :
  (forall c, p c = true -> q c = true) ->
  string_forall p s = true -> string_forall q s = true.
Proof.
  intros Hpq. induction s as [|c s IH]; [done|].
  cbn [string_forall]. rewrite !andb_true_iff. intros [Hc Hs]. auto.
Qed.


Lemma keywords_find_significant w ty :
  keywords_find w keywords = Some ty ->
  ty <> TokenType.NEWLINE /\ ty <> TokenType.END_OF_FILE.
Proof.
  unfold keywords. cbn [keywords_find].
  repeat (destruct (string_eqb w _); [intros [= <-]; split; discriminate|]).
  discriminate.
Qed.


Lemma skipWhitespace_head c s ln col :
  isspace c = false ->
  skipWhitespace (mkLexer (String c s) ln col) = mkLexer (String c s) ln col.
Proof.
  intros Hsp. unfold skipWhitespace, scan. cbn [rest line column scan_from].
  by rewrite Hsp, andb_false_l, andb_false_r.
Qed.

Lemma skipComments_none fuel lx : at_comment lx = false -> skipComments fuel lx = lx.
Proof. intros Hc. destruct fuel; [done|]. cbn [skipComments]. by rewrite Hc. Qed.

(** The head of the lexer is an ordinary character [c]: no white space
    is skipped, no comment starts, and [nextToken] dispatches on [c]. *)
Lemma nextToken_dispatch c s ln col :
  isspace c = false ->
  at_comment (mkLexer (String c s) ln col) = false ->
  nextToken (mkLexer (String c s) ln col) =
    let lx := mkLexer (String c s) ln col in
    if ascii_eqb c NUL then
      (mkToken TokenType.END_OF_FILE "" ln col, lx)
    else if ascii_eqb c "010"%char then
      (mkToken TokenType.NEWLINE (String "010"%char EmptyString)
         (line (lx_advance lx) - 1) col, lx_advance lx)
    else if isdigit c then readNumber lx
    else if ascii_eqb c "034"%char || ascii_eqb c "'"%char then readString lx
    else if isalpha c || ascii_eqb c "_"%char then readIdentifierOrKeyword lx
    else readOperatorOrDelimiter lx.
Proof.
  intros Hsp Hcm. unfold nextToken.
  rewrite (skipWhitespace_head c s ln col Hsp).
  rewrite (skipComments_none _ _ Hcm). reflexivity.
Qed.

Lemma at_comment_head c s ln col :
  ascii_eqb c "/"%char = false -> at_comment (mkLexer (String c s) ln col) = false.
Proof. intros Hc. unfold at_comment, currentChar. cbn [rest]. by rewrite Hc. Qed.


Lemma string_eqb_true a b : string_eqb a b = true <-> a = b.
Proof. unfold string_eqb. apply bool_decide_eq_true. Qed.












(** ** The lexer: the loops end by their own conditions *)

Lemma lx_advance_unread lx : unread (lx_advance lx) = Nat.pred (unread lx).
Proof.
  destruct lx as [[|c r] ln col]; unfold lx_advance, unread; cbn; [done|].
  by destruct (advance_pos c ln col).
Qed.

Lemma scan_from_unread p s : forall ln col,
  (unread (snd (scan_from p s ln col)) <= String.length s)%nat.
Proof.
  induction s as [|c r IH]; intros ln col; cbn [scan_from]; [done|].
  destruct (negb (ascii_eqb c NUL) && p c); [|done].
  destruct (advance_pos c ln col) as [ln' col'].
  specialize (IH ln' col'). destruct (scan_from p r ln' col') as [acc lx].
  cbn [snd String.length] in *. lia.
Qed.

Lemma scan_unread p lx : (unread (snd (scan p lx)) <= unread lx)%nat.
Proof. apply scan_from_unread. Qed.

Lemma scan_unread_lt p lx :
  ascii_eqb (currentChar lx) NUL = false -> p (currentChar lx) = true ->
  (unread (snd (scan p lx)) < unread lx)%nat.
Proof.
  unfold scan, currentChar, unread. destruct (rest lx) as [|c r]; [done|].
  intros Hc Hp. cbn [scan_from]. rewrite Hc, Hp. cbn [negb andb].
  destruct (advance_pos c (line lx) (column lx)) as [ln' col'].
  pose proof (scan_from_unread p r ln' col') as Hle.
  destruct (scan_from p r ln' col') as [acc lx']. cbn [snd String.length] in *.
  unfold unread in Hle. lia.
Qed.

Lemma skipWhitespace_unread lx : (unread (skipWhitespace lx) <= unread lx)%nat.
Proof. apply scan_unread. Qed.

Lemma skipBlock_from_unread s : forall ln col,
  (unread (skipBlock_from s ln col) <= String.length s)%nat.
Proof.
  induction s as [|c r IH]; intros ln col; cbn [skipBlock_from]; [done|].
  destruct (ascii_eqb c NUL); [done|].
  destruct (ascii_eqb c "*"%char && _).
  - rewrite !lx_advance_unread. unfold unread. cbn. lia.
  - destruct (advance_pos c ln col) as [ln' col']. specialize (IH ln' col').
    cbn [String.length]. lia.
Qed.

Lemma readString_from_unread q : forall n s ln col,
  (String.length s <= n)%nat ->
  (unread (snd (readString_from q s ln col)) <= String.length s)%nat.
Proof.
  induction n as [|n IH]; intros s ln col Hn.
  - destruct s; [done|]. cbn in Hn. lia.
  - destruct s as [|c r]; [done|]. cbn [readString_from].
    destruct (ascii_eqb c NUL || ascii_eqb c q); [done|].
    destruct (ascii_eqb c "\"%char).
    + destruct (advance_pos c ln col) as [ln1 col1].
      destruct r as [|e r']; [cbn; lia|].
      destruct (advance_pos e ln1 col1) as [ln2 col2].
      cbn [String.length] in Hn.
      pose proof (IH r' ln2 col2 ltac:(lia)) as Hle.
      destruct (readString_from q r' ln2 col2) as [str lx].
      cbn [snd String.length] in *. lia.
    + destruct (advance_pos c ln col) as [ln' col'].
      cbn [String.length] in Hn.
      pose proof (IH r ln' col' ltac:(lia)) as Hle.
      destruct (readString_from q r ln' col') as [str lx].
      cbn [snd String.length] in *. lia.
Qed.

Lemma currentChar_unread lx :
  ascii_eqb (currentChar lx) NUL = false -> (0 < unread lx)%nat.
Proof.
  unfold currentChar, unread. destruct (rest lx); [done|]. cbn. lia.
Qed.

Lemma skipComment_unread lx :
  at_comment lx = true -> (unread (skipComment lx) < unread lx)%nat.
Proof.
  unfold at_comment, skipComment. intros Hat.
  apply andb_true_iff in Hat as [Hc Hp]. rewrite Hc. cbn [andb].
  assert (Hpos : (0 < unread lx)%nat).
  { apply currentChar_unread. apply ascii_eqb_true in Hc. by rewrite Hc. }
  destruct (ascii_eqb (peekChar lx) "/"%char).
  - pose proof (scan_unread (fun c => negb (ascii_eqb c "010"%char))
                  (lx_advance (lx_advance lx))) as Hle.
    rewrite !lx_advance_unread in Hle. lia.
  - cbn [orb] in Hp. rewrite Hp.
    pose proof (skipBlock_from_unread (rest (lx_advance (lx_advance lx)))
                  (line (lx_advance (lx_advance lx)))
                  (column (lx_advance (lx_advance lx)))) as Hle.
    fold (unread (lx_advance (lx_advance lx))) in Hle.
    rewrite !lx_advance_unread in Hle. lia.
Qed.

(** The comment-skipping loop is left because no comment follows, not
    because the fuel ran out. *)
Lemma skipComments_fuel fuel : forall lx,
  (unread lx <= fuel)%nat ->
  at_comment (skipComments fuel lx) = false
  /\ (unread (skipComments fuel lx) <= unread lx)%nat.
Proof.
  induction fuel as [|fuel IH]; intros lx Hle; cbn [skipComments].
  - split; [|done]. unfold at_comment, currentChar.
    unfold unread in Hle. destruct (rest lx); [done|]. cbn in Hle. lia.
  - destruct (at_comment lx) eqn:Hat; [|done].
    pose proof (skipComment_unread lx Hat) as Hlt.
    pose proof (skipWhitespace_unread (skipComment lx)) as Hws.
    destruct (IH (skipWhitespace (skipComment lx)) ltac:(lia)) as [Hno Hle'].
    split; [done|lia].
Qed.
Lemma emit1_unread ty text lx :
  (0 < unread lx)%nat -> (unread (snd (emit1 ty text lx)) < unread lx)%nat.
Proof. intros Hpos. unfold emit1. cbn [snd]. rewrite lx_advance_unread. lia. Qed.

Lemma emit2_unread next two text2 one text1 lx :
  (0 < unread lx)%nat ->
  (unread (snd (emit2 next two text2 one text1 lx)) < unread lx)%nat.
Proof.
  intros Hpos. unfold emit2.
  destruct (ascii_eqb (currentChar (lx_advance lx)) next); cbn [snd];
    rewrite !lx_advance_unread; lia.
Qed.

Lemma emit_pair_unread ch two text2 lx :
  (0 < unread lx)%nat -> (unread (snd (emit_pair ch two text2 lx)) < unread lx)%nat.
Proof.
  intros Hpos. unfold emit_pair.
  destruct (ascii_eqb (currentChar (lx_advance lx)) ch); cbn [snd];
    rewrite !lx_advance_unread; lia.
Qed.

Lemma readOperatorOrDelimiter_unread lx :
  (0 < unread lx)%nat -> (unread (snd (readOperatorOrDelimiter lx)) < unread lx)%nat.
Proof.
  intros Hpos. unfold readOperatorOrDelimiter.
  repeat match goal with
         | |- context [if ?b then _ else _] =>
             destruct b;
             [by (apply emit1_unread || apply emit2_unread || apply emit_pair_unread)|]
         end.
  by apply emit1_unread.
Qed.

Lemma readNumber_unread lx :
  ascii_eqb (currentChar lx) NUL = false -> isdigit (currentChar lx) = true ->
  (unread (snd (readNumber lx)) < unread lx)%nat.
Proof.
  intros Hc Hd. unfold readNumber.
  pose proof (scan_unread_lt number_char lx Hc) as Hlt.
  unfold number_char at 1 in Hlt. rewrite Hd in Hlt. specialize (Hlt eq_refl).
  destruct (scan number_char lx) as [number lx']. cbn [snd] in *.
  by destruct (string_mem "."%char number).
Qed.

Lemma readIdentifierOrKeyword_unread lx :
  ascii_eqb (currentChar lx) NUL = false ->
  isalpha (currentChar lx) || ascii_eqb (currentChar lx) "_"%char = true ->
  (unread (snd (readIdentifierOrKeyword lx)) < unread lx)%nat.
Proof.
  intros Hc Hd. unfold readIdentifierOrKeyword.
  pose proof (scan_unread_lt word_char lx Hc) as Hlt.
  assert (Hw : word_char (currentChar lx) = true).
  { unfold word_char, isalnum. apply orb_true_iff in Hd as [->| ->]; [done|].
    by rewrite orb_true_r. }
  specialize (Hlt Hw).
  destruct (scan word_char lx) as [identifier lx']. cbn [snd] in *.
  by destruct (keywords_find identifier keywords).
Qed.

Lemma readString_unread lx :
  (0 < unread lx)%nat -> (unread (snd (readString lx)) < unread lx)%nat.
Proof.
  intros Hpos. unfold readString.
  pose proof (readString_from_unread (currentChar lx) _ (rest (lx_advance lx))
                (line (lx_advance lx)) (column (lx_advance lx)) (le_n _)) as Hle.
  fold (unread (lx_advance lx)) in Hle. rewrite lx_advance_unread in Hle.
  destruct (readString_from _ _ _ _) as [str lx2]. cbn [snd] in *.
  destruct (ascii_eqb (currentChar lx2) (currentChar lx));
    rewrite ?lx_advance_unread; lia.
Qed.

(** A token other than the end-of-file token takes at least one
    character of the input. *)
Lemma nextToken_unread lx :
  (unread (snd (nextToken lx)) <= unread lx)%nat
  /\ (tok_type (fst (nextToken lx)) <> TokenType.END_OF_FILE ->
      (unread (snd (nextToken lx)) < unread lx)%nat).
Proof.
  unfold nextToken.
  pose proof (skipWhitespace_unread lx) as H1.
  set (lx1 := skipWhitespace lx) in *.
  destruct (skipComments_fuel (unread lx1) lx1 (le_n _)) as [_ H2].
  fold (unread lx1).
  set (lx2 := skipComments (unread lx1) lx1) in *.
  destruct (ascii_eqb (currentChar lx2) NUL) eqn:Hnul.
  { cbn [fst snd tok_type]. split; [lia|done]. }
  pose proof (currentChar_unread lx2 Hnul) as Hpos.
  assert (Hgoal : forall r : Token * Lexer,
             (unread (snd r) < unread lx2)%nat ->
             (unread (snd r) <= unread lx)%nat
             /\ (tok_type (fst r) <> TokenType.END_OF_FILE ->
                 (unread (snd r) < unread lx)%nat)).
  { intros r Hr. split; [lia|intros _; lia]. }
  destruct (ascii_eqb (currentChar lx2) "010"%char).
  { apply Hgoal. cbn [snd]. rewrite lx_advance_unread. lia. }
  destruct (isdigit (currentChar lx2)) eqn:Hd.
  { apply Hgoal. by apply readNumber_unread. }
  destruct (ascii_eqb (currentChar lx2) "034"%char || ascii_eqb (currentChar lx2) "'"%char).
  { apply Hgoal. by apply readString_unread. }
  destruct (isalpha (currentChar lx2) || ascii_eqb (currentChar lx2) "_"%char) eqn:Ha.
  { apply Hgoal. by apply readIdentifierOrKeyword_unread. }
  apply Hgoal. by apply readOperatorOrDelimiter_unread.
Qed.

(** The loop of [tokenize] is left through its [break]: with more fuel
    than unread characters the tokens end with the end-of-file token, no
    token before it is one, and more fuel changes nothing. *)
Lemma tokenize_loop_fuel fuel : forall lx,
  (unread lx < fuel)%nat ->
  (exists ts t, tokenize_loop fuel lx = ts ++ [t]
                /\ tok_type t = TokenType.END_OF_FILE
                /\ Forall (fun t' => tok_type t' <> TokenType.END_OF_FILE) ts)
  /\ forall fuel', (unread lx < fuel')%nat ->
                   tokenize_loop fuel' lx = tokenize_loop fuel lx.
Proof.
  induction fuel as [|fuel IH]; intros lx Hlt; [lia|].
  cbn [tokenize_loop].
  destruct (nextToken_unread lx) as [_ Hprog].
  destruct (nextToken lx) as [token lx'] eqn:Hnext. cbn [fst snd] in Hprog.
  destruct (TokenType.eqb (tok_type token) TokenType.END_OF_FILE) eqn:Heof.
  - split.
    + exists [], token. split; [done|]. split; [|constructor].
      unfold TokenType.eqb in Heof. by apply bool_decide_eq_true in Heof.
    + intros [|fuel'] Hlt'; [lia|]. cbn [tokenize_loop]. by rewrite Hnext, Heof.
  - assert (Hne : tok_type token <> TokenType.END_OF_FILE).
    { unfold TokenType.eqb in Heof. by apply bool_decide_eq_false in Heof. }
    specialize (Hprog Hne).
    destruct (IH lx' ltac:(lia)) as [(ts & t & Hts & Ht & Hall) Hind].
    split.
    + exists (token :: ts), t. rewrite Hts. split; [done|]. split; [done|].
      by constructor.
    + intros [|fuel'] Hlt'; [lia|]. cbn [tokenize_loop]. rewrite Hnext, Heof.
      f_equal. apply Hind. lia.
Qed.

(** [tokenize] returns the tokens of the whole input, the end-of-file
    token last. *)
Lemma tokenize_total source :
  exists ts t, tokenize source = ts ++ [t]
               /\ tok_type t = TokenType.END_OF_FILE
               /\ Forall (fun t' => tok_type t' <> TokenType.END_OF_FILE) ts.
Proof.
  unfold tokenize.
  apply (tokenize_loop_fuel (S (String.length source)) (Lexer_new source)).
  unfold unread, Lexer_new. cbn. lia.
Qed.

(** ** The IR generator: temporaries and labels *)

Lemma add_instrs_nil f : add_instrs [] f = f.
Proof. destruct f. unfold add_instrs. cbn. by rewrite app_nil_r. Qed.

Lemma add_instrs_app n1 n2 f : add_instrs n2 (add_instrs n1 f) = add_instrs (n1 ++ n2) f.
Proof. unfold add_instrs. cbn. by rewrite app_assoc. Qed.

Lemma instr_ok_mono lo hi lo' hi' i :
  lo' <= lo -> hi <= hi' -> instr_ok lo hi i -> instr_ok lo' hi' i.
Proof.
  intros Hlo Hhi [H|[H|(id & Hid & H)]]; [by left|by right; left|].
  right; right. exists id. split; [lia|done].
Qed.

Lemma result_temps_app a b : result_temps (a ++ b) = result_temps a ++ result_temps b.
Proof. apply omap_app. Qed.

Lemma label_names_app a b : label_names (a ++ b) = label_names a ++ label_names b.
Proof. apply omap_app. Qed.

Lemma Gen_refl g : Gen g g [] [] [].
Proof.
  intros Hs. split; [done|]. split.
  { destruct (current g) as [f|]; [|done]. cbn. by rewrite add_instrs_nil. }
  split; [lia|]. split; [lia|]. split; [done|]. split; [constructor|].
  rewrite !Z.sub_diag. split; reflexivity.
Qed.

Lemma Gen_trans g1 g2 g3 n1 n2 rt1 rt2 rl1 rl2 :
  Gen g1 g2 n1 rt1 rl1 -> Gen g2 g3 n2 rt2 rl2 ->
  Gen g1 g3 (n1 ++ n2) (rt1 ++ rt2) (rl1 ++ rl2).
Proof.
  intros H1 H2 Hs.
  destruct (H1 Hs) as (He1 & Hc1 & Ht1 & Hl1 & Hs1 & Hok1 & Hrt1 & Hrl1).
  destruct (H2 Hs1) as (He2 & Hc2 & Ht2 & Hl2 & Hs2 & Hok2 & Hrt2 & Hrl2).
  split; [congruence|]. split.
  { rewrite Hc2, Hc1. destruct (current g1) as [f|]; [|done]. cbn.
    by rewrite add_instrs_app. }
  split; [lia|]. split; [lia|]. split; [done|]. split.
  { apply Forall_app. split.
    - eapply Forall_impl; [exact Hok1|]. intros i. apply instr_ok_mono; lia.
    - eapply Forall_impl; [exact Hok2|]. intros i. apply instr_ok_mono; lia. }
  split.
  - rewrite result_temps_app.
    replace (tempCounter g3 - tempCounter g1)
      with ((tempCounter g2 - tempCounter g1) + (tempCounter g3 - tempCounter g2)) by lia.
    rewrite seqZ_app by lia.
    replace (tempCounter g1 + (tempCounter g2 - tempCounter g1)) with (tempCounter g2) by lia.
    rewrite <- Hrt1, <- Hrt2.
    rewrite <- !app_assoc. apply Permutation_app_head.
    rewrite !app_assoc. apply Permutation_app_tail. apply Permutation_app_comm.
  - rewrite label_names_app.
    replace (labelCounter g3 - labelCounter g1)
      with ((labelCounter g2 - labelCounter g1) + (labelCounter g3 - labelCounter g2)) by lia.
    rewrite seqZ_app by lia. rewrite fmap_app.
    replace (labelCounter g1 + (labelCounter g2 - labelCounter g1)) with (labelCounter g2) by lia.
    rewrite <- Hrl1, <- Hrl2.
    rewrite <- !app_assoc. apply Permutation_app_head.
    rewrite !app_assoc. apply Permutation_app_tail. apply Permutation_app_comm.
Qed.

Lemma Gen_perm g g' new rt rl rt' rl' :
  Gen g g' new rt rl -> rt ≡ₚ rt' -> rl ≡ₚ rl' -> Gen g g' new rt' rl'.
Proof.
  intros H Hrt Hrl Hs. destruct (H Hs) as (? & ? & ? & ? & ? & ? & H7 & H8).
  repeat (split; [done|]). split.
  - by rewrite <- Hrt.
  - by rewrite <- Hrl.
Qed.

Lemma Gen_createTemp g :
  fst (createTemp g) = temp_value (tempCounter g)
  /\ Gen g (snd (createTemp g)) [] [tempCounter g] [].
Proof.
  split; [reflexivity|]. intros Hs. cbn.
  split; [done|]. split.
  { destruct (current g) as [f|]; [|done]. cbn. by rewrite add_instrs_nil. }
  split; [lia|]. split; [lia|]. split; [done|]. split; [constructor|].
  split.
  - replace (tempCounter g + 1 - tempCounter g) with 1 by lia.
    rewrite seqZ_cons by lia. by rewrite seqZ_nil by lia.
  - by rewrite Z.sub_diag.
Qed.

Lemma Gen_createLabel g :
  fst (createLabel g) = label_name (labelCounter g)
  /\ Gen g (snd (createLabel g)) [] [] [label_name (labelCounter g)].
Proof.
  split; [reflexivity|]. intros Hs. cbn.
  split; [done|]. split.
  { destruct (current g) as [f|]; [|done]. cbn. by rewrite add_instrs_nil. }
  split; [lia|]. split; [lia|]. split; [done|]. split; [constructor|].
  split.
  - by rewrite Z.sub_diag.
  - replace (labelCounter g + 1 - labelCounter g) with 1 by lia.
    rewrite seqZ_cons by lia. by rewrite seqZ_nil by lia.
Qed.

Lemma emitInstruction_fields i g :
  emitted (emitInstruction i g) = emitted g
  /\ current (emitInstruction i g) = add_instrs [i] <$> current g
  /\ tempCounter (emitInstruction i g) = tempCounter g
  /\ labelCounter (emitInstruction i g) = labelCounter g
  /\ symbolTable (emitInstruction i g) = symbolTable g.
Proof.
  unfold emitInstruction. destruct (current g) as [f|] eqn:Hcur; [done|].
  by rewrite Hcur.
Qed.

(** An instruction that names no temporary and defines no label. *)
Lemma Gen_emit i g :
  result_temp i = None -> opcode i <> IROpCode.LABEL ->
  instr_ok (tempCounter g) (tempCounter g) i ->
  Gen g (emitInstruction i g) [i] [] [].
Proof.
  intros Hrt Hop Hok Hs.
  destruct (emitInstruction_fields i g) as (He & Hc & Ht & Hl & Hsy).
  rewrite He, Hc, Ht, Hl, Hsy, !Z.sub_diag.
  repeat (split; [done || lia|]).
  split; [by constructor|]. split.
  - unfold result_temps. cbn. by rewrite Hrt.
  - unfold label_names. cbn. by rewrite bool_decide_eq_false_2.
Qed.

Lemma result_temp_default i : result i = IRValue_default -> result_temp i = None.
Proof. intros H. unfold result_temp. by rewrite bool_decide_eq_true_2. Qed.

Lemma result_temp_local i :
  irv_type (result i) = IRValueType.LOCAL -> result_temp i = None.
Proof. intros H. unfold result_temp. rewrite H. by destruct (bool_decide _). Qed.

Lemma result_temp_temp i id : result i = temp_value id -> result_temp i = Some id.
Proof.
  intros H. unfold result_temp. rewrite H.
  rewrite bool_decide_eq_false_2; [done|].
  unfold temp_value, IRValue_default. intros [= Hn Hid].
  destruct (temp_name_spec id) as [Hname|Hname]; rewrite Hname in Hn;
    discriminate Hn.
Qed.

(** An instruction whose result is a temporary reserved earlier. *)
Lemma Gen_use_temp g g' new c rt rl i :
  Gen g g' new (c :: rt) rl ->
  result i = temp_value c -> opcode i <> IROpCode.LABEL ->
  Gen g (emitInstruction i g') (new ++ [i]) rt rl.
Proof.
  intros H Hres Hop Hs.
  destruct (H Hs) as (He & Hc & Ht & Hl & Hsy & Hok & Hrt & Hrl).
  destruct (emitInstruction_fields i g') as (He' & Hc' & Ht' & Hl' & Hsy').
  rewrite He', Hc', Ht', Hl', Hsy'.
  assert (Hin : tempCounter g <= c < tempCounter g').
  { assert (c ∈ seqZ (tempCounter g) (tempCounter g' - tempCounter g)) as Hc0.
    { rewrite <- Hrt. apply elem_of_app. right. by left. }
    apply elem_of_seqZ in Hc0. lia. }
  split; [done|]. split.
  { rewrite Hc. destruct (current g) as [f|]; [|done]. cbn. by rewrite add_instrs_app. }
  repeat (split; [done|]). split.
  { apply Forall_app. split; [done|]. constructor; [|constructor].
    right; right. by exists c. }
  split.
  - rewrite result_temps_app. unfold result_temps at 2. cbn.
    rewrite (result_temp_temp i c Hres). cbn. rewrite <- Hrt.
    rewrite <- app_assoc. reflexivity.
  - rewrite label_names_app. unfold label_names at 2. cbn.
    rewrite bool_decide_eq_false_2 by done. cbn. by rewrite app_nil_r.
Qed.

(** The LABEL instruction of a name reserved earlier. *)
Lemma Gen_use_label g g' new rt l rl :
  Gen g g' new rt (l :: rl) ->
  Gen g (emit_label l g') (new ++ [with_label l (IRInstruction_new IROpCode.LABEL)]) rt rl.
Proof.
  intros H Hs. unfold emit_label.
  destruct (H Hs) as (He & Hc & Ht & Hl & Hsy & Hok & Hrt & Hrl).
  destruct (emitInstruction_fields (with_label l (IRInstruction_new IROpCode.LABEL)) g')
    as (He' & Hc' & Ht' & Hl' & Hsy').
  rewrite He', Hc', Ht', Hl', Hsy'.
  split; [done|]. split.
  { rewrite Hc. destruct (current g) as [f|]; [|done]. cbn. by rewrite add_instrs_app. }
  repeat (split; [done|]). split.
  { apply Forall_app. split; [done|]. constructor; [|constructor]. by left. }
  split.
  - rewrite result_temps_app. unfold result_temps at 2. cbn. by rewrite app_nil_r.
  - rewrite label_names_app. unfold label_names at 2. cbn.
    rewrite <- Hrl. rewrite <- app_assoc. reflexivity.
Qed.

Lemma symtab_ok_insert k v st :
  irv_type v = IRValueType.LOCAL -> symtab_ok st -> symtab_ok (<[k := v]> st).
Proof.
  intros Hv Hst k' v'. rewrite lookup_insert. case_decide; [|apply Hst].
  by intros [= <-].
Qed.

Lemma Gen_set_symbol k v g :
  irv_type v = IRValueType.LOCAL -> Gen g (set_symbol k v g) [] [] [].
Proof.
  intros Hv Hs. cbn. split; [done|]. split.
  { destruct (current g) as [f|]; [|done]. cbn. by rewrite add_instrs_nil. }
  split; [lia|]. split; [lia|]. split; [by apply symtab_ok_insert|].
  split; [constructor|]. rewrite !Z.sub_diag. split; reflexivity.
Qed.

Lemma Gen_resolve_local name g :
  (symtab_ok (symbolTable (snd (resolve_local name g))) ->
   irv_type (fst (resolve_local name g)) = IRValueType.LOCAL)
  /\ Gen g (snd (resolve_local name g)) [] [] [].
Proof.
  unfold resolve_local. destruct (symbolTable g !! name) as [v|] eqn:Hv; cbn [fst snd].
  - split; [intros Hs; by apply (Hs name)|apply Gen_refl].
  - split; [done|by apply Gen_set_symbol].
Qed.
Lemma Gen_emit_if i g :
  opcode i <> IROpCode.LABEL ->
  (symtab_ok (symbolTable g) ->
   result_temp i = None /\ instr_ok (tempCounter g) (tempCounter g) i) ->
  Gen g (emitInstruction i g) [i] [] [].
Proof.
  intros Hop H Hs. destruct (H Hs) as [Hrt Hok]. by apply Gen_emit.
Qed.

(** An instruction that leaves its result unset and stores nothing. *)
Lemma Gen_emit_plain i g :
  result i = IRValue_default -> writes (opcode i) = false ->
  opcode i <> IROpCode.LABEL ->
  Gen g (emitInstruction i g) [i] [] [].
Proof.
  intros Hres Hw Hop. apply Gen_emit; [by apply result_temp_default|done|by left].
Qed.

Lemma tokenTypeToOpCode_not_label op : tokenTypeToOpCode op <> IROpCode.LABEL.
Proof. by destruct op. Qed.

Lemma call_shape_not_label name :
  match call_shape name with
  | AllArgs op _ | NoArgs op _ | FirstArg op _ => op <> IROpCode.LABEL
  end.
Proof.
  unfold call_shape.
  repeat (destruct (string_eqb name _); [cbn; discriminate|]). cbn. discriminate.
Qed.

Ltac gen_seq H1 H2 H :=
  pose proof (Gen_trans _ _ _ _ _ _ _ _ _ H1 H2) as H; cbn [app] in H.

(** [createTemp], then an instruction with that result. *)
Lemma Gen_temp_instr g res g1 i :
  createTemp g = (res, g1) -> result i = res -> opcode i <> IROpCode.LABEL ->
  Gen g (emitInstruction i g1) [i] [] [].
Proof.
  intros Hct Hres Hop. destruct (Gen_createTemp g) as [Hfst H].
  rewrite Hct in Hfst, H. cbn [fst snd] in *. subst res.
  apply (Gen_use_temp _ _ _ _ _ _ _ H Hfst Hop).
Qed.

(** Closes a goal [exists new, Gen g (emitInstruction i g') new [] []] from
    [H : Gen g g0 n [] []] and [Hct : createTemp g0 = (res, g')]. *)
Ltac finish_temp H Hct :=
  match goal with
  | |- exists new, Gen _ (emitInstruction ?i _) new [] [] =>
      let H3 := fresh "H3" in
      assert (H3 : opcode i <> IROpCode.LABEL);
      [ cbn [opcode with_result with_operands with_label with_prompt IRInstruction_new]
      | let H4 := fresh "H4" in
        pose proof (Gen_trans _ _ _ _ _ _ _ _ _ H
                      (Gen_temp_instr _ _ _ i Hct eq_refl H3)) as H4;
        cbn [app] in H4; eexists; exact H4 ]
  end.

Lemma visitArgs_Gen (arguments : list Expression) :
  list_all Expression lowers arguments ->
  forall acc g,
    exists new,
      Gen g (snd (fold_left
                    (fun (acc : list IRValue * IRGenerator) arg =>
                       let '(v, g') := visitExpression arg (snd acc) in
                       (fst acc ++ [v], g'))
                    arguments (acc, g))) new [] [].
Proof.
  induction 1 as [|a Ha l _ IH]; intros acc g; cbn [fold_left].
  - exists []. apply Gen_refl.
  - destruct (Ha g) as [n1 H1]. cbn [snd fst].
    destruct (visitExpression a g) as [v g1]. cbn [snd] in H1.
    destruct (IH (acc ++ [v]) g1) as [n2 H2].
    gen_seq H1 H2 H12. by eexists.
Qed.

Lemma visitExpression_Gen e : lowers e.
Proof.
  induction e as
    [ type value | name | l IHl op r IHr | op operand IH | name arguments IH
    | prm _ | prm _ | array IHa index IHi | name value IH ];
    intros g; cbn [visitExpression].
  - (* Literal *)
    unfold visitLiteral. pose proof (Gen_refl g) as H0.
    destruct type; try (exists []; apply Gen_refl);
      destruct (createTemp g) as [res g1] eqn:Hct; cbn [snd];
      finish_temp H0 Hct; discriminate.
  - (* Identifier *)
    exists []. apply Gen_resolve_local.
  - (* BinaryOp *)
    destruct (IHl g) as [n1 H1]. destruct (visitExpression l g) as [lv g1].
    destruct (IHr g1) as [n2 H2]. destruct (visitExpression r g1) as [rv g2].
    cbn [snd] in *. gen_seq H1 H2 H12.
    destruct (createTemp g2) as [res g3] eqn:Hct. cbn [snd].
    finish_temp H12 Hct.
    destruct (_ || _); [discriminate|apply tokenTypeToOpCode_not_label].
  - (* UnaryOp *)
    destruct (IH g) as [n1 H1]. destruct (visitExpression operand g) as [v g1].
    cbn [snd] in *.
    destruct (createTemp g1) as [res g2] eqn:Hct. cbn [snd].
    finish_temp H1 Hct. apply tokenTypeToOpCode_not_label.
  - (* FunctionCall *)
    destruct (Gen_createTemp g) as [Hres H0].
    destruct (createTemp g) as [res g1]. cbn [fst snd] in *. subst res.
    pose proof (call_shape_not_label name) as Hop.
    destruct (call_shape name) as [op lbl|op lbl|op lbl].
    + destruct (visitArgs_Gen arguments IH [] g1) as [n1 H1].
      destruct (fold_left _ arguments ([], g1)) as [ops g2]. cbn [snd] in *.
      gen_seq H0 H1 H01. eexists.
      apply (Gen_use_temp _ _ _ _ _ _ _ H01); [reflexivity|done].
    + eexists. cbn [snd]. apply (Gen_use_temp _ _ _ _ _ _ _ H0); [reflexivity|done].
    + assert (exists new,
                Gen g1 (snd (match arguments with
                             | [] => ([], g1)
                             | arg :: _ =>
                                 let '(v, g') := visitExpression arg g1 in ([v], g')
                             end)) new [] []) as [n1 H1].
      { destruct IH as [|a Ha l _]; [exists []; apply Gen_refl|].
        destruct (Ha g1) as [n1 H1]. destruct (visitExpression a g1) as [v g2].
        by exists n1. }
      destruct (match arguments with [] => _ | _ :: _ => _ end) as [ops g2].
      cbn [snd] in *. gen_seq H0 H1 H01. eexists.
      apply (Gen_use_temp _ _ _ _ _ _ _ H01); [reflexivity|done].
  - (* InputCall *)
    pose proof (Gen_refl g) as H0.
    destruct (createTemp g) as [res g1] eqn:Hct. cbn [snd].
    finish_temp H0 Hct.
    destruct prm as [[]|]; try discriminate. by destruct type.
  - (* KeyPressedCall *)
    pose proof (Gen_refl g) as H0.
    destruct (createTemp g) as [res g1] eqn:Hct. cbn [snd].
    finish_temp H0 Hct. discriminate.
  - (* ArrayAccess *)
    destruct (IHa g) as [n1 H1]. destruct (visitExpression array g) as [av g1].
    destruct (IHi g1) as [n2 H2]. destruct (visitExpression index g1) as [iv g2].
    cbn [snd] in *. gen_seq H1 H2 H12.
    destruct (createTemp g2) as [res g3] eqn:Hct. cbn [snd].
    finish_temp H12 Hct. discriminate.
  - (* Assignment *)
    destruct (IH g) as [n1 H1]. destruct (visitExpression value g) as [v g1].
    cbn [snd] in *.
    destruct (Gen_resolve_local name g1) as [Hloc H2].
    destruct (resolve_local name g1) as [var g2]. cbn [fst snd] in *.
    gen_seq H1 H2 H12.
    assert (H3 : Gen g2
                   (emitInstruction
                      (with_result var
                         (with_operands [v] (IRInstruction_new IROpCode.STORE))) g2)
                   [with_result var
                      (with_operands [v] (IRInstruction_new IROpCode.STORE))] [] []).
    { apply Gen_emit_if; [discriminate|].
      intros Hs2. specialize (Hloc Hs2).
      split; [by apply result_temp_local|by right; left]. }
    gen_seq H12 H3 H. by eexists.
Qed.

Lemma Gen_then g g1 g2 n1 n2 rt rl :
  Gen g g1 n1 rt rl -> Gen g1 g2 n2 [] [] -> Gen g g2 (n1 ++ n2) rt rl.
Proof.
  intros H1 H2. pose proof (Gen_trans _ _ _ _ _ _ _ _ _ H1 H2) as H.
  by rewrite !app_nil_r in H.
Qed.

Lemma step_expr e g g' n rt rl :
  Gen g g' n rt rl ->
  exists n', Gen g (snd (visitExpression e g')) (n ++ n') rt rl.
Proof.
  intros H. destruct (visitExpression_Gen e g') as [n' H'].
  exists n'. by eapply Gen_then.
Qed.

Lemma step_stmt s g g' n rt rl :
  lowers_stmt s -> Gen g g' n rt rl ->
  exists n', Gen g (visitStatement s g') (n ++ n') rt rl.
Proof.
  intros Hs H. destruct (Hs g') as [n' H']. exists n'. by eapply Gen_then.
Qed.

Lemma step_plain i g g' n rt rl :
  result i = IRValue_default -> writes (opcode i) = false ->
  opcode i <> IROpCode.LABEL ->
  Gen g g' n rt rl -> Gen g (emitInstruction i g') (n ++ [i]) rt rl.
Proof.
  intros Hres Hw Hop H. eapply Gen_then; [exact H|]. by apply Gen_emit_plain.
Qed.

Lemma step_createLabel g g' n rt rl :
  Gen g g' n rt rl ->
  fst (createLabel g') = label_name (labelCounter g')
  /\ Gen g (snd (createLabel g')) n rt (rl ++ [label_name (labelCounter g')]).
Proof.
  intros H. destruct (Gen_createLabel g') as [Hfst H'].
  split; [done|]. pose proof (Gen_trans _ _ _ _ _ _ _ _ _ H H') as H2.
  by rewrite !app_nil_r in H2.
Qed.

Lemma step_option_stmt (o : option Statement) g g' n rt rl :
  option_all Statement lowers_stmt o -> Gen g g' n rt rl ->
  exists n',
    Gen g (match o with Some s => visitStatement s g' | None => g' end)
      (n ++ n') rt rl.
Proof.
  intros [s Hs|] H; [by apply step_stmt|].
  exists []. by rewrite app_nil_r.
Qed.

Lemma visitBlock_Gen (statements : list Statement) :
  list_all Statement lowers_stmt statements ->
  forall g, exists new,
    Gen g (fold_left (fun acc s => visitStatement s acc) statements g) new [] [].
Proof.
  induction 1 as [|s Hs l _ IH]; intros g; cbn [fold_left].
  - exists []. apply Gen_refl.
  - destruct (Hs g) as [n1 H1]. destruct (IH (visitStatement s g)) as [n2 H2].
    exists (n1 ++ n2). by eapply Gen_then.
Qed.

Lemma visitStatement_Gen s : lowers_stmt s.
Proof.
  induction s as
    [ e | e | statements IH | e | cond thenB IHt elseB IHe | cond body IH
    | init IHi cond incr body IHb | name type init ];
    intros g; cbn [visitStatement]; pose proof (Gen_refl g) as H.
  - (* ExpressionStatement *)
    destruct (step_expr e _ _ _ _ _ H) as [n' H']. by eexists.
  - (* PrintStatement *)
    destruct (step_expr e _ _ _ _ _ H) as [n' H'].
    destruct (visitExpression e g) as [val g1]. cbn [snd] in H'.
    eexists. by apply step_plain.
  - (* BlockStatement *)
    by apply visitBlock_Gen.
  - (* ReturnStatement *)
    unfold visitReturnStatement. destruct e as [e|].
    + destruct (step_expr e _ _ _ _ _ H) as [n' H'].
      destruct (visitExpression e g) as [val g1]. cbn [snd] in H'.
      eexists. by apply step_plain.
    + eexists. by apply step_plain.
  - (* IfStatement *)
    destruct (step_expr cond _ _ _ _ _ H) as [n1 H1]. clear H.
    destruct (visitExpression cond g) as [c g1]. cbn [snd app] in H1.
    destruct (step_createLabel _ g1 _ _ _ H1) as [Hl2 H2].
    destruct (createLabel g1) as [thenLabel g2]. cbn [fst snd app] in Hl2, H2.
    destruct (step_createLabel _ g2 _ _ _ H2) as [Hl3 H3].
    destruct (createLabel g2) as [elseLabel g3]. cbn [fst snd app] in Hl3, H3.
    destruct (step_createLabel _ g3 _ _ _ H3) as [Hl4 H4].
    destruct (createLabel g3) as [endLabel g4]. cbn [fst snd app] in Hl4, H4.
    subst thenLabel elseLabel endLabel.
    unfold emit_jz, emit_jmp.
    pose proof (step_plain
                  (with_label (label_name (labelCounter g2))
                     (with_operands [c] (IRInstruction_new IROpCode.JZ)))
                  _ _ _ _ _ eq_refl eq_refl ltac:(discriminate) H4) as H5.
    apply Gen_use_label in H5.
    destruct (step_stmt thenB _ _ _ _ _ IHt H5) as [n6 H6].
    pose proof (step_plain
                  (with_label (label_name (labelCounter g3))
                     (IRInstruction_new IROpCode.JMP))
                  _ _ _ _ _ eq_refl eq_refl ltac:(discriminate) H6) as H7.
    apply Gen_use_label in H7.
    destruct (step_option_stmt elseB _ _ _ _ _ IHe H7) as [n8 H8].
    apply Gen_use_label in H8. by eexists.
  - (* WhileStatement *)
    destruct (step_createLabel _ g _ _ _ H) as [Hl1 H1].
    destruct (createLabel g) as [loopLabel g1]. cbn [fst snd app] in Hl1, H1.
    destruct (step_createLabel _ g1 _ _ _ H1) as [Hl2 H2].
    destruct (createLabel g1) as [endLabel g2]. cbn [fst snd app] in Hl2, H2.
    subst loopLabel endLabel.
    apply Gen_use_label in H2.
    destruct (step_expr cond _ _ _ _ _ H2) as [n3 H3].
    destruct (visitExpression cond _) as [c g4]. cbn [snd] in H3.
    unfold emit_jz, emit_jmp.
    pose proof (step_plain
                  (with_label (label_name (labelCounter g1))
                     (with_operands [c] (IRInstruction_new IROpCode.JZ)))
                  _ _ _ _ _ eq_refl eq_refl ltac:(discriminate) H3) as H5.
    destruct (step_stmt body _ _ _ _ _ IH H5) as [n6 H6].
    pose proof (step_plain
                  (with_label (label_name (labelCounter g))
                     (IRInstruction_new IROpCode.JMP))
                  _ _ _ _ _ eq_refl eq_refl ltac:(discriminate) H6) as H7.
    apply Gen_use_label in H7. by eexists.
  - (* ForStatement *)
    destruct (step_option_stmt init _ _ _ _ _ IHi H) as [n0 H0]. clear H.
    cbn [app] in H0.
    set (g0 := match init with Some s => visitStatement s g | None => g end) in *.
    destruct (step_createLabel _ g0 _ _ _ H0) as [Hl1 H1].
    destruct (createLabel g0) as [loopLabel g1]. cbn [fst snd app] in Hl1, H1.
    destruct (step_createLabel _ g1 _ _ _ H1) as [Hl2 H2].
    destruct (createLabel g1) as [endLabel g2]. cbn [fst snd app] in Hl2, H2.
    subst loopLabel endLabel.
    apply Gen_use_label in H2.
    unfold emit_jz, emit_jmp.
    assert (exists n4,
              Gen g (match cond with
                     | Some c =>
                         let '(cv, g') := visitExpression c (emit_label (label_name (labelCounter g0)) g2)
                         in emitInstruction
                              (with_label (label_name (labelCounter g1))
                                 (with_operands [cv] (IRInstruction_new IROpCode.JZ))) g'
                     | None => emit_label (label_name (labelCounter g0)) g2
                     end) n4 [] [label_name (labelCounter g1)]) as [n4 H4].
    { destruct cond as [c|]; [|by eexists].
      destruct (step_expr c _ _ _ _ _ H2) as [n3 H3].
      destruct (visitExpression c _) as [cv g']. cbn [snd] in H3.
      eexists. by apply step_plain. }
    match type of H4 with Gen _ ?x _ _ _ => set (g4 := x) in * end.
    destruct (step_stmt body _ _ _ _ _ IHb H4) as [n5 H5].
    set (g5 := visitStatement body g4) in *.
    assert (exists n6,
              Gen g (match incr with
                     | Some e => snd (visitExpression e g5)
                     | None => g5
                     end) n6 [] [label_name (labelCounter g1)]) as [n6 H6].
    { destruct incr as [e|]; [|by eexists].
      destruct (step_expr e _ _ _ _ _ H5) as [n6 H6]. by eexists. }
    pose proof (step_plain
                  (with_label (label_name (labelCounter g0))
                     (IRInstruction_new IROpCode.JMP))
                  _ _ _ _ _ eq_refl eq_refl ltac:(discriminate) H6) as H7.
    apply Gen_use_label in H7. by eexists.
  - (* VariableDecl *)
    unfold visitVariableDecl.
    pose proof (Gen_set_symbol name (mkIRValue IRValueType.LOCAL name (-1)) g eq_refl)
      as H1.
    destruct init as [e|]; [|by eexists].
    destruct (step_expr e _ _ _ _ _ H1) as [n2 H2].
    destruct (visitExpression e _) as [val g2]. cbn [snd app] in H2.
    eexists. eapply Gen_then; [exact H2|].
    apply Gen_emit; [by apply result_temp_local|discriminate|by right; left].
Qed.
Lemma params_Gen (params : list (string * string)) :
  forall g,
    Gen g (fold_left
             (fun acc (param : string * string) =>
                set_symbol (snd param)
                  (mkIRValue IRValueType.LOCAL (snd param) (-1)) acc)
             params g) [] [] [].
Proof.
  induction params as [|p params IH]; intros g; cbn [fold_left].
  - apply Gen_refl.
  - pose proof (Gen_trans _ _ _ _ _ _ _ _ _
                  (Gen_set_symbol (snd p)
                     (mkIRValue IRValueType.LOCAL (snd p) (-1)) g eq_refl)
                  (IH _)) as H.
    exact H.
Qed.

Lemma symtab_ok_empty : symtab_ok ∅.
Proof. intros k v. by rewrite lookup_empty. Qed.

(** What [visitFunction] adds to the program. *)
Lemma visitFunction_spec func g :
  exists f n,
    program_functions (visitFunction func g) = program_functions g ++ [f]
    /\ irf_name f = fd_name func
    /\ temps_dense f
    /\ 0 <= n
    /\ label_names (instructions f) ≡ₚ (label_name <$> seqZ (labelCounter g) n)
    /\ labelCounter (visitFunction func g) = labelCounter g + n.
Proof.
  unfold visitFunction.
  set (irFunc := mkIRFunction (fd_name func) (fd_returnType func) (fd_parameters func) []).
  set (g1 := mkIRGenerator (program_functions g) (Some irFunc) 0 (labelCounter g) ∅).
  match goal with
  | |- context [visitStatement (fd_body func) ?x] => set (g2 := x)
  end.
  assert (H2 : Gen g1 g2 [] [] []) by apply params_Gen.
  destruct (visitStatement_Gen (fd_body func) g2) as [new H3].
  pose proof (Gen_trans _ _ _ _ _ _ _ _ _ H2 H3) as H. cbn [app] in H.
  destruct (H symtab_ok_empty) as (He & Hc & Ht & Hl & Hs & Hok & Hrt & Hrl).
  cbn [emitted current tempCounter labelCounter g1 fmap option_fmap option_map] in *.
  rewrite !app_nil_r, Z.sub_0_r in *.
  set (g3 := visitStatement (fd_body func) _) in *.
  exists (add_instrs new irFunc), (labelCounter g3 - labelCounter g).
  split; [unfold program_functions at 1; by rewrite He, Hc|].
  split; [done|]. split.
  { exists (tempCounter g3). by cbn. }
  split; [lia|]. split; [by cbn|lia].
Qed.

Lemma labels_chain_snoc fs :
  forall c c' f n,
    labels_chain c fs c' -> 0 <= n ->
    label_names (instructions f) ≡ₚ (label_name <$> seqZ c' n) ->
    labels_chain c (fs ++ [f]) (c' + n).
Proof.
  induction fs as [|f0 fs IH]; intros c c' f n Hch Hn Hf; cbn in *.
  - subst c'. exists n. by repeat split.
  - destruct Hch as (n0 & Hn0 & Hf0 & Hch). exists n0.
    split; [done|]. split; [done|]. by apply IH.
Qed.

Lemma visitProgram_ok (funcs : list FunctionDecl) :
  forall g, program_ok g ->
            program_ok (fold_left (fun acc func => visitFunction func acc) funcs g).
Proof.
  induction funcs as [|func funcs IH]; intros g Hg; cbn [fold_left]; [done|].
  apply IH. destruct Hg as [Hd Hch].
  destruct (visitFunction_spec func g) as (f & n & Hpf & _ & Hf & Hn & Hlab & Hlc).
  unfold program_ok. rewrite Hpf, Hlc. split.
  - apply Forall_app. split; [done|]. by constructor.
  - by apply labels_chain_snoc.
Qed.

Lemma generate_ok ast :
  Forall temps_dense (ir_functions (generate ast))
  /\ exists c_end, labels_chain 0 (ir_functions (generate ast)) c_end.
Proof.
  destruct (visitProgram_ok (functions ast) IRGenerator_new) as [Hd Hch].
  { split; [constructor|reflexivity]. }
  split; [exact Hd|]. eexists. exact Hch.
Qed.
Lemma temps_dense_ids f : temps_dense f -> dense_temporaries f.
Proof.
  intros (n & Hn & Hok & Hperm). exists n. split; [done|]. split; [|done].
  eapply Forall_impl; [exact Hok|]. intros i [Hi|[Hi|(id & Hid & Hres)]].
  - by left.
  - right. by left.
  - right. right. exists id. split; [done|]. by rewrite Hres.
Qed.

(** C6 (as the code has it). [createTemp] hands out the temporary whose
    identifier is the current value of its counter, which is printed and
    looked up as [t<counter>], and adds one to the counter; [createLabel]
    does the same with the name [L<counter>].  [visitFunction] resets
    the temporary counter only: in every generated function the
    identifiers of the temporaries are exactly [0 .. n-1], each the
    result of one instruction, while the labels are numbered through the
    whole program, each function continuing where the previous one
    stopped. *)
Theorem C6_counters_amended :
  forall ast : Program,
    (forall g, is_temp (tempCounter g) (fst (createTemp g))
               /\ IRValue_toString (fst (createTemp g))
                  = "t" +:+ to_string_int (tempCounter g)
               /\ tempCounter (snd (createTemp g)) = tempCounter g + 1)
    /\ (forall g, fst (createLabel g) = label_name (labelCounter g)
                  /\ labelCounter (snd (createLabel g)) = labelCounter g + 1)
    /\ Forall dense_temporaries (ir_functions (generate ast))
    /\ exists c_end, labels_chain 0 (ir_functions (generate ast)) c_end.
Proof.
  intros ast. split; [by intros g|]. split; [by intros g|].
  destruct (generate_ok ast) as [Hdense Hchain]. split; [|exact Hchain].
  eapply Forall_impl; [exact Hdense|]. exact temps_dense_ids.
Qed.


(** ** The interpreter: which slot an instruction assigns *)

Section TempsFrame.
Context {W : Type} `{World W} `{FloatText}.

Lemma temps_set_temp k v (m : Machine W) k' :
  k' <> k -> temps (set_temp k v m) !! k' = temps m !! k'.
Proof. intros Hne. cbn. by rewrite lookup_insert_ne. Qed.

(** A pass through the loop that goes on assigns at most the result slot
    of the instruction, and only when the opcode is one that stores. *)
Lemma exec_instr_temps labels instr (m m' : Machine W) k :
  exec_instr labels instr m = SNext m' \/ exec_instr labels instr m = SJump m' ->
  writes (opcode instr) = false \/ k <> result_key instr ->
  temps m' !! k = temps m !! k.
Proof.
  intros Hexec Hk.
  assert (Hset : forall v (m0 : Machine W),
             temps m0 !! k = temps m !! k ->
             writes (opcode instr) = true ->
             temps (set_temp (result_key instr) v m0) !! k = temps m !! k).
  { intros v m0 Hm0 Hw. destruct Hk as [Hk|Hk]; [congruence|].
    by rewrite temps_set_temp. }
  unfold exec_instr, exec_arith, exec_divmod, exec_compare, exec_draw, exec_screen,
    exec_present, exec_quit, exec_isKeyDown, exec_updateInput in Hexec.
  destruct (opcode instr) eqn:Hop;
    repeat case_match;
    destruct Hexec as [Hexec|Hexec]; simplify_eq;
    try reflexivity;
    try (by apply Hset).
Qed.
End TempsFrame.

Section SlotInvariant.
Context {W : Type} `{World W} `{FloatText}.

(** A slot that no storing instruction of the function names stays unset
    for the whole run. *)
Lemma unset_slot_stays instrs labels k :
  (forall j instr, instrs !! j = Some instr ->
                   writes (opcode instr) = true -> result_key instr <> k) ->
  forall n (m m' : Machine W),
    temps m !! k = None ->
    state_after n instrs labels m = Some m' ->
    temps m' !! k = None.
Proof.
  intros Hk. induction n as [|n IH]; intros m m' Hm Hrun; cbn [state_after] in Hrun.
  - by simplify_eq.
  - destruct (instrs !! ip m) as [instr|] eqn:Hi; [|done].
    assert (Hside : writes (opcode instr) = false \/ k <> result_key instr).
    { destruct (writes (opcode instr)) eqn:Hw; [|by left].
      right. intros ->. by eapply Hk. }
    destruct (exec_instr labels instr m) as [m1|m1|m1|st m1|e m1|] eqn:Hexec;
      try done.
    + eapply IH; [|exact Hrun]. cbn [temps set_ip].
      by rewrite (exec_instr_temps labels instr m m1 k (or_introl Hexec) Hside).
    + eapply IH; [|exact Hrun].
      by rewrite (exec_instr_temps labels instr m m1 k (or_intror Hexec) Hside).
Qed.

(** JZ on a slot that is unset jumps. *)
Lemma jz_on_unset_slot labels instr r (m : Machine W) :
  opcode instr = IROpCode.JZ -> operands instr !! 0%nat = Some r ->
  temps m !! IRValue_toString r = None ->
  exec_instr labels instr m = SJump (set_ip (labels_at (label instr) labels) m).
Proof.
  intros Hop Hr Hm. unfold exec_instr. rewrite Hop.
  unfold operand_value, temps_at. by rewrite Hr, Hm.
Qed.
End SlotInvariant.

(** The keys of the slots. *)
Lemma to_string_int_inj a b : to_string_int a = to_string_int b -> a = b.
Proof. unfold to_string_int. apply (inj pretty). Qed.

Lemma temp_key_inj a b :
  IRValue_toString (temp_value a) = IRValue_toString (temp_value b) -> a = b.
Proof. unfold IRValue_toString, temp_value. cbn. intros [= Heq]. by apply to_string_int_inj. Qed.

Lemma result_temps_lookup_inj instrs :
  NoDup (result_temps instrs) ->
  forall j j' i i' id,
    instrs !! j = Some i -> instrs !! j' = Some i' ->
    result_temp i = Some id -> result_temp i' = Some id -> j = j'.
Proof.
  induction instrs as [|i0 instrs IH]; intros Hnd j j' i i' id Hj Hj' Hi Hi'; [done|].
  assert (Hin : forall j1 i1, instrs !! j1 = Some i1 -> result_temp i1 = Some id ->
                              id ∈ result_temps instrs).
  { intros j1 i1 Hl Hr. unfold result_temps. apply list_elem_of_omap.
    exists i1. split; [|done]. by eapply list_elem_of_lookup_2. }
  unfold result_temps in Hnd. cbn [omap list_omap] in Hnd.
  destruct j as [|j], j' as [|j']; cbn in Hj, Hj'; simplify_eq.
  - done.
  - rewrite Hi in Hnd. apply NoDup_cons in Hnd as [Hnin _].
    destruct Hnin. by eapply Hin.
  - rewrite Hi' in Hnd. apply NoDup_cons in Hnd as [Hnin _].
    destruct Hnin. by eapply Hin.
  - f_equal. eapply (IH _ j j' i i' id); try done.
    Unshelve. destruct (result_temp i0); [by apply NoDup_cons in Hnd as [_ ?]|done].
Qed.

(** In a function with dense temporaries no storing instruction names the
    result slot of an instruction that does not store. *)
Lemma silent_result_unshared f :
  temps_dense f ->
  forall j i, instructions f !! j = Some i -> writes (opcode i) = false ->
  forall j' i', instructions f !! j' = Some i' -> writes (opcode i') = true ->
  result_key i' <> result_key i.
Proof.
  intros (n & Hn & Hok & Hperm) j i Hj Hw j' i' Hj' Hw'.
  assert (Hnd : NoDup (result_temps (instructions f))).
  { rewrite Hperm. apply NoDup_seqZ. }
  pose proof (Forall_lookup_1 _ _ _ _ Hok Hj) as Hi.
  pose proof (Forall_lookup_1 _ _ _ _ Hok Hj') as Hi'.
  unfold result_key.
  destruct Hi' as [[_ Hc]|[[Hloc' Hst']|(id' & Hid' & Hres')]]; [congruence| |].
  - (* the storing instruction is a STORE to a local *)
    destruct Hi as [[Hres _]|[[_ Hst]|(id & _ & Hres)]].
    + rewrite Hres. unfold IRValue_toString at 1. rewrite Hloc'. done.
    + rewrite Hst in Hw. done.
    + rewrite Hres. unfold IRValue_toString at 1. rewrite Hloc'. done.
  - (* the storing instruction names the temporary [id'] *)
    destruct Hi as [[Hres _]|[[_ Hst]|(id & _ & Hres)]].
    + rewrite Hres, Hres'.
      change (IRValue_toString IRValue_default)
        with (IRValue_toString (temp_value (-1))).
      intros Hkey. apply temp_key_inj in Hkey. lia.
    + rewrite Hst in Hw. done.
    + rewrite Hres, Hres'. intros Hkey. apply temp_key_inj in Hkey. subst id'.
      assert (j' = j).
      { eapply (result_temps_lookup_inj _ Hnd j' j i' i id); try done;
          by apply result_temp_temp. }
      subst j'. congruence.
Qed.

(** ** The logical-and operator *)

Lemma Gen_cur g g' new rt rl :
  Gen g g' new rt rl -> symtab_ok (symbolTable g) -> is_Some (current g) ->
  cur_instrs g' = cur_instrs g ++ new
  /\ is_Some (current g') /\ symtab_ok (symbolTable g').
Proof.
  intros HG Hs [f Hf]. destruct (HG Hs) as (_ & Hc & _ & _ & Hs' & _).
  unfold cur_instrs. rewrite Hc, Hf. by cbn.
Qed.

Lemma cur_instrs_emit i g :
  is_Some (current g) ->
  cur_instrs (emitInstruction i g) = cur_instrs g ++ [i]
  /\ is_Some (current (emitInstruction i g))
  /\ symbolTable (emitInstruction i g) = symbolTable g.
Proof.
  intros [f Hf]. unfold cur_instrs, emitInstruction. rewrite Hf. by cbn.
Qed.

Lemma createTemp_cur g :
  current (snd (createTemp g)) = current g
  /\ symbolTable (snd (createTemp g)) = symbolTable g.
Proof. done. Qed.

Lemma createLabel_cur g :
  current (snd (createLabel g)) = current g
  /\ symbolTable (snd (createLabel g)) = symbolTable g.
Proof. done. Qed.

(** [a && b] lowers to the code of [a], the code of [b] and an AND
    instruction whose result is the value of the expression. *)
Lemma lower_and a b g :
  is_Some (current g) -> symtab_ok (symbolTable g) ->
  exists pre i,
    cur_instrs (snd (visitExpression (BinaryOp a TokenType.AND b) g)) = pre ++ [i]
    /\ opcode i = IROpCode.AND
    /\ result i = fst (visitExpression (BinaryOp a TokenType.AND b) g)
    /\ is_Some (current (snd (visitExpression (BinaryOp a TokenType.AND b) g)))
    /\ symtab_ok (symbolTable (snd (visitExpression (BinaryOp a TokenType.AND b) g))).
Proof.
  intros Hcur Hs. cbn [visitExpression].
  destruct (visitExpression_Gen a g) as [n1 H1].
  destruct (visitExpression a g) as [lv g1]. cbn [snd] in H1.
  destruct (Gen_cur _ _ _ _ _ H1 Hs Hcur) as (Hc1 & Hcur1 & Hs1).
  destruct (visitExpression_Gen b g1) as [n2 H2].
  destruct (visitExpression b g1) as [rv g2]. cbn [snd] in H2.
  destruct (Gen_cur _ _ _ _ _ H2 Hs1 Hcur1) as (Hc2 & Hcur2 & Hs2).
  destruct (createTemp_cur g2) as [Hc3 Hs3].
  destruct (createTemp g2) as [res g3]. cbn [fst snd] in *.
  rewrite <- Hc3 in Hcur2.
  match goal with
  | |- context [emitInstruction ?i g3] =>
      destruct (cur_instrs_emit i g3 Hcur2) as (Hc4 & Hcur4 & Hs4);
      exists (cur_instrs g3), i
  end.
  split; [done|]. split; [done|]. split; [done|]. split; [done|].
  by rewrite Hs4, Hs3.
Qed.

Lemma appends_refl g : appends g g.
Proof. intros Hs Hc. exists []. by rewrite app_nil_r. Qed.

Lemma appends_emit g g' i : appends g g' -> appends g (emitInstruction i g').
Proof.
  intros H Hs Hc. destruct (H Hs Hc) as (new & Hn & Hc' & Hs').
  destruct (cur_instrs_emit i g' Hc') as (He & Hce & Hse).
  exists (new ++ [i]). rewrite He, Hn, Hse. by rewrite app_assoc.
Qed.

Lemma appends_Gen g g' g'' new rt rl :
  Gen g' g'' new rt rl -> appends g g' -> appends g g''.
Proof.
  intros HG H Hs Hc. destruct (H Hs Hc) as (n1 & Hn & Hc' & Hs').
  destruct (Gen_cur _ _ _ _ _ HG Hs' Hc') as (Hn2 & Hc2 & Hs2).
  exists (n1 ++ new). rewrite Hn2, Hn. by rewrite app_assoc.
Qed.

Lemma appends_stmt g g' s : appends g g' -> appends g (visitStatement s g').
Proof.
  destruct (visitStatement_Gen s g') as [new HG]. by apply (appends_Gen _ _ _ _ _ _ HG).
Qed.

Lemma appends_expr g g' e : appends g g' -> appends g (snd (visitExpression e g')).
Proof.
  destruct (visitExpression_Gen e g') as [new HG]. by apply (appends_Gen _ _ _ _ _ _ HG).
Qed.

Lemma appends_createLabel g g' : appends g g' -> appends g (snd (createLabel g')).
Proof.
  destruct (Gen_createLabel g') as [_ HG]. by apply (appends_Gen _ _ _ _ _ _ HG).
Qed.

Ltac solve_appends :=
  unfold emit_label, emit_jmp, emit_jz;
  repeat first
    [ apply appends_refl
    | apply appends_emit
    | apply appends_stmt
    | apply appends_expr
    | match goal with
      | |- appends _ (match ?o with Some _ => _ | None => _ end) => destruct o
      end ].

(** In [if (a && b) ...] and in [while (a && b) ...] the AND instruction
    is followed by the JZ that tests its result. *)
Lemma lower_if_and a b thenB elseB g :
  is_Some (current g) -> symtab_ok (symbolTable g) ->
  exists pre i_and i_jz post,
    cur_instrs (visitStatement
                  (IfStatement (BinaryOp a TokenType.AND b) thenB elseB) g)
    = pre ++ i_and :: i_jz :: post
    /\ opcode i_and = IROpCode.AND /\ opcode i_jz = IROpCode.JZ
    /\ operands i_jz = [result i_and].
Proof.
  intros Hcur Hs. cbn [visitStatement].
  destruct (lower_and a b g Hcur Hs) as (pre & i & Hpre & Hop & Hres & Hcur1 & Hs1).
  destruct (visitExpression (BinaryOp a TokenType.AND b) g) as [c g1].
  cbn [fst snd] in *.
  destruct (createLabel g1) as [thenLabel g2] eqn:Hl2.
  destruct (createLabel g2) as [elseLabel g3] eqn:Hl3.
  destruct (createLabel g3) as [endLabel g4] eqn:Hl4.
  assert (Hg4 : current g4 = current g1 /\ symbolTable g4 = symbolTable g1
                /\ cur_instrs g4 = cur_instrs g1).
  { pose proof (createLabel_cur g1) as [? ?]. pose proof (createLabel_cur g2) as [? ?].
    pose proof (createLabel_cur g3) as [? ?].
    rewrite Hl2, Hl3, Hl4 in *. cbn [snd] in *.
    assert (Hc : current g4 = current g1) by congruence.
    split; [done|]. split; [congruence|]. unfold cur_instrs. by rewrite Hc. }
  destruct Hg4 as (Hc4 & Hsy4 & Hci4).
  assert (Hcur4 : is_Some (current g4)) by (by rewrite Hc4).
  unfold emit_jz.
  set (jz := with_label elseLabel (with_operands [c] (IRInstruction_new IROpCode.JZ))).
  destruct (cur_instrs_emit jz g4 Hcur4) as (Hc5 & Hcur5 & Hsy5).
  set (g5 := emitInstruction jz g4) in *.
  assert (Hs5 : symtab_ok (symbolTable g5)) by (by rewrite Hsy5, Hsy4).
  match goal with
  | |- context [cur_instrs ?gf] => assert (Hrest : appends g5 gf) by solve_appends
  end.
  destruct (Hrest Hs5 Hcur5) as (post & Hpost & _).
  exists pre, i, jz, post. rewrite Hpost, Hc5, Hci4, Hpre.
  split; [by rewrite <- !app_assoc|]. split; [done|]. split; [done|].
  cbn. by rewrite Hres.
Qed.

Lemma lower_while_and a b body g :
  is_Some (current g) -> symtab_ok (symbolTable g) ->
  exists pre i_and i_jz post,
    cur_instrs (visitStatement (WhileStatement (BinaryOp a TokenType.AND b) body) g)
    = pre ++ i_and :: i_jz :: post
    /\ opcode i_and = IROpCode.AND /\ opcode i_jz = IROpCode.JZ
    /\ operands i_jz = [result i_and].
Proof.
  intros Hcur Hs. cbn [visitStatement].
  destruct (createLabel g) as [loopLabel g1] eqn:Hl1.
  destruct (createLabel g1) as [endLabel g2] eqn:Hl2.
  assert (Hg2 : current g2 = current g /\ symbolTable g2 = symbolTable g).
  { pose proof (createLabel_cur g) as [? ?]. pose proof (createLabel_cur g1) as [? ?].
    rewrite Hl1, Hl2 in *. cbn [snd] in *. split; congruence. }
  destruct Hg2 as (Hc2 & Hsy2).
  assert (Hcur2 : is_Some (current g2)) by (by rewrite Hc2).
  unfold emit_label, emit_jz, emit_jmp.
  set (lab := with_label loopLabel (IRInstruction_new IROpCode.LABEL)).
  destruct (cur_instrs_emit lab g2 Hcur2) as (Hc3 & Hcur3 & Hsy3).
  set (g3 := emitInstruction lab g2) in *.
  assert (Hs3 : symtab_ok (symbolTable g3)) by (by rewrite Hsy3, Hsy2).
  destruct (lower_and a b g3 Hcur3 Hs3) as (pre & i & Hpre & Hop & Hres & Hcur4 & Hs4).
  destruct (visitExpression (BinaryOp a TokenType.AND b) g3) as [c g4].
  cbn [fst snd] in *.
  unfold emit_jz.
  set (jz := with_label endLabel (with_operands [c] (IRInstruction_new IROpCode.JZ))).
  destruct (cur_instrs_emit jz g4 Hcur4) as (Hc5 & Hcur5 & Hsy5).
  set (g5 := emitInstruction jz g4) in *.
  assert (Hs5 : symtab_ok (symbolTable g5)) by (by rewrite Hsy5).
  match goal with
  | |- context [cur_instrs ?gf] => assert (Hrest : appends g5 gf) by solve_appends
  end.
  destruct (Hrest Hs5 Hcur5) as (post & Hpost & _).
  exists pre, i, jz, post. rewrite Hpost, Hc5, Hpre.
  split; [by rewrite <- !app_assoc|]. split; [done|]. split; [done|].
  cbn. by rewrite Hres.
Qed.

(** The dispatch loop continues from the state that [state_after] gives. *)
Lemma run_state_after {W : Type} `{World W} `{FloatText} instrs labels n :
  forall (m m' : Machine W) k,
    state_after n instrs labels m = Some m' ->
    run (n + k) instrs labels m = run k instrs labels m'.
Proof.
  induction n as [|n IH]; intros m m' k Hrun; cbn [state_after] in Hrun.
  - by simplify_eq.
  - cbn [Nat.add run]. destruct (instrs !! ip m) as [instr|]; [|done].
    destruct (exec_instr labels instr m); try done; by apply IH.
Qed.

(** C9. [&&] lowers to the AND opcode, and the conditions of [if] and of
    [while] lower to the AND instruction followed by the JZ that tests its
    result.  The dispatch chain has no branch for AND, OR, NOT and NEG:
    such an instruction changes nothing.  In every function of every
    generated program, whenever the loop is running, the result slot of an
    AND instruction reads as the integer 0 and a JZ on it jumps to its
    label.  On [src_and] the else branch is run. *)
Theorem C9_and_condition_is_zero :
  forall (W : Type) (HW : World W) (FT : FloatText) (w : W)
         (ast : Program) (fi : nat) (f : IRFunction) (j k : nat)
         (i_and i_jz : IRInstruction) (labels : gmap string nat)
         (m0 m : Machine W) (n : nat),
    ir_functions (generate ast) !! fi = Some f ->
    instructions f !! j = Some i_and -> opcode i_and = IROpCode.AND ->
    instructions f !! k = Some i_jz -> opcode i_jz = IROpCode.JZ ->
    operands i_jz !! 0%nat = Some (result i_and) ->
    state_after n (instructions f) labels (enter_function m0) = Some m ->
    tokenTypeToOpCode TokenType.AND = IROpCode.AND
    /\ (forall a b thenB elseB body g,
          is_Some (current g) -> symtab_ok (symbolTable g) ->
          forall s, s = IfStatement (BinaryOp a TokenType.AND b) thenB elseB
                    \/ s = WhileStatement (BinaryOp a TokenType.AND b) body ->
          exists pre c_and c_jz post,
            cur_instrs (visitStatement s g) = pre ++ c_and :: c_jz :: post
            /\ opcode c_and = IROpCode.AND /\ opcode c_jz = IROpCode.JZ
            /\ operands c_jz = [result c_and])
    /\ (forall op ops res lbl pr lbls (m1 : Machine W),
          op = IROpCode.AND \/ op = IROpCode.OR \/ op = IROpCode.NOT
          \/ op = IROpCode.NEG ->
          exec_instr lbls (mkIRInstruction op ops res lbl pr) m1 = SNext m1)
    /\ temps m !! result_key i_and = None
    /\ temps_at (result_key i_and) m = VInt 0
    /\ exec_instr labels i_jz m = SJump (set_ip (labels_at (label i_jz) labels) m)
    /\ zpp_main 200 src_and w = Terminated 0 "0" "" w.
Proof.
  intros W HW FT w ast fi f j k i_and i_jz labels m0 m n Hf Hj Hand Hk Hjz Hop Hrun.
  assert (Hunset : temps m !! result_key i_and = None).
  { destruct (generate_ok ast) as [Hd _].
    pose proof (Forall_lookup_1 _ _ _ _ Hd Hf) as Hdense.
    apply (unset_slot_stays (instructions f) labels (result_key i_and))
      with (n := n) (m := enter_function m0); [|reflexivity|exact Hrun].
    intros j' i' Hj' Hw'.
    eapply (silent_result_unshared f Hdense j i_and); try done.
    by rewrite Hand. }
  split; [reflexivity|]. split.
  { intros a b thenB elseB body g Hcur Hs s [->| ->].
    - by apply lower_if_and.
    - by apply lower_while_and. }
  split.
  { intros op ops res lbl pr lbls m1 [->|[->|[->| ->]]]; reflexivity. }
  split; [exact Hunset|]. split.
  { unfold temps_at. by rewrite Hunset. }
  split.
  { by apply (jz_on_unset_slot labels i_jz (result i_and)). }
  vm_compute. reflexivity.
Qed.


(** * Further properties *)

(** ** The lexer: single tokens *)

Lemma position_after_app a b ln col :
  position_after (a +:+ b) ln col
  = position_after b (position_after a ln col).1 (position_after a ln col).2.
Proof.
  revert ln col. induction a as [|c a IH]; intros ln col; [done|].
  change (String c a +:+ b) with (String c (a +:+ b)). cbn [position_after].
  destruct (advance_pos c ln col) as [ln' col']. apply IH.
Qed.

(** On one line the column counts the characters. *)
Lemma position_after_line s ln col :
  string_forall (fun c => negb (ascii_eqb c newline)) s = true ->
  position_after s ln col = (ln, col + Z.of_nat (String.length s)).
Proof.
  revert col. induction s as [|c s IH]; intros col Hs.
  - cbn. f_equal. lia.
  - cbn [string_forall] in Hs. apply andb_true_iff in Hs as [Hc Hs].
    cbn [position_after String.length]. unfold advance_pos.
    apply negb_true_iff in Hc. unfold newline in Hc. rewrite Hc.
    rewrite IH by done. f_equal. lia.
Qed.

Lemma lx_advance_cons c r ln col :
  lx_advance (mkLexer (String c r) ln col)
  = mkLexer r (position_after (String c EmptyString) ln col).1
      (position_after (String c EmptyString) ln col).2.
Proof.
  unfold lx_advance. cbn [rest line column position_after].
  by destruct (advance_pos c ln col).
Qed.

(** A scan over [w ++ r] reads exactly [w] when the characters of [w]
    pass the test and the loop stops in front of [r]. *)
Lemma scan_from_word p w : forall r ln col,
  string_forall (fun c => negb (ascii_eqb c NUL) && p c) w = true ->
  stops p r ->
  scan_from p (w +:+ r) ln col
  = (w, mkLexer r (position_after w ln col).1 (position_after w ln col).2).
Proof.
  induction w as [|c w IH]; intros r ln col Hw Hr.
  - cbn [position_after fst snd]. change (EmptyString +:+ r) with r.
    destruct r as [|c r]; [done|]. cbn [scan_from]. cbn [stops] in Hr. by rewrite Hr.
  - cbn [string_forall] in Hw. apply andb_true_iff in Hw as [Hc Hw].
    cbv beta in Hc. change (String c w +:+ r) with (String c (w +:+ r)).
    cbn [scan_from position_after]. rewrite Hc.
    destruct (advance_pos c ln col) as [ln1 col1].
    by rewrite (IH r ln1 col1 Hw Hr).
Qed.
Lemma string_forall_line (p : ascii -> bool) s :
  (forall c, p c = true -> ascii_eqb c newline = false) ->
  string_forall p s = true ->
  string_forall (fun c => negb (ascii_eqb c newline)) s = true.
Proof.
  intros Hp. apply string_forall_impl. intros c Hc. by rewrite (Hp c Hc).
Qed.

Lemma plain_not_newline c : plain_code c -> ascii_eqb c newline = false.
Proof.
  unfold plain_code. intros Hc. apply ascii_eqb_code.
  change (code newline) with 10%N. lia.
Qed.

(** X3. A run of digits and dots that begins with a digit, taken as far
    as it goes, is one token with the run as its value: a FLOAT when the
    run holds a dot (one or several), an INTEGER otherwise.  The token
    carries the line and the column of its first character. *)
Theorem X3_number_token :
  forall (w r : string) (ln col : Z),
    number_lexeme w = true -> stops number_char r ->
    nextToken (mkLexer (w +:+ r) ln col)
    = (mkToken (if string_mem "."%char w then TokenType.FLOAT else TokenType.INTEGER)
         w ln col,
       mkLexer r ln (col + Z.of_nat (String.length w))).
Proof.
  intros w r ln col Hw Hr. destruct w as [|c w]; [done|].
  cbn [number_lexeme] in Hw. apply andb_true_iff in Hw as [Hc Hw].
  pose proof (proj1 (isdigit_code c) Hc) as Hcode.
  change (String c w +:+ r) with (String c (w +:+ r)).
  rewrite nextToken_dispatch; cycle 1.
  { apply not_true_is_false. rewrite isspace_code. lia. }
  { apply at_comment_head, ascii_eqb_code. change (code "/") with 47%N. lia. }
  cbv zeta.
  rewrite (ascii_eqb_code c NUL) by (change (code NUL) with 0%N; lia).
  rewrite (ascii_eqb_code c "010"%char) by (change (code "010") with 10%N; lia).
  rewrite Hc. unfold readNumber, scan. cbn [rest line column].
  assert (Hall : string_forall number_char (String c w) = true).
  { cbn [string_forall]. unfold number_char at 1. by rewrite Hc, Hw. }
  change (String c (w +:+ r)) with (String c w +:+ r).
  rewrite (scan_from_word number_char (String c w) r ln col); [|  |done].
  - rewrite position_after_line.
    + cbn [fst snd]. by destruct (string_mem "." (String c w)).
    + revert Hall. apply string_forall_line. intros d Hd.
      apply plain_not_newline. by apply number_char_plain.
  - revert Hall. apply string_forall_impl. intros d Hd. rewrite Hd.
    by rewrite (plain_not_NUL d (number_char_plain d Hd)).
Qed.

Lemma X3_number_token_witness :
  nextToken (mkLexer "1.2.3;" 1 1)
  = (mkToken TokenType.FLOAT "1.2.3" 1 1, mkLexer ";" 1 6).
Proof.
  exact (X3_number_token "1.2.3" ";" 1 1 eq_refl eq_refl).
Defined.

(** X4. An identifier-shaped word, taken as far as it goes, is one token:
    the keyword of that exact spelling when there is one, an IDENTIFIER
    otherwise.  A keyword followed by a letter, a digit or an underscore is
    therefore part of an identifier. *)
Theorem X4_word_token :
  forall (w r : string) (ln col : Z),
    word_lexeme w = true -> stops word_char r ->
    nextToken (mkLexer (w +:+ r) ln col)
    = (mkToken (default TokenType.IDENTIFIER (keywords_find w keywords)) w ln col,
       mkLexer r ln (col + Z.of_nat (String.length w))).
Proof.
  intros w r ln col Hw Hr. destruct w as [|c w]; [done|].
  cbn [word_lexeme] in Hw. apply andb_true_iff in Hw as [Hc Hw].
  assert (Hwc : word_char c = true).
  { unfold word_char, isalnum. apply orb_true_iff in Hc as [->| ->]; [done|].
    by rewrite orb_true_r. }
  pose proof (word_char_plain c Hwc) as Hplain.
  assert (Hnd : isdigit c = false).
  { apply orb_true_iff in Hc as [Ha|Hu].
    - apply isalpha_code in Ha. apply isdigit_false_code. lia.
    - apply ascii_eqb_true in Hu. subst c. reflexivity. }
  unfold plain_code in Hplain.
  change (String c w +:+ r) with (String c (w +:+ r)).
  rewrite nextToken_dispatch; cycle 1.
  { apply not_true_is_false. rewrite isspace_code. lia. }
  { apply at_comment_head, ascii_eqb_code. change (code "/") with 47%N. lia. }
  cbv zeta.
  rewrite (ascii_eqb_code c NUL) by (change (code NUL) with 0%N; lia).
  rewrite (ascii_eqb_code c "010"%char) by (change (code "010") with 10%N; lia).
  rewrite Hnd.
  rewrite (ascii_eqb_code c "034"%char) by (change (code "034") with 34%N; lia).
  rewrite (ascii_eqb_code c "'"%char) by (change (code "'") with 39%N; lia).
  cbn [orb]. rewrite Hc.
  unfold readIdentifierOrKeyword, scan. cbn [rest line column].
  assert (Hall : string_forall word_char (String c w) = true).
  { cbn [string_forall]. by rewrite Hwc, Hw. }
  change (String c (w +:+ r)) with (String c w +:+ r).
  rewrite (scan_from_word word_char (String c w) r ln col); [|  |done].
  - rewrite position_after_line.
    + cbn [fst snd]. by destruct (keywords_find (String c w) keywords).
    + revert Hall. apply string_forall_line. intros d Hd.
      apply plain_not_newline. by apply word_char_plain.
  - revert Hall. apply string_forall_impl. intros d Hd. rewrite Hd.
    by rewrite (plain_not_NUL d (word_char_plain d Hd)).
Qed.

Lemma X4_word_token_witness :
  nextToken (mkLexer "while(" 1 1) = (mkToken TokenType.WHILE "while" 1 1, mkLexer "(" 1 6)
  /\ nextToken (mkLexer "while1 " 1 1)
     = (mkToken TokenType.IDENTIFIER "while1" 1 1, mkLexer " " 1 7).
Proof.
  split.
  - exact (X4_word_token "while" "(" 1 1 eq_refl eq_refl).
  - exact (X4_word_token "while1" " " 1 1 eq_refl eq_refl).
Defined.
(** X2. A single [&] or [|] (one that is not doubled) gives an UNKNOWN
    token, and the character that follows it is skipped together with it:
    whatever that character is, it never becomes part of a token. *)
Theorem X2_lone_ampersand_skips_next :
  forall (ch c : ascii) (r : string) (ln col : Z),
    ch = "&"%char \/ ch = "|"%char -> c <> ch ->
    exists ln' col',
      nextToken (mkLexer (String ch (String c r)) ln col)
      = (mkToken TokenType.UNKNOWN (String ch EmptyString) ln' col,
         mkLexer r ln' col').
Proof.
  intros ch c r ln col Hch Hc.
  assert (Hne : ascii_eqb c ch = false) by (by apply ascii_eqb_false).
  destruct Hch as [-> | ->].
  - rewrite nextToken_dispatch by reflexivity. cbv zeta.
    change (ascii_eqb "&" NUL) with false. change (ascii_eqb "&" "010") with false.
    change (isdigit "&") with false.
    change (ascii_eqb "&" "034" || ascii_eqb "&" "'") with false.
    change (isalpha "&" || ascii_eqb "&" "_") with false. cbv iota.
    unfold readOperatorOrDelimiter. cbn [currentChar rest].
    repeat match goal with
           | |- context [ascii_eqb "&"%char ?x] =>
               let b := eval vm_compute in (ascii_eqb "&"%char x) in
               change (ascii_eqb "&"%char x) with b; cbv iota
           end.
    unfold emit_pair. rewrite lx_advance_cons. cbn [currentChar rest].
    rewrite Hne, lx_advance_cons. cbn [line column]. by eexists _, _.
  - rewrite nextToken_dispatch by reflexivity. cbv zeta.
    change (ascii_eqb "|" NUL) with false. change (ascii_eqb "|" "010") with false.
    change (isdigit "|") with false.
    change (ascii_eqb "|" "034" || ascii_eqb "|" "'") with false.
    change (isalpha "|" || ascii_eqb "|" "_") with false. cbv iota.
    unfold readOperatorOrDelimiter. cbn [currentChar rest].
    repeat match goal with
           | |- context [ascii_eqb "|"%char ?x] =>
               let b := eval vm_compute in (ascii_eqb "|"%char x) in
               change (ascii_eqb "|"%char x) with b; cbv iota
           end.
    unfold emit_pair. rewrite lx_advance_cons. cbn [currentChar rest].
    rewrite Hne, lx_advance_cons. cbn [line column]. by eexists _, _.
Qed.

Lemma X2_lone_ampersand_skips_next_witness :
  exists ln' col',
    nextToken (mkLexer "&b" 1 1)
    = (mkToken TokenType.UNKNOWN "&" ln' 1, mkLexer "" ln' col').
Proof.
  apply (X2_lone_ampersand_skips_next "&"%char "b"%char "" 1 1).
  - left. reflexivity.
  - discriminate.
Defined.
Lemma string_app_assoc (a b c : string) : (a +:+ b) +:+ c = a +:+ (b +:+ c).
Proof.
  induction a as [|x a IH]; [done|].
  change ((String x a +:+ b) +:+ c) with (String x ((a +:+ b) +:+ c)).
  change (String x a +:+ (b +:+ c)) with (String x (a +:+ (b +:+ c))).
  by rewrite IH.
Qed.

Lemma string_app_nil (a : string) : a +:+ EmptyString = a.
Proof.
  induction a as [|x a IH]; [done|].
  change (String x a +:+ "") with (String x (a +:+ "")). by rewrite IH.
Qed.





(** With enough fuel the comment-skipping loop does not depend on it. *)
Lemma skipComments_enough f1 : forall f2 lx,
  (unread lx <= f1)%nat -> (unread lx <= f2)%nat ->
  skipComments f1 lx = skipComments f2 lx.
Proof.
  induction f1 as [|f1 IH]; intros f2 lx H1 H2.
  - destruct f2 as [|f2]; [done|]. cbn [skipComments].
    destruct (at_comment lx) eqn:Hat; [|done].
    pose proof (skipComment_unread lx Hat). lia.
  - cbn [skipComments]. destruct f2 as [|f2]; cbn [skipComments];
      destruct (at_comment lx) eqn:Hat; try done.
    + pose proof (skipComment_unread lx Hat). lia.
    + pose proof (skipComment_unread lx Hat) as Hlt.
      pose proof (skipWhitespace_unread (skipComment lx)) as Hws.
      apply IH; lia.
Qed.

(** [nextToken] in front of a comment: the comment is skipped and the
    token is the one that follows it. *)
Lemma nextToken_comment s ln col :
  at_comment (mkLexer (String "/"%char s) ln col) = true ->
  nextToken (mkLexer (String "/"%char s) ln col)
  = nextToken (skipComment (mkLexer (String "/"%char s) ln col)).
Proof.
  intros Hat. set (lx := mkLexer (String "/"%char s) ln col) in *.
  unfold nextToken at 1.
  assert (Hws : skipWhitespace lx = lx) by (by apply skipWhitespace_head).
  rewrite Hws. change (String.length (rest lx)) with (S (String.length s)).
  cbn [skipComments]. rewrite Hat.
  set (lx1 := skipWhitespace (skipComment lx)).
  pose proof (skipComment_unread lx Hat) as Hlt.
  pose proof (skipWhitespace_unread (skipComment lx)) as Hle.
  fold lx1 in Hle. change (unread lx) with (S (String.length s)) in Hlt.
  rewrite (skipComments_enough (String.length s) (unread lx1) lx1) by lia.
  reflexivity.
Qed.

Lemma lx_advance_plain c r ln col :
  ascii_eqb c newline = false ->
  lx_advance (mkLexer (String c r) ln col) = mkLexer r ln (col + 1).
Proof.
  intros Hc. unfold lx_advance, advance_pos. cbn [rest line column].
  unfold newline in Hc. by rewrite Hc.
Qed.

Lemma nextToken_newline r ln col :
  nextToken (mkLexer (String newline r) ln col)
  = (mkToken TokenType.NEWLINE (String newline EmptyString) ln col,
     mkLexer r (ln + 1) 1).
Proof.
  unfold nextToken.
  assert (Hws : skipWhitespace (mkLexer (String newline r) ln col)
                = mkLexer (String newline r) ln col) by reflexivity.
  rewrite Hws. rewrite skipComments_none by reflexivity.
  cbn [currentChar rest]. change (ascii_eqb newline NUL) with false.
  change (ascii_eqb newline "010") with true. cbv iota.
  unfold lx_advance, advance_pos. cbn [rest line column].
  change (ascii_eqb newline "010") with true. cbv iota. cbn [line].
  repeat f_equal; lia.
Qed.

(** X6. A line comment runs up to, and not including, the end of its
    line: the token after [//...] is the NEWLINE of that line, or
    END_OF_FILE when the input ends first.  A block comment runs up to
    the first [*/], whatever comes before it (stars and slashes
    included); the token after it is the token of the text that follows.
    A block comment that is never closed takes the rest of the input,
    and the token is END_OF_FILE: no error is raised. *)
Theorem X6_comments_give_no_token :
  (forall (c r : string) (ln col : Z),
      string_forall line_comment_char c = true ->
      let width := col + 2 + Z.of_nat (String.length c) in
      nextToken (mkLexer ("//" +:+ c +:+ String newline r) ln col)
      = (mkToken TokenType.NEWLINE (String newline EmptyString) ln width,
         mkLexer r (ln + 1) 1)
      /\ nextToken (mkLexer ("//" +:+ c) ln col)
         = (mkToken TokenType.END_OF_FILE "" ln width, mkLexer EmptyString ln width))
  /\ (forall (c r : string) (ln col : Z),
        block_comment_body c = true ->
        let closed := "/*" +:+ c +:+ "*/" in
        let open := "/*" +:+ c in
        nextToken (mkLexer (closed +:+ r) ln col)
        = nextToken (mkLexer r (position_after closed ln col).1
                       (position_after closed ln col).2)
        /\ nextToken (mkLexer open ln col)
           = (mkToken TokenType.END_OF_FILE ""
                (position_after open ln col).1 (position_after open ln col).2,
              mkLexer EmptyString (position_after open ln col).1
                (position_after open ln col).2)).
Proof.
  split.
  - intros c r ln col Hc width.
    assert (Hscan : forall r', stops (fun x => negb (ascii_eqb x "010"%char)) r' ->
               skipComment (mkLexer ("//" +:+ c +:+ r') ln col)
               = mkLexer r' ln width).
    { intros r' Hr'. unfold skipComment.
      change ("//" +:+ c +:+ r') with (String "/" (String "/" (c +:+ r'))).
      cbn [currentChar peekChar rest]. change (ascii_eqb "/" "/") with true.
      cbn [andb]. rewrite !lx_advance_plain by reflexivity.
      unfold scan. cbn [rest line column].
      rewrite scan_from_word; [|exact Hc|exact Hr']. cbn [snd].
      rewrite position_after_line.
      - cbn [fst snd]. subst width. f_equal. lia.
      - revert Hc. apply string_forall_impl. intros x Hx.
        unfold line_comment_char in Hx. by apply andb_true_iff in Hx as [_ Hx]. }
    split.
    + change ("//" +:+ c +:+ String newline r)
        with (String "/" ("/" +:+ c +:+ String newline r)).
      rewrite nextToken_comment by reflexivity.
      change (String "/" ("/" +:+ c +:+ String newline r))
        with ("//" +:+ c +:+ String newline r).
      rewrite Hscan by reflexivity.
      apply nextToken_newline.
    + change ("//" +:+ c) with (String "/" ("/" +:+ c)).
      rewrite nextToken_comment by reflexivity.
      change (String "/" ("/" +:+ c)) with ("//" +:+ c).
      rewrite <- (string_app_nil c) at 1.
      rewrite Hscan by reflexivity. reflexivity.
  - intros c r ln col Hc closed open.
    assert (Hblock : forall r' ln0 col0,
               match r' with
               | EmptyString => True
               | String x r'' => x = "*"%char /\ exists r3, r'' = String "/"%char r3
               end ->
               skipBlock_from (c +:+ r') ln0 col0
               = match r' with
                 | String _ (String _ r3) =>
                     mkLexer r3 (position_after (c +:+ "*/") ln0 col0).1
                       (position_after (c +:+ "*/") ln0 col0).2
                 | _ => mkLexer EmptyString (position_after c ln0 col0).1
                          (position_after c ln0 col0).2
                 end).
    { clear closed open. induction c as [|x c IH]; intros r' ln0 col0 Hr'.
      - change (EmptyString +:+ r') with r'. destruct r' as [|x r'']; [done|].
        destruct Hr' as [-> [r3 ->]]. cbn [skipBlock_from peekChar rest].
        change (ascii_eqb "*" NUL) with false.
        change (ascii_eqb "*" "*" && ascii_eqb "/" "/") with true. cbv iota.
        rewrite !lx_advance_cons. reflexivity.
      - cbn [block_comment_body] in Hc. apply andb_true_iff in Hc as [Hx Hc].
        apply andb_true_iff in Hx as [Hn Hs]. apply negb_true_iff in Hn, Hs.
        change (String x c +:+ r') with (String x (c +:+ r')).
        assert (Hopen : ascii_eqb x "*"%char
                        && ascii_eqb (peekChar (mkLexer (String x (c +:+ r')) ln0 col0))
                             "/"%char = false).
        { destruct (ascii_eqb x "*"%char); [|done]. cbn [andb] in *.
          cbn [peekChar rest]. destruct c as [|d c'].
          - change (EmptyString +:+ r') with r'. destruct r' as [|y r'']; [done|].
            by destruct Hr' as [-> _].
          - exact Hs. }
        cbn [skipBlock_from]. rewrite Hn, Hopen.
        destruct (advance_pos x ln0 col0) as [ln1 col1] eqn:Hadv.
        rewrite (IH Hc r' ln1 col1 Hr').
        destruct r' as [|y [|z r3]].
        + cbn [position_after]. by rewrite Hadv.
        + cbn [position_after]. by rewrite Hadv.
        + change (String x c +:+ "*/") with (String x (c +:+ "*/")).
          cbn [position_after]. by rewrite Hadv. }
    assert (Hskip : forall r',
               match r' with
               | EmptyString => True
               | String x r'' => x = "*"%char /\ exists r3, r'' = String "/"%char r3
               end ->
               skipComment (mkLexer ("/*" +:+ c +:+ r') ln col)
               = skipBlock_from (c +:+ r') (position_after "/*" ln col).1
                   (position_after "/*" ln col).2).
    { intros r' _. unfold skipComment.
      change ("/*" +:+ c +:+ r') with (String "/" (String "*" (c +:+ r'))).
      cbn [currentChar peekChar rest]. change (ascii_eqb "/" "/") with true.
      change (ascii_eqb "*" "/") with false. change (ascii_eqb "*" "*") with true.
      cbn [andb]. rewrite !lx_advance_cons. cbn [rest line column].
      reflexivity. }
    split.
    + subst closed. rewrite !string_app_assoc.
      change ("/*" +:+ c +:+ "*/" +:+ r) with (String "/" ("*" +:+ c +:+ "*/" +:+ r)).
      rewrite nextToken_comment by reflexivity.
      change (String "/" ("*" +:+ c +:+ "*/" +:+ r)) with ("/*" +:+ c +:+ ("*/" +:+ r)).
      rewrite Hskip by (split; [done|by eexists]).
      rewrite Hblock by (split; [done|by eexists]).
      change ("*/" +:+ r) with (String "*" (String "/" r)). cbv iota.
      rewrite (position_after_app "/*" (c +:+ "*/")). reflexivity.
    + subst open. change ("/*" +:+ c) with (String "/" ("*" +:+ c)).
      rewrite nextToken_comment by reflexivity.
      change (String "/" ("*" +:+ c)) with ("/*" +:+ c).
      rewrite <- (string_app_nil c) at 1.
      rewrite Hskip by done. rewrite Hblock by done.
      rewrite (position_after_app "/*" c). reflexivity.
Qed.

Lemma X6_comments_give_no_token_witness :
  nextToken (mkLexer ("// note" +:+ String newline "x") 1 1)
  = (mkToken TokenType.NEWLINE (String newline EmptyString) 1 8, mkLexer "x" 2 1)
  /\ nextToken (mkLexer "/* never * closed /" 1 1)
     = (mkToken TokenType.END_OF_FILE "" 1 20, mkLexer EmptyString 1 20)
  /\ nextToken (mkLexer "/** a * b / c **/x" 1 1)
     = (mkToken TokenType.IDENTIFIER "x" 1 18, mkLexer EmptyString 1 19).
Proof.
  pose proof X6_comments_give_no_token as [Hline Hblock].
  split; [|split].
  - exact (proj1 (Hline " note" "x" 1 1 eq_refl)).
  - exact (proj2 (Hblock " never * closed /" "" 1 1 eq_refl)).
  - etransitivity; [exact (proj1 (Hblock "* a * b / c *" "x" 1 1 eq_refl))|].
    reflexivity.
Defined.
(** An END_OF_FILE token comes from the end of the input (or from a NUL
    character) only, and its value is empty. *)
Lemma nextToken_eof lx :
  tok_type (nextToken lx).1 = TokenType.END_OF_FILE ->
  tok_value (nextToken lx).1 = EmptyString
  /\ ascii_eqb (currentChar (nextToken lx).2) NUL = true.
Proof.
  unfold nextToken.
  set (lx2 := skipComments _ _).
  destruct (ascii_eqb (currentChar lx2) NUL) eqn:Hnul; [done|].
  destruct (ascii_eqb (currentChar lx2) "010"%char); [done|].
  destruct (isdigit (currentChar lx2)).
  { unfold readNumber. destruct (scan number_char lx2) as [number lx'].
    by destruct (string_mem "." number). }
  destruct (ascii_eqb (currentChar lx2) "034"%char || ascii_eqb (currentChar lx2) "'"%char).
  { unfold readString. by destruct (readString_from _ _ _ _). }
  destruct (isalpha (currentChar lx2) || ascii_eqb (currentChar lx2) "_"%char).
  { unfold readIdentifierOrKeyword. destruct (scan word_char lx2) as [identifier lx'].
    destruct (keywords_find identifier keywords) as [ty|] eqn:Hk; [|done].
    cbn [fst tok_type]. intros ->.
    by destruct (keywords_find_significant _ _ Hk) as [_ ?]. }
  unfold readOperatorOrDelimiter, emit1, emit2, emit_pair.
  repeat match goal with
         | |- context [if ?b then _ else _] => destruct b
         end; done.
Qed.

Lemma tokenize_loop_length fuel : forall lx,
  (unread lx < fuel)%nat ->
  (length (tokenize_loop fuel lx) <= S (unread lx))%nat.
Proof.
  induction fuel as [|fuel IH]; intros lx Hlt; [lia|].
  cbn [tokenize_loop].
  destruct (nextToken_unread lx) as [_ Hprog].
  destruct (nextToken lx) as [token lx'] eqn:Hnext. cbn [fst snd] in Hprog.
  destruct (TokenType.eqb (tok_type token) TokenType.END_OF_FILE) eqn:Heof.
  - cbn. lia.
  - assert (Hne : tok_type token <> TokenType.END_OF_FILE).
    { unfold TokenType.eqb in Heof. by apply bool_decide_eq_false in Heof. }
    specialize (Hprog Hne). specialize (IH lx' ltac:(lia)). cbn [length]. lia.
Qed.

Lemma tokenize_loop_last fuel : forall lx ts t,
  tokenize_loop fuel lx = ts ++ [t] ->
  tok_type t = TokenType.END_OF_FILE -> tok_value t = EmptyString.
Proof.
  induction fuel as [|fuel IH]; intros lx ts t Hts Ht.
  - by destruct ts.
  - cbn [tokenize_loop] in Hts.
    pose proof (nextToken_eof lx) as Heofv.
    destruct (nextToken lx) as [token lx'] eqn:Hnext. cbn [fst snd] in Heofv.
    destruct (TokenType.eqb (tok_type token) TokenType.END_OF_FILE) eqn:Heof.
    + destruct ts as [|t0 ts]; [|by destruct ts].
      injection Hts as <-. by apply Heofv.
    + destruct ts as [|t0 ts].
      * injection Hts as <- Hnil. unfold TokenType.eqb in Heof.
        by apply bool_decide_eq_false in Heof.
      * injection Hts as <- Hrest. by eapply IH.
Qed.

(** X1. [tokenize] returns for every input: the token list ends with
    one END_OF_FILE token of empty value, no token before it is an
    END_OF_FILE, and there are at most as many tokens before it as the
    input has characters. *)
Theorem X1_tokenize_ends_with_eof :
  forall source : string,
    exists ts t,
      tokenize source = ts ++ [t]
      /\ tok_type t = TokenType.END_OF_FILE /\ tok_value t = EmptyString
      /\ Forall (fun t' => tok_type t' <> TokenType.END_OF_FILE) ts
      /\ (length ts <= String.length source)%nat.
Proof.
  intros source. destruct (tokenize_total source) as (ts & t & Hts & Ht & Hall).
  exists ts, t. split; [done|]. split; [done|]. split.
  { unfold tokenize in Hts. by eapply tokenize_loop_last. }
  split; [done|].
  pose proof (tokenize_loop_length (S (String.length source)) (Lexer_new source)) as Hlen.
  unfold tokenize in Hts. rewrite Hts in Hlen. rewrite length_app in Hlen.
  cbn [length] in Hlen. unfold unread, Lexer_new in Hlen. cbn [rest] in Hlen. lia.
Qed.

(** ** The semantic analyzer: types, scopes and diagnostics *)

(** X7. Type compatibility is reflexive and symmetric: whenever a value
    of one type is accepted where another is expected, the converse is
    accepted too.  It is not transitive: a float is accepted for an int
    and an int for a string, but a float is not accepted for a string. *)
Theorem X7_isCompatibleType_symmetric :
  (forall a, isCompatibleType a a = true)
  /\ (forall a b, isCompatibleType a b = isCompatibleType b a)
  /\ isCompatibleType "float" "int" = true
  /\ isCompatibleType "int" "string" = true
  /\ isCompatibleType "float" "string" = false.
Proof.
  split; [|split; [|by vm_compute]].
  - intros a. unfold isCompatibleType, string_eqb. by rewrite bool_decide_eq_true_2.
  - intros a b. unfold isCompatibleType, string_eqb.
    repeat case_bool_decide; subst; try done.
Qed.
(** X8. A declaration of a name that the current scope does not hold yet
    succeeds silently and hides a declaration of the same name in an
    enclosing scope; the other names are looked up as before.  A second
    declaration in the same scope is reported as "already declared" and
    the first declaration stays in force. *)
Theorem X8_declare_shadows_or_reports :
  forall (name : string) (symbol : Symbol) (a : Analyzer)
         (sc : Scope) (parents : list Scope),
    scopes a = sc :: parents ->
    (sc !! name = None ->
     errors (declare_or_report name symbol a) = errors a
     /\ cerr (declare_or_report name symbol a) = cerr a
     /\ Scope_lookup name (scopes (declare_or_report name symbol a)) = Some symbol
     /\ forall other, other <> name ->
          Scope_lookup other (scopes (declare_or_report name symbol a))
          = Scope_lookup other (scopes a))
    /\ (forall old, sc !! name = Some old ->
        declare_or_report name symbol a
        = reportError ("Symbol '" +:+ name +:+ "' already declared in current scope") a
        /\ Scope_lookup name (scopes (declare_or_report name symbol a)) = Some old).
Proof.
  intros name symbol a sc parents Hsc. unfold declare_or_report, Scope_declare.
  rewrite Hsc. split.
  - intros Hnone. rewrite Hnone. cbn [errors cerr scopes Scope_lookup].
    split; [done|]. split; [done|]. split.
    + unfold Scope in *. by rewrite lookup_insert_eq.
    + intros other Hother. unfold Scope in *. by rewrite lookup_insert_ne.
  - intros old Hold. rewrite Hold. split; [done|].
    cbn [reportError scopes]. rewrite Hsc. cbn [Scope_lookup]. by rewrite Hold.
Qed.

Lemma X8_declare_shadows_or_reports_witness :
  let outer : Scope := <["x" := mkSymbol "x" "int" false true]> ∅ in
  let a := mkAnalyzer [∅; outer] "void" false "" in
  Scope_lookup "x" (scopes (declare_or_report "x" (mkSymbol "x" "float" false true) a))
  = Some (mkSymbol "x" "float" false true).
Proof.
  intros outer a.
  exact (proj1 (proj2 (proj2 (proj1
           (X8_declare_shadows_or_reports "x" (mkSymbol "x" "float" false true) a
              ∅ [outer] eq_refl) eq_refl)))).
Defined.
Lemma diagnostics_app m1 m2 :
  diagnostics (m1 ++ m2) = diagnostics m1 +:+ diagnostics m2.
Proof.
  induction m1 as [|m m1 IH]; [done|].
  cbn [app diagnostics]. by rewrite IH, !string_app_assoc.
Qed.

Lemma reported_refl a : reported [] a a.
Proof.
  split; cbn [diagnostics]; [by rewrite string_app_nil|by rewrite orb_false_r].
Qed.

Lemma reported_trans m1 m2 a b c :
  reported m1 a b -> reported m2 b c -> reported (m1 ++ m2) a c.
Proof.
  intros [Hc1 He1] [Hc2 He2]. split.
  - by rewrite Hc2, Hc1, diagnostics_app, string_app_assoc.
  - rewrite He2, He1. by destruct (errors a), m1, m2.
Qed.

Lemma reported_report msg a : reported [msg] a (reportError msg a).
Proof.
  split; cbn [reportError cerr errors diagnostics].
  - by rewrite string_app_nil.
  - by rewrite orb_true_r.
Qed.

(** Only the flag and the stream matter. *)
Lemma reported_same msgs a b b' :
  errors b' = errors b -> cerr b' = cerr b -> reported msgs a b -> reported msgs a b'.
Proof. intros He Hc [H1 H2]. split; congruence. Qed.

Lemma reported_from msgs a a' b :
  errors a' = errors a -> cerr a' = cerr a -> reported msgs a b -> reported msgs a' b.
Proof. intros He Hc [H1 H2]. split; congruence. Qed.

Lemma reports_refl a : reports a a.
Proof. exists []. apply reported_refl. Qed.

Lemma reports_trans a b c : reports a b -> reports b c -> reports a c.
Proof. intros [m1 H1] [m2 H2]. exists (m1 ++ m2). by eapply reported_trans. Qed.

Lemma reports_report msg a : reports a (reportError msg a).
Proof. exists [msg]. apply reported_report. Qed.

Lemma reports_same a b b' :
  errors b' = errors b -> cerr b' = cerr b -> reports a b -> reports a b'.
Proof. intros He Hc [m H]. exists m. by eapply reported_same. Qed.

Lemma reports_from a a' b :
  errors a' = errors a -> cerr a' = cerr a -> reports a b -> reports a' b.
Proof. intros He Hc [m H]. exists m. by eapply reported_from. Qed.

Lemma reports_if (c : bool) msg a : reports a (if c then reportError msg a else a).
Proof. destruct c; [apply reports_report|apply reports_refl]. Qed.

Lemma reports_enterScope a : reports a (enterScope a).
Proof. by apply (reports_same a a); [..|apply reports_refl]. Qed.

Lemma reports_exitScope a : reports a (exitScope a).
Proof.
  apply (reports_same a a); [| |apply reports_refl];
    unfold exitScope; by destruct (scopes a) as [|? [|? ?]].
Qed.

Lemma reports_declare name symbol a : reports a (declare_or_report name symbol a).
Proof.
  unfold declare_or_report. destruct (scopes a) as [|sc parents]; [apply reports_refl|].
  destruct (Scope_declare name symbol sc); [apply reports_report|].
  by apply (reports_same a a); [..|apply reports_refl].
Qed.

Lemma reports_fold {A} (f : Analyzer -> A -> Analyzer) (l : list A) :
  (forall x b, In x l -> reports b (f b x)) ->
  forall a, reports a (fold_left f l a).
Proof.
  induction l as [|x l IH]; intros Hf a; [apply reports_refl|].
  cbn [fold_left]. eapply reports_trans; [apply Hf; by left|].
  apply IH. intros y b Hy. apply Hf. by right.
Qed.

Lemma analyzeExpression_reports expr :
  forall a, reports a (snd (analyzeExpression expr a)).
Proof.
  induction expr as
    [ type value | name | l IHl op r IHr | op operand IH | name arguments IH
    | prm _ | prm _ | array IHa index IHi | name value IH ];
    intros a; cbn [analyzeExpression].
  - apply reports_refl.
  - unfold analyzeIdentifier. destruct (Scope_lookup name (scopes a));
      [apply reports_refl|apply reports_report].
  - specialize (IHl a). destruct (analyzeExpression l a) as [lt a1].
    specialize (IHr a1). destruct (analyzeExpression r a1) as [rt a2].
    cbn [snd] in *. by eapply reports_trans.
  - specialize (IH a). destruct (analyzeExpression operand a) as [t a1].
    by destruct op.
  - destruct (Scope_lookup name (scopes a)) as [symbol|]; [|apply reports_report].
    destruct (sym_isFunction symbol); [|apply reports_report]. cbn [negb snd].
    apply reports_fold. intros x b Hx. by apply (list_all_In _ _ IH x Hx).
  - apply reports_refl.
  - apply reports_refl.
  - specialize (IHa a). destruct (analyzeExpression array a) as [ta a1].
    specialize (IHi a1). destruct (analyzeExpression index a1) as [ti a2].
    cbn [snd] in *. by eapply reports_trans.
  - destruct (Scope_lookup name (scopes a)) as [symbol|]; [|apply reports_report].
    specialize (IH a). destruct (analyzeExpression value a) as [t a1].
    cbn [snd] in *. eapply reports_trans; [exact IH|apply reports_if].
Qed.

Lemma reports_option_expr (o : option Expression) a :
  reports a (match o with Some e => snd (analyzeExpression e a) | None => a end).
Proof. destruct o; [apply analyzeExpression_reports|apply reports_refl]. Qed.

Lemma analyzeStatement_reports stmt :
  forall a, reports a (analyzeStatement stmt a).
Proof.
  induction stmt as
    [ e | e | statements IH | e | cond thenB IHt elseB IHe | cond body IH
    | init IHi cond incr body IHb | name type init ];
    intros a; cbn [analyzeStatement].
  - apply analyzeExpression_reports.
  - apply reports_refl.
  - apply reports_fold. intros x b Hx. by apply (list_all_In _ _ IH x Hx).
  - unfold analyzeReturnStatement. destruct e as [e|]; [|apply reports_refl].
    pose proof (analyzeExpression_reports e a) as He.
    destruct (analyzeExpression e a) as [t a1]. cbn [snd] in He.
    eapply reports_trans; [exact He|apply reports_if].
  - pose proof (analyzeExpression_reports cond a) as Hc.
    destruct (analyzeExpression cond a) as [t a1]. cbn [snd] in Hc.
    eapply reports_trans; [exact Hc|].
    eapply reports_trans; [apply IHt|].
    destruct IHe as [s Hs|]; [apply Hs|apply reports_refl].
  - pose proof (analyzeExpression_reports cond a) as Hc.
    destruct (analyzeExpression cond a) as [t a1]. cbn [snd] in Hc.
    eapply reports_trans; [exact Hc|apply IH].
  - eapply reports_trans; [|apply reports_exitScope].
    eapply reports_trans; [|apply IHb].
    eapply reports_trans; [|apply reports_option_expr].
    eapply reports_trans; [|apply reports_option_expr].
    eapply reports_trans; [apply reports_enterScope|].
    destruct IHi as [s Hs|]; [apply Hs|apply reports_refl].
  - unfold analyzeVariableDecl. eapply reports_trans; [|apply reports_declare].
    destruct init as [e|]; [|apply reports_refl].
    pose proof (analyzeExpression_reports e a) as He.
    destruct (analyzeExpression e a) as [t a1]. cbn [snd] in He.
    eapply reports_trans; [exact He|apply reports_if].
Qed.

Lemma analyzeFunction_reports func a : reports a (analyzeFunction func a).
Proof.
  unfold analyzeFunction.
  eapply reports_trans; [|apply reports_exitScope].
  eapply reports_trans; [|apply analyzeStatement_reports].
  eapply reports_trans; [|apply reports_fold; intros; apply reports_declare].
  by apply (reports_same a a); [..|apply reports_refl].
Qed.

Lemma string_app_length (a b : string) :
  String.length (a +:+ b) = (String.length a + String.length b)%nat.
Proof.
  induction a as [|x a IH]; [done|].
  change (String x a +:+ b) with (String x (a +:+ b)). cbn [String.length].
  by rewrite IH.
Qed.

Lemma diagnostics_nonempty msgs : msgs <> [] -> diagnostics msgs <> EmptyString.
Proof. destruct msgs as [|m msgs]; [done|]. intros _. discriminate. Qed.

(** X9. All that an analysis does to the diagnostic stream and to the
    error flag is to report messages: the stream grows by one line
    [Semantic Error: <message>] per report, and the flag is the flag from
    before, or true when there was at least one report.  In a process
    whose flag is clear, [hasErrors()] is therefore true after the
    analysis exactly when the analysis wrote to the stream. *)
Theorem X9_flag_follows_diagnostics :
  forall (ast : Program) (errors0 : bool) (cerr0 : string),
    exists msgs : list string,
      cerr (analyze ast errors0 cerr0) = cerr0 +:+ diagnostics msgs
      /\ hasErrors (analyze ast errors0 cerr0)
         = errors0 || negb (bool_decide (msgs = []))
      /\ (errors0 = false ->
          (hasErrors (analyze ast errors0 cerr0) = true
           <-> cerr (analyze ast errors0 cerr0) <> cerr0)).
Proof.
  intros ast errors0 cerr0.
  assert (Hrep : reports (mkAnalyzer [∅] "void" errors0 cerr0)
                   (analyze ast errors0 cerr0)).
  { unfold analyze, analyzeProgram.
    eapply reports_trans; [|apply reports_fold; intros x b _; apply analyzeFunction_reports].
    apply reports_fold. intros x b _. apply reports_declare. }
  destruct Hrep as (msgs & Hc & He). cbn [cerr errors] in Hc, He.
  exists msgs. split; [done|]. split; [done|].
  intros ->. unfold hasErrors. rewrite He, Hc. cbn [orb].
  destruct msgs as [|m msgs].
  - cbn [diagnostics]. rewrite string_app_nil. split; [done|]. by intros [].
  - split; [|done]. intros _ Heq.
    apply (f_equal String.length) in Heq. rewrite string_app_length in Heq.
    cbn [diagnostics] in Heq. rewrite !string_app_length in Heq.
    cbn [String.length] in Heq. lia.
Qed.
Lemma exitScope_scopes a sc up :
  scopes a = sc :: up -> up <> [] -> scopes (exitScope a) = up.
Proof.
  intros Ha Hup. unfold exitScope. rewrite Ha. by destruct up.
Qed.

Lemma declare_or_report_scopes name symbol a sc parents :
  scopes a = sc :: parents ->
  exists sc', scopes (declare_or_report name symbol a) = sc' :: parents /\ sc ⊆ sc'.
Proof.
  intros Ha. unfold declare_or_report, Scope_declare. rewrite Ha.
  destruct (sc !! name) eqn:Hl.
  - exists sc. by rewrite <- Ha.
  - exists (<[name := symbol]> sc). split; [done|].
    unfold Scope in *. by apply insert_subseteq.
Qed.

Lemma fold_left_scopes {A} (f : Analyzer -> A -> Analyzer) (l : list A) parents :
  (forall x a sc, In x l -> scopes a = sc :: parents ->
                  exists sc', scopes (f a x) = sc' :: parents /\ sc ⊆ sc') ->
  forall a sc, scopes a = sc :: parents ->
               exists sc', scopes (fold_left f l a) = sc' :: parents /\ sc ⊆ sc'.
Proof.
  induction l as [|x l IH]; intros Hf a sc Ha; [by exists sc|].
  cbn [fold_left].
  destruct (Hf x a sc (or_introl eq_refl) Ha) as (sc1 & H1 & Hsub1).
  destruct (IH (fun y b s Hy => Hf y b s (or_intror Hy)) _ _ H1) as (sc2 & H2 & Hsub2).
  exists sc2. split; [done|]. by etrans.
Qed.

Lemma fold_left_same_scopes {A} (f : Analyzer -> A -> Analyzer) (l : list A) :
  (forall x a, In x l -> scopes (f a x) = scopes a) ->
  forall a, scopes (fold_left f l a) = scopes a.
Proof.
  induction l as [|x l IH]; intros Hf a; [done|].
  cbn [fold_left]. rewrite IH; [by apply Hf; left|].
  intros y b Hy. apply Hf. by right.
Qed.

(** The analysis of an expression declares nothing. *)
Lemma analyzeExpression_scopes expr :
  forall a, scopes (snd (analyzeExpression expr a)) = scopes a.
Proof.
  induction expr as
    [ type value | name | l IHl op r IHr | op operand IH | name arguments IH
    | prm _ | prm _ | array IHa index IHi | name value IH ];
    intros a; cbn [analyzeExpression].
  - done.
  - unfold analyzeIdentifier. by destruct (Scope_lookup name (scopes a)).
  - specialize (IHl a). destruct (analyzeExpression l a) as [lt a1].
    specialize (IHr a1). destruct (analyzeExpression r a1) as [rt a2].
    cbn [snd] in *. congruence.
  - specialize (IH a). destruct (analyzeExpression operand a) as [t a1].
    by destruct op.
  - destruct (Scope_lookup name (scopes a)) as [symbol|]; [|done].
    destruct (sym_isFunction symbol); [|done]. cbn [negb snd].
    apply fold_left_same_scopes. intros x b Hx. by apply (list_all_In _ _ IH x Hx).
  - done.
  - done.
  - specialize (IHa a). destruct (analyzeExpression array a) as [ta a1].
    specialize (IHi a1). destruct (analyzeExpression index a1) as [ti a2].
    cbn [snd] in *. congruence.
  - destruct (Scope_lookup name (scopes a)) as [symbol|]; [|done].
    specialize (IH a). destruct (analyzeExpression value a) as [t a1].
    cbn [snd] in *. by destruct (negb _).
Qed.

Lemma option_expr_scopes (o : option Expression) a :
  scopes (match o with Some e => snd (analyzeExpression e a) | None => a end)
  = scopes a.
Proof. destruct o; [apply analyzeExpression_scopes|done]. Qed.

(** The analysis of a statement adds declarations to the current scope
    and leaves the enclosing scopes alone. *)
Lemma analyzeStatement_scopes stmt :
  forall a sc parents,
    scopes a = sc :: parents ->
    exists sc', scopes (analyzeStatement stmt a) = sc' :: parents /\ sc ⊆ sc'.
Proof.
  induction stmt as
    [ e | e | statements IH | e | cond thenB IHt elseB IHe | cond body IH
    | init IHi cond incr body IHb | name type init ];
    intros a sc parents Ha; cbn [analyzeStatement].
  - exists sc. by rewrite analyzeExpression_scopes.
  - by exists sc.
  - apply fold_left_scopes; [|done].
    intros x b s Hx Hb. by apply (list_all_In _ _ IH x Hx).
  - exists sc. split; [|done]. unfold analyzeReturnStatement.
    destruct e as [e|]; [|done].
    pose proof (analyzeExpression_scopes e a) as He.
    destruct (analyzeExpression e a) as [t a1]. cbn [snd] in He.
    destruct (negb _); cbn [reportError scopes]; congruence.
  - pose proof (analyzeExpression_scopes cond a) as Hc.
    destruct (analyzeExpression cond a) as [t a1]. cbn [snd] in Hc.
    rewrite Ha in Hc.
    destruct (IHt a1 sc parents Hc) as (sc1 & H1 & Hsub1).
    destruct IHe as [s Hs|]; [|by exists sc1].
    destruct (Hs _ _ _ H1) as (sc2 & H2 & Hsub2).
    exists sc2. split; [done|by etrans].
  - pose proof (analyzeExpression_scopes cond a) as Hc.
    destruct (analyzeExpression cond a) as [t a1]. cbn [snd] in Hc.
    rewrite Ha in Hc. by apply IH.
  - exists sc. split; [|done].
    assert (H1 : exists s1, scopes (match init with
                                    | Some s => analyzeStatement s (enterScope a)
                                    | None => enterScope a end)
                            = s1 :: sc :: parents).
    { destruct IHi as [s Hs|].
      - destruct (Hs (enterScope a) ∅ (sc :: parents)) as (s1 & Hs1 & _).
        { cbn [enterScope scopes]. by rewrite Ha. }
        by exists s1.
      - exists ∅. cbn [enterScope scopes]. by rewrite Ha. }
    destruct H1 as [s1 H1].
    match goal with
    | |- scopes (exitScope (analyzeStatement body ?x)) = _ => set (a4 := x)
    end.
    assert (H4 : scopes a4 = s1 :: sc :: parents).
    { subst a4. by rewrite !option_expr_scopes. }
    destruct (IHb a4 _ _ H4) as (s2 & H2 & _).
    by apply (exitScope_scopes _ s2).
  - unfold analyzeVariableDecl. apply declare_or_report_scopes.
    destruct init as [e|]; [|done].
    pose proof (analyzeExpression_scopes e a) as He.
    destruct (analyzeExpression e a) as [t a1]. cbn [snd] in He.
    destruct (negb _); cbn [reportError scopes]; congruence.
Qed.

Lemma analyzeFunction_scopes func a :
  scopes a <> [] -> scopes (analyzeFunction func a) = scopes a.
Proof.
  intros Ha. unfold analyzeFunction.
  destruct (scopes a) as [|sc parents] eqn:Hsc; [done|].
  match goal with
  | |- scopes (exitScope (analyzeStatement _ ?x)) = _ => set (a2 := x)
  end.
  assert (H2 : exists s1, scopes a2 = s1 :: sc :: parents /\ ∅ ⊆ s1).
  { subst a2.
    apply (fold_left_scopes _ _ (sc :: parents)) with (sc := ∅).
    - intros x b s _ Hb. by apply declare_or_report_scopes.
    - done. }
  destruct H2 as (s1 & H2 & _).
  destruct (analyzeStatement_scopes (fd_body func) a2 _ _ H2) as (s2 & H3 & _).
  by apply (exitScope_scopes _ s2).
Qed.

Lemma analyzeFunctions_scopes fs : forall a,
  scopes a <> [] ->
  scopes (fold_left (fun acc func => analyzeFunction func acc) fs a) = scopes a.
Proof.
  induction fs as [|f fs IH]; intros a Ha; [done|].
  cbn [fold_left]. rewrite IH; rewrite analyzeFunction_scopes; done.
Qed.

(** The table the first pass of [analyzeProgram] builds. *)
Lemma first_pass_table fs : forall a g0,
  scopes a = [g0] ->
  exists g,
    scopes (fold_left (fun acc func =>
                         declare_or_report (fd_name func) (function_symbol func) acc)
              fs a) = [g]
    /\ forall name,
         g !! name = match g0 !! name with
                     | Some s => Some s
                     | None => function_symbol <$> first_function name fs
                     end.
Proof.
  induction fs as [|f fs IH]; intros a g0 Ha.
  - exists g0. split; [done|]. intros name. by destruct (g0 !! name).
  - cbn [fold_left first_function].
    unfold declare_or_report at 2, Scope_declare. rewrite Ha.
    destruct (g0 !! fd_name f) as [old|] eqn:Hold.
    + destruct (IH (reportError ("Symbol '" +:+ fd_name f +:+
                                 "' already declared in current scope") a) g0 Ha)
        as (g & Hg & Htab).
      exists g. split; [done|]. intros name. rewrite Htab.
      destruct (g0 !! name) eqn:Hn; [done|].
      unfold string_eqb. case_bool_decide; [congruence|done].
    + match goal with
      | |- context [fold_left _ fs ?x] => destruct (IH x _ eq_refl) as (g & Hg & Htab)
      end.
      exists g. split; [done|]. intros name. rewrite Htab.
      unfold string_eqb. unfold Scope in *. case_bool_decide as Hname.
      * subst name. by rewrite lookup_insert_eq, Hold.
      * by rewrite lookup_insert_ne.
Qed.

(** X10. Scopes are kept in balance.  The analysis of an expression
    declares nothing; the analysis of a statement may add names to the
    current scope but leaves the enclosing scopes as they are; a [for]
    statement, and the analysis of a whole function, leave every scope as
    it was found, so the names they declare are gone afterwards.  When
    [analyze] returns, only the global scope is left, and it holds the
    functions of the program, each name with the return type of its
    first declaration. *)
Theorem X10_scopes_are_balanced :
  (forall expr a, scopes (snd (analyzeExpression expr a)) = scopes a)
  /\ (forall stmt a sc parents,
        scopes a = sc :: parents ->
        exists sc', scopes (analyzeStatement stmt a) = sc' :: parents /\ sc ⊆ sc')
  /\ (forall init cond incr body a,
        scopes a <> [] ->
        scopes (analyzeStatement (ForStatement init cond incr body) a) = scopes a)
  /\ (forall func a, scopes a <> [] -> scopes (analyzeFunction func a) = scopes a)
  /\ (forall ast errors0 cerr0,
        exists g,
          scopes (analyze ast errors0 cerr0) = [g]
          /\ forall name,
               g !! name = function_symbol <$> first_function name (functions ast)).
Proof.
  split; [exact analyzeExpression_scopes|].
  split; [exact analyzeStatement_scopes|].
  split.
  { intros init cond incr body a Ha.
    destruct (scopes a) as [|sc parents] eqn:Hsc; [done|].
    cbn [analyzeStatement].
    assert (H1 : exists s1, scopes (match init with
                                    | Some s => analyzeStatement s (enterScope a)
                                    | None => enterScope a end)
                            = s1 :: sc :: parents).
    { destruct init as [s|].
      - destruct (analyzeStatement_scopes s (enterScope a) ∅ (sc :: parents))
          as (s1 & Hs1 & _).
        { cbn [enterScope scopes]. by rewrite Hsc. }
        by exists s1.
      - exists ∅. cbn [enterScope scopes]. by rewrite Hsc. }
    destruct H1 as [s1 H1].
    match goal with
    | |- scopes (exitScope (analyzeStatement body ?x)) = _ => set (a4 := x)
    end.
    assert (H4 : scopes a4 = s1 :: sc :: parents).
    { subst a4. by rewrite !option_expr_scopes. }
    destruct (analyzeStatement_scopes body a4 _ _ H4) as (s2 & H2 & _).
    by apply (exitScope_scopes _ s2). }
  split; [exact analyzeFunction_scopes|].
  intros ast errors0 cerr0. unfold analyze, analyzeProgram.
  destruct (first_pass_table (functions ast) (mkAnalyzer [∅] "void" errors0 cerr0) ∅
              eq_refl) as (g & Hg & Htab).
  unfold function_symbol in Hg at 1. exists g. split.
  - rewrite analyzeFunctions_scopes; [done|]. by rewrite Hg.
  - intros name. rewrite Htab. unfold Scope. by rewrite lookup_empty.
Qed.
Lemma X9_flag_follows_diagnostics_witness :
  hasErrors (analyze ast_undefined false "") = true
  <-> cerr (analyze ast_undefined false "") <> "".
Proof.
  destruct (X9_flag_follows_diagnostics ast_undefined false "") as (msgs & _ & _ & H).
  exact (H eq_refl).
Defined.

Lemma X10_scopes_are_balanced_witness :
  let a := mkAnalyzer [∅] "int" false "" in
  scopes (analyzeStatement
            (ForStatement (Some (VariableDecl "i" "int" None)) None None
               (BlockStatement [])) a)
  = scopes a.
Proof.
  intros a.
  exact (proj1 (proj2 (proj2 X10_scopes_are_balanced))
           (Some (VariableDecl "i" "int" None)) None None (BlockStatement []) a
           ltac:(discriminate)).
Defined.

Lemma first_pass_duplicate fs : forall a g0,
  scopes a = [g0] ->
  (exists f, In f fs /\ is_Some (g0 !! fd_name f)) \/ ~ NoDup (map fd_name fs) ->
  errors (fold_left (fun acc func =>
                       declare_or_report (fd_name func)
                         (mkSymbol (fd_name func) (fd_returnType func) true true) acc)
            fs a) = true.
Proof.
  induction fs as [|f fs IH]; intros a g0 Ha Hdup.
  - destruct Hdup as [(f & [] & _)|Hnd]. destruct Hnd. constructor.
  - cbn [fold_left]. unfold declare_or_report at 2, Scope_declare. rewrite Ha.
    destruct (g0 !! fd_name f) as [old|] eqn:Hold.
    + apply fold_left_sticky; [|done].
      intros x b _ Hb. by apply declare_or_report_sticky.
    + eapply IH; [reflexivity|].
      destruct Hdup as [(f' & [<-|Hin] & Hsome)|Hnd].
      * rewrite Hold in Hsome. by destruct Hsome.
      * left. exists f'. split; [done|]. unfold Scope in *.
        destruct (decide (fd_name f' = fd_name f)) as [->|Hne].
        -- rewrite lookup_insert_eq. by eexists.
        -- by rewrite lookup_insert_ne.
      * cbn [map] in Hnd. rewrite NoDup_cons in Hnd.
        destruct (decide (fd_name f ∈ map fd_name fs)) as [Hin|Hnin].
        -- left. apply list_elem_of_In, in_map_iff in Hin as (f' & Hname & Hin).
           exists f'. split; [done|]. rewrite Hname. unfold Scope in *.
           rewrite lookup_insert_eq. by eexists.
        -- right. intros Hnd'. apply Hnd. by split.
Qed.

(** X11. Two functions of the same name are always an error: whatever
    the bodies are, the second declaration is reported in the first pass
    of [analyzeProgram], and the flag is set when [analyze] returns. *)
Theorem X11_duplicate_function_is_reported :
  forall (ast : Program) (errors0 : bool) (cerr0 : string),
    ~ NoDup (map fd_name (functions ast)) ->
    hasErrors (analyze ast errors0 cerr0) = true.
Proof.
  intros ast errors0 cerr0 Hdup. unfold hasErrors, analyze, analyzeProgram.
  apply fold_left_sticky.
  { intros x b _ Hb. by apply analyzeFunction_sticky. }
  eapply first_pass_duplicate; [reflexivity|by right].
Qed.

Lemma X11_duplicate_function_is_reported_witness :
  hasErrors
    (analyze (mkProgram [ mkFunctionDecl "int" "f" [] (BlockStatement []);
                          mkFunctionDecl "void" "f" [] (BlockStatement []) ])
       false "") = true.
Proof.
  apply X11_duplicate_function_is_reported.
  cbn [functions map fd_name]. rewrite NoDup_cons. intros [Hnin _].
  apply Hnin. by left.
Defined.

(** ** The IR generator: the shape of the generated code *)

Lemma emit_ok_mono lo hi lo' hi' i :
  lo' <= lo -> hi <= hi' -> emit_ok lo hi i -> emit_ok lo' hi' i.
Proof.
  intros Hlo Hhi (Hj & Hn & Ho). split; [|done].
  intros Hop. destruct (Hj Hop) as (k & Hk & Hl). exists k. split; [lia|done].
Qed.

Lemma Emits_refl lo g : Emits lo g g.
Proof.
  exists []. split; [done|]. split.
  { destruct (current g) as [f|]; [|done]. cbn. by rewrite add_instrs_nil. }
  split; [lia|constructor].
Qed.

Lemma Emits_trans lo g g1 g2 : Emits lo g g1 -> Emits lo g1 g2 -> Emits lo g g2.
Proof.
  intros (n1 & He1 & Hc1 & Hl1 & Hf1) (n2 & He2 & Hc2 & Hl2 & Hf2).
  exists (n1 ++ n2). split; [congruence|]. split.
  { rewrite Hc2, Hc1. destruct (current g) as [f|]; [|done]. cbn.
    by rewrite add_instrs_app. }
  split; [lia|]. apply Forall_app. split; [|done].
  eapply Forall_impl; [exact Hf1|]. intros i. apply emit_ok_mono; lia.
Qed.

Lemma Emits_counter lo g g' : Emits lo g g' -> labelCounter g <= labelCounter g'.
Proof. by intros (n & _ & _ & H & _). Qed.

Lemma Emits_emit lo i g :
  emit_ok lo (labelCounter g) i -> Emits lo g (emitInstruction i g).
Proof.
  intros Hi. destruct (emitInstruction_fields i g) as (He & Hc & _ & Hl & _).
  exists [i]. rewrite He, Hc, Hl. split; [done|]. split; [done|].
  split; [lia|]. by constructor.
Qed.

(** An instruction that is neither a jump nor a label. *)
Lemma emit_ok_plain lo hi i :
  is_jump_or_label (opcode i) = false -> never_emitted (opcode i) = false ->
  (one_operand (opcode i) = true -> length (operands i) = 1%nat) ->
  emit_ok lo hi i.
Proof. intros Hj Hn Ho. split; [|done]. by rewrite Hj. Qed.

Lemma emit_ok_label lo hi op ops k :
  lo <= k < hi -> never_emitted op = false ->
  (one_operand op = true -> length ops = 1%nat) ->
  emit_ok lo hi (with_label (label_name k) (with_operands ops (IRInstruction_new op))).
Proof.
  intros Hk Hn Ho. split; [|split; [done|]].
  - intros _. by exists k.
  - done.
Qed.

Lemma Emits_createTemp lo g : Emits lo g (snd (createTemp g)).
Proof.
  exists []. cbn. split; [done|]. split.
  { destruct (current g) as [f|]; [|done]. cbn. by rewrite add_instrs_nil. }
  split; [lia|constructor].
Qed.

Lemma Emits_createLabel lo g :
  Emits lo g (snd (createLabel g))
  /\ fst (createLabel g) = label_name (labelCounter g)
  /\ labelCounter (snd (createLabel g)) = labelCounter g + 1.
Proof.
  split; [|done]. exists []. cbn. split; [done|]. split.
  { destruct (current g) as [f|]; [|done]. cbn. by rewrite add_instrs_nil. }
  split; [lia|constructor].
Qed.

Lemma Emits_set_symbol lo name v g : Emits lo g (set_symbol name v g).
Proof.
  exists []. cbn. split; [done|]. split.
  { destruct (current g) as [f|]; [|done]. cbn. by rewrite add_instrs_nil. }
  split; [lia|constructor].
Qed.

Lemma Emits_resolve_local lo name g : Emits lo g (snd (resolve_local name g)).
Proof.
  unfold resolve_local. destruct (symbolTable g !! name); cbn [snd];
    [apply Emits_refl|apply Emits_set_symbol].
Qed.

Lemma tokenTypeToOpCode_plain op :
  is_jump_or_label (tokenTypeToOpCode op) = false
  /\ never_emitted (tokenTypeToOpCode op) = false
  /\ one_operand (tokenTypeToOpCode op) = false.
Proof. by destruct op. Qed.

Lemma call_shape_plain name :
  match call_shape name with
  | AllArgs op _ | NoArgs op _ | FirstArg op _ =>
      is_jump_or_label op = false /\ never_emitted op = false /\ one_operand op = false
  end.
Proof.
  unfold call_shape.
  repeat (destruct (string_eqb name _); [by cbn|]). by cbn.
Qed.

(** A plain instruction is appended. *)
Lemma Emits_plain lo g g' i :
  Emits lo g g' ->
  is_jump_or_label (opcode i) = false -> never_emitted (opcode i) = false ->
  (one_operand (opcode i) = true -> length (operands i) = 1%nat) ->
  Emits lo g (emitInstruction i g').
Proof.
  intros H Hj Hn Ho. eapply Emits_trans; [exact H|].
  apply Emits_emit. by apply emit_ok_plain.
Qed.

Lemma Emits_then_createTemp lo g g' :
  Emits lo g g' -> Emits lo g (snd (createTemp g')).
Proof. intros H. eapply Emits_trans; [exact H|apply Emits_createTemp]. Qed.

Lemma Emits_expr_step lo e g g' :
  emits_expr e -> Emits lo g g' -> Emits lo g (snd (visitExpression e g')).
Proof. intros He H. eapply Emits_trans; [exact H|apply He]. Qed.

Lemma visitArgs_Emits (arguments : list Expression) :
  list_all Expression emits_expr arguments ->
  forall lo acc g,
    Emits lo g (snd (fold_left
                       (fun (acc : list IRValue * IRGenerator) arg =>
                          let '(v, g') := visitExpression arg (snd acc) in
                          (fst acc ++ [v], g'))
                       arguments (acc, g))).
Proof.
  induction 1 as [|a Ha l _ IH]; intros lo acc g; cbn [fold_left].
  - apply Emits_refl.
  - pose proof (Ha lo g) as H1. cbn [snd fst].
    destruct (visitExpression a g) as [v g1]. cbn [snd] in H1.
    eapply Emits_trans; [exact H1|apply IH].
Qed.

Lemma visitExpression_Emits e : emits_expr e.
Proof.
  induction e as
    [ type value | name | l IHl op r IHr | op operand IH | name arguments IH
    | prm _ | prm _ | array IHa index IHi | name value IH ];
    intros lo g; cbn [visitExpression].
  - (* Literal *)
    unfold visitLiteral.
    destruct type; try apply Emits_refl;
      (pose proof (Emits_createTemp lo g) as H;
       destruct (createTemp g) as [res g1]; cbn [snd] in *;
       by apply (Emits_plain _ _ _ _ H)).
  - (* Identifier *)
    apply Emits_resolve_local.
  - (* BinaryOp *)
    pose proof (IHl lo g) as H1. destruct (visitExpression l g) as [lv g1].
    pose proof (Emits_expr_step lo r _ _ IHr H1) as H2. cbn [snd] in H2.
    destruct (visitExpression r g1) as [rv g2]. cbn [snd] in H2.
    apply Emits_then_createTemp in H2. destruct (createTemp g2) as [res g3].
    cbn [snd] in *. destruct (tokenTypeToOpCode_plain op) as (Hj & Hn & Ho).
    apply (Emits_plain _ _ _ _ H2); cbn [opcode with_result with_operands IRInstruction_new];
      destruct (TokenType.eqb op TokenType.OR || TokenType.eqb op TokenType.COMMA);
      try done; by rewrite ?Ho.
  - (* UnaryOp *)
    pose proof (IH lo g) as H1. destruct (visitExpression operand g) as [v g1].
    cbn [snd] in H1. apply Emits_then_createTemp in H1.
    destruct (createTemp g1) as [res g2]. cbn [snd] in *.
    destruct (tokenTypeToOpCode_plain op) as (Hj & Hn & Ho).
    apply (Emits_plain _ _ _ _ H1); cbn [opcode with_result with_operands IRInstruction_new];
      try done; by rewrite ?Ho.
  - (* FunctionCall *)
    pose proof (Emits_createTemp lo g) as H1.
    destruct (createTemp g) as [res g1]. cbn [snd] in H1.
    pose proof (call_shape_plain name) as Hshape.
    destruct (call_shape name) as [op lbl|op lbl|op lbl];
      destruct Hshape as (Hj & Hn & Ho).
    + pose proof (visitArgs_Emits arguments IH lo [] g1) as H2.
      destruct (fold_left _ arguments ([], g1)) as [ops g2]. cbn [snd] in *.
      pose proof (Emits_trans _ _ _ _ H1 H2) as H3.
      apply (Emits_plain _ _ _ _ H3); cbn; try done; by rewrite ?Ho.
    + apply (Emits_plain _ _ _ _ H1); cbn; try done; by rewrite ?Ho.
    + destruct arguments as [|arg rest].
      * apply (Emits_plain _ _ _ _ H1); cbn; try done; by rewrite ?Ho.
      * inversion IH as [|? Ha ? _]; subst.
        pose proof (Emits_expr_step lo arg _ _ Ha H1) as H2.
        destruct (visitExpression arg g1) as [v g2]. cbn [snd] in *.
        apply (Emits_plain _ _ _ _ H2); cbn; try done; by rewrite ?Ho.
  - (* InputCall *)
    pose proof (Emits_createTemp lo g) as H1.
    destruct (createTemp g) as [res g1]. cbn [snd] in *.
    apply (Emits_plain _ _ _ _ H1);
      destruct prm as [[[]| | | | | | | | ]|]; by cbn.
  - (* KeyPressedCall *)
    pose proof (Emits_createTemp lo g) as H1.
    destruct (createTemp g) as [res g1]. cbn [snd] in *.
    by apply (Emits_plain _ _ _ _ H1).
  - (* ArrayAccess *)
    pose proof (IHa lo g) as H1. destruct (visitExpression array g) as [av g1].
    pose proof (Emits_expr_step lo index _ _ IHi H1) as H2. cbn [snd] in H2.
    destruct (visitExpression index g1) as [iv g2]. cbn [snd] in H2.
    apply Emits_then_createTemp in H2. destruct (createTemp g2) as [res g3].
    cbn [snd] in *. by apply (Emits_plain _ _ _ _ H2).
  - (* Assignment *)
    pose proof (IH lo g) as H1. destruct (visitExpression value g) as [v g1].
    cbn [snd] in H1.
    pose proof (Emits_trans _ _ _ _ H1 (Emits_resolve_local lo name g1)) as H2.
    destruct (resolve_local name g1) as [var g2]. cbn [snd] in *.
    by apply (Emits_plain _ _ _ _ H2).
Qed.
Lemma step_label lo g g' k i :
  Emits lo g g' -> lo <= k -> k < labelCounter g' ->
  label i = label_name k -> never_emitted (opcode i) = false ->
  (one_operand (opcode i) = true -> length (operands i) = 1%nat) ->
  Emits lo g (emitInstruction i g')
  /\ labelCounter (emitInstruction i g') = labelCounter g'.
Proof.
  intros H Hlo Hk Hl Hn Ho.
  destruct (emitInstruction_fields i g') as (_ & _ & _ & Hlc & _).
  split; [|done]. eapply Emits_trans; [exact H|]. apply Emits_emit.
  split; [|done]. intros _. exists k. split; [lia|done].
Qed.

Lemma step_plain_instr lo g g' i :
  Emits lo g g' ->
  is_jump_or_label (opcode i) = false -> never_emitted (opcode i) = false ->
  (one_operand (opcode i) = true -> length (operands i) = 1%nat) ->
  Emits lo g (emitInstruction i g')
  /\ labelCounter (emitInstruction i g') = labelCounter g'.
Proof.
  intros H Hj Hn Ho.
  destruct (emitInstruction_fields i g') as (_ & _ & _ & Hlc & _).
  split; [by apply Emits_plain|done].
Qed.

Lemma step_emits_stmt lo s g g' :
  emits_stmt s -> Emits lo g g' -> lo <= labelCounter g ->
  Emits lo g (visitStatement s g')
  /\ labelCounter g' <= labelCounter (visitStatement s g').
Proof.
  intros Hs H Hlo. pose proof (Emits_counter _ _ _ H) as Hc.
  pose proof (Hs lo g' ltac:(lia)) as H'.
  split; [by eapply Emits_trans|by eapply Emits_counter].
Qed.

Lemma step_emits_expr lo e g g' :
  Emits lo g g' ->
  Emits lo g (snd (visitExpression e g'))
  /\ labelCounter g' <= labelCounter (snd (visitExpression e g')).
Proof.
  intros H. pose proof (visitExpression_Emits e lo g') as H'.
  split; [by eapply Emits_trans|by eapply Emits_counter].
Qed.

Lemma step_emits_label lo g g' :
  Emits lo g g' ->
  Emits lo g (snd (createLabel g'))
  /\ fst (createLabel g') = label_name (labelCounter g')
  /\ labelCounter (snd (createLabel g')) = labelCounter g' + 1.
Proof.
  intros H. destruct (Emits_createLabel lo g') as (H' & Hn & Hc).
  split; [by eapply Emits_trans|done].
Qed.

Lemma emitsBlock statements :
  list_all Statement emits_stmt statements ->
  forall lo g, lo <= labelCounter g ->
               Emits lo g (fold_left (fun acc s => visitStatement s acc) statements g).
Proof.
  induction 1 as [|s Hs l _ IH]; intros lo g Hlo; cbn [fold_left].
  - apply Emits_refl.
  - pose proof (Hs lo g Hlo) as H1. pose proof (Emits_counter _ _ _ H1) as Hc.
    eapply Emits_trans; [exact H1|]. apply IH. lia.
Qed.

Lemma visitStatement_Emits s : emits_stmt s.
Proof.
  induction s as
    [ e | e | statements IH | e | cond thenB IHt elseB IHe | cond body IH
    | init IHi cond incr body IHb | name type init ];
    intros lo g Hlo; cbn [visitStatement]; pose proof (Emits_refl lo g) as H.
  - (* ExpressionStatement *)
    apply visitExpression_Emits.
  - (* PrintStatement *)
    destruct (step_emits_expr lo e _ _ H) as [H1 _].
    destruct (visitExpression e g) as [val g1]. cbn [snd] in H1.
    by apply (Emits_plain _ _ _ _ H1).
  - (* BlockStatement *)
    by apply emitsBlock.
  - (* ReturnStatement *)
    unfold visitReturnStatement. destruct e as [e|].
    + destruct (step_emits_expr lo e _ _ H) as [H1 _].
      destruct (visitExpression e g) as [val g1]. cbn [snd] in H1.
      by apply (Emits_plain _ _ _ _ H1).
    + by apply (Emits_plain _ _ _ _ H).
  - (* IfStatement *)
    destruct (step_emits_expr lo cond _ _ H) as [H1 C1].
    destruct (visitExpression cond g) as [c g1]. cbn [snd] in H1, C1.
    destruct (step_emits_label lo _ _ H1) as (H2 & N2 & C2).
    destruct (createLabel g1) as [thenLabel g2]. cbn [fst snd] in H2, N2, C2.
    destruct (step_emits_label lo _ _ H2) as (H3 & N3 & C3).
    destruct (createLabel g2) as [elseLabel g3]. cbn [fst snd] in H3, N3, C3.
    destruct (step_emits_label lo _ _ H3) as (H4 & N4 & C4).
    destruct (createLabel g3) as [endLabel g4]. cbn [fst snd] in H4, N4, C4.
    subst thenLabel elseLabel endLabel. unfold emit_jz, emit_label, emit_jmp.
    destruct (step_label lo g g4 (labelCounter g2)
                (with_label (label_name (labelCounter g2))
                   (with_operands [c] (IRInstruction_new IROpCode.JZ))) H4)
      as [H5 C5]; try done; try lia.
    match type of H5 with Emits _ _ ?x => set (g5 := x) in * end.
    destruct (step_label lo g g5 (labelCounter g1)
                (with_label (label_name (labelCounter g1))
                   (IRInstruction_new IROpCode.LABEL)) H5)
      as [H6 C6]; try done; try lia.
    match type of H6 with Emits _ _ ?x => set (g6 := x) in * end.
    destruct (step_emits_stmt lo thenB g g6 IHt H6 Hlo) as [H7 C7].
    match type of H7 with Emits _ _ ?x => set (g7 := x) in * end.
    destruct (step_label lo g g7 (labelCounter g3)
                (with_label (label_name (labelCounter g3))
                   (IRInstruction_new IROpCode.JMP)) H7)
      as [H8 C8]; try done; try lia.
    match type of H8 with Emits _ _ ?x => set (g8 := x) in * end.
    destruct (step_label lo g g8 (labelCounter g2)
                (with_label (label_name (labelCounter g2))
                   (IRInstruction_new IROpCode.LABEL)) H8)
      as [H9 C9]; try done; try lia.
    match type of H9 with Emits _ _ ?x => set (g9 := x) in * end.
    assert (H10 : Emits lo g (match elseB with
                              | Some s => visitStatement s g9
                              | None => g9 end)
                  /\ labelCounter g9 <= labelCounter (match elseB with
                                                      | Some s => visitStatement s g9
                                                      | None => g9 end)).
    { destruct IHe as [s Hs|]; [by apply step_emits_stmt|]. split; [done|lia]. }
    destruct H10 as [H10 C10].
    match type of H10 with Emits _ _ ?x => set (g10 := x) in * end.
    destruct (step_label lo g g10 (labelCounter g3)
                (with_label (label_name (labelCounter g3))
                   (IRInstruction_new IROpCode.LABEL)) H10)
      as [H11 _]; try done; try lia.
  - (* WhileStatement *)
    destruct (step_emits_label lo _ _ H) as (H1 & N1 & C1).
    destruct (createLabel g) as [loopLabel g1]. cbn [fst snd] in H1, N1, C1.
    destruct (step_emits_label lo _ _ H1) as (H2 & N2 & C2).
    destruct (createLabel g1) as [endLabel g2]. cbn [fst snd] in H2, N2, C2.
    subst loopLabel endLabel. unfold emit_jz, emit_label, emit_jmp.
    destruct (step_label lo g g2 (labelCounter g)
                (with_label (label_name (labelCounter g))
                   (IRInstruction_new IROpCode.LABEL)) H2)
      as [H3 C3]; try done; try lia.
    match type of H3 with Emits _ _ ?x => set (g3 := x) in * end.
    destruct (step_emits_expr lo cond _ _ H3) as [H4 C4].
    destruct (visitExpression cond g3) as [c g4]. cbn [snd] in H4, C4.
    destruct (step_label lo g g4 (labelCounter g1)
                (with_label (label_name (labelCounter g1))
                   (with_operands [c] (IRInstruction_new IROpCode.JZ))) H4)
      as [H5 C5]; try done; try lia.
    match type of H5 with Emits _ _ ?x => set (g5 := x) in * end.
    destruct (step_emits_stmt lo body g g5 IH H5 Hlo) as [H6 C6].
    match type of H6 with Emits _ _ ?x => set (g6 := x) in * end.
    destruct (step_label lo g g6 (labelCounter g)
                (with_label (label_name (labelCounter g))
                   (IRInstruction_new IROpCode.JMP)) H6)
      as [H7 C7]; try done; try lia.
    match type of H7 with Emits _ _ ?x => set (g7 := x) in * end.
    destruct (step_label lo g g7 (labelCounter g1)
                (with_label (label_name (labelCounter g1))
                   (IRInstruction_new IROpCode.LABEL)) H7)
      as [H8 _]; try done; try lia.
  - (* ForStatement *)
    assert (H0 : Emits lo g (match init with
                             | Some s => visitStatement s g
                             | None => g end)
                 /\ labelCounter g <= labelCounter (match init with
                                                    | Some s => visitStatement s g
                                                    | None => g end)).
    { destruct IHi as [s Hs|]; [by apply step_emits_stmt|]. split; [done|lia]. }
    destruct H0 as [H0 C0].
    match type of H0 with Emits _ _ ?x => set (g0 := x) in * end.
    destruct (step_emits_label lo _ _ H0) as (H1 & N1 & C1).
    destruct (createLabel g0) as [loopLabel g1]. cbn [fst snd] in H1, N1, C1.
    destruct (step_emits_label lo _ _ H1) as (H2 & N2 & C2).
    destruct (createLabel g1) as [endLabel g2]. cbn [fst snd] in H2, N2, C2.
    subst loopLabel endLabel. unfold emit_jz, emit_label, emit_jmp.
    destruct (step_label lo g g2 (labelCounter g0)
                (with_label (label_name (labelCounter g0))
                   (IRInstruction_new IROpCode.LABEL)) H2)
      as [H3 C3]; try done; try lia.
    match type of H3 with Emits _ _ ?x => set (g3 := x) in * end.
    assert (H4 : Emits lo g (match cond with
                             | Some c =>
                                 let '(cv, g') := visitExpression c g3 in
                                 emitInstruction
                                   (with_label (label_name (labelCounter g1))
                                      (with_operands [cv]
                                         (IRInstruction_new IROpCode.JZ))) g'
                             | None => g3 end)
                 /\ labelCounter g3 <= labelCounter (match cond with
                             | Some c =>
                                 let '(cv, g') := visitExpression c g3 in
                                 emitInstruction
                                   (with_label (label_name (labelCounter g1))
                                      (with_operands [cv]
                                         (IRInstruction_new IROpCode.JZ))) g'
                             | None => g3 end)).
    { destruct cond as [c|]; [|split; [done|lia]].
      destruct (step_emits_expr lo c _ _ H3) as [H4 C4].
      destruct (visitExpression c g3) as [cv g4]. cbn [snd] in H4, C4.
      destruct (step_label lo g g4 (labelCounter g1)
                  (with_label (label_name (labelCounter g1))
                     (with_operands [cv] (IRInstruction_new IROpCode.JZ))) H4)
        as [H5 C5]; try done; try lia.
      split; [done|lia]. }
    destruct H4 as [H4 C4].
    match type of H4 with Emits _ _ ?x => set (g4 := x) in * end.
    destruct (step_emits_stmt lo body g g4 IHb H4 Hlo) as [H5 C5].
    match type of H5 with Emits _ _ ?x => set (g5 := x) in * end.
    assert (H6 : Emits lo g (match incr with
                             | Some e => snd (visitExpression e g5)
                             | None => g5 end)
                 /\ labelCounter g5 <= labelCounter (match incr with
                                                     | Some e => snd (visitExpression e g5)
                                                     | None => g5 end)).
    { destruct incr as [e|]; [by apply step_emits_expr|]. split; [done|lia]. }
    destruct H6 as [H6 C6].
    match type of H6 with Emits _ _ ?x => set (g6 := x) in * end.
    destruct (step_label lo g g6 (labelCounter g0)
                (with_label (label_name (labelCounter g0))
                   (IRInstruction_new IROpCode.JMP)) H6)
      as [H7 C7]; try done; try lia.
    match type of H7 with Emits _ _ ?x => set (g7 := x) in * end.
    destruct (step_label lo g g7 (labelCounter g1)
                (with_label (label_name (labelCounter g1))
                   (IRInstruction_new IROpCode.LABEL)) H7)
      as [H8 _]; try done; try lia.
  - (* VariableDecl *)
    unfold visitVariableDecl.
    pose proof (Emits_set_symbol lo name (mkIRValue IRValueType.LOCAL name (-1)) g) as H1.
    destruct init as [e|]; [|done].
    destruct (step_emits_expr lo e _ _ H1) as [H2 _].
    destruct (visitExpression e _) as [val g2]. cbn [snd] in H2.
    by apply (Emits_plain _ _ _ _ H2).
Qed.
Lemma params_Emits (params : list (string * string)) :
  forall lo g,
    Emits lo g (fold_left
                  (fun acc (param : string * string) =>
                     set_symbol (snd param)
                       (mkIRValue IRValueType.LOCAL (snd param) (-1)) acc)
                  params g).
Proof.
  induction params as [|p params IH]; intros lo g; cbn [fold_left].
  - apply Emits_refl.
  - eapply Emits_trans; [apply Emits_set_symbol|apply IH].
Qed.

(** What [visitFunction] adds to the program, as far as the header and
    the shape of the code are concerned. *)
Lemma visitFunction_shape func g :
  exists f,
    program_functions (visitFunction func g) = program_functions g ++ [f]
    /\ irf_header f = fd_header func
    /\ Forall (emit_ok (labelCounter g) (labelCounter (visitFunction func g)))
         (instructions f).
Proof.
  unfold visitFunction.
  set (irFunc := mkIRFunction (fd_name func) (fd_returnType func) (fd_parameters func) []).
  set (g1 := mkIRGenerator (program_functions g) (Some irFunc) 0 (labelCounter g) ∅).
  match goal with
  | |- context [visitStatement (fd_body func) ?x] => set (g2 := x)
  end.
  assert (H2 : Emits (labelCounter g) g1 g2) by apply params_Emits.
  destruct (step_emits_stmt (labelCounter g) (fd_body func) g1 g2
              (visitStatement_Emits _) H2 ltac:(cbn; lia)) as [H3 _].
  destruct H3 as (new & He & Hc & Hl & Hok).
  cbn [emitted current g1 fmap option_fmap option_map] in He, Hc.
  exists (add_instrs new irFunc).
  split; [unfold program_functions at 1; by rewrite He, Hc|].
  split; [done|]. by cbn.
Qed.

Lemma code_chain_snoc fs :
  forall c c' f n,
    code_chain c fs c' -> 0 <= n ->
    label_names (instructions f) ≡ₚ (label_name <$> seqZ c' n) ->
    Forall (emit_ok c' (c' + n)) (instructions f) ->
    code_chain c (fs ++ [f]) (c' + n).
Proof.
  induction fs as [|f0 fs IH]; intros c c' f n Hch Hn Hf Hok; cbn in *.
  - subst c'. exists n. by repeat split.
  - destruct Hch as (n0 & Hn0 & Hf0 & Hok0 & Hch). exists n0.
    split; [done|]. split; [done|]. split; [done|]. by apply IH.
Qed.

Lemma visitProgram_shape (funcs : list FunctionDecl) :
  forall g, program_shape g ->
    program_shape (fold_left (fun acc func => visitFunction func acc) funcs g)
    /\ map irf_header
         (program_functions (fold_left (fun acc func => visitFunction func acc) funcs g))
       = map irf_header (program_functions g) ++ map fd_header funcs.
Proof.
  induction funcs as [|func funcs IH]; intros g Hg; cbn [fold_left].
  - split; [done|]. cbn. by rewrite app_nil_r.
  - destruct (visitFunction_spec func g) as (f & n & Hpf & _ & _ & Hn & Hlab & Hlc).
    destruct (visitFunction_shape func g) as (f' & Hpf' & Hhd & Hok).
    rewrite Hpf in Hpf'. apply app_inj_tail in Hpf' as [_ <-].
    assert (Hg' : program_shape (visitFunction func g)).
    { unfold program_shape. rewrite Hpf, Hlc. apply code_chain_snoc; try done.
      by rewrite <- Hlc. }
    destruct (IH _ Hg') as [Hsh Hmap]. split; [done|].
    rewrite Hmap, Hpf, map_app. cbn [map]. rewrite Hhd. by rewrite <- app_assoc.
Qed.

Lemma generate_shape ast :
  (exists c_end, code_chain 0 (ir_functions (generate ast)) c_end)
  /\ map irf_header (ir_functions (generate ast)) = map fd_header (functions ast).
Proof.
  destruct (visitProgram_shape (functions ast) IRGenerator_new) as [Hsh Hmap].
  { reflexivity. }
  split; [eexists; exact Hsh|exact Hmap].
Qed.

Lemma code_chain_lookup fs : forall c c_end fi f,
  code_chain c fs c_end -> fs !! fi = Some f ->
  exists c0 n, 0 <= n
               /\ label_names (instructions f) ≡ₚ (label_name <$> seqZ c0 n)
               /\ Forall (emit_ok c0 (c0 + n)) (instructions f).
Proof.
  induction fs as [|f0 fs IH]; intros c c_end fi f Hch Hf; [done|].
  destruct Hch as (n & Hn & Hlab & Hok & Hch).
  destruct fi as [|fi]; cbn in Hf.
  - injection Hf as <-. by exists c, n.
  - by eapply IH.
Qed.

(** X12. [generate] produces one IR function per function of the AST,
    in the same order, each with the name, the return type and the
    parameter list of its declaration. *)
Theorem X12_one_function_per_declaration :
  forall ast : Program,
    map irf_header (ir_functions (generate ast)) = map fd_header (functions ast).
Proof. intros ast. apply generate_shape. Qed.
(** ** Labels: the prescan of the interpreter and the generated jumps *)

Lemma scan_labels_last_label instrs : forall (i0 : nat) (labels : gmap string nat) l,
  scan_labels instrs i0 labels !! l
  = match last_label l instrs with
    | Some k => Some (i0 + k)%nat
    | None => labels !! l
    end.
Proof.
  induction instrs as [|i instrs IH]; intros i0 labels l; cbn [scan_labels last_label].
  - done.
  - rewrite IH. destruct (last_label l instrs) as [k|]; [f_equal; lia|].
    destruct (decide (opcode i = IROpCode.LABEL)) as [Hop|Hop].
    + rewrite Hop. rewrite bool_decide_eq_true_2 by done. cbn [andb].
      unfold string_eqb. case_bool_decide as Hl.
      * subst l. rewrite lookup_insert_eq. f_equal. lia.
      * by rewrite lookup_insert_ne.
    + rewrite bool_decide_eq_false_2 by done. cbn [andb].
      by destruct (opcode i).
Qed.

Lemma last_label_Some l instrs : forall k,
  last_label l instrs = Some k ->
  exists lab, instrs !! k = Some lab /\ opcode lab = IROpCode.LABEL /\ label lab = l
              /\ forall k' lab', (k < k')%nat -> instrs !! k' = Some lab' ->
                                 opcode lab' = IROpCode.LABEL -> label lab' <> l.
Proof.
  induction instrs as [|i instrs IH]; intros k Hk; [done|].
  cbn [last_label] in Hk. destruct (last_label l instrs) as [k0|] eqn:Hlast.
  - injection Hk as <-. destruct (IH k0 eq_refl) as (lab & Hlab & Hop & Hl & Hafter).
    exists lab. split; [done|]. split; [done|]. split; [done|].
    intros [|k'] lab' Hlt Hk'; [lia|]. cbn in Hk'. apply (Hafter k'); [lia|done].
  - destruct (bool_decide (opcode i = IROpCode.LABEL) && string_eqb (label i) l)
      eqn:Hc; [|done].
    injection Hk as <-. apply andb_true_iff in Hc as [Hop Hl].
    apply bool_decide_eq_true in Hop. apply string_eqb_true in Hl.
    exists i. split; [done|]. split; [done|]. split; [done|].
    intros [|k'] lab' Hlt Hk' Hop' Hl'; [lia|]. cbn in Hk'.
    assert (Hnone : forall instrs0 k1 lab1,
               last_label l instrs0 = None -> instrs0 !! k1 = Some lab1 ->
               opcode lab1 = IROpCode.LABEL -> label lab1 = l -> False).
    { clear. induction instrs0 as [|j instrs0 IH0]; intros k1 lab1 Hn Hk1 Ho Hl; [done|].
      cbn [last_label] in Hn. destruct (last_label l instrs0) eqn:Hl0; [done|].
      destruct k1 as [|k1]; cbn in Hk1.
      - injection Hk1 as ->. rewrite Ho, Hl in Hn.
        rewrite bool_decide_eq_true_2 in Hn by done.
        unfold string_eqb in Hn. by rewrite bool_decide_eq_true_2 in Hn.
      - by eapply IH0. }
    by eapply Hnone.
Qed.

Lemma last_label_defined l instrs :
  l ∈ label_names instrs -> is_Some (last_label l instrs).
Proof.
  induction instrs as [|i instrs IH]; [by intros ?%elem_of_nil|].
  unfold label_names. cbn [omap list_omap last_label].
  intros Hin. destruct (last_label l instrs) as [k|] eqn:Hlast; [by eexists|].
  destruct (decide (opcode i = IROpCode.LABEL)) as [Hop|Hop].
  - rewrite bool_decide_eq_true_2 in * by done. cbn [andb].
    apply elem_of_cons in Hin as [->|Hin].
    + unfold string_eqb. rewrite bool_decide_eq_true_2 by done. by eexists.
    + destruct (IH Hin) as [? ?]. done.
  - rewrite bool_decide_eq_false_2 in Hin by done.
    destruct (IH Hin) as [? ?]. done.
Qed.

(** What the prescan binds a label to. *)
Lemma scan_labels_spec (instrs : list IRInstruction) (l : string) :
  (forall k, scan_labels instrs 0 ∅ !! l = Some k ->
             exists lab,
               instrs !! k = Some lab /\ opcode lab = IROpCode.LABEL /\ label lab = l
               /\ forall k' lab', (k < k')%nat -> instrs !! k' = Some lab' ->
                                  opcode lab' = IROpCode.LABEL -> label lab' <> l)
  /\ (l ∈ label_names instrs -> is_Some (scan_labels instrs 0 ∅ !! l))
  /\ (l ∉ label_names instrs ->
      scan_labels instrs 0 ∅ !! l = None
      /\ labels_at l (scan_labels instrs 0 ∅) = 0%nat).
Proof.
  rewrite scan_labels_last_label.
  split; [|split].
  - intros k Hk. destruct (last_label l instrs) as [k0|] eqn:Hlast; [|done].
    injection Hk as <-. by apply last_label_Some.
  - intros Hin. destruct (last_label_defined l instrs Hin) as [k ->]. by eexists.
  - intros Hnin. unfold labels_at. rewrite scan_labels_last_label.
    destruct (last_label l instrs) as [k|] eqn:Hlast; [|done].
    destruct (last_label_Some l instrs k Hlast) as (lab & Hlab & Hop & Hl & _).
    destruct Hnin. unfold label_names. apply list_elem_of_omap.
    exists lab. split; [by eapply list_elem_of_lookup_2|].
    by rewrite bool_decide_eq_true_2, Hl by done.
Qed.

(** X13. The prescan of the interpreter binds a label to the position
    of the last LABEL instruction that defines it; a label that no LABEL
    instruction defines is not bound, and a jump to it goes to position 0,
    the first instruction of the function. *)
Theorem X13_scan_labels_binds_last_definition :
  forall (instrs : list IRInstruction) (l : string),
    (forall k, scan_labels instrs 0 ∅ !! l = Some k ->
               exists lab,
                 instrs !! k = Some lab /\ opcode lab = IROpCode.LABEL /\ label lab = l
                 /\ forall k' lab', (k < k')%nat -> instrs !! k' = Some lab' ->
                                    opcode lab' = IROpCode.LABEL -> label lab' <> l)
    /\ (l ∈ label_names instrs -> is_Some (scan_labels instrs 0 ∅ !! l))
    /\ (l ∉ label_names instrs ->
        scan_labels instrs 0 ∅ !! l = None
        /\ labels_at l (scan_labels instrs 0 ∅) = 0%nat).
Proof. exact scan_labels_spec. Qed.


Lemma label_name_inj a b : label_name a = label_name b -> a = b.
Proof. unfold label_name. intros [= H]. by apply to_string_int_inj. Qed.

(** X14. In every function of every generated program the labels are
    defined once each, and every JMP and every JZ names a label that a
    LABEL instruction of the same function defines: the prescan binds it
    to the position of that instruction, so no generated jump falls back
    to position 0 for want of a label. *)
Theorem X14_generated_jumps_resolve :
  forall (ast : Program) (fi : nat) (f : IRFunction),
    ir_functions (generate ast) !! fi = Some f ->
    NoDup (label_names (instructions f))
    /\ forall j i,
         instructions f !! j = Some i ->
         opcode i = IROpCode.JMP \/ opcode i = IROpCode.JZ ->
         exists k lab,
           scan_labels (instructions f) 0 ∅ !! label i = Some k
           /\ instructions f !! k = Some lab
           /\ opcode lab = IROpCode.LABEL /\ label lab = label i.
Proof.
  intros ast fi f Hf.
  destruct (generate_shape ast) as [[c_end Hch] _].
  destruct (code_chain_lookup _ _ _ _ _ Hch Hf) as (c0 & n & Hn & Hlab & Hok).
  split.
  { rewrite Hlab. apply NoDup_fmap_2; [|apply NoDup_seqZ].
    intros a b. apply label_name_inj. }
  intros j i Hj Hop.
  pose proof (Forall_lookup_1 _ _ _ _ Hok Hj) as (Hjump & _).
  destruct Hjump as (k0 & Hk0 & Hl); [by destruct Hop as [-> | ->]|].
  assert (Hin : label i ∈ label_names (instructions f)).
  { rewrite Hlab, Hl. apply list_elem_of_fmap. exists k0. split; [done|].
    apply elem_of_seqZ. lia. }
  destruct (scan_labels_spec (instructions f) (label i)) as (Hbound & Hdef & _).
  destruct (Hdef Hin) as [k Hk]. destruct (Hbound k Hk) as (lab & Hlk & Hlop & Hll & _).
  by exists k, lab.
Qed.

(** X15. No generated program holds a NEG, JNZ, LOAD_GLOBAL or
    STORE_GLOBAL instruction, and every generated JZ, PRINT, STORE,
    LOAD_INT, LOAD_FLOAT and LOAD_STRING instruction has exactly one
    operand: when the interpreter executes one of them, [operands[0]] is
    within the operand list. *)
Theorem X15_generated_operands_in_range :
  forall (ast : Program) (fi j : nat) (f : IRFunction) (i : IRInstruction),
    ir_functions (generate ast) !! fi = Some f ->
    instructions f !! j = Some i ->
    never_emitted (opcode i) = false
    /\ (one_operand (opcode i) = true ->
        length (operands i) = 1%nat
        /\ forall (W : Type) (HW : World W) (FT : FloatText)
                  (labels : gmap string nat) (m : Machine W),
             exec_instr labels i m <> SUndefined).
Proof.
  intros ast fi j f i Hf Hj.
  destruct (generate_shape ast) as [[c_end Hch] _].
  destruct (code_chain_lookup _ _ _ _ _ Hch Hf) as (c0 & n & Hn & Hlab & Hok).
  pose proof (Forall_lookup_1 _ _ _ _ Hok Hj) as (_ & Hnever & Hone).
  split; [done|]. intros Hop. specialize (Hone Hop). split; [done|].
  intros W HW FT labels m. unfold exec_instr, operand_value.
  destruct (operands i) as [|v [|v' ops]]; try done. cbn [lookup list_lookup].
  destruct (opcode i); try done; by repeat case_match.
Qed.


(** ** Slots that generated code never writes *)

(** The result slot of a storing instruction of generated code is the
    slot of a temporary or of a local variable. *)
Lemma generated_result_key f j i :
  temps_dense f -> instructions f !! j = Some i -> writes (opcode i) = true ->
  (exists id, result_key i = IRValue_toString (temp_value id))
  \/ (exists name, result_key i = "l_" +:+ name).
Proof.
  intros (n & Hn & Hok & _) Hj Hw.
  pose proof (Forall_lookup_1 _ _ _ _ Hok Hj) as Hi. unfold result_key.
  destruct Hi as [[_ Hc]|[[Hloc _]|(id & _ & Hres)]]; [congruence| |].
  - right. exists (irv_name (result i)). unfold IRValue_toString. by rewrite Hloc.
  - left. exists id. by rewrite Hres.
Qed.

(** X16. A Boolean literal is lowered to a constant operand and to no
    instruction.  The slot of that operand ([1] for [true], [0] for
    [false]) is written by no instruction of any generated function, so
    at every point of a run both literals read as the integer 0 and a JZ
    on either of them jumps: [if (true)] runs its else branch. *)
Theorem X16_boolean_literal_reads_zero :
  forall (W : Type) (HW : World W) (FT : FloatText) (w : W)
         (ast : Program) (fi : nat) (f : IRFunction) (labels : gmap string nat)
         (m0 m : Machine W) (n : nat) (b : bool),
    ir_functions (generate ast) !! fi = Some f ->
    state_after n (instructions f) labels (enter_function m0) = Some m ->
    (forall g, visitExpression (bool_literal b) g = (bool_operand b, g))
    /\ temps_at (IRValue_toString (bool_operand b)) m = VInt 0
    /\ (forall i_jz,
          opcode i_jz = IROpCode.JZ -> operands i_jz = [bool_operand b] ->
          exec_instr labels i_jz m = SJump (set_ip (labels_at (label i_jz) labels) m))
    /\ zpp_main 200 src_true w = Terminated 0 "0" "" w.
Proof.
  intros W HW FT w ast fi f labels m0 m n b Hf Hrun.
  assert (Hunset : temps m !! IRValue_toString (bool_operand b) = None).
  { destruct (generate_ok ast) as [Hd _].
    pose proof (Forall_lookup_1 _ _ _ _ Hd Hf) as Hdense.
    apply (unset_slot_stays (instructions f) labels (IRValue_toString (bool_operand b)))
      with (n := n) (m := enter_function m0); [|reflexivity|exact Hrun].
    intros j i Hj Hw.
    destruct (generated_result_key f j i Hdense Hj Hw) as [[id ->]|[name ->]];
      by destruct b. }
  split; [by destruct b|]. split.
  { unfold temps_at. by rewrite Hunset. }
  split.
  { intros i_jz Hop Hops.
    apply (jz_on_unset_slot labels i_jz (bool_operand b)); [done| |done].
    by rewrite Hops. }
  vm_compute. reflexivity.
Qed.

(** ** What some operators are lowered to *)

Lemma Emits_cur lo g g' :
  Emits lo g g' -> is_Some (current g) ->
  exists new, cur_instrs g' = cur_instrs g ++ new /\ is_Some (current g').
Proof.
  intros (new & _ & Hc & _) [f Hf]. exists new. unfold cur_instrs.
  rewrite Hc, Hf. by cbn.
Qed.

Lemma emit_cur i g :
  is_Some (current g) ->
  cur_instrs (emitInstruction i g) = cur_instrs g ++ [i]
  /\ is_Some (current (emitInstruction i g)).
Proof. intros Hc. by destruct (cur_instrs_emit i g Hc) as (? & ? & _). Qed.

Lemma createTemp_current g : current (snd (createTemp g)) = current g.
Proof. done. Qed.


Lemma lower_unary op e g :
  is_Some (current g) ->
  exists pre i v,
    cur_instrs (snd (visitExpression (UnaryOp op e) g)) = pre ++ [i]
    /\ opcode i = tokenTypeToOpCode op /\ operands i = [v]
    /\ result i = fst (visitExpression (UnaryOp op e) g).
Proof.
  intros Hcur. cbn [visitExpression].
  destruct (Emits_cur 0 _ _ (visitExpression_Emits e 0 g) Hcur) as (n1 & Hc1 & Hcur1).
  destruct (visitExpression e g) as [v g1]. cbn [snd] in *.
  pose proof (createTemp_current g1) as Hc3.
  destruct (createTemp g1) as [res g2] eqn:Hct. cbn [fst snd] in *.
  rewrite <- Hc3 in Hcur1.
  match goal with
  | |- context [emitInstruction ?i g2] =>
      destruct (emit_cur i g2 Hcur1) as (Hc4 & Hcur4);
      exists (cur_instrs g2), i, v
  end.
  by repeat split.
Qed.


Lemma extends_trans g g1 g2 : extends g g1 -> extends g1 g2 -> extends g g2.
Proof.
  intros H1 H2 Hc. destruct (H1 Hc) as (n1 & Hn1 & Hc1).
  destruct (H2 Hc1) as (n2 & Hn2 & Hc2). exists (n1 ++ n2).
  rewrite Hn2, Hn1. by rewrite app_assoc.
Qed.




Lemma extends_createLabel g g' : extends g g' -> extends g (snd (createLabel g')).
Proof.
  intros H. eapply extends_trans; [exact H|]. intros Hc. exists [].
  by rewrite app_nil_r.
Qed.


(** X17. Unary minus is lowered to a SUB instruction with a single
    operand (the NEG opcode is not used).  The branch of the interpreter
    for SUB reads [operands[1]], which such an instruction does not have:
    executing it is undefined behaviour. *)
Theorem X17_unary_minus_is_a_one_operand_SUB :
  forall (W : Type) (HW : World W) (FT : FloatText) (w : W),
    (forall e g,
        is_Some (current g) ->
        exists pre i v,
          cur_instrs (snd (visitExpression (UnaryOp TokenType.MINUS e) g)) = pre ++ [i]
          /\ opcode i = IROpCode.SUB /\ operands i = [v]
          /\ result i = fst (visitExpression (UnaryOp TokenType.MINUS e) g))
    /\ (forall labels i v (m : Machine W),
          opcode i = IROpCode.SUB -> operands i = [v] ->
          exec_instr labels i m = SUndefined)
    /\ zpp_main 200 src_negate w = UndefinedBehaviour.
Proof.
  intros W HW FT w. split; [|split].
  - intros e g Hcur. exact (lower_unary TokenType.MINUS e g Hcur).
  - intros labels i v m Hop Hops. unfold exec_instr, exec_arith, operand_value.
    by rewrite Hop, Hops.
  - vm_compute. reflexivity.
Qed.




(** ** The interpreter *)



Section RunProperties.
Context {W : Type} `{World W} `{FloatText}.

Lemma output_grows_refl (m : Machine W) : output_grows m m.
Proof. exists "", "". by rewrite !string_app_nil. Qed.

Lemma output_grows_trans (m1 m2 m3 : Machine W) :
  output_grows m1 m2 -> output_grows m2 m3 -> output_grows m1 m3.
Proof.
  intros (o1 & e1 & Ho1 & He1) (o2 & e2 & Ho2 & He2).
  exists (o1 +:+ o2), (e1 +:+ e2).
  by rewrite Ho2, He2, Ho1, He1, !string_app_assoc.
Qed.

Lemma output_grows_cout s (m0 m : Machine W) :
  output_grows m0 m -> output_grows m0 (put_cout s m).
Proof.
  intros (o & e & Ho & He). exists (o +:+ s), e. cbn.
  by rewrite Ho, He, string_app_assoc.
Qed.

Lemma output_grows_cerr s (m0 m : Machine W) :
  output_grows m0 m -> output_grows m0 (put_cerr s m).
Proof.
  intros (o & e & Ho & He). exists o, (e +:+ s). cbn.
  by rewrite Ho, He, string_app_assoc.
Qed.

Lemma output_grows_same (m0 m m' : Machine W) :
  cout m' = cout m -> m_cerr m' = m_cerr m ->
  output_grows m0 m -> output_grows m0 m'.
Proof. intros Ho He (o & e & ? & ?). exists o, e. by rewrite Ho, He. Qed.

Lemma exec_instr_output labels instr (m m' : Machine W) :
  machine_of (exec_instr labels instr m) = Some m' -> output_grows m m'.
Proof.
  intros Hexec.
  unfold exec_instr, exec_arith, exec_divmod, exec_compare, exec_draw, exec_screen,
    exec_present, exec_quit, exec_isKeyDown, exec_updateInput in Hexec.
  destruct (opcode instr) eqn:Hop;
    repeat case_match; cbn [machine_of] in Hexec; simplify_eq;
    unfold output_grows, set_temp, on_world, set_world, set_graphics, set_ip,
      put_cout, put_cerr; cbn [cout m_cerr];
    eexists _, _;
    (split; [first [reflexivity | symmetry; apply string_app_nil]..]).
Qed.
End RunProperties.
Section WholeRuns.
Context {W : Type} `{World W} `{FloatText}.

Lemma exec_instr_exit labels instr (m m' : Machine W) st :
  exec_instr labels instr m = SExit st m' -> st = 0.
Proof.
  unfold exec_instr, exec_arith, exec_divmod, exec_compare, exec_draw, exec_screen,
    exec_present, exec_quit, exec_isKeyDown, exec_updateInput.
  intros Hexec. destruct (opcode instr); repeat case_match; by simplify_eq.
Qed.

Lemma run_output instrs labels : forall fuel (m m' : Machine W),
  final_machine (run fuel instrs labels m) = Some m' -> output_grows m m'.
Proof.
  induction fuel as [|fuel IH]; intros m m' Hrun; cbn [run] in Hrun.
  - cbn in Hrun. simplify_eq. apply output_grows_refl.
  - destruct (instrs !! ip m) as [instr|]; cbn in Hrun;
      [|simplify_eq; apply output_grows_refl].
    pose proof (exec_instr_output labels instr m) as Hstep.
    destruct (exec_instr labels instr m) as [m1|m1|m1|st m1|e m1|];
      cbn [machine_of final_machine] in *; simplify_eq;
      try (by apply Hstep).
    + eapply output_grows_trans; [by apply Hstep|].
      eapply output_grows_trans; [|by apply IH].
      eapply output_grows_same; [..|apply output_grows_refl]; reflexivity.
    + eapply output_grows_trans; [by apply Hstep|]. by apply IH.
Qed.

Lemma run_exit instrs labels : forall fuel (m m' : Machine W) st,
  run fuel instrs labels m = Exited st m' -> st = 0.
Proof.
  induction fuel as [|fuel IH]; intros m m' st Hrun; cbn [run] in Hrun; [done|].
  destruct (instrs !! ip m) as [instr|]; [|done].
  destruct (exec_instr labels instr m) as [m1|m1|m1|st1 m1|e m1|] eqn:Hexec;
    simplify_eq; eauto using exec_instr_exit.
Qed.

Lemma interpret_functions_output fuel : forall funcs (m m' : Machine W),
  final_machine (interpret_functions fuel funcs m) = Some m' -> output_grows m m'.
Proof.
  induction funcs as [|f funcs IH]; intros m m' Hrun; cbn [interpret_functions] in Hrun.
  - cbn in Hrun. simplify_eq. apply output_grows_refl.
  - destruct (string_eqb (irf_name f) "main"); [|by apply IH].
    unfold run_function in Hrun.
    pose proof (run_output (instructions f) (scan_labels (instructions f) 0 ∅) fuel
                  (enter_function m)) as Hone.
    assert (Henter : output_grows m (enter_function m)).
    { eapply output_grows_same; [..|apply output_grows_refl]; reflexivity. }
    destruct (run fuel (instructions f) _ (enter_function m)) as [m1|st m1|e m1| |m1];
      cbn [final_machine] in *; simplify_eq.
    + eapply output_grows_trans; [exact Henter|].
      eapply output_grows_trans; [by apply Hone|]. by apply IH.
    + eapply output_grows_trans; [exact Henter|]. by apply Hone.
    + eapply output_grows_trans; [exact Henter|]. by apply Hone.
    + eapply output_grows_trans; [exact Henter|]. by apply Hone.
Qed.

Lemma interpret_functions_exit fuel : forall funcs (m m' : Machine W) st,
  interpret_functions fuel funcs m = Exited st m' -> st = 0.
Proof.
  induction funcs as [|f funcs IH]; intros m m' st Hrun;
    cbn [interpret_functions] in Hrun; [done|].
  destruct (string_eqb (irf_name f) "main"); [|by eapply IH].
  unfold run_function in Hrun.
  destruct (run fuel (instructions f) _ (enter_function m)) as [m1|st1 m1|e m1| |m1]
    eqn:Hone; simplify_eq.
  - by eapply IH.
  - by eapply run_exit.
Qed.

(** X20. What a run has written is never taken back: whenever the
    interpreter stops on [ir], started with [out] on standard output and
    [err] on standard error, both streams hold what they held, possibly
    followed by more; and the only exit status [interpretIR] itself
    passes to [exit] is 0. *)
Theorem X20_output_only_grows :
  forall (fuel : nat) (ir : IRProgram) (m m' : Machine W),
    final_machine (interpretIR fuel ir m) = Some m' ->
    (exists out, cout m' = cout m +:+ out)
    /\ (exists err, m_cerr m' = m_cerr m +:+ err)
    /\ (forall st, interpretIR fuel ir m = Exited st m' -> st = 0).
Proof.
  intros fuel ir m m' Hrun.
  destruct (interpret_functions_output fuel _ _ _ Hrun) as (out & err & Ho & He).
  split; [by exists out|]. split; [by exists err|].
  intros st Hexit. by eapply interpret_functions_exit.
Qed.

End WholeRuns.


Section OnlyMain.
Context {W : Type} `{World W} `{FloatText}.

Lemma interpret_functions_filter fuel : forall funcs (m : Machine W),
  interpret_functions fuel funcs m
  = interpret_functions fuel (List.filter is_main funcs) m.
Proof.
  induction funcs as [|f funcs IH]; intros m; [done|].
  cbn [interpret_functions List.filter]. unfold is_main at 1.
  destruct (string_eqb (irf_name f) "main") eqn:Hname; [|by apply IH].
  cbn [interpret_functions]. rewrite Hname.
  destruct (run_function fuel f m); auto.
Qed.

Lemma interpret_functions_no_main fuel : forall funcs (m : Machine W),
  Forall (fun f => irf_name f <> "main") funcs ->
  interpret_functions fuel funcs m = Finished m.
Proof.
  induction funcs as [|f funcs IH]; intros m Hall; [done|].
  apply Forall_cons in Hall as [Hf Hall]. cbn [interpret_functions].
  destruct (string_eqb (irf_name f) "main") eqn:Hname; [|by apply IH].
  by apply string_eqb_true in Hname.
Qed.

(** X22. Only the functions called [main] are executed: the others are
    skipped by [interpretIR], and a CALL to a name other than [quit],
    [isKeyDown] and [updateInput] changes nothing.  A program without a
    function [main] therefore runs no instruction and ends normally in
    the state it started in. *)
Theorem X22_only_main_runs :
  forall (fuel : nat) (m : Machine W),
    (forall funcs,
       interpretIR fuel (mkIRProgram funcs) m
       = interpretIR fuel (mkIRProgram (List.filter is_main funcs)) m)
    /\ (forall ast,
          Forall (fun d => fd_name d <> "main") (functions ast) ->
          interpretIR fuel (generate ast) m = Finished m)
    /\ (forall labels instr,
          opcode instr = IROpCode.CALL -> known_call (label instr) = false ->
          exec_instr labels instr m = SNext m).
Proof.
  intros fuel m. split; [|split].
  - intros funcs. apply interpret_functions_filter.
  - intros ast Hall. unfold interpretIR. apply interpret_functions_no_main.
    pose proof (proj2 (generate_shape ast)) as Hmap.
    apply (f_equal (map (fun h => fst (fst h)))) in Hmap.
    rewrite !map_map in Hmap. cbn in Hmap.
    assert (Hnames : map irf_name (ir_functions (generate ast))
                     = map fd_name (functions ast)) by exact Hmap.
    apply Forall_forall. intros f Hf Hname.
    assert (Hin : In "main" (map fd_name (functions ast))).
    { rewrite <- Hnames, <- Hname. apply in_map, list_elem_of_In, Hf. }
    apply in_map_iff in Hin as (d & Hd & Hin).
    apply list_elem_of_In in Hin.
    by apply (proj1 (Forall_forall _ _) Hall d Hin).
  - intros labels instr Hop Hcall. unfold known_call in Hcall.
    apply orb_false_iff in Hcall as [Hcall Hu].
    apply orb_false_iff in Hcall as [Hq Hk].
    unfold exec_instr. by rewrite Hop, Hq, Hk, Hu.
Qed.
End OnlyMain.


(** ** The parser: termination *)

Lemma skipNewlines_length ts : (length (skipNewlines ts) <= length ts)%nat.
Proof.
  induction ts as [|t ts IH]; [done|]. cbn [skipNewlines].
  destruct (TokenType.eqb _ _); cbn [length]; lia.
Qed.

Lemma check_nil ty : check ty [] = true -> ty = TokenType.END_OF_FILE.
Proof.
  unfold check, TokenType.eqb. cbn. intros Hc.
  by apply bool_decide_eq_true in Hc.
Qed.

Lemma tl_length (ts : list Token) : (length (tl ts) <= length ts)%nat.
Proof. destruct ts; cbn; lia. Qed.

Lemma tl_length_check ty (ts : list Token) :
  check ty ts = true -> ty <> TokenType.END_OF_FILE ->
  (length (tl ts) < length ts)%nat.
Proof.
  intros Hc Hty. destruct ts; [by apply check_nil in Hc|]. cbn. lia.
Qed.

Lemma tl_length_type (ts : list Token) :
  tok_type (currentToken ts) <> TokenType.END_OF_FILE ->
  (length (tl ts) < length ts)%nat.
Proof. destruct ts; [done|]. cbn. lia. Qed.
Section Refines.
Context {A : Type}.
Implicit Types (r : PRes A) (ts : list Token).

Lemma refines_mono (L L' : nat) r r' :
  (L <= L')%nat -> refines_res L r r' -> refines_res L' r r'.
Proof.
  unfold refines_res. intros HL Hr. destruct r; [|done..].
  destruct Hr. split; [lia|done].
Qed.

Lemma refines_ok (L : nat) (a : A) ts :
  (length ts < L)%nat -> refines_res L (POk a ts) (POk a ts).
Proof. by split. Qed.

Lemma refines_err (L : nat) msg : refines_res L (@PErr A msg) (PErr msg).
Proof. done. Qed.
End Refines.

Section Steps.
Context {A B : Type}.
Implicit Types (k : A -> P B) (ts : list Token).

Lemma step_bind (L1 L : nat) (m m' : P A) k k' ts :
  refines_res L1 (m ts) (m' ts) ->
  (forall a ts', (length ts' < L1)%nat -> refines_res L (k a ts') (k' a ts')) ->
  refines_res L (p_bind m k ts) (p_bind m' k' ts).
Proof.
  unfold refines_res, p_bind. intros Hm Hk.
  destruct (m ts) as [a ts'| |]; [|by rewrite Hm|done].
  destruct Hm as [Hlen ->]. by apply Hk.
Qed.

Lemma step_assoc {C : Type} (L : nat) (m m' : P C) (h h' : C -> P A) k k' ts :
  refines_res L (p_bind m (fun x => p_bind (h x) k) ts)
    (p_bind m' (fun x => p_bind (h' x) k') ts) ->
  refines_res L (p_bind (p_bind m h) k ts) (p_bind (p_bind m' h') k' ts).
Proof. unfold p_bind. by destruct (m ts), (m' ts). Qed.
End Steps.

Section Primitives.
Context {B : Type}.
Implicit Types (ts : list Token) (L : nat).

Lemma step_ret {A : Type} L (a : A) (k k' : A -> P B) ts :
  refines_res L (k a ts) (k' a ts) ->
  refines_res L (p_bind (p_ret a) k ts) (p_bind (p_ret a) k' ts).
Proof. done. Qed.

Lemma step_throw {A : Type} L msg (k k' : A -> P B) ts :
  refines_res L (p_bind (p_throw msg) k ts) (p_bind (p_throw msg) k' ts).
Proof. done. Qed.

Lemma step_check L ty (k k' : bool -> P B) ts :
  refines_res L (k (check ty ts) ts) (k' (check ty ts) ts) ->
  refines_res L (p_bind (p_check ty) k ts) (p_bind (p_check ty) k' ts).
Proof. done. Qed.

Lemma step_current L (k k' : Token -> P B) ts :
  refines_res L (k (currentToken ts) ts) (k' (currentToken ts) ts) ->
  refines_res L (p_bind p_current k ts) (p_bind p_current k' ts).
Proof. done. Qed.

Lemma step_peek L (k k' : Token -> P B) ts :
  refines_res L (k (peekToken ts) ts) (k' (peekToken ts) ts) ->
  refines_res L (p_bind p_peek k ts) (p_bind p_peek k' ts).
Proof. done. Qed.

Lemma step_advance L (k k' : unit -> P B) ts :
  ((length (tl ts) <= length ts)%nat ->
   refines_res L (k tt (tl ts)) (k' tt (tl ts))) ->
  refines_res L (p_bind p_advance k ts) (p_bind p_advance k' ts).
Proof. intros Hk. apply Hk, tl_length. Qed.

Lemma step_consume L ty msg (k k' : unit -> P B) ts :
  ty <> TokenType.END_OF_FILE ->
  ((length (tl ts) < length ts)%nat ->
   refines_res L (k tt (tl ts)) (k' tt (tl ts))) ->
  refines_res L (p_bind (consume ty msg) k ts) (p_bind (consume ty msg) k' ts).
Proof.
  intros Hty Hk. unfold p_bind, consume.
  destruct (check ty ts) eqn:Hc; [|done]. apply Hk. by eapply tl_length_check.
Qed.

Lemma step_match_comma L (k k' : bool -> P B) ts :
  ((length (tl ts) < length ts)%nat ->
   refines_res L (k true (tl ts)) (k' true (tl ts))) ->
  refines_res L (k false ts) (k' false ts) ->
  refines_res L (p_bind (p_match [TokenType.COMMA]) k ts)
    (p_bind (p_match [TokenType.COMMA]) k' ts).
Proof.
  intros Ht Hf. unfold p_bind, p_match. cbn [existsb].
  destruct (check TokenType.COMMA ts) eqn:Hc; cbn [orb]; [|done].
  apply Ht. by eapply tl_length_check.
Qed.

Lemma step_type_name L ty (k k' : string -> P B) ts :
  (forall s, refines_res L (k s ts) (k' s ts)) ->
  refines_res L (p_bind (tokenTypeToString ty) k ts)
    (p_bind (tokenTypeToString ty) k' ts).
Proof. intros Hk. unfold p_bind, tokenTypeToString. destruct ty; apply Hk. Qed.
End Primitives.
Ltac pstep :=
  cbv beta iota zeta;
  lazymatch goal with
  | |- refines_res _ (p_bind (p_ret _) _ _) _ => apply step_ret
  | |- refines_res _ (p_bind (p_throw _) _ _) _ => apply step_throw
  | |- refines_res _ (p_bind (p_check _) _ _) _ => apply step_check
  | |- refines_res _ (p_bind p_current _ _) _ => apply step_current
  | |- refines_res _ (p_bind p_peek _ _) _ => apply step_peek
  | |- refines_res _ (p_bind p_advance _ _) _ => apply step_advance; intros ?
  | |- refines_res _ (p_bind (p_bind _ _) _ _) _ => apply step_assoc
  | |- refines_res _ (p_bind (consume _ _) _ _) _ =>
      apply step_consume; [done|intros ?]
  | |- refines_res _ (p_bind (tokenTypeToString _) _ _) _ =>
      apply step_type_name; intros ?
  end; cbv beta iota zeta.

Ltac pleaf :=
  cbv beta iota zeta;
  first [ apply refines_err
        | apply refines_ok; cbn [length] in *; lia ].

Lemma binary_loop_S fuel ops sub left ts :
  binary_loop (S fuel) ops sub left ts
  = if existsb (fun ty => check ty ts) ops
    then p_bind p_advance (fun _ =>
           p_bind sub (fun right =>
             binary_loop fuel ops sub
               (BinaryOp left (tok_type (currentToken ts)) right))) ts
    else POk left ts.
Proof. reflexivity. Qed.

Lemma binary_loop_settles ops (sub sub' : P Expression) :
  existsb (fun ty => check ty []) ops = false ->
  forall fuel left ts,
    (length ts < fuel)%nat ->
    (forall ts', (length ts' < length ts)%nat ->
                 refines_res (length ts') (sub ts') (sub' ts')) ->
    refines_res (S (length ts)) (binary_loop fuel ops sub left ts)
      (binary_loop (S fuel) ops sub' left ts).
Proof.
  intros Hops. induction fuel as [|fuel IH]; intros left ts Hfuel Hsub; [lia|].
  rewrite (binary_loop_S fuel), (binary_loop_S (S fuel)).
  destruct (existsb (fun ty => check ty ts) ops) eqn:Hop; [|pleaf].
  assert (Hlen : (length (tl ts) < length ts)%nat).
  { destruct ts; [congruence|]. cbn. lia. }
  pstep. eapply step_bind; [apply Hsub, Hlen|]. intros right ts' Hts'. cbn beta.
  eapply refines_mono; [|apply IH]; [lia|lia|].
  intros ts'' Hts''. apply Hsub. lia.
Qed.

Lemma args_loop_S fuel sub ts :
  args_loop (S fuel) sub ts
  = p_bind sub (fun a =>
      p_bind (p_match [TokenType.COMMA]) (fun more : bool =>
        if more then p_bind (args_loop fuel sub) (fun rest => p_ret (a :: rest))
        else p_ret [a])) ts.
Proof. reflexivity. Qed.

Lemma args_loop_settles (sub sub' : P Expression) :
  forall fuel ts,
    (length ts < fuel)%nat ->
    (forall ts', (length ts' <= length ts)%nat ->
                 refines_res (length ts') (sub ts') (sub' ts')) ->
    refines_res (length ts) (args_loop fuel sub ts) (args_loop (S fuel) sub' ts).
Proof.
  induction fuel as [|fuel IH]; intros ts Hfuel Hsub; [lia|].
  rewrite (args_loop_S fuel), (args_loop_S (S fuel)).
  eapply step_bind; [by apply Hsub|]. intros a ts' Hts'. cbn beta.
  apply step_match_comma; [intros Htl|pleaf].
  eapply step_bind.
  - apply IH; [lia|]. intros ts'' Hts''. apply Hsub. lia.
  - intros rest ts'' Hts''. cbn beta. pleaf.
Qed.

Lemma call_args_settles fuel (sub sub' : P Expression) closing ts :
  (length ts < fuel)%nat ->
  (forall ts', (length ts' <= length ts)%nat ->
               refines_res (length ts') (sub ts') (sub' ts')) ->
  refines_res (length ts) (call_args fuel sub closing ts)
    (call_args (S fuel) sub' closing ts).
Proof.
  intros Hfuel Hsub. unfold call_args. pstep.
  destruct (check TokenType.RPAREN ts).
  - pstep. pstep. pleaf.
  - eapply step_bind; [by apply args_loop_settles|]. intros args ts' Hts'. cbn beta.
    pstep. pleaf.
Qed.

Lemma postfix_loop_S fuel pA pE expr ts :
  postfix_loop (S fuel) pA pE expr ts
  = if check TokenType.LPAREN ts then
      p_bind p_advance (fun _ =>
        p_bind (call_args fuel pA "Expected ')' after arguments") (fun args =>
          match expr with
          | Identifier name => postfix_loop fuel pA pE (FunctionCall name args)
          | _ => p_throw "Invalid function call"
          end)) ts
    else if check TokenType.LBRACKET ts then
      p_bind p_advance (fun _ =>
        p_bind pE (fun index =>
          p_bind (consume TokenType.RBRACKET "Expected ']' after index") (fun _ =>
            postfix_loop fuel pA pE (ArrayAccess expr index)))) ts
    else POk expr ts.
Proof. reflexivity. Qed.

Lemma postfix_loop_settles (pA pA' pE pE' : P Expression) :
  forall fuel expr ts,
    (length ts < fuel)%nat ->
    (forall ts', (length ts' < length ts)%nat ->
                 refines_res (length ts') (pA ts') (pA' ts')) ->
    (forall ts', (length ts' < length ts)%nat ->
                 refines_res (length ts') (pE ts') (pE' ts')) ->
    refines_res (S (length ts)) (postfix_loop fuel pA pE expr ts)
      (postfix_loop (S fuel) pA' pE' expr ts).
Proof.
  induction fuel as [|fuel IH]; intros expr ts Hfuel HA HE; [lia|].
  rewrite (postfix_loop_S fuel), (postfix_loop_S (S fuel)).
  destruct (check TokenType.LPAREN ts) eqn:Hparen.
  { pose proof (tl_length_check _ _ Hparen ltac:(done)) as Htl.
    pstep. eapply step_bind.
    - apply call_args_settles; [lia|]. intros ts' Hts'. apply HA. lia.
    - intros args ts' Hts'. cbn beta.
      destruct expr; try pleaf.
      eapply refines_mono; [|apply IH]; [lia|lia|..];
        intros ts'' Hts''; [apply HA|apply HE]; lia. }
  destruct (check TokenType.LBRACKET ts) eqn:Hbracket; [|pleaf].
  pose proof (tl_length_check _ _ Hbracket ltac:(done)) as Htl.
  pstep. eapply step_bind; [by apply HE|]. intros index ts' Hts'. cbn beta.
  pstep.
  eapply refines_mono; [|apply IH]; [lia|lia|..];
    intros ts'' Hts''; [apply HA|apply HE]; lia.
Qed.

Lemma optional_prompt_settles (pE pE' : P Expression) ts :
  tok_type (currentToken ts) <> TokenType.END_OF_FILE ->
  (forall ts', (length ts' < length ts)%nat ->
               refines_res (length ts') (pE ts') (pE' ts')) ->
  refines_res (length ts) (optional_prompt pE ts) (optional_prompt pE' ts).
Proof.
  intros Hcur HE. pose proof (tl_length_type ts Hcur) as Htl.
  unfold optional_prompt. pstep. pstep.
  destruct (check TokenType.LPAREN (tl ts)) eqn:Hparen; [|pleaf].
  pose proof (tl_length_check _ _ Hparen ltac:(done)) as Htl2.
  pstep. pstep. destruct (check TokenType.RPAREN (tl (tl ts))).
  - pstep. pstep. pleaf.
  - pstep. eapply step_bind; [apply HE; lia|]. intros e ts' Hts'. cbn beta.
    pstep. pstep. pleaf.
Qed.

Lemma builtin_call_settles fuel (pA pA' : P Expression) name ts :
  tok_type (currentToken ts) <> TokenType.END_OF_FILE ->
  (length ts < fuel)%nat ->
  (forall ts', (length ts' < length ts)%nat ->
               refines_res (length ts') (pA ts') (pA' ts')) ->
  refines_res (length ts) (builtin_call fuel pA name ts)
    (builtin_call (S fuel) pA' name ts).
Proof.
  intros Hcur Hfuel HA. pose proof (tl_length_type ts Hcur) as Htl.
  unfold builtin_call. pstep. pstep.
  destruct (check TokenType.LPAREN (tl ts)) eqn:Hparen; [|pstep; pleaf].
  pose proof (tl_length_check _ _ Hparen ltac:(done)) as Htl2.
  pstep. pstep. eapply step_bind.
  - apply call_args_settles; [lia|]. intros ts' Hts'. apply HA. lia.
  - intros args ts' Hts'. cbn beta. pleaf.
Qed.
Lemma binary_level_settles ops (G : nat -> P Expression) (r n : nat) ts :
  existsb (fun ty => check ty []) ops = false ->
  (r <= 12)%nat -> settled r G n ->
  (13 * length ts + S r <= S n)%nat ->
  refines_res (length ts)
    (p_bind (G n) (fun left => binary_loop n ops (G n) left) ts)
    (p_bind (G (S n)) (fun left => binary_loop (S n) ops (G (S n)) left) ts).
Proof.
  intros Hops Hr HG Hn.
  eapply step_bind; [apply HG; lia|]. intros left ts' Hts'. cbv beta.
  eapply refines_mono; [|apply binary_loop_settles]; [lia|done|lia|].
  intros ts'' Hts''. apply HG. lia.
Qed.

Lemma parsePrimary_settles n :
  settled 10 parseAssignment n -> settled 11 parseComma n ->
  settled 1 parsePrimary (S n).
Proof.
  intros HA HC ts Hn. cbn [parsePrimary].
  assert (Hsub : forall r (F : nat -> P Expression),
             (r <= 11)%nat -> settled r F n ->
             forall ts', (length ts' < length ts)%nat ->
                         refines_res (length ts') (F n ts') (F (S n) ts')).
  { intros r F Hr HF ts' Hts'. apply HF. lia. }
  destruct (tok_type (currentToken ts)) eqn:Hty; cbn [builtin_name];
    try pleaf;
    try (pose proof (tl_length_type ts ltac:(by rewrite Hty)) as Htl);
    try pleaf;
    try (apply builtin_call_settles;
         [by rewrite Hty|lia|apply (Hsub 10%nat parseAssignment); [lia|done]]).
  - eapply step_bind.
    + apply optional_prompt_settles;
        [by rewrite Hty|apply (Hsub 11%nat parseComma); [lia|done]].
    + intros prompt ts' Hts'. cbv beta. pleaf.
  - eapply step_bind.
    + apply optional_prompt_settles;
        [by rewrite Hty|apply (Hsub 11%nat parseComma); [lia|done]].
    + intros prompt ts' Hts'. cbv beta. pleaf.
  - pstep. eapply step_bind; [apply HC; lia|]. intros e ts' Hts'. cbv beta.
    pstep. pleaf.
Qed.

Lemma parsePostfix_settles n :
  settled 1 parsePrimary n -> settled 10 parseAssignment n ->
  settled 11 parseComma n -> settled 2 parsePostfix (S n).
Proof.
  intros HP HA HC ts Hn. cbn [parsePostfix].
  eapply step_bind; [apply HP; lia|]. intros e ts' Hts'. cbv beta.
  eapply refines_mono; [|apply postfix_loop_settles]; [lia|lia|..];
    intros ts'' Hts''; [apply HA|apply HC]; lia.
Qed.

Lemma parseUnary_settles n :
  settled 2 parsePostfix n -> settled 3 parseUnary n -> settled 3 parseUnary (S n).
Proof.
  intros HP HU ts Hn. cbn [parseUnary].
  destruct (check TokenType.NOT ts || check TokenType.MINUS ts) eqn:Hop.
  - assert (Htl : (length (tl ts) < length ts)%nat).
    { apply orb_true_iff in Hop as [Hop|Hop]; by eapply tl_length_check. }
    pstep. eapply step_bind; [apply HU; lia|]. intros e ts' Hts'. cbv beta. pleaf.
  - apply HP. lia.
Qed.

Lemma parseAssignment_settles n :
  settled 9 parseLogicalOr n -> settled 10 parseAssignment n ->
  settled 10 parseAssignment (S n).
Proof.
  intros HO HA ts Hn. cbn [parseAssignment].
  eapply step_bind; [apply HO; lia|]. intros left ts' Hts'. cbv beta.
  pstep. destruct (check TokenType.ASSIGN ts') eqn:Hassign; [|pleaf].
  pose proof (tl_length_check _ _ Hassign ltac:(done)) as Htl.
  pstep. destruct left; try pleaf.
  eapply step_bind; [apply HA; lia|]. intros v ts'' Hts''. cbv beta. pleaf.
Qed.

Lemma expressions_settled_step n :
  expressions_settled n -> expressions_settled (S n).
Proof.
  intros (HPr & HPo & HU & HM & HAd & HCo & HE & HAn & HO & HAs & HC).
  repeat split.
  - by apply parsePrimary_settles.
  - by apply parsePostfix_settles.
  - by apply parseUnary_settles.
  - intros ts Hn. cbn [parseMultiplicative]. apply (binary_level_settles _ _ 3%nat); [by vm_compute|lia|done|lia].
  - intros ts Hn. cbn [parseAdditive]. apply (binary_level_settles _ _ 4%nat); [by vm_compute|lia|done|lia].
  - intros ts Hn. cbn [parseComparison]. apply (binary_level_settles _ _ 5%nat); [by vm_compute|lia|done|lia].
  - intros ts Hn. cbn [parseEquality]. apply (binary_level_settles _ _ 6%nat); [by vm_compute|lia|done|lia].
  - intros ts Hn. cbn [parseLogicalAnd]. apply (binary_level_settles _ _ 7%nat); [by vm_compute|lia|done|lia].
  - intros ts Hn. cbn [parseLogicalOr]. apply (binary_level_settles _ _ 8%nat); [by vm_compute|lia|done|lia].
  - by apply parseAssignment_settles.
  - intros ts Hn. cbn [parseComma]. apply (binary_level_settles _ _ 10%nat); [by vm_compute|lia|done|lia].
Qed.

Lemma expressions_settle n : expressions_settled n.
Proof.
  induction n as [|n IH]; [|by apply expressions_settled_step].
  repeat split; intros ts Hn; lia.
Qed.

Lemma parseExpression_settles n : settled 11 parseExpression n.
Proof. apply expressions_settle. Qed.
Lemma parseExpression_at n ts (L : nat) :
  (13 * length ts + 11 <= n)%nat -> (length ts <= L)%nat ->
  refines_res L (parseExpression n ts) (parseExpression (S n) ts).
Proof.
  intros Hn HL. eapply refines_mono; [exact HL|]. by apply parseExpression_settles.
Qed.

Ltac pexpr :=
  eapply step_bind; [apply parseExpression_at; [|reflexivity]; lia|];
  intros ? ? ?; cbv beta.

Ltac pcall H :=
  eapply step_bind; [apply H; lia|]; intros ? ? ?; cbv beta.

Section StatementParts.
Variable n : nat.

Lemma parseReturnStatement_settles : settled 11 parseReturnStatement n.
Proof.
  intros ts Hn. unfold parseReturnStatement. pstep. pstep.
  destruct (check TokenType.SEMICOLON (tl ts)).
  - pstep. pstep. pleaf.
  - pstep. pexpr. pstep. pstep. pleaf.
Qed.

Lemma let_declaration_settles : settled 11 let_declaration n.
Proof.
  intros ts Hn. unfold let_declaration. pstep. pstep.
  destruct (check TokenType.IDENTIFIER (tl ts)); cbn [negb]; [|pleaf].
  pstep. pstep. pstep. pstep.
  destruct (isType _); cbn [negb]; [|pleaf].
  pstep. pstep. pstep.
  pexpr. pleaf.
Qed.

Lemma c_declaration_settles : settled 11 c_declaration n.
Proof.
  intros ts Hn. unfold c_declaration. pstep.
  destruct (isType (tok_type (currentToken ts))) eqn:Hty; cbn [negb]; [|pleaf].
  assert (Htl : (length (tl ts) < length ts)%nat).
  { apply tl_length_type. intros Heof. by rewrite Heof in Hty. }
  pstep. pstep. pstep.
  destruct (check TokenType.IDENTIFIER (tl ts)) eqn:Hid; cbn [negb]; [|pleaf].
  pose proof (tl_length_check _ _ Hid ltac:(done)) as Htl2.
  pstep. pstep. pstep.
  destruct (check TokenType.ASSIGN (tl (tl ts))) eqn:Hassign.
  - pose proof (tl_length_check _ _ Hassign ltac:(done)) as Htl3.
    pstep. pstep. pstep.
    pexpr. pstep. pleaf.
  - pstep. pleaf.
Qed.

Lemma parseVariableDeclaration_settles : settled 11 parseVariableDeclaration n.
Proof.
  intros ts Hn. unfold parseVariableDeclaration. pstep.
  destruct (check TokenType.LET ts).
  - eapply step_bind; [by apply let_declaration_settles|].
    intros d ts' Hts'. cbv beta. pstep. pleaf.
  - eapply step_bind; [by apply c_declaration_settles|].
    intros d ts' Hts'. cbv beta. pstep. pleaf.
Qed.

Lemma parsePrintStatement_settles : settled 11 parsePrintStatement n.
Proof.
  intros ts Hn. unfold parsePrintStatement. pstep. pstep.
  pexpr. pstep. pstep. pleaf.
Qed.

Lemma parseExpressionStatement_settles : settled 11 parseExpressionStatement n.
Proof.
  intros ts Hn. unfold parseExpressionStatement.
  pexpr. pstep. pleaf.
Qed.

(** The init clause may be empty: it can succeed without consuming. *)
Lemma for_init_settles ts :
  (13 * length ts + 11 <= n)%nat ->
  refines_res (S (length ts)) (for_init n ts) (for_init (S n) ts).
Proof.
  intros Hn. unfold for_init. pstep.
  destruct (check TokenType.SEMICOLON ts); [pleaf|].
  pstep. destruct (check TokenType.LET ts).
  { eapply step_bind; [by apply let_declaration_settles|].
    intros d ts' Hts'. cbv beta. pleaf. }
  pstep. destruct (_ || _).
  - eapply step_bind; [by apply c_declaration_settles|].
    intros d ts' Hts'. cbv beta. pleaf.
  - eapply step_bind; [by apply parseExpressionStatement_settles|].
    intros d ts' Hts'. cbv beta. pleaf.
Qed.
End StatementParts.
Lemma block_loop_S fuel pS ts :
  block_loop (S fuel) pS ts
  = if negb (check TokenType.RBRACE ts) && negb (check TokenType.END_OF_FILE ts)
    then
      if check TokenType.RBRACE (skipNewlines ts)
         || check TokenType.END_OF_FILE (skipNewlines ts)
      then POk [] (skipNewlines ts)
      else p_bind pS (fun s =>
             p_bind (block_loop fuel pS) (fun rest => p_ret (s :: rest)))
             (skipNewlines ts)
    else POk [] ts.
Proof. reflexivity. Qed.

Lemma block_loop_settles (pS pS' : P Statement) :
  forall fuel ts,
    (length ts < fuel)%nat ->
    (forall ts', (length ts' <= length ts)%nat ->
                 refines_res (length ts') (pS ts') (pS' ts')) ->
    refines_res (S (length ts)) (block_loop fuel pS ts) (block_loop (S fuel) pS' ts).
Proof.
  induction fuel as [|fuel IH]; intros ts Hfuel HS; [lia|].
  rewrite (block_loop_S fuel), (block_loop_S (S fuel)).
  pose proof (skipNewlines_length ts) as Hskip.
  destruct (_ && _); [|pleaf]. destruct (_ || _); [pleaf|].
  eapply step_bind; [by apply HS|]. intros s ts' Hts'. cbv beta.
  eapply step_bind.
  - apply IH; [lia|]. intros ts'' Hts''. apply HS. lia.
  - intros rest ts'' Hts''. cbv beta. pleaf.
Qed.

Lemma step_if_or_elif {B : Type} L (k k' : unit -> P B) ts :
  ((length (tl ts) < length ts)%nat ->
   refines_res L (k tt (tl ts)) (k' tt (tl ts))) ->
  refines_res L
    (p_bind (fun ts => if check TokenType.IF ts || check TokenType.ELIF ts
                       then POk tt (tl ts) else PErr "Expected 'if' or 'elif'")
       k ts)
    (p_bind (fun ts => if check TokenType.IF ts || check TokenType.ELIF ts
                       then POk tt (tl ts) else PErr "Expected 'if' or 'elif'")
       k' ts).
Proof.
  intros Hk. unfold p_bind.
  destruct (check TokenType.IF ts || check TokenType.ELIF ts) eqn:Hc; [|done].
  apply Hk. apply orb_true_iff in Hc as [Hc|Hc]; by eapply tl_length_check.
Qed.

Section Statements.
Variable n : nat.
Hypothesis Hn : statements_settled n.

Lemma parseStatement_settles : settled 13 parseStatement (S n).
Proof.
  destruct Hn as (HB & HI & HW & HF & HS).
  intros ts Hts. cbn [parseStatement].
  destruct (check TokenType.LBRACE ts); [apply HB; lia|].
  destruct (check TokenType.RETURN ts); [apply parseReturnStatement_settles; lia|].
  destruct (check TokenType.IF ts); [apply HI; lia|].
  destruct (check TokenType.WHILE ts); [apply HW; lia|].
  destruct (check TokenType.FOR ts); [apply HF; lia|].
  destruct (_ || _); [apply parseVariableDeclaration_settles; lia|].
  destruct (check TokenType.PRINT ts); [apply parsePrintStatement_settles; lia|].
  apply parseExpressionStatement_settles. lia.
Qed.

Lemma parseBlockStatement_settles : settled 12 parseBlockStatement (S n).
Proof.
  destruct Hn as (HB & HI & HW & HF & HS).
  intros ts Hts. cbn [parseBlockStatement]. pstep.
  eapply step_bind.
  - apply block_loop_settles; [lia|]. intros ts' Hts'. apply HS. lia.
  - intros stmts ts' Hts'. cbv beta. pstep. pleaf.
Qed.

Lemma parseIfStatement_settles : settled 12 parseIfStatement (S n).
Proof.
  destruct Hn as (HB & HI & HW & HF & HS).
  intros ts Hts. cbn [parseIfStatement].
  apply step_if_or_elif. intros Htl. cbv beta. pstep. pexpr. pstep. pcall HS.
  pstep. pstep. destruct (check TokenType.ELIF _).
  - pstep. pcall HI. pstep. pleaf.
  - destruct (check TokenType.ELSE _) eqn:Helse.
    + pstep. pstep. pstep. pcall HS. pstep. pleaf.
    + pstep. pleaf.
Qed.

Lemma parseWhileStatement_settles : settled 12 parseWhileStatement (S n).
Proof.
  destruct Hn as (HB & HI & HW & HF & HS).
  intros ts Hts. cbn [parseWhileStatement].
  pstep. pstep. pexpr. pstep. pcall HS. pleaf.
Qed.

Lemma parseForStatement_settles : settled 12 parseForStatement (S n).
Proof.
  destruct Hn as (HB & HI & HW & HF & HS).
  intros ts Hts. cbn [parseForStatement]. pstep. pstep.
  eapply step_bind; [apply for_init_settles; lia|]. intros init ts1 Hts1. cbv beta.
  pstep. pstep.
  assert (Hcond : forall (k k' : option Expression -> P Statement) ts2,
             (length ts2 < length ts)%nat ->
             (forall c ts3, (length ts3 <= length ts2)%nat ->
                            refines_res (length ts) (k c ts3) (k' c ts3)) ->
             refines_res (length ts)
               (p_bind (p_bind (parseExpression n) (fun e => p_ret (Some e))) k ts2)
               (p_bind (p_bind (parseExpression (S n)) (fun e => p_ret (Some e)))
                  k' ts2)).
  { intros k k' ts2 Hts2 Hk. pstep. pexpr. pstep. apply Hk. lia. }
  assert (Htail : forall c i ts4,
             (length ts4 < length ts)%nat ->
             refines_res (length ts)
               (p_bind (consume TokenType.RPAREN "Expected ')' after for clauses")
                  (fun _ => p_bind (parseStatement n) (fun body =>
                     p_ret (ForStatement init c i body))) ts4)
               (p_bind (consume TokenType.RPAREN "Expected ')' after for clauses")
                  (fun _ => p_bind (parseStatement (S n)) (fun body =>
                     p_ret (ForStatement init c i body))) ts4)).
  { intros c i ts4 Hts4. pstep. pcall HS. pleaf. }
  assert (Hincr : forall c ts3,
             (length ts3 < length ts)%nat ->
             refines_res (length ts)
               (p_bind (consume TokenType.SEMICOLON "Expected ';' after for-condition")
                  (fun _ => p_bind (p_check TokenType.RPAREN) (fun close : bool =>
                     p_bind (if close then p_ret None
                             else p_bind (parseExpression n)
                                    (fun e => p_ret (Some e)))
                       (fun increment =>
                          p_bind (consume TokenType.RPAREN
                                    "Expected ')' after for clauses")
                            (fun _ => p_bind (parseStatement n) (fun body =>
                               p_ret (ForStatement init c increment body))))))
                  ts3)
               (p_bind (consume TokenType.SEMICOLON "Expected ';' after for-condition")
                  (fun _ => p_bind (p_check TokenType.RPAREN) (fun close : bool =>
                     p_bind (if close then p_ret None
                             else p_bind (parseExpression (S n))
                                    (fun e => p_ret (Some e)))
                       (fun increment =>
                          p_bind (consume TokenType.RPAREN
                                    "Expected ')' after for clauses")
                            (fun _ => p_bind (parseStatement (S n)) (fun body =>
                               p_ret (ForStatement init c increment body))))))
                  ts3)).
  { intros c ts3 Hts3. pstep. pstep. destruct (check TokenType.RPAREN _).
    - pstep. apply Htail. lia.
    - apply Hcond; [lia|]. intros i ts4 Hts4. apply Htail. lia. }
  destruct (check TokenType.SEMICOLON _).
  - pstep. apply Hincr. lia.
  - apply Hcond; [lia|]. intros c ts3 Hts3. apply Hincr. lia.
Qed.

Lemma statements_settled_S : statements_settled (S n).
Proof.
  split; [apply parseBlockStatement_settles|].
  split; [apply parseIfStatement_settles|].
  split; [apply parseWhileStatement_settles|].
  split; [apply parseForStatement_settles|apply parseStatement_settles].
Qed.
End Statements.

Lemma statements_settle n : statements_settled n.
Proof.
  induction n as [|n IH]; [|by apply statements_settled_S].
  repeat split; intros ts Hn; lia.
Qed.
Lemma params_loop_S fuel ts :
  params_loop (S fuel) ts
  = p_bind p_current (fun tyTok =>
      p_bind (tokenTypeToString (tok_type tyTok)) (fun paramType =>
        p_bind p_advance (fun _ =>
          p_bind (p_check TokenType.IDENTIFIER) (fun isId : bool =>
            if negb isId then p_throw "Expected parameter name" else
            p_bind p_current (fun tok =>
              p_bind p_advance (fun _ =>
                p_bind (p_match [TokenType.COMMA]) (fun more : bool =>
                  if more then
                    p_bind (params_loop fuel) (fun rest =>
                      p_ret ((paramType, tok_value tok) :: rest))
                  else p_ret [(paramType, tok_value tok)]))))))) ts.
Proof. reflexivity. Qed.

Lemma params_loop_settles : forall fuel ts,
  (length ts < fuel)%nat ->
  refines_res (S (length ts)) (params_loop fuel ts) (params_loop (S fuel) ts).
Proof.
  induction fuel as [|fuel IH]; intros ts Hfuel; [lia|].
  rewrite (params_loop_S fuel), (params_loop_S (S fuel)).
  pstep. pstep. pstep. pstep.
  destruct (check TokenType.IDENTIFIER (tl ts)) eqn:Hid; cbn [negb]; [|pleaf].
  pose proof (tl_length_check _ _ Hid ltac:(done)) as Htl.
  pstep. pstep. apply step_match_comma; [intros Hcomma|pleaf].
  eapply step_bind; [apply IH; lia|]. intros rest ts' Hts'. cbv beta. pleaf.
Qed.

Lemma parseFunction_settles n : settled 12 parseFunction n.
Proof.
  intros ts Hn. unfold parseFunction. pstep. pstep.
  assert (Hrest : forall returnType ts1,
             (length ts1 <= length ts)%nat ->
             refines_res (length ts)
               (p_bind (p_check TokenType.IDENTIFIER) (fun isId : bool =>
                  if negb isId then p_throw "Expected function name" else
                  p_bind p_current (fun nameTok =>
                    p_bind p_advance (fun _ =>
                      p_bind (consume TokenType.LPAREN "Expected '('") (fun _ =>
                        p_bind (p_check TokenType.RPAREN) (fun close : bool =>
                          p_bind (if close then p_ret [] else params_loop n)
                            (fun params =>
                               p_bind (consume TokenType.RPAREN "Expected ')'")
                                 (fun _ =>
                                    p_bind (parseBlockStatement n) (fun body =>
                                      p_ret (mkFunctionDecl returnType
                                               (tok_value nameTok) params
                                               body))))))))) ts1)
               (p_bind (p_check TokenType.IDENTIFIER) (fun isId : bool =>
                  if negb isId then p_throw "Expected function name" else
                  p_bind p_current (fun nameTok =>
                    p_bind p_advance (fun _ =>
                      p_bind (consume TokenType.LPAREN "Expected '('") (fun _ =>
                        p_bind (p_check TokenType.RPAREN) (fun close : bool =>
                          p_bind (if close then p_ret [] else params_loop (S n))
                            (fun params =>
                               p_bind (consume TokenType.RPAREN "Expected ')'")
                                 (fun _ =>
                                    p_bind (parseBlockStatement (S n)) (fun body =>
                                      p_ret (mkFunctionDecl returnType
                                               (tok_value nameTok) params
                                               body))))))))) ts1)).
  { intros returnType ts1 Hts1. pstep.
    destruct (check TokenType.IDENTIFIER ts1) eqn:Hid; cbn [negb]; [|pleaf].
    pose proof (tl_length_check _ _ Hid ltac:(done)) as Htl.
    pstep. pstep. pstep. pstep.
    assert (Hblock : forall params ts2,
               (length ts2 < length ts)%nat ->
               refines_res (length ts)
                 (p_bind (consume TokenType.RPAREN "Expected ')'") (fun _ =>
                    p_bind (parseBlockStatement n) (fun body =>
                      p_ret (mkFunctionDecl returnType
                               (tok_value (currentToken ts1)) params body))) ts2)
                 (p_bind (consume TokenType.RPAREN "Expected ')'") (fun _ =>
                    p_bind (parseBlockStatement (S n)) (fun body =>
                      p_ret (mkFunctionDecl returnType
                               (tok_value (currentToken ts1)) params body))) ts2)).
    { intros params ts2 Hts2. pstep.
      eapply step_bind; [apply statements_settle; lia|].
      intros body ts3 Hts3. cbv beta. pleaf. }
    destruct (check TokenType.RPAREN _).
    - pstep. apply Hblock. lia.
    - eapply step_bind; [apply params_loop_settles; lia|].
      intros params ts2 Hts2. cbv beta. apply Hblock. lia. }
  destruct (isType (tok_type (currentToken ts))) eqn:Hty.
  - destruct (_ && _).
    + pstep. by apply Hrest.
    + pstep. pstep. pstep. pstep. apply Hrest. lia.
  - pstep. by apply Hrest.
Qed.

Lemma parse_loop_S fuel ts :
  parse_loop (S fuel) ts
  = if check TokenType.END_OF_FILE ts then POk [] ts
    else if check TokenType.END_OF_FILE (skipNewlines ts)
         then POk [] (skipNewlines ts)
         else p_bind (parseFunction fuel) (fun f =>
                p_bind (parse_loop fuel) (fun rest => p_ret (f :: rest)))
                (skipNewlines ts).
Proof. reflexivity. Qed.

Lemma parse_loop_settles : forall fuel ts,
  (13 * length ts + 13 <= fuel)%nat ->
  refines_res (S (length ts)) (parse_loop fuel ts) (parse_loop (S fuel) ts).
Proof.
  induction fuel as [|fuel IH]; intros ts Hfuel; [lia|].
  rewrite (parse_loop_S fuel), (parse_loop_S (S fuel)).
  pose proof (skipNewlines_length ts) as Hskip.
  destruct (check TokenType.END_OF_FILE ts); [pleaf|].
  destruct (check TokenType.END_OF_FILE (skipNewlines ts)); [pleaf|].
  eapply step_bind; [apply parseFunction_settles; lia|].
  intros f ts' Hts'. cbv beta.
  eapply step_bind; [apply IH; lia|]. intros rest ts'' Hts''. cbv beta. pleaf.
Qed.

Lemma parse_settles fuel ts :
  (parse_fuel ts <= fuel)%nat ->
  parse fuel ts <> PFuel /\ parse (S fuel) ts = parse fuel ts.
Proof.
  unfold parse_fuel. intros Hfuel.
  pose proof (parse_loop_settles fuel ts ltac:(lia)) as Hloop.
  unfold parse, p_bind, refines_res in *.
  destruct (parse_loop fuel ts) as [fs ts'|msg|]; [| |done].
  - destruct Hloop as [_ ->]. by split.
  - rewrite Hloop. by split.
Qed.

Lemma parse_enough ts : forall fuel,
  (parse_fuel ts <= fuel)%nat ->
  parse fuel ts = parse (parse_fuel ts) ts /\ parse fuel ts <> PFuel.
Proof.
  intros fuel Hfuel. induction Hfuel as [|fuel Hfuel [IH1 IH2]].
  - split; [done|]. by apply parse_settles.
  - destruct (parse_settles fuel ts Hfuel) as [_ Hstep]. rewrite Hstep. by split.
Qed.
Lemma tokenize_length source :
  (length (tokenize source) <= String.length source + 1)%nat.
Proof.
  pose proof (tokenize_loop_length (S (String.length source)) (Lexer_new source)) as H.
  unfold tokenize. unfold unread, Lexer_new in H. cbn [rest] in H.
  specialize (H ltac:(lia)). unfold Lexer_new. lia.
Qed.

(** X23. The parser terminates on every token sequence: with fuel
    [13 * (length ts + 1)] or more, [parse] returns a program or throws,
    and its result no longer depends on the fuel.  The tokens of a source
    text of [n] characters need at most [13 * (n + 2)]; with that much
    fuel, a run that gives no result has parsed its source and is short
    of fuel in the interpreter only. *)
Theorem X23_parser_terminates :
  forall (ts : list Token) (fuel : nat),
    (parse_fuel ts <= fuel)%nat ->
    parse fuel ts <> PFuel
    /\ parse fuel ts = parse (parse_fuel ts) ts
    /\ (forall source,
          (parse_fuel (tokenize source) <= 13 * (String.length source + 2))%nat)
    /\ (forall (W : Type) (HW : World W) (FT : FloatText) (source : string) (w : W),
          ts = tokenize source ->
          zpp_main fuel source w = NoResult ->
          exists program rest m,
            parse fuel ts = POk program rest
            /\ interpretIR fuel (generate program) (initial_machine w)
               = OutOfFuel m).
Proof.
  intros ts fuel Hfuel. destruct (parse_enough ts fuel Hfuel) as [Hsame Hends].
  split; [done|]. split; [done|]. split.
  { intros source. unfold parse_fuel. pose proof (tokenize_length source). lia. }
  intros W HW FT source w -> Hmain. unfold zpp_main in Hmain.
  destruct (parse fuel (tokenize source)) as [program rest|msg|]; [|done..].
  exists program, rest.
  destruct (interpretIR fuel (generate program) (initial_machine w)) as [| | | |m];
    try done.
  by exists m.
Qed.


Lemma parse_loop_stops_at_eof : forall fuel ts fs rest,
  parse_loop fuel ts = POk fs rest -> check TokenType.END_OF_FILE rest = true.
Proof.
  induction fuel as [|fuel IH]; intros ts fs rest Hparse; [done|].
  rewrite parse_loop_S in Hparse.
  destruct (check TokenType.END_OF_FILE ts) eqn:Heof; [by simplify_eq|].
  destruct (check TokenType.END_OF_FILE (skipNewlines ts)) eqn:Heof';
    [by simplify_eq|].
  unfold p_bind in Hparse.
  destruct (parseFunction fuel (skipNewlines ts)) as [f ts'| |]; [|done..].
  destruct (parse_loop fuel ts') as [fs' ts''| |] eqn:Hrest; [|done..].
  unfold p_ret in Hparse. injection Hparse as _ <-. exact (IH _ _ _ Hrest).
Qed.

(** X24. At the top level the parser accepts functions only.  A token
    sequence in which only NEWLINE tokens come before END_OF_FILE is the
    empty program; once a function is expected, a token that is neither a
    type keyword nor an identifier, or a type that is not followed by an
    identifier, is refused with [Expected function name]; and a parse
    that succeeds has stopped at an END_OF_FILE token. *)
Theorem X24_top_level_is_functions_only :
  forall (fuel : nat) (ts : list Token),
    let first := currentToken (skipNewlines ts) in
    let second := peekToken (skipNewlines ts) in
    (tok_type first = TokenType.END_OF_FILE ->
     exists rest, parse (S fuel) ts = POk (mkProgram []) rest)
    /\ (tok_type first <> TokenType.END_OF_FILE ->
        isType (tok_type first) = false
        \/ (tok_type second <> TokenType.IDENTIFIER
            /\ (tok_type first = TokenType.IDENTIFIER ->
                tok_type second <> TokenType.LPAREN)) ->
        parse (S (S fuel)) ts = PErr "Expected function name")
    /\ (forall program rest,
          parse fuel ts = POk program rest ->
          tok_type (currentToken rest) = TokenType.END_OF_FILE).
Proof.
  intros fuel ts first second. split; [|split].
  - intros Hfirst. unfold parse, p_bind. rewrite parse_loop_S.
    destruct (check TokenType.END_OF_FILE ts); [by eexists|].
    unfold check, TokenType.eqb. fold first. rewrite Hfirst.
    rewrite bool_decide_eq_true_2 by done. by eexists.
  - intros Hfirst Hshape.
    assert (Hcur : tok_type (currentToken ts) <> TokenType.END_OF_FILE).
    { intros Heof. apply Hfirst. unfold first.
      destruct ts as [|t ts']; [done|]. cbn [skipNewlines].
      cbn [currentToken] in Heof. by rewrite Heof. }
    unfold parse, p_bind. rewrite parse_loop_S.
    unfold check at 1 2. unfold TokenType.eqb. fold first.
    rewrite !bool_decide_eq_false_2 by done.
    assert (Hfun : parseFunction (S fuel) (skipNewlines ts)
                   = PErr "Expected function name");
      [|by unfold p_bind; rewrite Hfun].
    unfold parseFunction, p_bind, p_current, p_peek, p_check, p_ret, p_advance,
      p_throw. fold first second.
    destruct (isType (tok_type first)) eqn:Hty.
    + destruct Hshape as [?|[Hid Hparen]]; [done|].
      assert (Hno : TokenType.eqb (tok_type first) TokenType.IDENTIFIER
                    && TokenType.eqb (tok_type second) TokenType.LPAREN = false).
      { unfold TokenType.eqb. case_bool_decide as Hfirst_id; [|done].
        cbn [andb]. apply bool_decide_eq_false_2. by apply Hparen. }
      rewrite Hno. unfold tokenTypeToString.
      assert (Hnext : check TokenType.IDENTIFIER (tl (skipNewlines ts)) = false).
      { unfold check, TokenType.eqb. apply bool_decide_eq_false_2.
        unfold second, peekToken in Hid. unfold currentToken.
        by destruct (skipNewlines ts) as [|? [|? ?]]. }
      by destruct (tok_type first); rewrite ?Hnext.
    + assert (Hnext : check TokenType.IDENTIFIER (skipNewlines ts) = false).
      { unfold check, TokenType.eqb. apply bool_decide_eq_false_2. fold first.
        intros Hid. by rewrite Hid in Hty. }
      by rewrite Hnext.
  - intros program rest Hparse. unfold parse, p_bind in Hparse.
    destruct (parse_loop fuel ts) as [fs ts'| |] eqn:Hloop; [|done..].
    unfold p_ret in Hparse. injection Hparse as _ <-.
    apply parse_loop_stops_at_eof in Hloop. unfold check, TokenType.eqb in Hloop.
    by apply bool_decide_eq_true in Hloop.
Qed.

Lemma X24_top_level_is_functions_only_witness :
  parse 2 (tokenize src_top_level_print) = PErr "Expected function name".
Proof.
  apply (proj1 (proj2 (X24_top_level_is_functions_only
                         0 (tokenize src_top_level_print)))).
  - vm_compute. discriminate.
  - left. vm_compute. reflexivity.
Defined.
(** X25. Binary operators group by the level of the parsing function
    that reads them ([,] lowest, then [||], [&&], equality, comparison,
    additive, multiplicative), and operators of one level group to the
    left: in [a op1 b op2 c] the right operator takes [b] only when its
    level is strictly higher. *)
Theorem X25_binary_operators_group_by_level :
  forall (ta t1 tb t2 tc semi : Token) (rest : list Token) (l1 l2 fuel : nat),
    is_identifier ta -> is_identifier tb -> is_identifier tc ->
    tok_type semi = TokenType.SEMICOLON ->
    binary_level (tok_type t1) = Some l1 ->
    binary_level (tok_type t2) = Some l2 ->
    (14 <= fuel)%nat ->
    let a := Identifier (tok_value ta) in
    let b := Identifier (tok_value tb) in
    let c := Identifier (tok_value tc) in
    parseExpression fuel (ta :: t1 :: tb :: t2 :: tc :: semi :: rest)
    = POk (if (l1 <? l2)%nat
           then BinaryOp a (tok_type t1) (BinaryOp b (tok_type t2) c)
           else BinaryOp (BinaryOp a (tok_type t1) b) (tok_type t2) c)
        (semi :: rest).
Proof.
  intros [tya va la ca] [ty1 v1 ln1 c1] [tyb vb lb cb] [ty2 v2 ln2 c2]
    [tyc vc lc cc] [tys vs ls cs] rest l1 l2 fuel.
  unfold is_identifier. cbn [tok_type tok_value].
  intros -> -> -> -> H1 H2 Hfuel.
  replace fuel with (14 + (fuel - 14))%nat by lia.
  generalize (fuel - 14)%nat. clear fuel Hfuel. intros n.
  destruct ty1; try discriminate H1; destruct ty2; try discriminate H2;
    cbn in H1, H2; simplify_eq; vm_compute; reflexivity.
Qed.

Lemma X25_binary_operators_group_by_level_witness :
  parseExpression 14 (tokenize src_sum_product)
  = POk (BinaryOp (Identifier "a") TokenType.PLUS
           (BinaryOp (Identifier "b") TokenType.STAR (Identifier "c")))
      (skipn 5 (tokenize src_sum_product)).
Proof.
  exact (X25_binary_operators_group_by_level
           (mkToken TokenType.IDENTIFIER "a" 1 1) (mkToken TokenType.PLUS "+" 1 3)
           (mkToken TokenType.IDENTIFIER "b" 1 5) (mkToken TokenType.STAR "*" 1 7)
           (mkToken TokenType.IDENTIFIER "c" 1 9)
           (mkToken TokenType.SEMICOLON ";" 1 10)
           [mkToken TokenType.END_OF_FILE EmptyString 1 11] 5 6 14
           eq_refl eq_refl eq_refl eq_refl eq_refl eq_refl (le_n 14)).
Defined.

End WithBuild.

(** * The theorems at concrete inputs

    The lemmas below apply theorems of the section above to concrete
    programs and machines, in the build [sample_build]. *)

#[local] Existing Instance sample_build.

Lemma C5_toInt_amended_witness :
  toInt (VDouble (S754_finite true 7 (-1))) = Some (inr (-3))
  /\ toInt (VString "  -42abc") = Some (inr (-42))
  /\ toInt (VString "+") = Some (inl (invalid_argument "stoi"))
  /\ toInt (VString "2147483648") = Some (inl (out_of_range "stoi")).
Proof.
  pose proof (C5_toInt_amended (W := unit))
    as (_ & _ & _ & Hfinite & _ & _ & Hnumber & Hnone & _).
  split; [|split; [|split]].
  - apply (Hfinite true 7%positive (-1) 3).
    vm_compute. repeat split; (reflexivity || discriminate).
  - exact (Hnumber "  " MinusSign "42" "abc" eq_refl eq_refl ltac:(discriminate) eq_refl).
  - exact (Hnone EmptyString PlusSign EmptyString eq_refl eq_refl).
  - exact (Hnumber EmptyString NoSign "2147483648" EmptyString eq_refl eq_refl
             ltac:(discriminate) eq_refl).
Defined.

Lemma C2_division_amended_witness :
  exec_instr (W := unit) ∅ sample_div (sample_machine (-7) 2)
  = SNext (set_temp "t2" (VInt (-3)) (sample_machine (-7) 2))
  /\ exec_instr (W := unit) ∅ sample_div (sample_machine 7 0)
     = SThrow (runtime_error "Division by zero") (sample_machine 7 0).
Proof.
  split.
  - exact (proj1 (proj2 (proj2 (C2_division_amended unit null_world null_float_text
                                  tt ∅ sample_div (sample_machine (-7) 2)
                                  (mkIRValue IRValueType.LOCAL "a" (-1))
                                  (mkIRValue IRValueType.LOCAL "b" (-1))
                                  (or_introl eq_refl) eq_refl eq_refl)))
             (-7) 2 eq_refl eq_refl).
  - exact (proj1 (C2_division_amended unit null_world null_float_text
                    tt ∅ sample_div (sample_machine 7 0)
                    (mkIRValue IRValueType.LOCAL "a" (-1))
                    (mkIRValue IRValueType.LOCAL "b" (-1))
                    (or_introl eq_refl) eq_refl eq_refl) eq_refl).
Defined.

(** C2 fails as stated: -1 is a divisor other than 0 for which the
    quotient of [INT_MIN] is not stored; the division is undefined, in
    the instruction and in a run that reaches it. *)
Lemma C2_counterexample :
  exec_instr (W := unit) ∅ sample_div (sample_machine INT_MIN (-1)) = SUndefined
  /\ zpp_main (W := unit) 200 src_div_overflow tt = UndefinedBehaviour.
Proof. split; vm_compute; reflexivity. Qed.

(** C6 fails as stated: the labels of the second function of
    [src_two_loops] are [L2] and [L3]. *)
Lemma C6_counterexample :
  front_end 200 src_two_loops = Some ast_two_loops
  /\ map (fun f => label_names (instructions f)) (ir_functions (generate ast_two_loops))
     = [["L0"; "L1"]; ["L2"; "L3"]]
  /\ ~ Forall labels_restart (ir_functions (generate ast_two_loops)).
Proof.
  split; [by vm_compute|]. split; [by vm_compute|].
  intros Hall.
  assert (Hf : exists f, ir_functions (generate ast_two_loops) !! 1%nat = Some f
                         /\ label_names (instructions f) = ["L2"; "L3"]).
  { eexists. split; by vm_compute. }
  destruct Hf as (f & Hf & Hnames).
  apply (Forall_lookup_1 _ _ _ _ Hall) in Hf. destruct Hf as [n Hperm].
  rewrite Hnames in Hperm.
  assert (Hlen : Z.to_nat n = 2%nat).
  { apply Permutation_length in Hperm. rewrite length_fmap, length_seqZ in Hperm.
    cbn in Hperm. lia. }
  assert (Hn : n = 2) by lia. subst n.
  assert (Hin : "L2" ∈ label_name <$> seqZ 0 2).
  { rewrite <- Hperm. by left. }
  vm_compute in Hin.
  repeat (apply elem_of_cons in Hin as [Hin|Hin]; [discriminate|]).
  by apply elem_of_nil in Hin.
Qed.

Lemma C9_and_condition_is_zero_witness :
  temps_at "t2" machine_at_jz = VInt 0
  /\ exec_instr fn_and_labels jz_instr machine_at_jz = SJump (set_ip 8 machine_at_jz).
Proof.
  assert (Hf : ir_functions (generate ast_and) !! 0%nat = Some fn_and)
    by (vm_compute; reflexivity).
  assert (Hj : instructions fn_and !! 2%nat = Some and_instr)
    by (vm_compute; reflexivity).
  assert (Hk : instructions fn_and !! 3%nat = Some jz_instr)
    by (vm_compute; reflexivity).
  assert (Hrun : state_after 3 (instructions fn_and) fn_and_labels
                   (enter_function (initial_machine tt)) = Some machine_at_jz)
    by (vm_compute; reflexivity).
  destruct (C9_and_condition_is_zero unit null_world null_float_text tt
              ast_and 0 fn_and 2 3 and_instr jz_instr fn_and_labels
              (initial_machine tt) machine_at_jz 3
              Hf Hj eq_refl Hk eq_refl eq_refl Hrun)
    as (_ & _ & _ & _ & Hzero & Hjump & _).
  split; [exact Hzero|].
  rewrite Hjump. vm_compute. reflexivity.
Defined.

Lemma X13_scan_labels_binds_last_definition_witness :
  is_Some (fn_and_labels !! "L1") /\ labels_at "L9" fn_and_labels = 0%nat.
Proof.
  split.
  - apply (proj1 (proj2 (X13_scan_labels_binds_last_definition
                           (instructions fn_and) "L1"))).
    apply (bool_decide_unpack _). vm_compute. reflexivity.
  - apply (proj2 (proj2 (X13_scan_labels_binds_last_definition
                           (instructions fn_and) "L9"))).
    apply (bool_decide_unpack _). vm_compute. reflexivity.
Defined.

Lemma X14_generated_jumps_resolve_witness :
  exists k lab,
    fn_and_labels !! label jz_instr = Some k
    /\ instructions fn_and !! k = Some lab
    /\ opcode lab = IROpCode.LABEL /\ label lab = label jz_instr.
Proof.
  assert (Hf : ir_functions (generate ast_and) !! 0%nat = Some fn_and)
    by (vm_compute; reflexivity).
  assert (Hj : instructions fn_and !! 3%nat = Some jz_instr)
    by (vm_compute; reflexivity).
  exact (proj2 (X14_generated_jumps_resolve ast_and 0 fn_and Hf) 3%nat jz_instr Hj
           (or_intror eq_refl)).
Defined.

Lemma X15_generated_operands_in_range_witness :
  never_emitted (opcode jz_instr) = false
  /\ exec_instr fn_and_labels jz_instr machine_at_jz <> SUndefined.
Proof.
  assert (Hf : ir_functions (generate ast_and) !! 0%nat = Some fn_and)
    by (vm_compute; reflexivity).
  assert (Hj : instructions fn_and !! 3%nat = Some jz_instr)
    by (vm_compute; reflexivity).
  destruct (X15_generated_operands_in_range ast_and 0 3 fn_and jz_instr Hf Hj)
    as [Hn Ho].
  split; [exact Hn|]. exact (proj2 (Ho eq_refl) unit null_world null_float_text _ _).
Defined.

Lemma X16_boolean_literal_reads_zero_witness :
  let labels := scan_labels (instructions fn_true) 0 ∅ in
  let m := enter_function (initial_machine tt) in
  exec_instr labels jz_true m = SJump (set_ip (labels_at "L1" labels) m).
Proof.
  intros labels m.
  assert (Hf : ir_functions (generate ast_true) !! 0%nat = Some fn_true)
    by (vm_compute; reflexivity).
  exact (proj1 (proj2 (proj2 (X16_boolean_literal_reads_zero unit null_world
                                null_float_text tt ast_true 0 fn_true labels
                                (initial_machine tt) m 0 true Hf eq_refl)))
           jz_true eq_refl eq_refl).
Defined.

Lemma X17_unary_minus_is_a_one_operand_SUB_witness :
  exec_instr (W := unit) ∅
    (mkIRInstruction IROpCode.SUB [temp_value 0] (temp_value 1) "" "")
    (initial_machine tt)
  = SUndefined.
Proof.
  exact (proj1 (proj2 (X17_unary_minus_is_a_one_operand_SUB unit null_world
                         null_float_text tt))
           ∅ (mkIRInstruction IROpCode.SUB [temp_value 0] (temp_value 1) "" "")
           (temp_value 0) (initial_machine tt) eq_refl eq_refl).
Defined.



Lemma X20_output_only_grows_witness :
  let m := mkMachine ∅ 0 "seen" "" GNull tt in
  exists m', final_machine (interpretIR 200 (generate ast_true) m) = Some m'
             /\ cout m' = "seen0"
             /\ exists out, cout m' = cout m +:+ out.
Proof.
  intros m.
  assert (Hfinal : exists m', final_machine (interpretIR 200 (generate ast_true) m)
                              = Some m' /\ cout m' = "seen0").
  { vm_compute. eexists. split; reflexivity. }
  destruct Hfinal as (m' & Hm' & Hout).
  exists m'. split; [exact Hm'|]. split; [exact Hout|].
  exact (proj1 (X20_output_only_grows (W := unit) 200 (generate ast_true) m m' Hm')).
Defined.


Lemma X22_only_main_runs_witness :
  zpp_main 200 src_no_main tt = Terminated 0 "" "" tt.
Proof.
  assert (Hparse : exists ast rest,
             parse 200 (tokenize src_no_main) = POk ast rest
             /\ Forall (fun d => fd_name d <> "main") (functions ast)).
  { vm_compute. eexists _, _. split; [reflexivity|].
    repeat constructor. discriminate. }
  destruct Hparse as (ast & rest & Hparse & Hall).
  unfold zpp_main. rewrite Hparse.
  by rewrite (proj1 (proj2 (X22_only_main_runs (W := unit) 200 (initial_machine tt)))
                ast Hall).
Defined.

Lemma X23_parser_terminates_witness :
  parse 500 (tokenize src_clean) <> PFuel.
Proof.
  assert (Hfuel : (parse_fuel (tokenize src_clean) <= 500)%nat).
  { apply Nat.leb_le. vm_compute. reflexivity. }
  exact (proj1 (X23_parser_terminates (tokenize src_clean) 500 Hfuel)).
Defined.
